(** * 3d-tic-tac-toe-lol: the game service, the chat sanitizer, the socket
      rate limiter and the room controller of the backend, embedded in Rocq.

    Sources embedded here:
    - [backend/src/controllers/GameController.js] (classes [GameController]
      and [GameService]),
    - [backend/src/middleware/validation.js] ([sanitizeChatMessage] and the
      class [RoomController]),
    - [backend/src/middleware/socketRateLimiter.js] ([SocketRateLimiter]).

    JavaScript objects held by reference live in an explicit store; calls
    that read the clock, draw a uuid or hash a password take the value read
    as an argument. *)

From Stdlib Require Import ZArith Ascii String Sorted.
From stdpp Require Import gmap strings list fin_maps.

Local Open Scope string_scope.

(** ** JavaScript completions: a value, or a thrown exception. *)

Inductive JsError : Type :=
  | TypeError                  (* property access on [undefined] or [null] *)
  | Error (message : string)   (* [throw new Error(message)] *)
  | DanglingRef.               (* a reference that is not in the store: never built by the code *)

Inductive Js (A : Type) : Type :=
  | Ret (a : A)
  | Throw (e : JsError).
Arguments Ret {A} a.
Arguments Throw {A} e.

#[global] Instance Js_ret : MRet Js := fun A a => Ret a.
#[global] Instance Js_bind : MBind Js := fun A B f m =>
  match m with
  | Ret a => f a
  | Throw e => Throw e
  end.

Module GameService.

(** *** Data model of [GameService] *)

Inductive PlayerKey : Type := player1 | player2.
Inductive Status : Type := waiting | playing | finished | draw | abandoned.

#[global] Instance PlayerKey_eq_dec : EqDecision PlayerKey := ltac:(solve_decision).
#[global] Instance Status_eq_dec : EqDecision Status := ltac:(solve_decision).

(** A board cell holds [null] ([None]) or a player key. *)
Definition Cell : Type := option PlayerKey.
(** [board] is an array of rows. *)
Definition Board : Type := list (list Cell).

(** The value read at [board[x][y]]: [None] is JavaScript's [undefined]
    (index outside the row). *)
Definition JsCell : Type := option Cell.

Definition BOARD_SIZE : nat := 3.

Definition Pos : Type := nat * nat.
Definition Combination : Type := Pos * Pos * Pos.

Definition WINNING_COMBINATIONS : list Combination :=
  [ (* Rows *)
    ((0, 0), (0, 1), (0, 2));
    ((1, 0), (1, 1), (1, 2));
    ((2, 0), (2, 1), (2, 2));
    (* Columns *)
    ((0, 0), (1, 0), (2, 0));
    ((0, 1), (1, 1), (2, 1));
    ((0, 2), (1, 2), (2, 2));
    (* Diagonals *)
    ((0, 0), (1, 1), (2, 2));
    ((0, 2), (1, 1), (2, 0)) ]%nat.

(** [createEmptyBoard]: [BOARD_SIZE] rows of [BOARD_SIZE] nulls. *)
Definition createEmptyBoard : Board :=
  replicate BOARD_SIZE (replicate BOARD_SIZE None).

(** [board[x][y]]: reading a row outside the array gives [undefined], and
    indexing [undefined] throws; reading outside a row gives [undefined]. *)
Definition board_at (board : Board) (p : Pos) : Js JsCell :=
  match board !! p.1 with
  | None => Throw TypeError
  | Some row => Ret (row !! p.2)
  end.

(** Truthiness of a cell value: [undefined] and [null] are falsy, a player
    key (a non-empty string) is truthy. *)
Definition truthy (c : JsCell) : bool :=
  match c with
  | Some (Some _) => true
  | _ => false
  end.

(** [a === b] on cell values. *)
Definition strict_eq (a b : JsCell) : bool := bool_decide (a = b).

(** A cell value seen as the [string|null] that [checkWinner] returns. *)
Definition key_of (c : JsCell) : option PlayerKey :=
  match c with
  | Some c' => c'
  | None => None
  end.

(** The test of the loop bodies of [checkWinner] and [getWinningCombination]:
    [cell1 && cell1 === cell2 && cell2 === cell3]. *)
Definition line_test (cell1 cell2 cell3 : JsCell) : bool :=
  truthy cell1 && strict_eq cell1 cell2 && strict_eq cell2 cell3.

(** [checkWinner]: the [for ... of] loop over the combinations, with its
    early [return cell1]. *)
Fixpoint checkWinner_loop (board : Board) (combinations : list Combination)
  : Js (option PlayerKey) :=
  match combinations with
  | [] => Ret None
  | (pos1, pos2, pos3) :: rest =>
      cell1 ← board_at board pos1;
      cell2 ← board_at board pos2;
      cell3 ← board_at board pos3;
      if line_test cell1 cell2 cell3 then Ret (key_of cell1)
      else checkWinner_loop board rest
  end.

Definition checkWinner (board : Board) : Js (option PlayerKey) :=
  checkWinner_loop board WINNING_COMBINATIONS.

(** [getWinningCombination]: the same loop, returning the combination. *)
Fixpoint getWinningCombination_loop (board : Board) (combinations : list Combination)
  : Js (option Combination) :=
  match combinations with
  | [] => Ret None
  | (pos1, pos2, pos3) :: rest =>
      cell1 ← board_at board pos1;
      cell2 ← board_at board pos2;
      cell3 ← board_at board pos3;
      if line_test cell1 cell2 cell3 then Ret (Some (pos1, pos2, pos3))
      else getWinningCombination_loop board rest
  end.

Definition getWinningCombination (board : Board) : Js (option Combination) :=
  getWinningCombination_loop board WINNING_COMBINATIONS.

(** The positions visited by the two nested [for] loops over
    [0 .. BOARD_SIZE - 1], in visiting order. *)
Definition positions : list Pos :=
  x ← seq 0 BOARD_SIZE; y ← seq 0 BOARD_SIZE; [(x, y)].

(** [isBoardFull]: returns [false] at the first cell that is [=== null]. *)
Fixpoint isBoardFull_loop (board : Board) (ps : list Pos) : Js bool :=
  match ps with
  | [] => Ret true
  | p :: rest =>
      c ← board_at board p;
      if strict_eq c (Some None) then Ret false
      else isBoardFull_loop board rest
  end.

Definition isBoardFull (board : Board) : Js bool :=
  isBoardFull_loop board positions.

(** A 3×3 board: three rows of three cells. *)
Definition is_3x3 (board : Board) : Prop :=
  length board = 3%nat ∧ Forall (λ row, length row = 3%nat) board.

(** The cell of a 3×3 board at a position of the grid ([null] elsewhere). *)
Definition cell (board : Board) (p : Pos) : Cell :=
  default None (board !! p.1 ≫= λ row, row !! p.2).

(** All three cells of a combination hold the key [k]. *)
Definition line_of (board : Board) (k : PlayerKey) (c : Combination) : Prop :=
  cell board c.1.1 = Some k ∧ cell board c.1.2 = Some k ∧ cell board c.2 = Some k.

(** The positions of the 3×3 grid. *)
Definition in_grid (p : Pos) : Prop := (p.1 < 3 ∧ p.2 < 3)%nat.

(** How the results of [checkWinner_loop] and [getWinningCombination_loop]
    on the same board and combinations are related: the two loops leave at
    the same iteration. *)
Inductive agree (b : Board) (cs : list Combination)
  : Js (option PlayerKey) → Js (option Combination) → Prop :=
  | agree_throw e : agree b cs (Throw e) (Throw e)
  | agree_none :
      (∀ c k, c ∈ cs → ¬ line_of b k c) → agree b cs (Ret None) (Ret None)
  | agree_some k c :
      c ∈ cs → line_of b k c → agree b cs (Ret (Some k)) (Ret (Some c)).

(** *** Game states, held by reference *)

(** An argument received where a number is expected: an integral number, or
    any other value (a fraction, [NaN], a string, [undefined], ...). *)
Inductive JsArg : Type :=
  | Integer (z : Z)
  | NotInteger.

Record Player : Type := mkPlayer {
  player_id : string;
  player_name : option string;
  character : option string;
  symbol : option string
}.

Record Move : Type := mkMove {
  playerId : string;
  playerKey : PlayerKey;
  move_x : JsArg;
  move_y : JsArg;
  timestamp : Z;
  moveNumber : nat
}.

(** The [players] object; [players.player2] may be [null] (a game reloaded
    from storage without a second player). *)
Record Players : Type := mkPlayers {
  first : option Player;
  second : option Player
}.

(** [players[key]] *)
Definition player (ps : Players) (key : PlayerKey) : option Player :=
  match key with
  | player1 => first ps
  | player2 => second ps
  end.

Record GameState : Type := mkGameState {
  gameId : string;
  roomId : string;
  board : Board;
  players : Players;
  currentPlayer : PlayerKey;
  status : Status;
  winner : option string;
  moveHistory : list Move;
  createdAt : Z;
  startedAt : option Z;
  lastMoveAt : option Z;
  finishedAt : option Z
}.

Definition set_board (b : Board) (g : GameState) : GameState :=
  mkGameState (gameId g) (roomId g) b (players g) (currentPlayer g) (status g)
    (winner g) (moveHistory g) (createdAt g) (startedAt g) (lastMoveAt g) (finishedAt g).
Definition set_currentPlayer (k : PlayerKey) (g : GameState) : GameState :=
  mkGameState (gameId g) (roomId g) (board g) (players g) k (status g)
    (winner g) (moveHistory g) (createdAt g) (startedAt g) (lastMoveAt g) (finishedAt g).
Definition set_status (s : Status) (g : GameState) : GameState :=
  mkGameState (gameId g) (roomId g) (board g) (players g) (currentPlayer g) s
    (winner g) (moveHistory g) (createdAt g) (startedAt g) (lastMoveAt g) (finishedAt g).
Definition set_winner (w : option string) (g : GameState) : GameState :=
  mkGameState (gameId g) (roomId g) (board g) (players g) (currentPlayer g) (status g)
    w (moveHistory g) (createdAt g) (startedAt g) (lastMoveAt g) (finishedAt g).
Definition set_moveHistory (ms : list Move) (g : GameState) : GameState :=
  mkGameState (gameId g) (roomId g) (board g) (players g) (currentPlayer g) (status g)
    (winner g) ms (createdAt g) (startedAt g) (lastMoveAt g) (finishedAt g).
Definition set_lastMoveAt (t : Z) (g : GameState) : GameState :=
  mkGameState (gameId g) (roomId g) (board g) (players g) (currentPlayer g) (status g)
    (winner g) (moveHistory g) (createdAt g) (startedAt g) (Some t) (finishedAt g).
Definition set_finishedAt (t : Z) (g : GameState) : GameState :=
  mkGameState (gameId g) (roomId g) (board g) (players g) (currentPlayer g) (status g)
    (winner g) (moveHistory g) (createdAt g) (startedAt g) (lastMoveAt g) (Some t).

(** The store of game-state objects. A game state owns its board and its
    move history: both are created with it ([createGame], [JSON.parse]) and
    no other object refers to them. *)
Definition loc : Type := positive.
Abbreviation Heap := (gmap loc GameState).

(** Computations on the store that may throw. *)
Definition M (A : Type) : Type := Heap → Js (A * Heap).

#[global] Instance M_ret : MRet M := fun A a h => Ret (a, h).
#[global] Instance M_bind : MBind M := fun A B f m h =>
  match m h with
  | Ret (a, h') => f a h'
  | Throw e => Throw e
  end.

Definition throw {A : Type} (e : JsError) : M A := fun _ => Throw e.

(** Run a computation that does not touch the store. *)
Definition lift {A : Type} (c : Js A) : M A := fun h =>
  match c with
  | Ret a => Ret (a, h)
  | Throw e => Throw e
  end.

(** [obj.field]: read through a reference. *)
Definition read {A : Type} (l : loc) (field : GameState → A) : M A := fun h =>
  match h !! l with
  | Some g => Ret (field g, h)
  | None => Throw DanglingRef
  end.

(** [obj.field = v]: write through a reference. *)
Definition assign (l : loc) (upd : GameState → GameState) : M unit := fun h =>
  match h !! l with
  | Some g => Ret ((), <[l := upd g]> h)
  | None => Throw DanglingRef
  end.

(** [JSON.parse(JSON.stringify(obj))]: a new object with the same contents
    (every field of a game state is JSON data). *)
Definition deep_copy (l : loc) : M loc := fun h =>
  match h !! l with
  | Some g => let l' := fresh (dom h) in Ret (l', <[l' := g]> h)
  | None => Throw DanglingRef
  end.

(** [createGame] for the two players of a room; [uuid] and [now] are the
    values drawn from [uuidv4()] and [Date.now()]. The [players.length !== 2]
    guard is the pattern on the argument list. *)
Definition createGame (uuid room : string) (ps : list (string * string)) (now : Z)
  : Js GameState :=
  match ps with
  | [(id1, name1); (id2, name2)] =>
      Ret (mkGameState uuid room createEmptyBoard
             (mkPlayers
                (Some (mkPlayer id1 (Some name1) (Some "fire_warrior") (Some "X")))
                (Some (mkPlayer id2 (Some name2) (Some "ice_guardian") (Some "O"))))
             player1 playing None [] now (Some now) (Some now) None)
  | _ => Throw (Error "Game requires exactly 2 players")
  end.

Inductive Reason : Type :=
  | GAME_NOT_ACTIVE | NOT_YOUR_TURN | INVALID_COORDINATES | CELL_OCCUPIED.

Definition message (r : Reason) : string :=
  match r with
  | GAME_NOT_ACTIVE => "Game is not currently active"
  | NOT_YOUR_TURN => "It is not your turn"
  | INVALID_COORDINATES => "Invalid board coordinates"
  | CELL_OCCUPIED => "Cell is already occupied"
  end.

(** The object returned by [validateMove]: [{valid: true}] or
    [{valid: false, reason, message}]. *)
Inductive Validation : Type :=
  | Valid
  | Invalid (reason : Reason).

(** The object returned by [makeMove]: [{success: false, reason, message}]
    or [{success: true, gameState}]. *)
Inductive MoveResult : Type :=
  | Failure (reason : Reason)
  | Success (gameState : loc).

(** [Number.isInteger(x) && Number.isInteger(y) && x >= 0 && x < BOARD_SIZE
    && y >= 0 && y < BOARD_SIZE] *)
Definition isValidCoordinate (x y : JsArg) : bool :=
  match x, y with
  | Integer a, Integer b =>
      bool_decide (0 ≤ a)%Z && bool_decide (a < Z.of_nat BOARD_SIZE)%Z &&
      bool_decide (0 ≤ b)%Z && bool_decide (b < Z.of_nat BOARD_SIZE)%Z
  | _, _ => false
  end.

(** The array index denoted by a coordinate that passed [isValidCoordinate];
    the board is indexed only behind that check. *)
Definition index (x : JsArg) : nat :=
  match x with
  | Integer z => Z.to_nat z
  | NotInteger => 0
  end.

(** [gameState.players[gameState.currentPlayer]?.id]: [None] is
    [undefined]. *)
Definition currentPlayerId (g : GameState) : option string :=
  player_id <$> player (players g) (currentPlayer g).

Definition validateMove (gameState : loc) (playerId : string) (x y : JsArg)
  : M Validation :=
  st ← read gameState status;
  if negb (bool_decide (st = playing)) then mret (Invalid GAME_NOT_ACTIVE)
  else
    cur ← read gameState currentPlayerId;
    if negb (bool_decide (Some playerId = cur)) then mret (Invalid NOT_YOUR_TURN)
    else if negb (isValidCoordinate x y) then mret (Invalid INVALID_COORDINATES)
    else
      b ← read gameState board;
      c ← lift (board_at b (index x, index y));
      if negb (strict_eq c (Some None)) then mret (Invalid CELL_OCCUPIED)
      else mret Valid.

(** [board[x][y] = v] at an index where a cell was read. *)
Definition board_set (b : Board) (p : Pos) (v : Cell) : Board :=
  alter (λ row, <[p.2 := v]> row) p.1 b.

(** [makeMove]; [t_last], [t_move] and [t_end] are its three successive
    readings of [Date.now()]. *)
Definition makeMove (gameState : loc) (playerId : string) (x y : JsArg)
    (t_last t_move t_end : Z) : M MoveResult :=
  validation ← validateMove gameState playerId x y;
  match validation with
  | Invalid reason => mret (Failure reason)
  | Valid =>
      newGameState ← deep_copy gameState;
      currentPlayerKey ← read newGameState currentPlayer;
      mover ← read newGameState (λ g, player (players g) currentPlayerKey);
      playerSymbol ← match mover with
                      | Some p => mret (symbol p)
                      | None => throw TypeError
                      end;
      assign newGameState
        (λ g, set_board (board_set (board g) (index x, index y) (Some currentPlayerKey)) g);;
      assign newGameState (set_lastMoveAt t_last);;
      assign newGameState
        (λ g, set_moveHistory
                (moveHistory g ++
                   [mkMove playerId currentPlayerKey x y t_move
                      (length (moveHistory g) + 1)]) g);;
      b ← read newGameState board;
      winner ← lift (checkWinner b);
      match winner with
      | Some w =>
          assign newGameState (set_status finished);;
          p ← read newGameState (λ g, player (players g) w);
          match p with
          | Some p => assign newGameState (set_winner (Some (player_id p)))
          | None => throw TypeError
          end;;
          assign newGameState (set_finishedAt t_end)
      | None =>
          full ← lift (isBoardFull b);
          if (full : bool) then
            assign newGameState (set_status draw);;
            assign newGameState (set_finishedAt t_end)
          else
            assign newGameState
              (set_currentPlayer
                 (match currentPlayerKey with
                  | player1 => player2
                  | player2 => player1
                  end))
      end;;
      mret (Success newGameState)
  end.

(** Both coordinates are integers in [[0, 2]]. *)
Definition in_bounds (x y : JsArg) : Prop :=
  ∃ i j : Z, x = Integer i ∧ y = Integer j ∧ (0 ≤ i ≤ 2)%Z ∧ (0 ≤ j ≤ 2)%Z.

(** The checks of [validateMove] in their order, on the fields of a state
    whose board is 3×3. *)
Definition verdict (g : GameState) (pid : string) (x y : JsArg) : Validation :=
  if negb (bool_decide (status g = playing)) then Invalid GAME_NOT_ACTIVE
  else if negb (bool_decide (Some pid = currentPlayerId g)) then Invalid NOT_YOUR_TURN
  else if negb (isValidCoordinate x y) then Invalid INVALID_COORDINATES
  else if negb (bool_decide (cell (board g) (index x, index y) = None))
       then Invalid CELL_OCCUPIED
  else Valid.

(** What holds of every state built by [createGame] and [makeMove]: the
    board is 3×3 and, while the game is being played, no line is complete
    and no winner is recorded. *)
Definition settled (g : GameState) : Prop :=
  is_3x3 (board g) ∧
  (status g = playing → checkWinner (board g) = Ret None ∧ winner g = None).

(** The moves of the history are numbered 1, 2, 3, ... *)
Definition numbered (g : GameState) : Prop :=
  moveNumber <$> moveHistory g = seq 1 (length (moveHistory g)).

(** The other player key. *)
Definition other (k : PlayerKey) : PlayerKey :=
  match k with
  | player1 => player2
  | player2 => player1
  end.

(** *** The words of the specification

    What the specification says of a move and of a won board, stated on the
    fields of the state and on the rows of the board, without the helpers
    that the functions above go through. *)

(** The mover is the current player: [id] is the id of the player whose key
    is [currentPlayer]. *)
Definition is_current_player (g : GameState) (id : string) : Prop :=
  match currentPlayer g with
  | player1 => ∃ p, first (players g) = Some p ∧ player_id p = id
  | player2 => ∃ p, second (players g) = Some p ∧ player_id p = id
  end.

(** The target cell, row [x] and column [y] of the board, holds [c]. *)
Definition target (g : GameState) (x y : JsArg) (c : Cell) : Prop :=
  ∃ (i j : nat) (row : list Cell),
    x = Integer (Z.of_nat i) ∧ y = Integer (Z.of_nat j) ∧
    board g !! i = Some row ∧ row !! j = Some c.

(** The eight triples: the three rows, the three columns and the two
    diagonals of the grid. *)
Definition grid_row (i : nat) : list Pos := (λ j, (i, j)) <$> seq 0 3.
Definition grid_column (j : nat) : list Pos := (λ i, (i, j)) <$> seq 0 3.
Definition grid_diagonals : list (list Pos) :=
  [(λ i, (i, i)) <$> seq 0 3; (λ i, (i, 2 - i)%nat) <$> seq 0 3].
Definition triples : list (list Pos) :=
  (grid_row <$> seq 0 3) ++ (grid_column <$> seq 0 3) ++ grid_diagonals.

(** The cells of the triple are all equal and non-empty: each holds the
    key [k]. *)
Definition all_equal (b : Board) (k : PlayerKey) (triple : list Pos) : Prop :=
  ∀ p, p ∈ triple → ∃ row, b !! p.1 = Some row ∧ row !! p.2 = Some (Some k).

End GameService.

(** ** [GameController.makeMove] *)

Module GameController.

Import GameService.

(** What the controller sends and writes: messages to the requesting
    socket, broadcasts to the room, rows written to the [games] and
    [players] tables, and the timer set by [handleGameEnd]. *)
Inductive Effect : Type :=
  | game_error (code : string)                        (* socket.emit *)
  | move_rejected (reason : Reason)                   (* socket.emit *)
  | game_state_update (room : string) (b : Board) (cur : PlayerKey)
      (st : Status) (w : option string)               (* io.to(roomId).emit *)
  | game_ended (room : string) (w : option string) (st : Status)
  | saved (g : GameState)                             (* saveGameToDatabase *)
  | stats_updated (g : GameState)                     (* updatePlayerStats *)
  | delete_after (ms : Z) (room : string).            (* setTimeout *)

Record Controller : Type := mkController {
  activeGames : gmap string loc;
  heap : Heap;
  effects : list Effect
}.

Definition effect (e : Effect) (c : Controller) : Controller :=
  mkController (activeGames c) (heap c) (effects c ++ [e]).

(** [handleGameEnd] *)
Definition handleGameEnd (g : GameState) (c : Controller) : Controller :=
  let c := effect (stats_updated g) c in
  let c := effect (game_ended (roomId g) (winner g) (status g)) c in
  effect (delete_after 30000 (roomId g)) c.

(** [makeMove(socket, data)], with [playerId] the value of
    [socket.playerId || socket.id]. [loaded] is what [loadGameFromDatabase]
    returns, read only when the room has no game in memory, and [db_ok]
    tells whether the write of [saveGameToDatabase] succeeds. An exception
    anywhere ends in the [catch] block. *)
Definition makeMove (playerId : string) (x y : JsArg) (room : string)
    (loaded : option GameState) (db_ok : bool) (t_last t_move t_end : Z)
    (c : Controller) : Controller :=
  let found :=
    match activeGames c !! room with
    | Some gameState => Some (gameState, c)
    | None =>
        match loaded with
        | Some g =>
            let gameState := fresh (dom (heap c)) in
            Some (gameState,
                  mkController (<[room := gameState]> (activeGames c))
                    (<[gameState := g]> (heap c)) (effects c))
        | None => None
        end
    end in
  match found with
  | None => effect (game_error "GAME_NOT_FOUND") c
  | Some (gameState, c) =>
      (* Validate the move *)
      match validateMove gameState playerId x y (heap c) with
      | Throw _ => effect (game_error "MOVE_ERROR") c
      | Ret (Invalid reason, h) =>
          effect (move_rejected reason) (mkController (activeGames c) h (effects c))
      | Ret (Valid, h) =>
          let c := mkController (activeGames c) h (effects c) in
          (* Apply the move *)
          match GameService.makeMove gameState playerId x y t_last t_move t_end (heap c) with
          | Throw _ => effect (game_error "MOVE_ERROR") c
          | Ret (Failure reason, h) =>
              effect (move_rejected reason) (mkController (activeGames c) h (effects c))
          | Ret (Success gameState, h) =>
              (* Update game state *)
              let c := mkController (<[room := gameState]> (activeGames c)) h (effects c) in
              match h !! gameState with
              | None => effect (game_error "MOVE_ERROR") c
              | Some g =>
                  (* Save to database *)
                  if negb db_ok then effect (game_error "MOVE_ERROR") c
                  else
                    let c := effect (saved g) c in
                    let c := effect (game_state_update room (board g) (currentPlayer g)
                                       (status g) (winner g)) c in
                    (* Handle game end *)
                    if bool_decide (status g = finished) || bool_decide (status g = draw)
                    then handleGameEnd g c
                    else c
              end
          end
      end
  end.

End GameController.

(** ** [sanitizeChatMessage] of [middleware/validation.js] *)

Module Validation.

(** A JavaScript string is a sequence of UTF-16 code units. *)
Definition CodeUnit : Type := N.
Definition JsString : Type := list CodeUnit.

(** The code units of a string literal of ASCII characters. *)
Definition js (s : string) : JsString := N_of_ascii <$> list_ascii_of_string s.

(** The value passed as [message]. *)
Inductive JsValue : Type :=
  | Str (s : JsString)
  | NotAString.

(** *** Regular expressions, with the backtracking semantics of ECMAScript *)

(** The fragment used by [sanitizeChatMessage]: single code units (literals
    and character classes), concatenation, the greedy star, the negative
    lookahead [(?!r)] and the word boundary [\b]. *)
Inductive Regex : Type :=
  | Chr (p : CodeUnit → bool)
  | Eps
  | Cat (r1 r2 : Regex)
  | Star (r : Regex)
  | NegLookahead (r : Regex)
  | WordBoundary.

(** A position in the subject: the code unit before it, if any, and the
    code units from it on. *)
Definition Position : Type := option CodeUnit * JsString.

(** Continuation of a match: given the position reached, the end of the
    whole match, or [None] to make the matcher backtrack. *)
Definition Cont : Type := Position → option Position.

(** [\w] *)
Definition is_word (c : CodeUnit) : bool :=
  ((48 <=? c) && (c <=? 57) || (65 <=? c) && (c <=? 90) ||
   (97 <=? c) && (c <=? 122) || (c =? 95))%N.

Definition at_word_boundary (pos : Position) : bool :=
  let before := from_option is_word false pos.1 in
  let after := from_option is_word false (head pos.2) in
  xorb before after.

(** The loop of [r*]: try one more iteration of [r] (one that consumes
    something, as ECMAScript rejects empty iterations), and fall back to
    the continuation. Every iteration shortens the subject, so
    [length subject + 1] rounds are enough. *)
Fixpoint star_loop (step : Position → Cont → option Position) (rounds : nat)
    (pos : Position) (k : Cont) : option Position :=
  match rounds with
  | O => k pos
  | S rounds' =>
      match step pos (λ pos', if bool_decide (length pos'.2 < length pos.2)%nat
                              then star_loop step rounds' pos' k
                              else None) with
      | Some res => Some res
      | None => k pos
      end
  end.

Fixpoint rmatch (r : Regex) (pos : Position) (k : Cont) : option Position :=
  match r with
  | Chr p =>
      match pos.2 with
      | c :: rest => if p c then k (Some c, rest) else None
      | [] => None
      end
  | Eps => k pos
  | Cat r1 r2 => rmatch r1 pos (λ pos', rmatch r2 pos' k)
  | Star r' => star_loop (rmatch r') (S (length pos.2)) pos k
  | NegLookahead r' =>
      match rmatch r' pos Some with
      | Some _ => None
      | None => k pos
      end
  | WordBoundary => if at_word_boundary pos then k pos else None
  end.

(** [subject.replace(/r/g, replacement)] for a replacement without [$]
    patterns: scan left to right; at a match, emit the replacement and go on
    after it (one code unit further when the match is empty). *)
Fixpoint replace_loop (r : Regex) (replacement : JsString) (rounds : nat)
    (pos : Position) : JsString :=
  match rounds with
  | O => pos.2
  | S rounds' =>
      match rmatch r pos Some with
      | Some pos' =>
          if bool_decide (length pos'.2 < length pos.2)%nat
          then (replacement ++ replace_loop r replacement rounds' pos')%list
          else match pos.2 with
               | c :: rest =>
                   (replacement ++ c :: replace_loop r replacement rounds' (Some c, rest))%list
               | [] => replacement
               end
      | None =>
          match pos.2 with
          | c :: rest => c :: replace_loop r replacement rounds' (Some c, rest)
          | [] => []
          end
      end
  end.

Definition replace_all (r : Regex) (replacement : JsString) (subject : JsString)
  : JsString :=
  replace_loop r replacement (S (length subject)) (None, subject).

(** Literals and classes. *)
Definition lit (c : ascii) : Regex := Chr (λ u, (u =? N_of_ascii c)%N).
Definition not_lit (c : ascii) : Regex := Chr (λ u, negb (u =? N_of_ascii c)%N).

(** Canonicalization under the [i] flag (no [u] flag): ASCII letters are
    compared in upper case; a code unit from 128 on is never folded onto an
    ASCII one. *)
Definition upper (u : CodeUnit) : CodeUnit :=
  if ((97 <=? u) && (u <=? 122))%N then (u - 32)%N else u.
Definition lit_i (c : ascii) : Regex :=
  Chr (λ u, (upper u =? upper (N_of_ascii c))%N).

Definition word (mk : ascii → Regex) (s : string) : Regex :=
  foldr (λ c r, Cat (mk c) r) Eps (list_ascii_of_string s).

(** [/<[^>]*>/g] *)
Definition tag_re : Regex :=
  Cat (lit "<") (Cat (Star (not_lit ">")) (lit ">")).

(** The second regular expression of the source, with flags [gi]: the
    literal [<script], a word boundary, [[^<]] starred, then the starred
    group made of the negative lookahead on [<\/script>], a [<] and
    [[^<]] starred, and last the literal [<\/script>]. *)
Definition script_re : Regex :=
  Cat (word lit_i "<script")
    (Cat WordBoundary
      (Cat (Star (not_lit "<"))
        (Cat (Star (Cat (NegLookahead (word lit_i "</script>"))
                     (Cat (lit "<") (Star (not_lit "<")))))
             (word lit_i "</script>")))).

(** White space and line terminators, as removed by [trim]. *)
Definition is_space (c : CodeUnit) : bool :=
  ((9 <=? c) && (c <=? 13) || (c =? 32) || (c =? 160) || (c =? 5760) ||
   (8192 <=? c) && (c <=? 8202) || (c =? 8232) || (c =? 8233) ||
   (c =? 8239) || (c =? 8287) || (c =? 12288) || (c =? 65279))%N.

Fixpoint trim_start (s : JsString) : JsString :=
  match s with
  | c :: rest => if is_space c then trim_start rest else s
  | [] => []
  end.

Definition trim (s : JsString) : JsString :=
  reverse (trim_start (reverse (trim_start s))).

Definition sanitizeChatMessage (message : JsValue) : JsString :=
  match message with
  | NotAString => []
  | Str message =>
      (* Remove HTML tags *)
      let sanitized := replace_all tag_re [] message in
      (* Remove script tags and their content *)
      let sanitized := replace_all script_re [] sanitized in
      (* Escape special characters *)
      let sanitized := replace_all (lit "&") (js "&amp;") sanitized in
      let sanitized := replace_all (lit "<") (js "&lt;") sanitized in
      let sanitized := replace_all (lit ">") (js "&gt;") sanitized in
      let sanitized := replace_all (lit (ascii_of_nat 34)) (js "&quot;") sanitized in
      let sanitized := replace_all (lit "'") (js "&#x27;") sanitized in
      let sanitized := replace_all (lit "/") (js "&#x2F;") sanitized in
      (* Limit length *)
      let sanitized := if bool_decide (200 < length sanitized)%nat
                       then take 200 sanitized else sanitized in
      (* Trim whitespace *)
      trim sanitized
  end.

(** No [<] of the string has a [>] somewhere after it. *)
Definition tag_free (s : JsString) : Prop :=
  ∀ pre post, s = (pre ++ 60%N :: post)%list → 62%N ∉ post.

End Validation.

(** ** [SocketRateLimiter] of [middleware/socketRateLimiter.js] *)

Module SocketRateLimiter.

Record Event : Type := mkEvent {
  type : string;
  timestamp : Z
}.

Record ClientData : Type := mkClientData {
  events : list Event;
  lastSeen : Z;
  warnings : nat
}.

(** The limiter: the [clients] map and the two tables of limits, which
    [updateLimits] may change. *)
Record Limiter : Type := mkLimiter {
  clients : gmap string ClientData;
  limits : gmap string nat;
  burstLimits : gmap string nat
}.

(** The state built by the constructor. *)
Definition initial : Limiter :=
  mkLimiter ∅
    (list_to_map
       [("make-move", 30); ("chat-message", 20); ("join-room", 10);
        ("create-room", 5); ("leave-room", 10); ("spectate-game", 10);
        ("get-room-list", 30); ("default", 60)]%nat)
    (list_to_map
       [("make-move", 10); ("chat-message", 5); ("join-room", 3);
        ("create-room", 2); ("default", 20)]%nat).

(** The two tables are object literals: beside the entries they hold (their
    own properties, the finite map), they inherit the properties of
    [Object.prototype]. These are its string-keyed properties: functions,
    and the accessor [__proto__], which reads as the prototype object. *)
Definition inherited : list string :=
  ["constructor"; "__defineGetter__"; "__defineSetter__"; "hasOwnProperty";
   "__lookupGetter__"; "__lookupSetter__"; "isPrototypeOf"; "propertyIsEnumerable";
   "toString"; "valueOf"; "__proto__"; "toLocaleString"].

(** [table[eventType] || table.default]. An entry of the table that is not
    [0] is the limit; the falsy number [0] and a name that is found neither
    in the table nor in [Object.prototype] fall through to [table.default].
    A name that the table does not hold but [Object.prototype] does (an
    event called [toString], say) reads as the inherited function or object:
    a truthy value, so the fallback is not taken. [None] is a value that is
    not a number: [undefined], or such an inherited value. *)
Definition limit_of (table : gmap string nat) (eventType : string) : option nat :=
  match table !! eventType with
  | Some (S n) => Some (S n)
  | Some 0 => table !! "default"
  | None => if bool_decide (eventType ∈ inherited) then None else table !! "default"
  end.

(** [count >= limit]; the comparison with a value that is not a number
    ([undefined], a function, an object: all convert to [NaN]) is false. *)
Definition reaches (count : nat) (limit : option nat) : bool :=
  match limit with
  | Some l => bool_decide (l ≤ count)%nat
  | None => false
  end.

(** [handleRateLimit]: one more warning on the client's record, when the
    client has one (the log entries are not modelled). *)
Definition handleRateLimit (socketId : string) (cs : gmap string ClientData)
  : gmap string ClientData :=
  match cs !! socketId with
  | Some clientData =>
      <[socketId := mkClientData (events clientData) (lastSeen clientData)
                      (warnings clientData + 1)]> cs
  | None => cs
  end.

(** [checkLimit], with [now] the value of [Date.now()]. The record fetched
    from [clients] is the stored object itself, so the updates of
    [lastSeen] and [events] made before the checks reach the map even when
    the event is rejected; a record made for a new client is stored only by
    the final [clients.set]. *)
Definition checkLimit (socketId eventType : string) (now : Z) (lim : Limiter)
  : bool * Limiter :=
  let stored := clients lim !! socketId in
  let clientData := default (mkClientData [] now 0) stored in
  (* Update last seen; clean old events (older than 1 minute) *)
  let kept := filter (λ event, (now - timestamp event < 60000)%Z) (events clientData) in
  let clientData := mkClientData kept now (warnings clientData) in
  let cs := match stored with
            | Some _ => <[socketId := clientData]> (clients lim)
            | None => clients lim
            end in
  (* Get limits for this event type *)
  let minuteLimit := limit_of (limits lim) eventType in
  let burstLimit := limit_of (burstLimits lim) eventType in
  (* Count events in the last minute, and in the last 10 seconds *)
  let eventsInMinute :=
    length (filter (λ event, type event = eventType) (events clientData)) in
  let eventsInBurst :=
    length (filter (λ event, type event = eventType ∧ (now - timestamp event < 10000)%Z)
              (events clientData)) in
  if reaches eventsInMinute minuteLimit then
    (false, mkLimiter (handleRateLimit socketId cs) (limits lim) (burstLimits lim))
  else if reaches eventsInBurst burstLimit then
    (false, mkLimiter (handleRateLimit socketId cs) (limits lim) (burstLimits lim))
  else
    let clientData :=
      mkClientData (events clientData ++ [mkEvent eventType now]) now (warnings clientData) in
    (true, mkLimiter (<[socketId := clientData]> cs) (limits lim) (burstLimits lim)).

(** [object[name] = v] for a number or a string [v]: the object gets or
    changes an entry, except under the name [__proto__] when the object has
    no entry of that name: the assignment then goes to the setter inherited
    from [Object.prototype], which ignores a value that is not an object. *)
Definition assign_property {V : Type} (name : string) (v : V) (object : gmap string V)
  : gmap string V :=
  if bool_decide (name = "__proto__" ∧ object !! name = None) then object
  else <[name := v]> object.

(** [updateLimits] *)
Definition updateLimits (eventType : string) (minuteLimit burstLimit : nat)
    (lim : Limiter) : Limiter :=
  mkLimiter (clients lim) (assign_property eventType minuteLimit (limits lim))
    (assign_property eventType burstLimit (burstLimits lim)).

(** The events of a client's record, as [checkLimit] finds them. *)
Definition recorded (lim : Limiter) (socketId : string) : list Event :=
  from_option events [] (clients lim !! socketId).

(** The number of recorded events of a type that are less than [window]
    milliseconds old at time [now]. *)
Definition count_within (window : Z) (eventType : string) (now : Z) (es : list Event) : nat :=
  length (filter (λ event, type event = eventType ∧ (now - timestamp event < window)%Z) es).

(** Successive calls of [checkLimit] for one connection and one event type,
    at the given times: each time with the answer it received. *)
Fixpoint calls (socketId eventType : string) (times : list Z) (lim : Limiter)
  : list (Z * bool) :=
  match times with
  | [] => []
  | now :: rest =>
      let r := checkLimit socketId eventType now lim in
      (now, r.1) :: calls socketId eventType rest r.2
  end.

(** The times of the calls that were admitted. *)
Definition admitted_times (answers : list (Z * bool)) : list Z :=
  fst <$> filter (λ a, a.2 = true) answers.

(** The number of times that fall in the window of 60 seconds from [a]. *)
Definition in_window (a : Z) (ts : list Z) : nat :=
  length (filter (λ t, (a ≤ t < a + 60000)%Z) ts).

End SocketRateLimiter.

(** ** [RoomController] (second part of [middleware/validation.js]) *)

Module RoomController.

Inductive RoomStatus : Type := waiting | playing | finished.

#[global] Instance RoomStatus_eq_dec : EqDecision RoomStatus := ltac:(solve_decision).

(** The entries of [room.players]. *)
Record Player : Type := mkPlayer {
  player_id : string;
  player_name : option string;
  socketId : string;
  joinedAt : Z;
  isReady : bool
}.

(** A room. Its [spectators] and [chatHistory] are left out: they are
    written by [spectateGame], [handleChatMessage] and the last loop of
    [handleDisconnect] only, and nothing embedded here reads them. The
    order of insertion into the [Map]s, which [gmap] forgets, is read only
    to list players in the payload of messages. *)
Record Room : Type := mkRoom {
  room_id : string;
  room_name : string;
  isPrivate : bool;
  password : option string;
  maxPlayers : nat;
  currentPlayers : nat;
  status : RoomStatus;
  createdBy : string;
  createdAt : Z;
  players : gmap string Player
}.

(** A row of the [rooms] table. *)
Record RoomRow : Type := mkRoomRow {
  row_id : string;
  row_name : string;
  is_private : bool;
  row_password : option string;
  max_players : nat;
  current_players : nat;
  row_status : RoomStatus;
  created_by : string;
  created_at : Z
}.

(** The fields of the socket object that the controller reads or writes;
    [channels] are the socket.io rooms entered with [socket.join]. *)
Record Socket : Type := mkSocket {
  socket_id : string;
  socket_playerId : option string;
  socket_playerName : option string;
  socket_roomId : option string;
  channels : gset string
}.

(** The entry of a room in the [room-list-update] payload. *)
Record RoomSummary : Type := mkRoomSummary {
  sum_currentPlayers : nat;
  sum_maxPlayers : nat;
  sum_status : RoomStatus;
  sum_createdAt : Z
}.

Inductive Message : Type :=
  | room_created (roomId : string) (currentPlayers : nat)
  | room_error (code : string)
  | player_joined (playerId : string) (currentPlayers maxPlayers : nat)
  | room_joined (roomId : string) (currentPlayers maxPlayers : nat)
  | player_left (playerId : string) (playerName : option string) (currentPlayers : nat)
  | game_started (roomId : string)
  | room_list_update (rooms : gmap string RoomSummary).

Inductive Target : Type :=
  | to_socket (socketId : string)   (* socket.emit *)
  | to_room (roomId : string)       (* io.to(roomId).emit *)
  | to_all.                         (* io.emit *)

(** The controller: its two maps, the [rooms] table of the database
    (keyed by its primary key), the room ids that the rows of the
    [chat_messages] table hold in their column [room_id], and the messages
    emitted so far. A handler runs here from its call to its return, with
    no other handler in between: what overlapping handlers do is the subject
    of the module [RoomAsync] below. Reads and writes of the database are
    taken to succeed (the source catches and logs their failures), but for
    the [DELETE] of a room that rows of [chat_messages] refer to. *)
Record State : Type := mkState {
  activeRooms : gmap string Room;
  playerRooms : gmap string string;
  db : gmap string RoomRow;
  chat_room_ids : gset string;
  emitted : list (Target * Message)
}.

Definition initial : State := mkState ∅ ∅ ∅ ∅ [].

(** Truthiness of a string: the empty string is falsy. *)
Definition truthy (s : string) : bool := negb (bool_decide (s = "")).

(** [socket.playerId || socket.id] *)
Definition playerId_of (socket : Socket) : string :=
  match socket_playerId socket with
  | Some p => if truthy p then p else socket_id socket
  | None => socket_id socket
  end.

(** [socket.playerName || `Player_${socket.id.substring(0, 6)}`] *)
Definition playerName_of (socket : Socket) : string :=
  match socket_playerName socket with
  | Some n => if truthy n then n else "Player_" +:+ substring 0 6 (socket_id socket)
  | None => "Player_" +:+ substring 0 6 (socket_id socket)
  end.

Definition emit (t : Target) (m : Message) (s : State) : State :=
  mkState (activeRooms s) (playerRooms s) (db s) (chat_room_ids s)
    (emitted s ++ [(t, m)]).

(** [saveRoomToDatabase]: [INSERT OR REPLACE] of the room's row. *)
Definition row_of (room : Room) : RoomRow :=
  mkRoomRow (room_id room) (room_name room) (isPrivate room) (password room)
    (maxPlayers room) (currentPlayers room) (status room) (createdBy room)
    (createdAt room).

Definition saveRoomToDatabase (room : Room) (s : State) : State :=
  mkState (activeRooms s) (playerRooms s) (<[room_id room := row_of room]> (db s))
    (chat_room_ids s) (emitted s).

(** [deleteRoomFromDatabase]. The schema declares [chat_messages.room_id] a
    foreign key to [rooms.id] and turns foreign keys on: while a row of
    [chat_messages] refers to the room the [DELETE] fails, which the
    [catch] only logs, and the row stays. *)
Definition deleteRoomFromDatabase (roomId : string) (s : State) : State :=
  if bool_decide (roomId ∈ chat_room_ids s) then s
  else mkState (activeRooms s) (playerRooms s) (delete roomId (db s))
         (chat_room_ids s) (emitted s).

(** An [INSERT] of [saveChatMessageToDatabase] that succeeds, for a message
    of the room [roomId]; the room has its row in the [rooms] table (the
    same foreign key). What [handleChatMessage] does besides touches none
    of these fields. *)
Definition chat_row_inserted (roomId : string) (s : State) : State :=
  mkState (activeRooms s) (playerRooms s) (db s) ({[roomId]} ∪ chat_room_ids s)
    (emitted s).

(** [loadRoomFromDatabase]: the room of a row, with no player. *)
Definition loadRoomFromDatabase (roomId : string) (s : State) : option Room :=
  (λ row, mkRoom (row_id row) (row_name row) (is_private row) (row_password row)
            (max_players row) 0 (row_status row) (created_by row) (created_at row) ∅)
  <$> db s !! roomId.

(** The payload of [room-list-update]: the public rooms that are waiting. *)
Definition room_list (rooms : gmap string Room) : gmap string RoomSummary :=
  (λ room, mkRoomSummary (currentPlayers room) (maxPlayers room) (status room)
             (createdAt room))
  <$> filter (λ kv, isPrivate kv.2 = false ∧ status kv.2 = waiting) rooms.

(** [broadcastRoomListUpdate] *)
Definition broadcastRoomListUpdate (s : State) : State :=
  emit to_all (room_list_update (room_list (activeRooms s))) s.

Definition set_activeRooms (rooms : gmap string Room) (s : State) : State :=
  mkState rooms (playerRooms s) (db s) (chat_room_ids s) (emitted s).
Definition set_playerRooms (idx : gmap string string) (s : State) : State :=
  mkState (activeRooms s) idx (db s) (chat_room_ids s) (emitted s).

(** [room.players = ps; room.currentPlayers = room.players.size] *)
Definition with_players (ps : gmap string Player) (room : Room) : Room :=
  mkRoom (room_id room) (room_name room) (isPrivate room) (password room)
    (maxPlayers room) (size ps) (status room) (createdBy room) (createdAt room) ps.
Definition with_status (st : RoomStatus) (room : Room) : Room :=
  mkRoom (room_id room) (room_name room) (isPrivate room) (password room)
    (maxPlayers room) (currentPlayers room) st (createdBy room) (createdAt room)
    (players room).

(** [createRoom]; [roomId] is the value of [uuidv4()], [hashed] that of
    [bcrypt.hash] and [now] that of [Date.now()]. The arguments are the
    fields of the validated payload, its defaults filled in. *)
Definition createRoom (socket : Socket) (roomName : string) (isPrivate : bool)
    (password : option string) (maxPlayers : nat)
    (roomId hashed : string) (now : Z) (s : State) : Socket * State :=
  let playerId := playerId_of socket in
  let playerName := playerName_of socket in
  let hashedPassword :=
    match password with
    | Some pw => if truthy pw then Some hashed else None
    | None => None
    end in
  let room :=
    mkRoom roomId roomName isPrivate hashedPassword maxPlayers 1 waiting playerId now
      {[ playerId := mkPlayer playerId (Some playerName) (socket_id socket) now false ]} in
  let s := set_activeRooms (<[roomId := room]> (activeRooms s)) s in
  let s := set_playerRooms (<[playerId := roomId]> (playerRooms s)) s in
  let s := saveRoomToDatabase room s in
  let socket :=
    mkSocket (socket_id socket) (Some playerId) (Some playerName) (Some roomId)
      ({[roomId]} ∪ channels socket) in
  let s := emit (to_socket (socket_id socket)) (room_created roomId 1) s in
  let s := broadcastRoomListUpdate s in
  (socket, s).

(** [leaveRoom] *)
Definition leaveRoom (socket : Socket) (roomId : string) (s : State) : Socket * State :=
  let playerId := playerId_of socket in
  match activeRooms s !! roomId with
  | None => (socket, s)   (* Room doesn't exist, nothing to do *)
  | Some room =>
      (* Remove player from room *)
      let room := with_players (delete playerId (players room)) room in
      let s := set_activeRooms (<[roomId := room]> (activeRooms s)) s in
      let s := set_playerRooms (delete playerId (playerRooms s)) s in
      (* Leave socket room *)
      let socket :=
        mkSocket (socket_id socket) (socket_playerId socket) (socket_playerName socket)
          (socket_roomId socket) (channels socket ∖ {[roomId]}) in
      (* Notify other players *)
      let s := emit (to_room roomId)
                 (player_left playerId (socket_playerName socket) (currentPlayers room)) s in
      (* If room is empty, clean it up *)
      let s := if bool_decide (currentPlayers room = 0)
               then deleteRoomFromDatabase roomId
                      (set_activeRooms (delete roomId (activeRooms s)) s)
               else saveRoomToDatabase room s in
      let s := broadcastRoomListUpdate s in
      (socket, s)
  end.

(** [checkGameStart]; the game itself is started by a [GameController]
    made on the spot, seen here through its [game-started] message. *)
Definition checkGameStart (roomId : string) (s : State) : State :=
  match activeRooms s !! roomId with
  | Some room =>
      if bool_decide (currentPlayers room = 2) && bool_decide (status room = waiting) then
        let room := with_status playing room in
        let s := set_activeRooms (<[roomId := room]> (activeRooms s)) s in
        let s := emit (to_room (room_id room)) (game_started (room_id room)) s in
        saveRoomToDatabase room s
      else s
  | None => s
  end.

(** [joinRoom]; [passwordValid] is the value of [bcrypt.compare], read
    only for a private room with a password, and [now] that of
    [Date.now()]. *)
Definition joinRoom (socket : Socket) (roomId playerName : string)
    (password : option string) (passwordValid : bool) (now : Z) (s : State)
  : Socket * State :=
  let playerId := playerId_of socket in
  let reject code s := (socket, emit (to_socket (socket_id socket)) (room_error code) s) in
  (* Get room *)
  let found :=
    match activeRooms s !! roomId with
    | Some room => Some (room, s)
    | None =>
        match loadRoomFromDatabase roomId s with
        | Some room => Some (room, set_activeRooms (<[roomId := room]> (activeRooms s)) s)
        | None => None
        end
    end in
  match found with
  | None => reject "ROOM_NOT_FOUND" s
  | Some (room, s) =>
      (* Check if room is full *)
      if bool_decide (maxPlayers room ≤ currentPlayers room)%nat then reject "ROOM_FULL" s
      else
        (* Check password for private rooms *)
        let needed := isPrivate room && from_option truthy false (RoomController.password room) in
        if needed && negb (from_option truthy false password) then
          reject "PASSWORD_REQUIRED" s
        else if needed && negb passwordValid then reject "INVALID_PASSWORD" s
        else
          (* Check if player is already in another room *)
          let '(socket, s) :=
            match playerRooms s !! playerId with
            | Some currentRoom =>
                if truthy currentRoom && negb (bool_decide (currentRoom = roomId))
                then leaveRoom socket currentRoom s
                else (socket, s)
            | None => (socket, s)
            end in
          (* Add player to room *)
          let player := mkPlayer playerId (Some playerName) (socket_id socket) now false in
          let room := with_players (<[playerId := player]> (players room)) room in
          let s := set_activeRooms (<[roomId := room]> (activeRooms s)) s in
          let s := set_playerRooms (<[playerId := roomId]> (playerRooms s)) s in
          (* Join socket to room *)
          let socket :=
            mkSocket (socket_id socket) (Some playerId) (Some playerName) (Some roomId)
              ({[roomId]} ∪ channels socket) in
          (* Update database *)
          let s := saveRoomToDatabase room s in
          (* Notify all players in room, send room state to joining player *)
          let s := emit (to_room roomId)
                     (player_joined playerId (currentPlayers room) (maxPlayers room)) s in
          let s := emit (to_socket (socket_id socket))
                     (room_joined roomId (currentPlayers room) (maxPlayers room)) s in
          (* Check if we can start the game *)
          let s := if bool_decide (currentPlayers room = 2) && bool_decide (status room = waiting)
                   then checkGameStart roomId s else s in
          let s := broadcastRoomListUpdate s in
          (socket, s)
  end.

(** [handleDisconnect], up to its loop over spectators. *)
Definition handleDisconnect (socket : Socket) (s : State) : Socket * State :=
  let playerId := playerId_of socket in
  match playerRooms s !! playerId with
  | Some roomId => if truthy roomId then leaveRoom socket roomId s else (socket, s)
  | None => (socket, s)
  end.

(** [cleanupEmptyRooms], with [now] the value of [Date.now()]; the rows of
    the rooms it removes are deleted as by [deleteRoomFromDatabase]. *)
Definition cleanupEmptyRooms (now : Z) (s : State) : State :=
  let maxEmptyTime := (5 * 60 * 1000)%Z in
  let stale (room : Room) : Prop :=
    currentPlayers room = 0 ∧ (now - createdAt room > maxEmptyTime)%Z in
  let doomed := filter (λ kv, stale kv.2) (activeRooms s) in
  mkState (filter (λ kv, ¬ stale kv.2) (activeRooms s)) (playerRooms s)
    (filter (λ kv, kv.1 ∉ dom doomed ∨ kv.1 ∈ chat_room_ids s) (db s))
    (chat_room_ids s) (emitted s).

(** The transitions of the controller under the events of the claim, when
    the handlers run one at a time, each from its call to its return. The
    payload of [create-room] has passed its schema ([maxPlayers] is an
    integer from 2 to 10), and [uuidv4()] returns an id that is not in
    use. A chat message may be stored in between. *)
Inductive step : State → State → Prop :=
  | step_createRoom socket roomName isPrivate password maxPlayers roomId hashed now s :
      (2 ≤ maxPlayers ≤ 10)%nat → activeRooms s !! roomId = None →
      step s (createRoom socket roomName isPrivate password maxPlayers roomId hashed now s).2
  | step_joinRoom socket roomId playerName password passwordValid now s :
      step s (joinRoom socket roomId playerName password passwordValid now s).2
  | step_leaveRoom socket roomId s :
      step s (leaveRoom socket roomId s).2
  | step_disconnect socket s :
      step s (handleDisconnect socket s).2
  | step_chat roomId s :
      is_Some (db s !! roomId) → step s (chat_row_inserted roomId s).

(** The states reached from a start of the process, whatever rows the
    database holds then, by handlers that run one at a time. *)
Inductive reachable : State → Prop :=
  | reachable_boot rows refs : reachable (mkState ∅ ∅ rows refs [])
  | reachable_step s s' : reachable s → step s s' → reachable s'.

Definition room_ok (room : Room) : Prop :=
  currentPlayers room = size (players room) ∧
  (size (players room) ≤ maxPlayers room)%nat ∧
  (status room = waiting → (size (players room) < 2)%nat).

Definition index_sound (s : State) : Prop :=
  ∀ p rid, playerRooms s !! p = Some rid →
    ∃ room, activeRooms s !! rid = Some room ∧ p ∈ dom (players room).

Definition inv (s : State) : Prop :=
  (∀ rid room, activeRooms s !! rid = Some room → room_ok room) ∧ index_sound s.

(** The rooms removed by [cleanupEmptyRooms] at time [now]. *)
Definition stale (now : Z) (room : Room) : Prop :=
  currentPlayers room = 0%nat ∧ (now - createdAt room > 5 * 60 * 1000)%Z.

End RoomController.

(** ** Example data *)

Module Examples.

Import GameService.

Definition ann_and_bob : Players :=
  mkPlayers (Some (mkPlayer "a" (Some "Ann") (Some "fire_warrior") (Some "X")))
            (Some (mkPlayer "b" (Some "Bob") (Some "ice_guardian") (Some "O"))).

(** A game that has just started. *)
Definition g_start : GameState :=
  mkGameState "g" "r" createEmptyBoard ann_and_bob player1 playing None [] 0
    (Some 0%Z) (Some 0%Z) None.

(** A game marked as being played, after six moves, although the second
    player owns the first row. *)
Definition g_line : GameState :=
  mkGameState "g" "r"
    [[Some player2; Some player2; Some player2];
     [Some player1; None; None];
     [None; Some player1; Some player1]]
    ann_and_bob player1 playing None
    [mkMove "a" player1 (Integer 1) (Integer 0) 1 1;
     mkMove "b" player2 (Integer 0) (Integer 0) 2 2;
     mkMove "a" player1 (Integer 2) (Integer 1) 3 3;
     mkMove "b" player2 (Integer 0) (Integer 1) 4 4;
     mkMove "a" player1 (Integer 2) (Integer 2) 5 5;
     mkMove "b" player2 (Integer 0) (Integer 2) 6 6]
    0 (Some 0%Z) (Some 6%Z) None.

(** A board on which the first player owns the diagonal. *)
Definition b_diagonal : Board :=
  [[Some player1; Some player2; None];
   [Some player2; Some player1; None];
   [None; None; Some player1]].

Definition h_start : Heap := {[ 1%positive := g_start ]}.
Definition h_line : Heap := {[ 1%positive := g_line ]}.

Import SocketRateLimiter.

(** A client that made nine moves at time 0. *)
Definition nine_moves : Limiter :=
  mkLimiter {[ "s" := mkClientData (replicate 9 (mkEvent "make-move" 0)) 0 0 ]}
    (limits SocketRateLimiter.initial) (burstLimits SocketRateLimiter.initial).

Import RoomController.

Definition room_a : string := "11111111-1111-4111-8111-111111111111".
Definition room_b : string := "22222222-2222-4222-8222-222222222222".

(** A socket that has just connected. *)
Definition connect (id : string) : Socket := mkSocket id None None None ∅.

(** [p] creates room A, for two players. *)
Definition run1 : Socket * State :=
  createRoom (connect "p") "Alpha" false None 2 room_a "" 0 RoomController.initial.
(** [q] joins room A: the game starts. *)
Definition run2 : Socket * State :=
  joinRoom (connect "q") room_a "Quinn" None false 1 run1.2.
(** Room A as [q] found it, and as [q] left it. *)
Definition room_alpha : Room :=
  mkRoom room_a "Alpha" false None 2 1 waiting "p" 0
    {[ "p" := mkPlayer "p" (Some "Player_p") "p" 0 false ]}.
Definition room_alpha_playing : Room :=
  mkRoom room_a "Alpha" false None 2 1 playing "p" 0
    {[ "p" := mkPlayer "p" (Some "Player_p") "p" 0 false ]}.

(** [q] leaves room A. *)
Definition run3 : Socket * State := leaveRoom run2.1 room_a run2.2.
(** [q] leaves room A once more. *)
Definition run4 : Socket * State := leaveRoom run3.1 room_a run3.2.
(** From [run2]: [p] creates room B. *)
Definition run5 : Socket * State :=
  createRoom run1.1 "Beta" false None 2 room_b "" 2 run2.2.
(** From [run1]: [p], alone in room A, leaves it. *)
Definition run6 : Socket * State := leaveRoom run1.1 room_a run1.2.
(** From [run1]: [q] creates room B, then joins room A. *)
Definition run7 : Socket * State :=
  createRoom (connect "q") "Beta" false None 2 room_b "" 1 run1.2.
Definition run8 : Socket * State := joinRoom run7.1 room_a "Quinn" None false 2 run7.2.

End Examples.

(** ** The move helpers of [GameService]: [getAvailableMoves],
    [findWinningMove], [getAIMove] *)

Module GameAI.

Import GameService.

(** [getAvailableMoves]: the two nested loops, pushing the position of each
    cell that is [=== null]. *)
Fixpoint getAvailableMoves_loop (board : Board) (ps : list Pos) (moves : list Pos)
  : Js (list Pos) :=
  match ps with
  | [] => Ret moves
  | p :: rest =>
      c ← board_at board p;
      getAvailableMoves_loop board rest
        (if strict_eq c (Some None) then moves ++ [p] else moves)%list
  end.

Definition getAvailableMoves (board : Board) : Js (list Pos) :=
  getAvailableMoves_loop board positions [].

(** Computations that write to the board they receive (the caller's array)
    and may throw: the board comes back in both cases. *)
Definition B (A : Type) : Type := Board → Js A * Board.

#[global] Instance B_ret : MRet B := fun A a board => (Ret a, board).
#[global] Instance B_bind : MBind B := fun A C f m board =>
  match m board with
  | (Ret a, board') => f a board'
  | (Throw e, board') => (Throw e, board')
  end.

(** [board[x][y]] *)
Definition read_cell (p : Pos) : B JsCell := fun board => (board_at board p, board).
(** [board[x][y] = v], at a position where a cell was read. *)
Definition write_cell (p : Pos) (v : Cell) : B unit := fun board =>
  (Ret (), board_set board p v).
(** [this.checkWinner(board)] *)
Definition winner_on_board : B (option PlayerKey) := fun board =>
  (checkWinner board, board).

(** [findWinningMove]: try the player's key in each empty cell, and undo. *)
Fixpoint findWinningMove_loop (playerKey : PlayerKey) (ps : list Pos) : B (option Pos) :=
  match ps with
  | [] => mret None
  | p :: rest =>
      c ← read_cell p;
      if strict_eq c (Some None) then
        (* Try this move *)
        write_cell p (Some playerKey);;
        w ← winner_on_board;
        if bool_decide (w = Some playerKey) then
          write_cell p None;;   (* Undo move *)
          mret (Some p)
        else
          write_cell p None;;   (* Undo move *)
          findWinningMove_loop playerKey rest
      else findWinningMove_loop playerKey rest
  end.

Definition findWinningMove (playerKey : PlayerKey) : B (option Pos) :=
  findWinningMove_loop playerKey positions.

(** The loops of [getAIMove] over the corners and over the edges: the first
    position whose cell is [=== null]. *)
Fixpoint first_free (ps : list Pos) : B (option Pos) :=
  match ps with
  | [] => mret None
  | p :: rest =>
      c ← read_cell p;
      if strict_eq c (Some None) then mret (Some p) else first_free rest
  end.

Definition corners : list Pos := [(0, 0); (0, 2); (2, 0); (2, 2)]%nat.
Definition edges : list Pos := [(0, 1); (1, 0); (1, 2); (2, 1)]%nat.

(** [getAIMove]: try to win, then block the opponent, then take the center,
    then a corner, then an edge. *)
Definition getAIMove (playerKey : PlayerKey) : B (option Pos) :=
  let opponent := match playerKey with
                  | player1 => player2
                  | player2 => player1
                  end in
  (* Try to win *)
  winMove ← findWinningMove playerKey;
  match winMove with
  | Some move => mret (Some move)
  | None =>
      (* Try to block opponent *)
      blockMove ← findWinningMove opponent;
      match blockMove with
      | Some move => mret (Some move)
      | None =>
          (* Take center if available *)
          center ← read_cell (1, 1)%nat;
          if strict_eq center (Some None) then mret (Some (1, 1)%nat)
          else
            corner ← first_free corners;
            match corner with
            | Some move => mret (Some move)
            | None => first_free edges
            end
      end
  end.

(** A cell where the player's key makes [checkWinner] answer that key. *)
Definition winning_cell (board : Board) (k : PlayerKey) (p : Pos) : Prop :=
  in_grid p ∧ cell board p = None ∧
  checkWinner (board_set board p (Some k)) = Ret (Some k).

(** The number of cells that hold a key. *)
Definition occupied (board : Board) : nat :=
  length (filter (λ c : Cell, c ≠ None) (concat board)).

(** The number of cells that hold the key [k]. *)
Definition owned (board : Board) (k : PlayerKey) : nat :=
  length (filter (λ c : Cell, c = Some k) (concat board)).

End GameAI.

(** ** Whole games: the states that [createGame] and [makeMove] build, and
    [calculateGameStats] *)

Module GamePlay.

Import GameService GameAI.

(** The states of a game: the one returned by [createGame], and each state
    returned by a successful [makeMove] on a state of the game, whatever the
    store holds besides. *)
Inductive played : GameState → Prop :=
  | played_created uuid room ps now g :
      createGame uuid room ps now = Ret g → played g
  | played_moved g h l playerId x y t_last t_move t_end l' h' g' :
      played g → h !! l = Some g →
      makeMove l playerId x y t_last t_move t_end h = Ret (Success l', h') →
      h' !! l' = Some g' → played g'.

(** The key of the player who makes the move of index [i] (from 0). *)
Definition seat (i : nat) : PlayerKey := if Nat.even i then player1 else player2.

(** No cell of the grid is empty. *)
Definition full (b : Board) : Prop := ∀ p, in_grid p → cell b p ≠ None.

(** Some combination is complete. *)
Definition has_line (b : Board) : Prop :=
  ∃ k c, c ∈ WINNING_COMBINATIONS ∧ line_of b k c.

(** The position written by a move of the history. *)
Definition position (m : Move) : Pos := (index (move_x m), index (move_y m)).

(** What a move of index [i] in the history of [g] records. *)
Definition recorded_move (g : GameState) (i : nat) (m : Move) : Prop :=
  playerKey m = seat i ∧
  Some (playerId m) = player_id <$> player (players g) (seat i) ∧
  in_bounds (move_x m) (move_y m) ∧
  cell (board g) (position m) = Some (seat i).

(** The invariant of the states of a game. *)
Definition sound (g : GameState) : Prop :=
  is_3x3 (board g) ∧ numbered g ∧
  (∀ i m, moveHistory g !! i = Some m → recorded_move g i m) ∧
  owned (board g) player1 =
    (owned (board g) player2 + if Nat.even (length (moveHistory g)) then 0 else 1)%nat ∧
  (owned (board g) player1 + owned (board g) player2 = length (moveHistory g))%nat ∧
  match status g with
  | playing =>
      currentPlayer g = seat (length (moveHistory g)) ∧
      ¬ has_line (board g) ∧ ¬ full (board g) ∧ winner g = None
  | finished =>
      ∃ m c, last (moveHistory g) = Some m ∧ winner g = Some (playerId m) ∧
             c ∈ WINNING_COMBINATIONS ∧ line_of (board g) (playerKey m) c
  | draw => full (board g) ∧ ¬ has_line (board g) ∧ winner g = None
  | waiting | abandoned => False
  end.

(** *** [calculateGameStats] *)

(** The number [a / b] of a floating-point division, kept as its operands,
    or the number [0]. *)
Inductive Quotient : Type :=
  | Zero
  | Div (a : Z) (b : nat).

Record GameStats : Type := mkGameStats {
  duration : Z;
  totalMoves : nat;
  player1Moves : nat;
  player2Moves : nat;
  averageTimePerMove : Quotient;
  stats_status : Status;
  stats_winner : option string
}.

(** Truthiness of a time stamp: [null], [undefined] and [0] are falsy. *)
Definition truthy_time (t : option Z) : bool :=
  match t with
  | Some t => negb (t =? 0)%Z
  | None => false
  end.

(** A time stamp as an operand of [-]: [null] counts as [0]. *)
Definition to_number (t : option Z) : Z := default 0%Z t.

(** [calculateGameStats], with [now] the value of [Date.now()], read when
    [finishedAt] is falsy. *)
Definition calculateGameStats (gameState : GameState) (now : Z) : GameStats :=
  let duration :=
    if truthy_time (finishedAt gameState)
    then (to_number (finishedAt gameState) - to_number (startedAt gameState))%Z
    else (now - to_number (startedAt gameState))%Z in
  let player1Moves :=
    length (filter (λ move, playerKey move = player1) (moveHistory gameState)) in
  let player2Moves :=
    length (filter (λ move, playerKey move = player2) (moveHistory gameState)) in
  mkGameStats duration (length (moveHistory gameState)) player1Moves player2Moves
    (if bool_decide (0 < length (moveHistory gameState))%nat
     then Div duration (length (moveHistory gameState)) else Zero)
    (status gameState) (winner gameState).

End GamePlay.

(** ** A game played to its end *)

Module GameExamples.

Import GameService.

(** The state that [makeMove] returns for a move on [g], held alone in the
    store; [None] when the move is not accepted. *)
Definition after_move (playerId : string) (x y t : Z) (g : GameState) : option GameState :=
  match makeMove 1%positive playerId (Integer x) (Integer y) t t t {[ 1%positive := g ]} with
  | Ret (Success l', h') => h' !! l'
  | _ => None
  end.

(** The state after a sequence of moves, each with its player, its
    coordinates and its time. *)
Fixpoint play (moves : list (string * Z * Z * Z)) (g : GameState) : option GameState :=
  match moves with
  | [] => Some g
  | (playerId, x, y, t) :: rest => g' ← after_move playerId x y t g; play rest g'
  end.

(** Ann and Bob's game after five moves: Ann owns the first row. *)
Definition five_moves : list (string * Z * Z * Z) :=
  [("a", 0, 0, 1); ("b", 1, 1, 2); ("a", 0, 1, 3); ("b", 2, 2, 4); ("a", 0, 2, 5)]%Z.

Definition g_won : GameState :=
  mkGameState "g" "r"
    [[Some player1; Some player1; Some player1];
     [None; Some player2; None];
     [None; None; Some player2]]
    Examples.ann_and_bob player1 finished (Some "a")
    [mkMove "a" player1 (Integer 0) (Integer 0) 1 1;
     mkMove "b" player2 (Integer 1) (Integer 1) 2 2;
     mkMove "a" player1 (Integer 0) (Integer 1) 3 3;
     mkMove "b" player2 (Integer 2) (Integer 2) 4 4;
     mkMove "a" player1 (Integer 0) (Integer 2) 5 5]
    0 (Some 0%Z) (Some 5%Z) (Some 5%Z).

End GameExamples.

(** ** [GameController]: the [games] and [players] tables, and the sweep of
    idle games *)

Module GameStore.

Import GameService GamePlay GameController.

(** A row of the [games] table. [player1_id] is [NOT NULL]; the [board] and
    [moves] columns hold JSON text, kept here as the value it denotes
    ([None] is SQL's [NULL]). *)
Record GameRow : Type := mkGameRow {
  row_id : string;
  room_id : string;
  player1_id : string;
  player2_id : option string;
  winner_id : option string;
  row_status : Status;
  row_board : option Board;
  row_moves : option (list Move);
  created_at : Z;
  started_at : option Z;
  finished_at : option Z
}.

(** The row that [saveGameToDatabase] writes; [now] is the value of
    [new Date()]. Without a first player the [NOT NULL] column has no value
    and the write fails ([None]). A time stamp and its ISO text denote the
    same instant. *)
Definition saveGameToDatabase (gameState : GameState) (now : Z) : option GameRow :=
  match first (players gameState) with
  | None => None
  | Some p1 =>
      Some (mkGameRow (gameId gameState) (roomId gameState)
              (player_id p1)
              (player_id <$> second (players gameState))
              (winner gameState)
              (status gameState)
              (Some (board gameState))
              (Some (moveHistory gameState))
              (createdAt gameState)
              (if truthy_time (startedAt gameState) then startedAt gameState else None)
              (if bool_decide (status gameState = finished) ||
                  bool_decide (status gameState = draw)
               then Some now else None))
  end.

(** The rows that the query of [loadGameFromDatabase] selects. *)
Definition selected (roomId : string) (row : GameRow) : bool :=
  bool_decide (room_id row = roomId) &&
  (bool_decide (row_status row = waiting) || bool_decide (row_status row = playing)).

(** [loadGameFromDatabase], from the row that the query returned
    ([gameData], [None] when it found none). *)
Definition loadGameFromDatabase (gameData : option GameRow) : option GameState :=
  match gameData with
  | None => None
  | Some gameData =>
      Some (mkGameState (row_id gameData) (room_id gameData)
              (default createEmptyBoard (row_board gameData))
              (mkPlayers
                 (Some (mkPlayer (player1_id gameData) None None None))
                 (match player2_id gameData with
                  | Some id => if RoomController.truthy id
                               then Some (mkPlayer id None None None) else None
                  | None => None
                  end))
              player1   (* Will be updated based on move history *)
              (row_status gameData)
              (winner_id gameData)
              (default [] (row_moves gameData))
              (created_at gameData)
              (started_at gameData)
              None None)
  end.

(** The value of a column that the schema declares [INTEGER]: [NULL]
    ([None]) or a 64-bit integer. The schema gives these columns no
    [NOT NULL]. SQLite also keeps values of other kinds in such a column;
    they are not values of this model. *)
Definition Column : Type := option Z.

Definition int64 (z : Z) : bool := (- 2 ^ 63 <=? z)%Z && (z <? 2 ^ 63)%Z.

(** [column + n] in SQLite: [NULL] when the column is [NULL], and the sum
    when the sum is a 64-bit integer. When it is not, SQLite adds in
    floating point and the result is a [REAL], which this model does not
    hold: [None]. *)
Definition sql_add (column : Column) (n : Z) : option Column :=
  match column with
  | None => Some None
  | Some z => if int64 (z + n) then Some (Some (z + n)%Z) else None
  end.

(** [MAX(n, column)]: [NULL] when the column is [NULL]. *)
Definition sql_max (n : Z) (column : Column) : Column := Z.max n <$> column.

(** The columns of the [players] table that [updatePlayerStats] writes;
    [last_seen] holds the value of [CURRENT_TIMESTAMP]. *)
Record PlayerRow : Type := mkPlayerRow {
  games_played : Column;
  games_won : Column;
  last_seen : Z;
  rating : Column
}.

(** The two [UPDATE]s for one player; [stamp] is the value of
    [CURRENT_TIMESTAMP]. An [UPDATE] changes the row of the id when there is
    one. The result is [None] when a sum leaves the 64-bit integers. *)
Definition update_player (gameState : GameState) (player : Player) (stamp : Z)
    (table : gmap string PlayerRow) : option (gmap string PlayerRow) :=
  let isWinner := bool_decide (winner gameState = Some (player_id player)) in
  let isDraw := bool_decide (status gameState = draw) in
  table ← match table !! player_id player with
           | Some row =>
               played ← sql_add (games_played row) 1;
               won ← sql_add (games_won row) (if isWinner then 1 else 0);
               Some (<[player_id player := mkPlayerRow played won stamp (rating row)]> table)
           | None => Some table
           end;
  (* Update rating (simple ELO-like system) *)
  if negb isDraw then
    let ratingChange := (if isWinner then 25 else -15)%Z in
    match table !! player_id player with
    | Some row =>
        sum ← sql_add (rating row) ratingChange;
        Some (<[player_id player := mkPlayerRow (games_played row) (games_won row)
                                      (last_seen row) (sql_max 100 sum)]> table)
    | None => Some table
    end
  else Some table.

(** [updatePlayerStats]: the loop over [players.player1] and
    [players.player2], skipping a [null] player. *)
Definition updatePlayerStats (gameState : GameState) (stamp1 stamp2 : Z)
    (table : gmap string PlayerRow) : option (gmap string PlayerRow) :=
  table ← match first (players gameState) with
           | Some player => update_player gameState player stamp1 table
           | None => Some table
           end;
  match second (players gameState) with
  | Some player => update_player gameState player stamp2 table
  | None => Some table
  end.

(** A row whose three counters are the integers [n], [w] and [e], none of
    them so large that the sums of [updatePlayerStats] leave the 64-bit
    integers. *)
Definition counters (row : PlayerRow) (n w e : Z) : Prop :=
  games_played row = Some n ∧ games_won row = Some w ∧ rating row = Some e ∧
  (- 2 ^ 63 ≤ n < 2 ^ 63 - 1)%Z ∧ (- 2 ^ 63 ≤ w < 2 ^ 63 - 1)%Z ∧
  (- 2 ^ 63 + 15 ≤ e < 2 ^ 63 - 25)%Z.

(** [lastActivity] of [cleanupInactiveGames]: the time of the last move,
    or of the creation of a game without moves. *)
Definition lastActivity (gameState : GameState) : Z :=
  match last (moveHistory gameState) with
  | Some move => timestamp move
  | None => createdAt gameState
  end.

(** [cleanupInactiveGames], with [now] the value of [Date.now()]. *)
Definition cleanupInactiveGames (now : Z) (c : Controller) : Controller :=
  let maxInactiveTime := (30 * 60 * 1000)%Z in
  let inactive (gameState : loc) : bool :=
    match heap c !! gameState with
    | Some g => bool_decide (now - lastActivity g > maxInactiveTime)%Z
    | None => false
    end in
  mkController (filter (λ kv, inactive kv.2 = false) (activeGames c)) (heap c) (effects c).

End GameStore.

(** ** [SocketRateLimiter]: status, clean-up and reset *)

Module RateLimiterUpkeep.

Import SocketRateLimiter.

(** A value held by the object [counts] of [getEventCountsByType]: a
    number, or the text that [+ 1] makes of a value that is not a number. *)
Inductive CountValue : Type :=
  | Count (n : nat)
  | Text (s : string).

(** The text of the function that [Object.prototype] holds under [name], as
    [+] converts it; the function held under [constructor] is [Object]. *)
Definition native_function (name : string) : string :=
  "function " ++ (if bool_decide (name = "constructor") then "Object" else name)
    ++ "() { [native code] }".

(** [(counts[name] || 0) + 1]. An entry that is a number is counted up and a
    text gets [1] appended (the falsy [0] and empty text count as [0]).
    Without entry, the value read is [undefined], and the result is [1],
    unless [Object.prototype] defines the name: the value read is then the
    function held there or, under [__proto__], the prototype itself, and
    [+ 1] appends [1] to its text. *)
Definition counted_up (counts : gmap string CountValue) (name : string) : CountValue :=
  match counts !! name with
  | Some (Count n) => Count (n + 1)
  | Some (Text s) => if bool_decide (s = "") then Count 1 else Text (s ++ "1")
  | None =>
      if bool_decide (name = "__proto__") then Text "[object Object]1"
      else if bool_decide (name ∈ inherited) then Text (native_function name ++ "1")
      else Count 1
  end.

(** [getEventCountsByType]: [counts[event.type] = (counts[event.type] || 0) + 1]
    for each event, from the empty object literal. *)
Definition getEventCountsByType (events : list Event) : gmap string CountValue :=
  foldl (λ counts event,
           assign_property (type event) (counted_up counts (type event)) counts)
    ∅ events.

(** The object returned by [getStatus]: [{exists: false, events: 0,
    warnings: 0}] for a client without record, else [{exists: true, events,
    warnings, lastSeen, eventsByType}]. *)
Inductive ClientStatus : Type :=
  | Unknown
  | Known (events warnings : nat) (lastSeen : Z) (eventsByType : gmap string CountValue).

(** The text of [n] digits [1]. *)
Fixpoint ones (n : nat) : string :=
  match n with
  | 0 => ""
  | S n => ones n ++ "1"
  end.

(** The entry of [counts] for an event type of which [n] events were
    counted: none under [__proto__], a text under the other names that
    [Object.prototype] defines, the number [n] under any other name. *)
Definition entry_of (eventType : string) (n : nat) : option CountValue :=
  if bool_decide (n = 0%nat ∨ eventType = "__proto__") then None
  else if bool_decide (eventType ∈ inherited)
       then Some (Text (native_function eventType ++ ones n))
       else Some (Count n).

(** [getStatus], with [now] the value of [Date.now()]. *)
Definition getStatus (socketId : string) (now : Z) (lim : Limiter) : ClientStatus :=
  match clients lim !! socketId with
  | None => Unknown
  | Some clientData =>
      let recentEvents :=
        filter (λ event, (now - timestamp event < 60000)%Z) (events clientData) in
      Known (length recentEvents) (warnings clientData) (lastSeen clientData)
        (getEventCountsByType recentEvents)
  end.

(** [cleanup(socketId = null)], with [now] the value of [Date.now()]: a
    truthy [socketId] removes that client; otherwise every client last seen
    more than 5 minutes ago is removed. *)
Definition cleanup (socketId : option string) (now : Z) (lim : Limiter) : Limiter :=
  let maxAge := (5 * 60 * 1000)%Z in
  let sweep :=
    mkLimiter (filter (λ kv, ¬ (now - lastSeen kv.2 > maxAge)%Z) (clients lim))
      (limits lim) (burstLimits lim) in
  match socketId with
  | Some id =>
      if bool_decide (id = "") then sweep
      else mkLimiter (delete id (clients lim)) (limits lim) (burstLimits lim)
  | None => sweep
  end.

(** [reset] *)
Definition reset (socketId : string) (lim : Limiter) : Limiter :=
  mkLimiter (delete socketId (clients lim)) (limits lim) (burstLimits lim).

(** Successive calls of [checkLimit] for one connection, each with its event
    type and its time: each request with the answer it received. *)
Fixpoint requests (socketId : string) (reqs : list (string * Z)) (lim : Limiter)
  : list (string * Z * bool) :=
  match reqs with
  | [] => []
  | (eventType, now) :: rest =>
      let r := checkLimit socketId eventType now lim in
      (eventType, now, r.1) :: requests socketId rest r.2
  end.

(** The times of the requests of a type that were admitted. *)
Definition admitted_of (eventType : string) (answers : list (string * Z * bool)) : list Z :=
  (λ a, a.1.2) <$> filter (λ a, a.1.1 = eventType ∧ a.2 = true) answers.

(** The number of times that fall in the window of [w] milliseconds from
    [a]. *)
Definition in_span (w a : Z) (ts : list Z) : nat :=
  length (filter (λ t, (a ≤ t < a + w)%Z) ts).

(** Every recorded event of every client is at most as recent as the time
    the client was last seen: so it is when the clock never goes back. *)
Definition timely (lim : Limiter) : Prop :=
  ∀ id clientData, clients lim !! id = Some clientData →
    Forall (λ event, (timestamp event ≤ lastSeen clientData)%Z) (events clientData).

End RateLimiterUpkeep.

(** ** What the escaping steps of [sanitizeChatMessage] compute *)

Module Escaping.

Import Validation.

(** Replacing one code unit everywhere: what [replace(/c/g, replacement)]
    does to each code unit of its subject. *)
Definition substitute (c : ascii) (replacement : JsString) (u : CodeUnit) : JsString :=
  if (u =? N_of_ascii c)%N then replacement else [u].

(** The code units of the characters that the escaping steps replace,
    apart from the ampersand: less-than, greater-than, double quote, single
    quote and slash. *)
Definition markup : list CodeUnit := [60; 62; 34; 39; 47]%N.

(** The code units that any escaping step replaces. *)
Definition special : list CodeUnit := (38%N :: markup).

End Escaping.

(** ** [RoomController]: the rooms in memory and their rows *)

Module RoomRuns.

Import RoomController.

(** Every room in memory is held under its id, counts its players and, when
    it has a player, has a row in the [rooms] table that shows it as it is
    now; every row of the table is held under its id. *)
Definition stored (s : State) : Prop :=
  (∀ rid room, activeRooms s !! rid = Some room →
     room_id room = rid ∧ currentPlayers room = size (players room) ∧
     (players room ≠ ∅ → db s !! rid = Some (row_of room))) ∧
  (∀ rid row, db s !! rid = Some row → row_id row = rid).

(** [joinRoom] asks for a password that passes [bcrypt.compare]. *)
Definition locked (room : Room) : bool :=
  isPrivate room && from_option truthy false (password room).

End RoomRuns.

(** ** [RoomController]: chat and spectators *)

Module RoomChat.

Import RoomController Validation.

(** An entry of [room.spectators]. *)
Record Spectator : Type := mkSpectator {
  spectator_id : string;
  spectator_socketId : string;
  spectator_joinedAt : Z
}.

(** An entry of [room.chatHistory], also the object handed to
    [saveChatMessageToDatabase], which inserts its [roomId], [playerId],
    [message] and [timestamp] into the [chat_messages] table. *)
Record ChatMessage : Type := mkChatMessage {
  chat_id : string;
  chat_playerId : string;
  chat_playerName : string;
  chat_text : JsString;
  chat_timestamp : Z;
  chat_roomId : string
}.

(** The messages of [handleChatMessage] and [spectateGame] (the list of
    players of [spectating-started] is left out, as in the
    other payloads). *)
Inductive ChatEvent : Type :=
  | chat_error (code : string)
  | chat_message (id playerId playerName : string) (message : JsString) (timestamp : Z)
  | spectate_error (code : string)     (* [room-error] *)
  | spectating_started (roomId roomName : string) (spectatorCount : nat).

(** What these handlers read and write: the rooms in memory, which they only
    read; the [spectators] and the [chatHistory] of those rooms, by room id
    (a room without entry has none yet, as when it was made); the messages
    inserted into the [chat_messages] table, in order (the insert is taken
    to succeed; [saveChatMessageToDatabase] catches and logs a failure,
    which changes nothing else); and the messages sent. *)
Record Chat : Type := mkChat {
  rooms : gmap string Room;
  spectators : gmap string (gmap string Spectator);
  chatHistory : gmap string (list ChatMessage);
  chat_messages : list ChatMessage;
  sent : list (Target * ChatEvent)
}.

(** [room.spectators] and [room.chatHistory] *)
Definition spectators_of (roomId : string) (c : Chat) : gmap string Spectator :=
  default ∅ (spectators c !! roomId).
Definition history_of (roomId : string) (c : Chat) : list ChatMessage :=
  default [] (chatHistory c !! roomId).

Definition send (t : Target) (e : ChatEvent) (c : Chat) : Chat :=
  mkChat (rooms c) (spectators c) (chatHistory c) (chat_messages c) (sent c ++ [(t, e)]).

(** [handleChatMessage]; [uuid] is the value of [uuidv4()] and [now] that of
    [Date.now()]. No call of its body throws, so the [CHAT_ERROR] of its
    [catch] has no case here. *)
Definition handleChatMessage (socket : Socket) (message : JsValue) (roomId : string)
    (uuid : string) (now : Z) (c : Chat) : Chat :=
  let playerId := playerId_of socket in
  let playerName := playerName_of socket in
  match rooms c !! roomId with
  | None => send (to_socket (socket_id socket)) (chat_error "ROOM_NOT_FOUND") c
  | Some room =>
      (* Check if player is in the room *)
      if negb (bool_decide (is_Some (players room !! playerId))) &&
         negb (bool_decide (is_Some (spectators_of roomId c !! playerId)))
      then send (to_socket (socket_id socket)) (chat_error "NOT_IN_ROOM") c
      else
        (* Sanitize message *)
        let sanitizedMessage := sanitizeChatMessage message in
        if bool_decide (sanitizedMessage = [])
        then send (to_socket (socket_id socket)) (chat_error "INVALID_MESSAGE") c
        else
          let chatMessage :=
            mkChatMessage uuid playerId playerName sanitizedMessage now roomId in
          (* Add to room chat history; keep only last 100 messages *)
          let history := (history_of roomId c ++ [chatMessage])%list in
          let history := if bool_decide (100 < length history)%nat
                         then drop (length history - 100) history else history in
          let c := mkChat (rooms c) (spectators c) (<[roomId := history]> (chatHistory c))
                     (* Save to database *)
                     (chat_messages c ++ [chatMessage]) (sent c) in
          (* Broadcast to all players in room *)
          send (to_room roomId) (chat_message uuid playerId playerName sanitizedMessage now) c
  end.

(** [spectateGame], with [now] the value of [Date.now()]. The flag
    [socket.isSpectator], which nothing reads, travels beside the socket.
    No call of its body throws, so the [SPECTATE_ERROR] of its [catch] has
    no case here. *)
Definition spectateGame (socket : Socket) (isSpectator : bool) (roomId : string) (now : Z)
    (c : Chat) : Socket * bool * Chat :=
  let spectatorId := socket_id socket in
  match rooms c !! roomId with
  | None =>
      (socket, isSpectator,
       send (to_socket (socket_id socket)) (spectate_error "ROOM_NOT_FOUND") c)
  | Some room =>
      (* Add as spectator *)
      let watching :=
        <[spectatorId := mkSpectator spectatorId (socket_id socket) now]>
          (spectators_of roomId c) in
      let c := mkChat (rooms c) (<[roomId := watching]> (spectators c)) (chatHistory c)
                 (chat_messages c) (sent c) in
      (* Join socket to room *)
      let socket :=
        mkSocket (socket_id socket) (socket_playerId socket) (socket_playerName socket)
          (Some roomId) ({[roomId]} ∪ channels socket) in
      (* Send current game state *)
      (socket, true,
       send (to_socket (socket_id socket))
         (spectating_started roomId (room_name room) (size watching)) c)
  end.

End RoomChat.

(** ** [RoomController]: handlers that overlap at their [await]s

    The handlers of [RoomController] are [async] functions: at each
    [await] a handler gives way, and the handlers of other events may run
    before it goes on. Here each handler is a task with its [await]s where
    the source has them, the rooms are objects that the tasks share by
    reference, and an event loop calls and resumes the tasks in any order.
    As in [RoomController] above, the reads and writes of the database, the
    hashing and the start of the game are taken not to throw. *)

Module RoomAsync.

Import RoomController.

(** A reference to a room object. *)
Definition ref : Type := positive.

(** What the handlers share: the room objects, the two maps of the
    controller ([active] is [activeRooms], which holds references, and
    [recorded] is [playerRooms]), the [rooms] table, the room ids held by
    the rows of [chat_messages], and the messages emitted so far. *)
Record Memory : Type := mkMemory {
  objects : gmap ref Room;
  active : gmap string ref;
  recorded : gmap string string;
  rows : gmap string RoomRow;
  chatted : gset string;
  outbox : list (Target * Message)
}.

Definition empty : Memory := mkMemory ∅ ∅ ∅ ∅ ∅ [].

(** An [async] function: it returns; or it runs synchronous code, which
    changes the shared memory by [f] and goes on as [k] says of the memory
    it found; or it waits at an [await], where the event loop may run other
    handlers before it goes on. *)
Inductive Task (A : Type) : Type :=
  | Done (a : A)
  | Run (f : Memory → Memory) (k : Memory → Task A)
  | Await (k : Task A).
Arguments Done {A} a.
Arguments Run {A} f k.
Arguments Await {A} k.

Fixpoint Task_bind {A B : Type} (g : A → Task B) (t : Task A) : Task B :=
  match t with
  | Done a => g a
  | Run f k => Run f (λ m, Task_bind g (k m))
  | Await k => Await (Task_bind g k)
  end.

#[global] Instance Task_ret : MRet Task := @Done.
#[global] Instance Task_mbind : MBind Task := @Task_bind.

Definition get {A : Type} (f : Memory → A) : Task A := Run id (λ m, Done (f m)).
Definition modify (f : Memory → Memory) : Task unit := Run f (λ _, Done ()).
(** [await] of a promise *)
Definition await : Task unit := Await (Done ()).

(** A handler run from its call to its return, no other handler running at
    its [await]s. *)
Fixpoint finish {A : Type} (t : Task A) (m : Memory) : A * Memory :=
  match t with
  | Done a => (a, m)
  | Run f k => finish (k m) (f m)
  | Await k => finish k m
  end.

(** A handler run up to its next [await]: its result, or what is left of
    it. *)
Fixpoint advance {A : Type} (t : Task A) (m : Memory) : (A + Task A) * Memory :=
  match t with
  | Done a => (inl a, m)
  | Run f k => advance (k m) (f m)
  | Await k => (inr k, m)
  end.

(** *** The memory *)

Definition set_objects (f : gmap ref Room → gmap ref Room) (m : Memory) : Memory :=
  mkMemory (f (objects m)) (active m) (recorded m) (rows m) (chatted m) (outbox m).
Definition set_active (f : gmap string ref → gmap string ref) (m : Memory) : Memory :=
  mkMemory (objects m) (f (active m)) (recorded m) (rows m) (chatted m) (outbox m).
Definition set_recorded (f : gmap string string → gmap string string) (m : Memory) : Memory :=
  mkMemory (objects m) (active m) (f (recorded m)) (rows m) (chatted m) (outbox m).
Definition set_rows (f : gmap string RoomRow → gmap string RoomRow) (m : Memory) : Memory :=
  mkMemory (objects m) (active m) (recorded m) (f (rows m)) (chatted m) (outbox m).

#[global] Instance Room_inhabited : Inhabited Room :=
  populate (mkRoom "" "" false None 0 0 waiting "" 0 ∅).

(** A new object. *)
Definition alloc (room : Room) : Task ref :=
  Run (λ m, set_objects (<[fresh (dom (objects m)) := room]>) m)
      (λ m, Done (fresh (dom (objects m)))).

(** [room.field]: objects are never freed, so a reference is never
    dangling. *)
Definition field {A : Type} (room : ref) (f : Room → A) : Task A :=
  get (λ m, f (objects m !!! room)).

(** An assignment to fields of the room object. *)
Definition mutate (room : ref) (f : Room → Room) : Task unit :=
  modify (set_objects (alter f room)).

Definition send (t : Target) (msg : Message) (m : Memory) : Memory :=
  mkMemory (objects m) (active m) (recorded m) (rows m) (chatted m)
    (outbox m ++ [(t, msg)]).

Definition emit (t : Target) (msg : Message) : Task unit := modify (send t msg).

(** The rooms in memory: [activeRooms], each reference with its object. *)
Definition view (objs : gmap ref Room) (act : gmap string ref) : gmap string Room :=
  omap (λ room, objs !! room) act.
Arguments view : simpl never.

Definition rooms (m : Memory) : gmap string Room := view (objects m) (active m).

(** *** The database. A statement takes effect when it is issued; the
    function that issued it goes on after its [await]. *)

Definition saveRoomToDatabase (room : ref) : Task unit :=
  row ← field room row_of;
  modify (set_rows (<[row_id row := row]>));;
  await.

Definition deleteRoomFromDatabase (roomId : string) : Task unit :=
  modify (λ m, if bool_decide (roomId ∈ chatted m) then m
               else set_rows (delete roomId) m);;
  await.

Definition loadRoomFromDatabase (roomId : string) : Task (option ref) :=
  roomData ← get (λ m, rows m !! roomId);
  await;;
  match roomData with
  | None => mret None
  | Some row =>
      room ← alloc (mkRoom (row_id row) (row_name row) (is_private row) (row_password row)
                      (max_players row) 0 (row_status row) (created_by row)
                      (created_at row) ∅);
      mret (Some room)
  end.

(** [broadcastRoomListUpdate] *)
Definition broadcastRoomListUpdate : Task unit :=
  list ← get (λ m, room_list (rooms m));
  emit to_all (room_list_update list).

(** [createRoom]; [roomId] is the value of [uuidv4()], [hashed] that of
    [bcrypt.hash] and [now] that of [Date.now()]. *)
Definition createRoom (socket : Socket) (roomName : string) (isPrivate : bool)
    (password : option string) (maxPlayers : nat)
    (roomId hashed : string) (now : Z) : Task Socket :=
  let playerId := playerId_of socket in
  let playerName := playerName_of socket in
  hashedPassword ← match password with
                    | Some pw => if truthy pw then await;; mret (Some hashed) else mret None
                    | None => mret None
                    end;
  room ← alloc (mkRoom roomId roomName isPrivate hashedPassword maxPlayers 1 waiting
                   playerId now
                   {[ playerId := mkPlayer playerId (Some playerName) (socket_id socket)
                                    now false ]});
  (* Store room *)
  modify (set_active (<[roomId := room]>));;
  modify (set_recorded (<[playerId := roomId]>));;
  (* Save to database *)
  saveRoomToDatabase room;; await;;
  (* Join socket to room *)
  let socket :=
    mkSocket (socket_id socket) (Some playerId) (Some playerName) (Some roomId)
      ({[roomId]} ∪ channels socket) in
  emit (to_socket (socket_id socket)) (room_created roomId 1);;
  broadcastRoomListUpdate;;
  mret socket.

(** [leaveRoom] *)
Definition leaveRoom (socket : Socket) (roomId : string) : Task Socket :=
  let playerId := playerId_of socket in
  found ← get (λ m, active m !! roomId);
  match found with
  | None => mret socket   (* Room doesn't exist, nothing to do *)
  | Some room =>
      (* Remove player from room *)
      mutate room (λ o, with_players (delete playerId (players o)) o);;
      modify (set_recorded (delete playerId));;
      (* Leave socket room *)
      let socket :=
        mkSocket (socket_id socket) (socket_playerId socket) (socket_playerName socket)
          (socket_roomId socket) (channels socket ∖ {[roomId]}) in
      (* Notify other players *)
      count ← field room currentPlayers;
      emit (to_room roomId) (player_left playerId (socket_playerName socket) count);;
      (* If room is empty, clean it up *)
      count ← field room currentPlayers;
      (if bool_decide (count = 0)
       then modify (set_active (delete roomId));;
            deleteRoomFromDatabase roomId;; await
       else saveRoomToDatabase room;; await);;
      broadcastRoomListUpdate;;
      mret socket
  end.

(** [checkGameStart]; [startGame], on a [GameController] made on the spot,
    saves the game, which is taken to succeed, and sends [game-started]. *)
Definition checkGameStart (room : ref) : Task unit :=
  ready ← field room (λ o, bool_decide (currentPlayers o = 2) &&
                            bool_decide (status o = waiting));
  if (ready : bool) then
    mutate room (with_status playing);;
    (* startGame: await this.saveGameToDatabase(gameState) *)
    await;; await;;
    id ← field room room_id;
    emit (to_room id) (game_started id);;
    await;;
    saveRoomToDatabase room;; await
  else mret ().

(** [joinRoom]; [passwordValid] is the value of [bcrypt.compare] and [now]
    that of [Date.now()]. *)
Definition joinRoom (socket : Socket) (roomId playerName : string)
    (password : option string) (passwordValid : bool) (now : Z) : Task Socket :=
  let playerId := playerId_of socket in
  let reject code :=
    emit (to_socket (socket_id socket)) (room_error code);; mret socket in
  (* Get room *)
  found ← get (λ m, active m !! roomId);
  found ← match found with
           | Some room => mret (Some room)
           | None =>
               loaded ← loadRoomFromDatabase roomId;
               await;;
               match loaded with
               | Some room => modify (set_active (<[roomId := room]>));; mret (Some room)
               | None => mret None
               end
           end;
  match found with
  | None => reject "ROOM_NOT_FOUND"
  | Some room =>
      (* Check if room is full *)
      full ← field room (λ o, bool_decide (maxPlayers o ≤ currentPlayers o)%nat);
      if (full : bool) then reject "ROOM_FULL"
      else
        (* Check password for private rooms *)
        needed ← field room (λ o, isPrivate o &&
                                   from_option truthy false (RoomController.password o));
        if needed && negb (from_option truthy false password)
        then reject "PASSWORD_REQUIRED"
        else
          valid ← (if (needed : bool) then await;; mret passwordValid else mret true);
          if negb valid then reject "INVALID_PASSWORD"
          else
            (* Check if player is already in another room *)
            currentRoom ← get (λ m, recorded m !! playerId);
            socket ← match currentRoom with
                      | Some currentRoom =>
                          if truthy currentRoom && negb (bool_decide (currentRoom = roomId))
                          then socket ← leaveRoom socket currentRoom; await;; mret socket
                          else mret socket
                      | None => mret socket
                      end;
            (* Add player to room *)
            let player := mkPlayer playerId (Some playerName) (socket_id socket) now false in
            mutate room (λ o, with_players (<[playerId := player]> (players o)) o);;
            modify (set_recorded (<[playerId := roomId]>));;
            (* Join socket to room *)
            let socket :=
              mkSocket (socket_id socket) (Some playerId) (Some playerName) (Some roomId)
                ({[roomId]} ∪ channels socket) in
            (* Update database *)
            saveRoomToDatabase room;; await;;
            (* Notify all players in room, send room state to joining player *)
            count ← field room currentPlayers;
            capacity ← field room maxPlayers;
            emit (to_room roomId) (player_joined playerId count capacity);;
            count ← field room currentPlayers;
            emit (to_socket (socket_id socket)) (room_joined roomId count capacity);;
            (* Check if we can start the game *)
            ready ← field room (λ o, bool_decide (currentPlayers o = 2) &&
                                      bool_decide (status o = waiting));
            (if (ready : bool) then checkGameStart room;; await else mret ());;
            broadcastRoomListUpdate;;
            mret socket
  end.

(** [handleDisconnect], up to its loop over spectators. *)
Definition handleDisconnect (socket : Socket) : Task Socket :=
  let playerId := playerId_of socket in
  roomId ← get (λ m, recorded m !! playerId);
  match roomId with
  | Some roomId =>
      if truthy roomId then socket ← leaveRoom socket roomId; await;; mret socket
      else mret socket
  | None => mret socket
  end.

(** *** The event loop *)

(** The memory and the handlers that wait at an [await]. Each handler
    holds the socket of its client and returns it as it left it: handlers
    that overlap are handlers of different clients. *)
Record Loop : Type := mkLoop {
  memory : Memory;
  waiting_tasks : list (Task Socket)
}.

(** What the loop does next: it calls the handler of an event that came in,
    or it resumes one of the handlers that wait. *)
Inductive Turn : Type :=
  | Call (handler : Task Socket)
  | Resume (i : nat).

Definition settle (keep : list (Task Socket)) (r : (Socket + Task Socket) * Memory) : Loop :=
  match r.1 with
  | inl _ => mkLoop r.2 keep
  | inr k => mkLoop r.2 (keep ++ [k])
  end.

Definition turn (t : Turn) (l : Loop) : Loop :=
  match t with
  | Call handler => settle (waiting_tasks l) (advance handler (memory l))
  | Resume i =>
      match waiting_tasks l !! i with
      | Some k => settle (delete i (waiting_tasks l)) (advance k (memory l))
      | None => l
      end
  end.

Definition run (turns : list Turn) (l : Loop) : Loop := foldl (λ l t, turn t l) l turns.

(** The number of [await]s at which a handler that runs alone waits. *)
Fixpoint awaits {A : Type} (t : Task A) (m : Memory) : nat :=
  match t with
  | Done _ => 0
  | Run f k => awaits (k m) (f m)
  | Await k => S (awaits k m)
  end.

(** *** Handlers that run one at a time *)

(** The state that handlers run one at a time see: each room of
    [activeRooms] in place of its reference. *)
Definition flatten (m : Memory) : State :=
  mkState (rooms m) (recorded m) (rows m) (chatted m) (outbox m).

(** Every reference of [activeRooms] leads to an object, and to a different
    one for each room id. *)
Definition sound (objs : gmap ref Room) (act : gmap string ref) : Prop :=
  (∀ rid room, act !! rid = Some room → is_Some (objs !! room)) ∧
  (∀ rid1 rid2 room, act !! rid1 = Some room → act !! rid2 = Some room → rid1 = rid2).

Definition well_formed (m : Memory) : Prop := sound (objects m) (active m).

(** An [INSERT] of [saveChatMessageToDatabase] that succeeds. *)
Definition chat_row_inserted (roomId : string) (m : Memory) : Memory :=
  mkMemory (objects m) (active m) (recorded m) (rows m) ({[roomId]} ∪ chatted m)
    (outbox m).

(** The calls that the events of the claim make on the controller; the
    payload of [create-room] has passed its schema and [uuidv4()] returns
    an id that is not in use. *)
Inductive request (m : Memory) : Task Socket → Prop :=
  | request_createRoom socket roomName isPrivate password maxPlayers roomId hashed now :
      (2 ≤ maxPlayers ≤ 10)%nat → active m !! roomId = None →
      request m (createRoom socket roomName isPrivate password maxPlayers roomId hashed now)
  | request_joinRoom socket roomId playerName password passwordValid now :
      request m (joinRoom socket roomId playerName password passwordValid now)
  | request_leaveRoom socket roomId :
      request m (leaveRoom socket roomId)
  | request_disconnect socket :
      request m (handleDisconnect socket).

(** The memories reached from a start of the process, whatever rows the
    database holds then, when every handler returns before the next one is
    called. A chat message may be stored in between. *)
Inductive serial : Memory → Prop :=
  | serial_boot table refs : serial (mkMemory ∅ ∅ ∅ table refs [])
  | serial_call m handler :
      serial m → request m handler → serial (finish handler m).2
  | serial_chat m roomId :
      serial m → is_Some (rows m !! roomId) → serial (chat_row_inserted roomId m).

(** *** Example runs *)

(** [p] creates room A, for two players; [q] joins it and the game starts;
    then [q] leaves, or else [p] creates room B. *)
Definition alone1 : Socket * Memory :=
  finish (createRoom (Examples.connect "p") "Alpha" false None 2 Examples.room_a "" 0) empty.
Definition alone2 : Socket * Memory :=
  finish (joinRoom (Examples.connect "q") Examples.room_a "Quinn" None false 1) alone1.2.
Definition alone3 : Socket * Memory := finish (leaveRoom alone2.1 Examples.room_a) alone2.2.
Definition alone5 : Socket * Memory :=
  finish (createRoom alone1.1 "Beta" false None 2 Examples.room_b "" 2) alone2.2.

(** [p] creates room A, private, for two players. *)
Definition private_start : Socket * Memory :=
  finish (createRoom (Examples.connect "p") "Alpha" true (Some "secret") 2
            Examples.room_a "hash" 0) empty.
Definition private_room : Memory := private_start.2.

(** A join to room A with the right password. *)
Definition join (who : string) (now : Z) : Task Socket :=
  joinRoom (Examples.connect who) Examples.room_a who (Some "secret") true now.

(** [a] and [b] ask to join room A before the password of either has been
    compared: both handlers wait at [bcrypt.compare], past the test of
    ROOM_FULL; each is resumed in its turn until it returns. *)
Definition overlapping_joins : Loop :=
  run ([Call (join "a" 1); Call (join "b" 2)] ++ replicate 14 (Resume 0))
    (mkLoop private_room []).

(** [a] asks to join room A, and while the password is compared [p], the
    only member, leaves the room, which is removed; then both handlers are
    resumed until they return. *)
Definition join_while_leaving : Loop :=
  run ([Call (join "a" 1); Call (leaveRoom private_start.1 Examples.room_a)]
         ++ replicate 12 (Resume 0))
    (mkLoop private_room []).

End RoomAsync.

(** ** Facts about [GameService] *)

Module GameServiceFacts.

Import GameService.

Lemma is_3x3_inv (b : Board) :
  is_3x3 b → ∃ c00 c01 c02 c10 c11 c12 c20 c21 c22 : Cell,
    b = [[c00; c01; c02]; [c10; c11; c12]; [c20; c21; c22]].
Proof.
  intros [Hlen Hrows].
  destruct b as [|r0 [|r1 [|r2 [|? ?]]]]; try discriminate.
  inversion Hrows as [|? ? H0 Hrows1]; subst.
  inversion Hrows1 as [|? ? H1 Hrows2]; subst.
  inversion Hrows2 as [|? ? H2 _]; subst.
  destruct r0 as [|? [|? [|? [|? ?]]]]; try discriminate.
  destruct r1 as [|? [|? [|? [|? ?]]]]; try discriminate.
  destruct r2 as [|? [|? [|? [|? ?]]]]; try discriminate.
  repeat eexists.
Qed.

(** On a 3×3 board, reading a position of the grid never throws and never
    gives [undefined]. *)
Lemma board_at_grid (b : Board) (p : Pos) :
  is_3x3 b → in_grid p → board_at b p = Ret (Some (cell b p)).
Proof.
  intros Hb [Hx Hy]. destruct (is_3x3_inv b Hb) as (?&?&?&?&?&?&?&?&?&->).
  destruct p as [px py]; simpl in *.
  destruct px as [|[|[|px]]]; try lia; destruct py as [|[|[|py]]]; try lia; reflexivity.
Qed.

Lemma board_at_cell (b : Board) (p : Pos) (v : JsCell) :
  board_at b p = Ret v → cell b p = key_of v.
Proof.
  unfold board_at, cell. destruct (b !! p.1) as [row|]; simpl; [|discriminate].
  intros [= <-]. by destruct (row !! p.2).
Qed.

Lemma line_test_true (c1 c2 c3 : JsCell) :
  line_test c1 c2 c3 = true ↔
  ∃ k, c1 = Some (Some k) ∧ c2 = Some (Some k) ∧ c3 = Some (Some k).
Proof.
  unfold line_test, strict_eq, truthy. split.
  - intros H. apply andb_prop in H as [H H3]. apply andb_prop in H as [H1 H2].
    apply bool_decide_eq_true in H2, H3. subst.
    destruct c3 as [[k|]|]; try discriminate. by exists k.
  - intros (k & -> & -> & ->). simpl. by rewrite !bool_decide_eq_true_2.
Qed.

(** [checkWinner] and [getWinningCombination] run the same loop. *)
Lemma loops_agree (b : Board) (cs : list Combination) :
  agree b cs (checkWinner_loop b cs) (getWinningCombination_loop b cs).
Proof.
  induction cs as [|[[p1 p2] p3] cs IH]; simpl.
  - constructor. intros c k Hc. by apply not_elem_of_nil in Hc.
  - destruct (board_at b p1) as [c1|e] eqn:E1; simpl; [|constructor].
    destruct (board_at b p2) as [c2|e] eqn:E2; simpl; [|constructor].
    destruct (board_at b p3) as [c3|e] eqn:E3; simpl; [|constructor].
    destruct (line_test c1 c2 c3) eqn:Ht.
    + apply line_test_true in Ht as (k & -> & -> & ->). simpl.
      apply agree_some; [left|].
      apply board_at_cell in E1, E2, E3. by repeat split.
    + inversion IH as [e He1 He2 | Hnone He1 He2 | k c Hc Hl He1 He2].
      * constructor.
      * constructor. intros c k Hc Hl.
        apply elem_of_cons in Hc as [->|Hc]; [|by eapply Hnone].
        destruct Hl as (H1 & H2 & H3); simpl in *.
        apply board_at_cell in E1, E2, E3.
        assert (line_test c1 c2 c3 = true); [|congruence].
        apply line_test_true. exists k.
        rewrite E1 in H1. rewrite E2 in H2. rewrite E3 in H3.
        destruct c1 as [[?|]|], c2 as [[?|]|], c3 as [[?|]|]; simpl in *; by simplify_eq.
      * apply agree_some; [by right | done].
Qed.

Lemma combinations_in_grid :
  Forall (λ c : Combination, in_grid c.1.1 ∧ in_grid c.1.2 ∧ in_grid c.2)
    WINNING_COMBINATIONS.
Proof. unfold in_grid. repeat constructor. Qed.

Lemma checkWinner_loop_total (b : Board) (cs : list Combination) :
  is_3x3 b →
  Forall (λ c : Combination, in_grid c.1.1 ∧ in_grid c.1.2 ∧ in_grid c.2) cs →
  ∃ r, checkWinner_loop b cs = Ret r.
Proof.
  intros Hb. induction 1 as [|[[p1 p2] p3] cs (H1 & H2 & H3) _ IH]; simpl; [by eexists|].
  simpl in *. rewrite !board_at_grid by done. simpl.
  destruct (line_test _ _ _); [by eexists | done].
Qed.

(** On a 3×3 board the two functions return, and their results are related
    as [agree] says. *)
Lemma winner_and_combination (b : Board) :
  is_3x3 b →
  ∃ w c, checkWinner b = Ret w ∧ getWinningCombination b = Ret c ∧
    ((w = None ∧ c = None ∧ ∀ c' k, c' ∈ WINNING_COMBINATIONS → ¬ line_of b k c') ∨
     (∃ k c', w = Some k ∧ c = Some c' ∧ c' ∈ WINNING_COMBINATIONS ∧ line_of b k c')).
Proof.
  intros Hb. destruct (checkWinner_loop_total b _ Hb combinations_in_grid) as [r Hr].
  pose proof (loops_agree b WINNING_COMBINATIONS) as Ha.
  unfold checkWinner, getWinningCombination. rewrite Hr in Ha |- *.
  inversion Ha as [ | Hnone | k c Hc Hl]; subst.
  - exists None, None. split_and!; [done | done |]. left. by split_and!.
  - exists (Some k), (Some c). split_and!; [done | done |]. right. by exists k, c.
Qed.

Lemma no_line_before (b : Board) :
  is_3x3 b → checkWinner b = Ret None →
  ∀ k c, c ∈ WINNING_COMBINATIONS → ¬ line_of b k c.
Proof.
  intros Hb Hw k c Hc Hl.
  destruct (winner_and_combination b Hb) as (w & c' & Hr & _ & Hcases).
  rewrite Hw in Hr. injection Hr as <-.
  destruct Hcases as [(_ & _ & Hnone) | (k' & c'' & Hk & _)]; [|discriminate].
  by apply (Hnone c k).
Qed.

(** A cell holds a key when its row is in the board and its column in the
    row. *)
Lemma cell_lookup (b : Board) (p : Pos) (k : PlayerKey) :
  cell b p = Some k ↔ ∃ row, b !! p.1 = Some row ∧ row !! p.2 = Some (Some k).
Proof.
  unfold cell. split.
  - destruct (b !! p.1) as [row|]; simpl; [|done].
    destruct (row !! p.2) as [c|] eqn:Hc; simpl; [|done]. intros ->. eauto.
  - intros (row & -> & Hc). simpl. by rewrite Hc.
Qed.

Lemma line_all_equal (b : Board) (k : PlayerKey) (c : Combination) :
  line_of b k c ↔ all_equal b k [c.1.1; c.1.2; c.2].
Proof.
  unfold line_of, all_equal. rewrite !cell_lookup. split.
  - intros (H1 & H2 & H3) p Hp.
    repeat (apply elem_of_cons in Hp as [->|Hp]; [done|]). by apply not_elem_of_nil in Hp.
  - intros Hall. split_and!; apply Hall; set_solver.
Qed.

(** The table of the code lists the eight triples. *)
Lemma triples_table :
  triples = (λ c : Combination, [c.1.1; c.1.2; c.2]) <$> WINNING_COMBINATIONS.
Proof. reflexivity. Qed.

Lemma line_in_triples (b : Board) (k : PlayerKey) :
  (∃ c, c ∈ WINNING_COMBINATIONS ∧ line_of b k c) ↔
  (∃ t, t ∈ triples ∧ all_equal b k t).
Proof.
  rewrite triples_table. split.
  - intros (c & Hc & Hl). exists [c.1.1; c.1.2; c.2]. split.
    + apply list_elem_of_fmap. eauto.
    + by apply line_all_equal.
  - intros (t & Ht & Hall). apply list_elem_of_fmap in Ht as (c & -> & Hc).
    exists c. split; [done|]. by apply line_all_equal.
Qed.

(** C2. For every 3×3 board, [checkWinner] returns a player key (and not
    [null]) exactly when one of the 8 triples (the 3 rows, the 3 columns and
    the 2 diagonals of the grid) has its three cells equal and non-empty,
    and the key returned is the occupant of such a triple. *)
Theorem checkWinner_spec (b : Board) :
  is_3x3 b →
  length triples = 8%nat ∧
  ∃ r, checkWinner b = Ret r ∧
    (r ≠ None ↔ ∃ k t, t ∈ triples ∧ all_equal b k t) ∧
    (∀ k, r = Some k → ∃ t, t ∈ triples ∧ all_equal b k t).
Proof.
  intros Hb. split; [reflexivity|].
  destruct (winner_and_combination b Hb) as (w & c & Hw & _ & Hcases).
  exists w. split; [done|].
  destruct Hcases as [(-> & _ & Hnone) | (k & c' & -> & _ & Hc & Hl)].
  - split; [|done]. split; [done|]. intros (k & t & Ht & Hall).
    destruct (proj2 (line_in_triples b k)) as (c' & Hc & Hl); [eauto|].
    by destruct (Hnone c' k).
  - assert (∃ t, t ∈ triples ∧ all_equal b k t) as Hex
      by (apply line_in_triples; eauto).
    split; [|by intros k' [= <-]]. split; [|done].
    intros _. destruct Hex as (t & Ht & Hall). eauto.
Qed.

Lemma checkWinner_spec_witness :
  let b := Examples.b_diagonal in
  is_3x3 b ∧
  checkWinner b = Ret (Some player1) ∧
  all_equal b player1 [(0, 0); (1, 1); (2, 2)]%nat ∧
  length triples = 8%nat ∧
  ∃ r, checkWinner b = Ret r ∧
    (r ≠ None ↔ ∃ k t, t ∈ triples ∧ all_equal b k t) ∧
    (∀ k, r = Some k → ∃ t, t ∈ triples ∧ all_equal b k t).
Proof.
  cbv zeta.
  assert (is_3x3 Examples.b_diagonal) as Hb by (split; [reflexivity | repeat constructor]).
  split; [exact Hb|]. split; [reflexivity|]. split.
  - intros p Hp.
    repeat (apply elem_of_cons in Hp as [->|Hp]; [eexists; split; reflexivity|]).
    by apply not_elem_of_nil in Hp.
  - exact (checkWinner_spec Examples.b_diagonal Hb).
Defined.

(** C10. For every 3×3 board, [getWinningCombination] returns a combination
    (and not [null]) exactly when [checkWinner] returns a player key, and
    then the three cells of that combination hold the key that
    [checkWinner] returns. *)
Theorem getWinningCombination_agrees (b : Board) :
  is_3x3 b →
  ∃ w c, checkWinner b = Ret w ∧ getWinningCombination b = Ret c ∧
    (c ≠ None ↔ w ≠ None) ∧
    (∀ k combo, w = Some k → c = Some combo →
       combo ∈ WINNING_COMBINATIONS ∧ line_of b k combo).
Proof.
  intros Hb. destruct (winner_and_combination b Hb) as (w & c & Hw & Hc & Hcases).
  exists w, c. split_and!; [done | done | |].
  - destruct Hcases as [(-> & -> & _) | (k & c' & -> & -> & _)]; done.
  - intros k combo -> ->.
    destruct Hcases as [(? & _) | (k' & c' & [= <-] & [= <-] & Hin & Hl)]; done.
Qed.

Lemma getWinningCombination_agrees_witness :
  is_3x3 Examples.b_diagonal ∧
  ∃ w c, checkWinner Examples.b_diagonal = Ret w ∧
    getWinningCombination Examples.b_diagonal = Ret c ∧
    (c ≠ None ↔ w ≠ None) ∧
    (∀ k combo, w = Some k → c = Some combo →
       combo ∈ WINNING_COMBINATIONS ∧ line_of Examples.b_diagonal k combo).
Proof.
  assert (is_3x3 Examples.b_diagonal) as Hb by (split; [reflexivity | repeat constructor]).
  split; [exact Hb | exact (getWinningCombination_agrees Examples.b_diagonal Hb)].
Defined.

(** The diagonal of the example board is found by both functions. *)
Example diagonal_found :
  checkWinner Examples.b_diagonal = Ret (Some player1) ∧
  getWinningCombination Examples.b_diagonal = Ret (Some ((0, 0), (1, 1), (2, 2)))%nat.
Proof. split; reflexivity. Qed.

Lemma isValidCoordinate_true (x y : JsArg) :
  isValidCoordinate x y = true ↔ in_bounds x y.
Proof.
  unfold isValidCoordinate, in_bounds, BOARD_SIZE.
  change (Z.of_nat 3) with 3%Z. split.
  - destruct x as [a|], y as [b|]; try discriminate.
    rewrite !andb_true_iff, !bool_decide_eq_true. intros. exists a, b.
    split_and!; [done | done | lia..].
  - intros (i & j & -> & -> & Hi & Hj).
    rewrite !andb_true_iff, !bool_decide_eq_true. lia.
Qed.

Lemma in_bounds_grid (x y : JsArg) : in_bounds x y → in_grid (index x, index y).
Proof. intros (i & j & -> & -> & Hi & Hj). unfold in_grid; simpl. lia. Qed.

(** [validateMove] returns the verdict of its checks and the store it was
    given. *)
Lemma validateMove_run (h : Heap) (l : loc) (g : GameState) (pid : string) (x y : JsArg) :
  h !! l = Some g → is_3x3 (board g) →
  validateMove l pid x y h = Ret (verdict g pid x y, h).
Proof.
  intros Hl Hb. unfold validateMove, verdict, mbind, M_bind, read, mret, M_ret, lift.
  rewrite Hl. destruct (negb (bool_decide (status g = playing))); [done|].
  rewrite Hl. destruct (negb (bool_decide (Some pid = currentPlayerId g))); [done|].
  destruct (isValidCoordinate x y) eqn:Hc; simpl; [|done].
  rewrite Hl. apply isValidCoordinate_true, in_bounds_grid in Hc.
  rewrite (board_at_grid _ _ Hb Hc). unfold strict_eq.
  destruct (decide (cell (board g) (index x, index y) = None)) as [->|Hne].
  - by rewrite !bool_decide_eq_true_2.
  - rewrite !bool_decide_eq_false_2; [done | done | congruence].
Qed.

Lemma verdict_cases (g : GameState) (pid : string) (x y : JsArg) :
  let v := verdict g pid x y in
  (v = Valid ↔
     status g = playing ∧ currentPlayerId g = Some pid ∧ in_bounds x y ∧
     cell (board g) (index x, index y) = None) ∧
  (v = Invalid GAME_NOT_ACTIVE ↔ status g ≠ playing) ∧
  (v = Invalid NOT_YOUR_TURN ↔ status g = playing ∧ currentPlayerId g ≠ Some pid) ∧
  (v = Invalid INVALID_COORDINATES ↔
     status g = playing ∧ currentPlayerId g = Some pid ∧ ¬ in_bounds x y) ∧
  (v = Invalid CELL_OCCUPIED ↔
     status g = playing ∧ currentPlayerId g = Some pid ∧ in_bounds x y ∧
     cell (board g) (index x, index y) ≠ None).
Proof.
  cbv zeta. unfold verdict. rewrite <- isValidCoordinate_true.
  destruct (decide (status g = playing)) as [Hs|Hs];
    [rewrite bool_decide_eq_true_2 by done | rewrite bool_decide_eq_false_2 by done]; simpl.
  2: { split_and!; split; try done; intuition congruence. }
  destruct (decide (Some pid = currentPlayerId g)) as [Hp|Hp];
    [rewrite bool_decide_eq_true_2 by done | rewrite bool_decide_eq_false_2 by done]; simpl.
  2: { split_and!; split; try done; intuition congruence. }
  destruct (isValidCoordinate x y) eqn:Hc; simpl.
  2: { split_and!; split; try done; intuition congruence. }
  destruct (decide (cell (board g) (index x, index y) = None)) as [Hn|Hn];
    [rewrite bool_decide_eq_true_2 by done | rewrite bool_decide_eq_false_2 by done]; simpl.
  - split_and!; split; try done; intuition congruence.
  - split_and!; split; try done; intuition congruence.
Qed.

(** The conditions of [validateMove], in the words of the specification. *)
Lemma currentPlayerId_spec (g : GameState) (pid : string) :
  currentPlayerId g = Some pid ↔ is_current_player g pid.
Proof.
  unfold currentPlayerId, is_current_player, player.
  destruct (currentPlayer g).
  - destruct (first (players g)) as [p|]; simpl.
    + split; [intros [= <-]; eauto | by intros (p' & [= <-] & ->)].
    + split; [done | by intros (p' & ? & _)].
  - destruct (second (players g)) as [p|]; simpl.
    + split; [intros [= <-]; eauto | by intros (p' & [= <-] & ->)].
    + split; [done | by intros (p' & ? & _)].
Qed.

Lemma target_spec (g : GameState) (x y : JsArg) (c : Cell) :
  is_3x3 (board g) → in_bounds x y →
  (cell (board g) (index x, index y) = c ↔ target g x y c).
Proof.
  intros Hb (i & j & -> & -> & Hi & Hj). unfold target, cell. simpl.
  destruct (is_3x3_inv _ Hb) as (c00&c01&c02&c10&c11&c12&c20&c21&c22&Hboard).
  assert (∃ row, board g !! Z.to_nat i = Some row ∧ is_Some (row !! Z.to_nat j))
    as (row & Hrow & [c' Hc']).
  { rewrite Hboard.
    assert (Z.to_nat i = 0 ∨ Z.to_nat i = 1 ∨ Z.to_nat i = 2)%nat as Hi' by lia.
    assert (Z.to_nat j = 0 ∨ Z.to_nat j = 1 ∨ Z.to_nat j = 2)%nat as Hj' by lia.
    destruct Hi' as [-> | [-> | ->]], Hj' as [-> | [-> | ->]];
      eexists; split; try reflexivity; eexists; reflexivity. }
  rewrite Hrow. simpl. unfold Cell in *. rewrite Hc'. simpl. split.
  - intros <-. exists (Z.to_nat i), (Z.to_nat j), row.
    rewrite !Z2Nat.id by lia. done.
  - intros (i' & j' & row' & [= Hii] & [= Hjj] & Hrow' & Hcell). subst i j.
    rewrite !Nat2Z.id in Hrow, Hc'. congruence.
Qed.

(** C1. On a state with a 3×3 board, [validateMove] accepts the move if and
    only if the status is [playing], the mover's id is the id of the current
    player, both coordinates are integers in [[0, 2]] and the target cell is
    empty; otherwise it fails with the reason of the first check that does
    not hold, in the order GAME_NOT_ACTIVE, NOT_YOUR_TURN,
    INVALID_COORDINATES, CELL_OCCUPIED; and the store is returned as it
    was. *)
Theorem validateMove_spec (h : Heap) (l : loc) (g : GameState) (pid : string)
    (x y : JsArg) :
  h !! l = Some g → is_3x3 (board g) →
  ∃ v, validateMove l pid x y h = Ret (v, h) ∧
    (v = Valid ↔
       status g = playing ∧ is_current_player g pid ∧ in_bounds x y ∧
       target g x y None) ∧
    (v = Invalid GAME_NOT_ACTIVE ↔ status g ≠ playing) ∧
    (v = Invalid NOT_YOUR_TURN ↔ status g = playing ∧ ¬ is_current_player g pid) ∧
    (v = Invalid INVALID_COORDINATES ↔
       status g = playing ∧ is_current_player g pid ∧ ¬ in_bounds x y) ∧
    (v = Invalid CELL_OCCUPIED ↔
       status g = playing ∧ is_current_player g pid ∧ in_bounds x y ∧
       ∃ k, target g x y (Some k)).
Proof.
  intros Hl Hb. exists (verdict g pid x y).
  split; [by apply validateMove_run|].
  destruct (verdict_cases g pid x y) as (H1 & H2 & H3 & H4 & H5).
  rewrite <- currentPlayerId_spec. split_and!; [| done | done | done |].
  - rewrite H1. split.
    + intros (? & ? & Hxy & Hc). split_and!; try done. by apply target_spec.
    + intros (? & ? & Hxy & Hc). split_and!; try done. by apply target_spec.
  - rewrite H5. split.
    + intros (? & ? & Hxy & Hc). split_and!; try done.
      destruct (cell (board g) (index x, index y)) as [k|] eqn:Hk; [|done].
      exists k. by apply target_spec.
    + intros (? & ? & Hxy & k & Hc). split_and!; try done.
      apply target_spec in Hc; [|done..]. congruence.
Qed.

Lemma validateMove_spec_witness :
  let h := Examples.h_start in
  let g := Examples.g_start in
  let x := Integer 1 in
  let y := Integer 2 in
  (h !! 1%positive = Some g ∧ is_3x3 (board g)) ∧
  validateMove 1%positive "a" x y h = Ret (Valid, h) ∧
  validateMove 1%positive "b" x y h = Ret (Invalid NOT_YOUR_TURN, h) ∧
  (status g = playing ∧ is_current_player g "a" ∧ in_bounds x y ∧ target g x y None) ∧
  ∃ v, validateMove 1%positive "a" x y h = Ret (v, h) ∧
    (v = Valid ↔
       status g = playing ∧ is_current_player g "a" ∧ in_bounds x y ∧
       target g x y None) ∧
    (v = Invalid GAME_NOT_ACTIVE ↔ status g ≠ playing) ∧
    (v = Invalid NOT_YOUR_TURN ↔ status g = playing ∧ ¬ is_current_player g "a") ∧
    (v = Invalid INVALID_COORDINATES ↔
       status g = playing ∧ is_current_player g "a" ∧ ¬ in_bounds x y) ∧
    (v = Invalid CELL_OCCUPIED ↔
       status g = playing ∧ is_current_player g "a" ∧ in_bounds x y ∧
       ∃ k, target g x y (Some k)).
Proof.
  cbv zeta.
  assert (Examples.h_start !! 1%positive = Some Examples.g_start) as Hl by reflexivity.
  assert (is_3x3 (board Examples.g_start)) as Hb
    by (split; [reflexivity | repeat constructor]).
  split; [by split|]. split; [reflexivity|]. split; [reflexivity|]. split.
  - split_and!.
    + reflexivity.
    + eexists. split; reflexivity.
    + exists 1%Z, 2%Z. split_and!; [reflexivity | reflexivity | lia | lia | lia | lia].
    + exists 1%nat, 2%nat, [None; None; None]. split_and!; reflexivity.
  - exact (validateMove_spec Examples.h_start 1%positive Examples.g_start "a"
             (Integer 1) (Integer 2) Hl Hb).
Defined.

(** The four rejections and an accepted move, on the example game. *)
Example validateMove_examples :
  let h := Examples.h_start in
  validateMove 1%positive "a" (Integer 1) (Integer 2) h = Ret (Valid, h) ∧
  validateMove 1%positive "b" (Integer 1) (Integer 2) h = Ret (Invalid NOT_YOUR_TURN, h) ∧
  validateMove 1%positive "a" (Integer 3) (Integer 0) h
    = Ret (Invalid INVALID_COORDINATES, h) ∧
  validateMove 1%positive "a" NotInteger (Integer 0) h
    = Ret (Invalid INVALID_COORDINATES, h) ∧
  validateMove 1%positive "a" (Integer 0) (Integer 0)
    {[ 1%positive := set_board Examples.b_diagonal Examples.g_start ]}
    = Ret (Invalid CELL_OCCUPIED,
           {[ 1%positive := set_board Examples.b_diagonal Examples.g_start ]}) ∧
  validateMove 1%positive "a" (Integer 1) (Integer 2)
    {[ 1%positive := set_status finished Examples.g_start ]}
    = Ret (Invalid GAME_NOT_ACTIVE,
           {[ 1%positive := set_status finished Examples.g_start ]}).
Proof. cbv zeta. split_and!; reflexivity. Qed.

(** [validateMove] never writes to the store. *)
Lemma validateMove_pure (h h' : Heap) (l : loc) (pid : string) (x y : JsArg)
    (v : Validation) :
  validateMove l pid x y h = Ret (v, h') → h' = h.
Proof.
  unfold validateMove, mbind, M_bind, read, mret, M_ret, lift.
  destruct (h !! l) as [g|] eqn:Hl; [|discriminate].
  destruct (negb (bool_decide (status g = playing))); [congruence|].
  rewrite Hl. destruct (negb (bool_decide (Some pid = currentPlayerId g))); [congruence|].
  destruct (negb (isValidCoordinate x y)); [congruence|].
  rewrite Hl. destruct (board_at (board g) (index x, index y)); [|discriminate].
  destruct (negb _); congruence.
Qed.

(** C4. When validation fails, [makeMove] returns an unsuccessful result
    with the reason of the validation, and the store is unchanged: the game
    state read afterwards has the same board, current player and move
    history. *)
Theorem makeMove_rejected (h h' : Heap) (l : loc) (pid : string) (x y : JsArg)
    (t1 t2 t3 : Z) (r : Reason) :
  validateMove l pid x y h = Ret (Invalid r, h') →
  ∃ h'', makeMove l pid x y t1 t2 t3 h = Ret (Failure r, h'') ∧ h'' = h ∧
    ∀ g, h !! l = Some g →
      ∃ g', h'' !! l = Some g' ∧ board g' = board g ∧
            currentPlayer g' = currentPlayer g ∧ moveHistory g' = moveHistory g.
Proof.
  intros Hv. pose proof (validateMove_pure _ _ _ _ _ _ _ Hv) as ->.
  exists h. split_and!; [|done|by eauto].
  unfold makeMove, mbind, M_bind at 1. by rewrite Hv.
Qed.

Lemma makeMove_rejected_witness :
  let h := Examples.h_start in
  validateMove 1%positive "b" (Integer 1) (Integer 2) h = Ret (Invalid NOT_YOUR_TURN, h) ∧
  ∃ h'', makeMove 1%positive "b" (Integer 1) (Integer 2) 5 6 7 h
           = Ret (Failure NOT_YOUR_TURN, h'') ∧ h'' = h ∧
    ∀ g, h !! 1%positive = Some g →
      ∃ g', h'' !! 1%positive = Some g' ∧ board g' = board g ∧
            currentPlayer g' = currentPlayer g ∧ moveHistory g' = moveHistory g.
Proof.
  cbv zeta.
  assert (validateMove 1%positive "b" (Integer 1) (Integer 2) Examples.h_start
          = Ret (Invalid NOT_YOUR_TURN, Examples.h_start)) as Hv by reflexivity.
  split; [exact Hv|].
  exact (makeMove_rejected Examples.h_start Examples.h_start 1%positive "b"
           (Integer 1) (Integer 2) 5 6 7 NOT_YOUR_TURN Hv).
Defined.

Lemma read_insert {A : Type} (h : Heap) (l : loc) (g : GameState) (f : GameState → A) :
  read l f (<[l := g]> h) = Ret (f g, <[l := g]> h).
Proof. unfold read. by rewrite lookup_insert_eq. Qed.

Lemma assign_insert (h : Heap) (l : loc) (g : GameState) (f : GameState → GameState) :
  assign l f (<[l := g]> h) = Ret ((), <[l := f g]> h).
Proof. unfold assign. by rewrite lookup_insert_eq, insert_insert_eq. Qed.

(** The copy made by [deep_copy] is a new object. *)
Lemma deep_copy_fresh (h : Heap) (l : loc) (g : GameState) :
  h !! l = Some g →
  deep_copy l h = Ret (fresh (dom h), <[fresh (dom h) := g]> h) ∧
  h !! fresh (dom h) = None.
Proof.
  intros Hl. unfold deep_copy. rewrite Hl. split; [done|].
  apply not_elem_of_dom, is_fresh.
Qed.

Lemma board_set_3x3 (b : Board) (p : Pos) (v : Cell) : is_3x3 b → is_3x3 (board_set b p v).
Proof.
  intros Hb. destruct (is_3x3_inv b Hb) as (?&?&?&?&?&?&?&?&?&->).
  destruct p as [[|[|[|px]]] [|[|[|py]]]]; (split; [done | by repeat constructor]).
Qed.

Lemma cell_board_set (b : Board) (p q : Pos) (v : Cell) :
  is_3x3 b → in_grid p →
  cell (board_set b p v) q = if decide (q = p) then v else cell b q.
Proof.
  intros Hb [Hx Hy]. destruct (is_3x3_inv b Hb) as (?&?&?&?&?&?&?&?&?&->).
  destruct p as [px py], q as [qx qy]; simpl in *.
  destruct px as [|[|[|px]]]; try lia; destruct py as [|[|[|py]]]; try lia;
    destruct qx as [|[|[|qx]]]; destruct qy as [|[|[|qy]]];
    case_decide; simplify_eq; reflexivity.
Qed.

Lemma isBoardFull_loop_spec (b : Board) (ps : list Pos) :
  is_3x3 b → Forall in_grid ps →
  ∃ full : bool, isBoardFull_loop b ps = Ret full ∧
    (full = true ↔ ∀ p, p ∈ ps → cell b p ≠ None).
Proof.
  intros Hb. induction 1 as [|p ps Hp _ IH]; simpl.
  - exists true. split; [done|]. split; [|done]. intros _ p Hp. by apply not_elem_of_nil in Hp.
  - rewrite (board_at_grid _ _ Hb Hp). unfold strict_eq.
    destruct (cell b p) as [k|] eqn:Hn; simpl.
    + destruct IH as (full & -> & Hfull). exists full. split; [done|].
      rewrite Hfull. split.
      * intros Hall q Hq. apply elem_of_cons in Hq as [->|Hq]; [congruence | auto].
      * intros Hall q Hq. apply Hall. by right.
    + exists false. split; [done|].
      split; [done|]. intros Hall. destruct (Hall p); [left | done].
Qed.

Lemma positions_grid : Forall in_grid positions.
Proof. unfold in_grid. repeat constructor. Qed.

Lemma positions_all (p : Pos) : in_grid p → p ∈ positions.
Proof.
  destruct p as [px py]. intros [Hx Hy]; simpl in *.
  destruct px as [|[|[|px]]]; try lia; destruct py as [|[|[|py]]]; try lia;
    unfold positions; simpl; repeat (first [left | right]).
Qed.

(** On a 3×3 board, [isBoardFull] says whether every cell of the grid is
    occupied. *)
Lemma isBoardFull_spec (b : Board) :
  is_3x3 b →
  ∃ full : bool, isBoardFull b = Ret full ∧
    (full = true ↔ ∀ p, in_grid p → cell b p ≠ None).
Proof.
  intros Hb.
  destruct (isBoardFull_loop_spec b positions Hb positions_grid) as (full & Hrun & Hfull).
  exists full. split; [done|]. rewrite Hfull. split.
  - intros Hall p Hp. by apply Hall, positions_all.
  - intros Hall p Hp. apply Hall.
    pose proof positions_grid as Hg. rewrite Forall_forall in Hg. by apply Hg.
Qed.

(** A line completed by a move on a board without line goes through the
    cell just played, so it belongs to the mover. *)
Lemma new_line_is_movers (b : Board) (p : Pos) (cur k : PlayerKey) (c : Combination) :
  is_3x3 b → in_grid p →
  (∀ k c, c ∈ WINNING_COMBINATIONS → ¬ line_of b k c) →
  c ∈ WINNING_COMBINATIONS → line_of (board_set b p (Some cur)) k c → k = cur.
Proof.
  intros Hb Hp Hnone Hc (H1 & H2 & H3).
  rewrite cell_board_set in H1, H2, H3 by done.
  repeat case_decide; try congruence.
  destruct (Hnone k c Hc). by repeat split.
Qed.

(** The run of [makeMove] on a valid move, from a state without complete
    line: the new state is written to a new object. *)
Lemma makeMove_steps (h : Heap) (l : loc) (g : GameState) (pid : string)
    (x y : JsArg) (t1 t2 t3 : Z) :
  h !! l = Some g → is_3x3 (board g) →
  verdict g pid x y = Valid →
  checkWinner (board g) = Ret None →
  ∃ g' : GameState,
    makeMove l pid x y t1 t2 t3 h
      = Ret (Success (fresh (dom h)), <[fresh (dom h) := g']> h) ∧
    h !! fresh (dom h) = None ∧
    in_bounds x y ∧
    board g' = board_set (board g) (index x, index y) (Some (currentPlayer g)) ∧
    moveHistory g' =
      (moveHistory g ++
         [mkMove pid (currentPlayer g) x y t2 (length (moveHistory g) + 1)])%list ∧
    let line := ∃ k c, c ∈ WINNING_COMBINATIONS ∧ line_of (board g') k c in
    let full := ∀ p, in_grid p → cell (board g') p ≠ None in
    (line ∧ status g' = finished ∧ winner g' = Some pid) ∨
    (¬ line ∧ full ∧ status g' = draw ∧ winner g' = winner g) ∨
    (¬ line ∧ ¬ full ∧ status g' = playing ∧ winner g' = winner g ∧
       currentPlayer g' = other (currentPlayer g)).
Proof.
  intros Hl Hb Hv Hw.
  pose proof (validateMove_run h l g pid x y Hl Hb) as Hrun. rewrite Hv in Hrun.
  destruct (verdict_cases g pid x y) as [[Hvalid _] _].
  destruct (Hvalid Hv) as (Hst & Hcur & Hxy & Hcell).
  pose proof (in_bounds_grid _ _ Hxy) as Hp.
  destruct (deep_copy_fresh h l g Hl) as [Hcopy Hfresh].
  set (l' := fresh (dom h)) in *.
  set (b' := board_set (board g) (index x, index y) (Some (currentPlayer g))).
  assert (is_3x3 b') as Hb' by by apply board_set_3x3.
  unfold currentPlayerId in Hcur.
  destruct (player (players g) (currentPlayer g)) as [mover|] eqn:Hmover; [|discriminate].
  injection Hcur as Hid.
  destruct (winner_and_combination b' Hb') as (w & c & Hwr & _ & Hcases).
  destruct (isBoardFull_spec b' Hb') as (full & Hfr & Hfull).
  unfold makeMove, mbind, M_bind at 1. rewrite Hrun.
  unfold mbind, M_bind at 1. rewrite Hcopy.
  unfold mbind, M_bind at 1. rewrite read_insert.
  unfold mbind, M_bind at 1. rewrite read_insert. rewrite Hmover.
  unfold mbind, M_bind at 1. unfold mret at 1, M_ret at 1.
  unfold mbind, M_bind at 1. rewrite assign_insert.
  unfold mbind, M_bind at 1. rewrite assign_insert.
  unfold mbind, M_bind at 1. rewrite assign_insert.
  unfold mbind, M_bind at 1. rewrite read_insert.
  cbn [board set_board set_lastMoveAt set_moveHistory moveHistory].
  fold b'.
  unfold mbind, M_bind at 1. unfold lift at 1. rewrite Hwr.
  destruct Hcases as [(-> & _ & Hnone) | (k & c' & -> & _ & Hc & Hline)].
  - (* no line: a draw, or the other player's turn *)
    assert (¬ ∃ k c, c ∈ WINNING_COMBINATIONS ∧ line_of b' k c) as Hnoline.
    { intros (k & c' & Hc & Hline). by apply (Hnone c' k). }
    unfold mbind, M_bind at 1.
    unfold mbind, M_bind at 1. unfold lift at 1. rewrite Hfr.
    destruct full.
    + unfold mbind, M_bind at 1. rewrite assign_insert. rewrite assign_insert.
      eexists. split; [reflexivity|].
      split_and!; try done.
      right; left. simpl. split_and!; try done. by apply Hfull.
    + rewrite assign_insert.
      eexists. split; [reflexivity|].
      split_and!; try done.
      right; right. simpl. split_and!; try done.
      intros Hall. by apply Hfull in Hall.
  - (* a line is complete: it is the mover's *)
    assert (k = currentPlayer g) as ->.
    { eapply (new_line_is_movers (board g) (index x, index y));
        [done | done | by apply no_line_before | exact Hc | exact Hline]. }
    unfold mbind, M_bind at 1.
    unfold mbind, M_bind at 1. rewrite assign_insert.
    unfold mbind, M_bind at 1. rewrite read_insert.
    cbn [players set_status set_board set_lastMoveAt set_moveHistory].
    rewrite Hmover.
    unfold mbind, M_bind at 1. rewrite assign_insert.
    rewrite assign_insert.
    eexists. split; [reflexivity|].
    split_and!; try done.
    left. simpl. split_and!; [by eauto | done | by rewrite Hid].
Qed.

(** C3, amended. For every state on which the move is valid, whose board
    is 3×3 with no complete line and whose winner is [null], [makeMove]
    returns a new state, the input state being left as it was: the chosen
    cell holds the mover's key and the other cells are unchanged; a move
    numbered with the former length of the history plus one is appended;
    and exactly one of these holds: a combination is complete, the status
    is [finished] and the winner is the mover's id; no combination is
    complete, the board is full, the status is [draw] and the winner is
    [null]; or the status stays [playing] and the current player changes
    to the other one. *)
Theorem makeMove_valid (h : Heap) (l : loc) (g : GameState) (pid : string)
    (x y : JsArg) (t1 t2 t3 : Z) :
  h !! l = Some g → is_3x3 (board g) →
  validateMove l pid x y h = Ret (Valid, h) →
  checkWinner (board g) = Ret None → winner g = None →
  ∃ (l' : loc) (g' : GameState),
    makeMove l pid x y t1 t2 t3 h = Ret (Success l', <[l' := g']> h) ∧
    l' ≠ l ∧ (<[l' := g']> h) !! l = Some g ∧
    in_bounds x y ∧
    (∀ p, cell (board g') p =
            if decide (p = (index x, index y)) then Some (currentPlayer g)
            else cell (board g) p) ∧
    moveHistory g' =
      (moveHistory g ++
         [mkMove pid (currentPlayer g) x y t2 (length (moveHistory g) + 1)])%list ∧
    let line := ∃ k c, c ∈ WINNING_COMBINATIONS ∧ line_of (board g') k c in
    let full := ∀ p, in_grid p → cell (board g') p ≠ None in
    (line ∧ status g' = finished ∧ winner g' = Some pid) ∨
    (¬ line ∧ full ∧ status g' = draw ∧ winner g' = None) ∨
    (¬ line ∧ ¬ full ∧ status g' = playing ∧ winner g' = None ∧
       currentPlayer g' = other (currentPlayer g)).
Proof.
  intros Hl Hb Hv Hw Hwin.
  pose proof (validateMove_run h l g pid x y Hl Hb) as Hrun.
  rewrite Hv in Hrun. injection Hrun as Hverdict.
  destruct (makeMove_steps h l g pid x y t1 t2 t3 Hl Hb (eq_sym Hverdict) Hw)
    as (g' & Hrun & Hfresh & Hxy & Hboard & Hhist & Hcases).
  exists (fresh (dom h)), g'.
  assert (fresh (dom h) ≠ l) as Hne by congruence.
  split_and!; [done | done | by rewrite lookup_insert_ne | done | | done |].
  - intros p. rewrite Hboard. apply cell_board_set; [done | by apply in_bounds_grid].
  - rewrite Hwin in Hcases. exact Hcases.
Qed.

Lemma makeMove_valid_witness :
  let h := Examples.h_start in
  let g := Examples.g_start in
  let x := Integer 1 in
  let y := Integer 2 in
  (h !! 1%positive = Some g ∧ is_3x3 (board g) ∧
   validateMove 1%positive "a" x y h = Ret (Valid, h) ∧
   checkWinner (board g) = Ret None ∧ winner g = None) ∧
  ∃ (l' : loc) (g' : GameState),
    makeMove 1%positive "a" x y 5 6 7 h = Ret (Success l', <[l' := g']> h) ∧
    l' ≠ 1%positive ∧ (<[l' := g']> h) !! 1%positive = Some g ∧
    in_bounds x y ∧
    (∀ p, cell (board g') p =
            if decide (p = (index x, index y)) then Some (currentPlayer g)
            else cell (board g) p) ∧
    moveHistory g' =
      (moveHistory g ++
         [mkMove "a" (currentPlayer g) x y 6 (length (moveHistory g) + 1)])%list ∧
    let line := ∃ k c, c ∈ WINNING_COMBINATIONS ∧ line_of (board g') k c in
    let full := ∀ p, in_grid p → cell (board g') p ≠ None in
    (line ∧ status g' = finished ∧ winner g' = Some "a") ∨
    (¬ line ∧ full ∧ status g' = draw ∧ winner g' = None) ∨
    (¬ line ∧ ¬ full ∧ status g' = playing ∧ winner g' = None ∧
       currentPlayer g' = other (currentPlayer g)).
Proof.
  cbv zeta.
  assert (Examples.h_start !! 1%positive = Some Examples.g_start) as Hl by reflexivity.
  assert (is_3x3 (board Examples.g_start)) as Hb
    by (split; [reflexivity | repeat constructor]).
  assert (validateMove 1%positive "a" (Integer 1) (Integer 2) Examples.h_start
          = Ret (Valid, Examples.h_start)) as Hv by reflexivity.
  assert (checkWinner (board Examples.g_start) = Ret None) as Hw by reflexivity.
  assert (winner Examples.g_start = None) as Hn by reflexivity.
  split; [by split_and!|].
  exact (makeMove_valid Examples.h_start 1%positive Examples.g_start "a"
           (Integer 1) (Integer 2) 5 6 7 Hl Hb Hv Hw Hn).
Defined.

(** C3, as stated, fails on a state that is marked as being played while
    the opponent already owns a line: the move is valid, the game is
    finished, and the winner recorded is the opponent, not the mover. *)
Lemma makeMove_prior_line :
  validateMove 1%positive "a" (Integer 1) (Integer 1) Examples.h_line
    = Ret (Valid, Examples.h_line) ∧
  ∃ l' g', makeMove 1%positive "a" (Integer 1) (Integer 1) 7 7 7 Examples.h_line
             = Ret (Success l', <[l' := g']> Examples.h_line) ∧
           status g' = finished ∧ winner g' = Some "b" ∧ winner g' ≠ Some "a".
Proof.
  split; [reflexivity|].
  eexists 2%positive, _. split; [vm_compute; reflexivity|].
  split_and!; [reflexivity | reflexivity | discriminate].
Qed.

(** The states built by [createGame] and [makeMove] are settled, so the
    precondition of [makeMove_valid] holds all along a game. *)
Lemma createGame_settled (uuid room : string) (ps : list (string * string)) (now : Z)
    (g : GameState) :
  createGame uuid room ps now = Ret g → settled g.
Proof.
  unfold createGame.
  destruct ps as [|[id1 name1] [|[id2 name2] [|? ?]]]; try discriminate.
  intros [= <-]. split; [split; [reflexivity | repeat constructor]|].
  intros _. split; reflexivity.
Qed.

Lemma createGame_numbered (uuid room : string) (ps : list (string * string)) (now : Z)
    (g : GameState) :
  createGame uuid room ps now = Ret g → numbered g.
Proof.
  unfold createGame.
  destruct ps as [|[id1 name1] [|[id2 name2] [|? ?]]]; try discriminate.
  by intros [= <-].
Qed.

Lemma makeMove_settled (h h' : Heap) (l l' : loc) (g : GameState) (pid : string)
    (x y : JsArg) (t1 t2 t3 : Z) :
  h !! l = Some g → settled g →
  makeMove l pid x y t1 t2 t3 h = Ret (Success l', h') →
  ∃ g', h' !! l' = Some g' ∧ h' !! l = Some g ∧ settled g' ∧
        (numbered g → numbered g').
Proof.
  intros Hl [Hb Hplay] Hrun.
  pose proof (validateMove_run h l g pid x y Hl Hb) as Hv.
  destruct (verdict g pid x y) as [|r] eqn:Hverdict.
  2: { unfold makeMove, mbind, M_bind at 1 in Hrun. rewrite Hv in Hrun. discriminate. }
  destruct (verdict_cases g pid x y) as [[Hvalid _] _].
  rewrite Hverdict in Hvalid. destruct (Hvalid eq_refl) as (Hst & _).
  destruct (Hplay Hst) as [Hw Hwin].
  destruct (makeMove_steps h l g pid x y t1 t2 t3 Hl Hb Hverdict Hw)
    as (g' & Hrun' & Hfresh & Hxy & Hboard & Hhist & Hcases).
  rewrite Hrun in Hrun'. injection Hrun' as -> ->.
  exists g'. rewrite lookup_insert_eq.
  assert (is_3x3 (board g')) as Hb' by (rewrite Hboard; by apply board_set_3x3).
  split_and!; [done | rewrite lookup_insert_ne; [done | congruence] | |].
  2: { unfold numbered. intros Hnum.
       rewrite Hhist, fmap_app, length_app, seq_app, Hnum. simpl.
       by rewrite Nat.add_comm. }
  split; [done|]. intros Hst'.
  destruct Hcases as [(_ & Hfin & _) | [(_ & _ & Hdraw & _) | (Hnoline & _ & _ & Hwin' & _)]];
    [congruence | congruence |].
  split; [|congruence].
  destruct (winner_and_combination (board g') Hb') as (w & c & Hwr & _ & Hc).
  destruct Hc as [(-> & _) | (k & c' & _ & _ & Hin & Hline)]; [done|].
  destruct Hnoline. eauto.
Qed.

End GameServiceFacts.

(** ** Facts about [GameController] *)

Module GameControllerFacts.

Import GameService GameController GameServiceFacts.

(** A move that fails validation is answered to the requesting socket
    alone: the games in memory and the store are as before, nothing is
    broadcast and nothing is written. *)
Lemma controller_reports_rejection (c : Controller) (room : string) (l : loc) (pid : string)
    (x y : JsArg) (loaded : option GameState) (db_ok : bool) (t1 t2 t3 : Z)
    (r : Reason) (h' : Heap) :
  activeGames c !! room = Some l →
  validateMove l pid x y (heap c) = Ret (Invalid r, h') →
  makeMove pid x y room loaded db_ok t1 t2 t3 c
  = mkController (activeGames c) (heap c) (effects c ++ [move_rejected r]).
Proof.
  intros Hgame Hv. pose proof (validateMove_pure _ _ _ _ _ _ _ Hv) as ->.
  unfold makeMove. rewrite Hgame, Hv. reflexivity.
Qed.

(** The moves of a short game, through the controller: the third move of
    the first player completes the first row. *)
Example first_row_wins :
  let c0 := mkController {[ "r" := 1%positive ]} Examples.h_start [] in
  let c1 := makeMove "a" (Integer 0) (Integer 0) "r" None true 1 1 1 c0 in
  let c2 := makeMove "b" (Integer 1) (Integer 1) "r" None true 2 2 2 c1 in
  let c3 := makeMove "a" (Integer 0) (Integer 1) "r" None true 3 3 3 c2 in
  let c4 := makeMove "b" (Integer 2) (Integer 2) "r" None true 4 4 4 c3 in
  let c5 := makeMove "a" (Integer 0) (Integer 2) "r" None true 5 5 5 c4 in
  ∃ l g, activeGames c5 !! "r" = Some l ∧ heap c5 !! l = Some g ∧
         status g = finished ∧ winner g = Some "a" ∧ length (moveHistory g) = 5%nat ∧
         last (effects c2) = Some (game_state_update "r"
                                     [[Some player1; None; None];
                                      [None; Some player2; None];
                                      [None; None; None]] player1 playing None) ∧
         last (effects (makeMove "a" (Integer 1) (Integer 1) "r" None true 3 3 3 c2))
         = Some (move_rejected CELL_OCCUPIED).
Proof.
  cbv zeta. eexists _, _.
  split_and!; [vm_compute; reflexivity | vm_compute; reflexivity | reflexivity..].
Qed.

End GameControllerFacts.

(** ** Facts about [sanitizeChatMessage] *)

Module ValidationFacts.

Import Validation.

(** C5. Sanitizing the chat text of the scenario should leave [hello]
    alone. The code returns [alert(1)hello]: the two tags are removed by
    the first replacement, so the second one, written to remove script
    elements with their content, finds no [<script] to start from and the
    text between the tags stays. *)
Theorem sanitize_script_scenario :
  sanitizeChatMessage (Str (js "<script>alert(1)</script>hello")) = js "alert(1)hello" ∧
  sanitizeChatMessage (Str (js "<script>alert(1)</script>hello")) ≠ js "hello".
Proof. split; [vm_compute; reflexivity | vm_compute; discriminate]. Qed.

(** On its own, the second replacement removes the script element with
    its content. *)
Example script_re_alone :
  replace_all script_re [] (js "<script>alert(1)</script>hello") = js "hello".
Proof. vm_compute. reflexivity. Qed.

(** Tags go, special characters are escaped, the result is trimmed. *)
Example sanitize_markup :
  sanitizeChatMessage (Str (js "  <b>hi</b> & 'x' / 1 < 2 > 0 <unclosed  "))
  = js "hi &amp; &#x27;x&#x27; &#x2F; 1  0 &lt;unclosed".
Proof. vm_compute. reflexivity. Qed.

Example sanitize_not_a_string : sanitizeChatMessage NotAString = [].
Proof. reflexivity. Qed.

(** Every successful match ends through the continuation, at a position
    further in the subject. *)
Lemma star_loop_cont (step : Position → Cont → option Position) :
  (∀ pos k res, step pos k = Some res → ∃ pos', k pos' = Some res ∧ pos'.2 `suffix_of` pos.2) →
  ∀ rounds pos k res, star_loop step rounds pos k = Some res →
    ∃ pos', k pos' = Some res ∧ pos'.2 `suffix_of` pos.2.
Proof.
  intros Hstep. induction rounds as [|rounds IH]; intros pos k res; simpl.
  - intros Hk. by exists pos.
  - destruct (step pos _) as [res'|] eqn:Hs.
    + intros [= <-]. apply Hstep in Hs as (pos1 & Hk1 & Hsuf1).
      case_bool_decide; [|discriminate].
      apply IH in Hk1 as (pos2 & Hk2 & Hsuf2).
      exists pos2. split; [done|]. by etrans.
    + intros Hk. by exists pos.
Qed.

Lemma rmatch_cont (r : Regex) :
  ∀ pos k res, rmatch r pos k = Some res →
    ∃ pos', k pos' = Some res ∧ pos'.2 `suffix_of` pos.2.
Proof.
  induction r as [p| |r1 IH1 r2 IH2|r IH|r IH|]; intros pos k res; cbn [rmatch].
  - destruct pos as [prev [|c rest]]; simpl; [discriminate|].
    destruct (p c); [|discriminate]. intros Hk.
    exists (Some c, rest). split; [done|]. simpl. by apply suffix_cons_r.
  - intros Hk. by exists pos.
  - intros H1. apply IH1 in H1 as (pos1 & H2 & Hsuf1).
    apply IH2 in H2 as (pos2 & Hk & Hsuf2).
    exists pos2. split; [done|]. by etrans.
  - by apply star_loop_cont.
  - destruct (rmatch r pos Some); [discriminate|]. intros Hk. by exists pos.
  - destruct (at_word_boundary pos); [|discriminate]. intros Hk. by exists pos.
Qed.

Lemma upper_not_letter (u c : CodeUnit) :
  upper u = c → (c < 65 ∨ 90 < c)%N → u = c.
Proof.
  unfold upper. destruct ((97 <=? u) && (u <=? 122))%N eqn:Hletter; [|done].
  apply andb_prop in Hletter as [H1 H2]. apply N.leb_le in H1, H2. lia.
Qed.

(** A match of a word consumes code units equal to the word's, up to the
    case of letters. *)
Lemma word_match (w : string) :
  ∀ pos k res, rmatch (word lit_i w) pos k = Some res →
    ∃ us pos', k pos' = Some res ∧ pos.2 = (us ++ pos'.2)%list ∧
               upper <$> us = upper <$> js w.
Proof.
  induction w as [|c w IH]; intros pos k res; unfold word; simpl.
  - intros Hk. by exists [], pos.
  - destruct pos as [prev [|u rest]]; simpl; [discriminate|].
    destruct (upper u =? upper (N_of_ascii c))%N eqn:Hu; [|discriminate].
    apply N.eqb_eq in Hu. intros Hrest.
    apply IH in Hrest as (us & pos' & Hk & Hsplit & Hus). simpl in Hsplit.
    exists (u :: us), pos'. split_and!; [done | by rewrite Hsplit |].
    change (js (String c w)) with (N_of_ascii c :: js w).
    by rewrite !fmap_cons, Hu, Hus.
Qed.

Lemma rmatch_cat_cont (a b : Regex) (pos : Position) (k : Cont) (res : Position) :
  rmatch (Cat a b) pos k = Some res →
  ∃ pos', rmatch b pos' k = Some res ∧ pos'.2 `suffix_of` pos.2.
Proof. exact (rmatch_cont a pos (λ p, rmatch b p k) res). Qed.

(** A match of the script expression starts at a [<] that is followed,
    further on, by a [>]. *)
Lemma script_match_has_tag (prev : option CodeUnit) (s : JsString) (res : Position) :
  rmatch script_re (prev, s) Some = Some res →
  ∃ t, s = 60%N :: t ∧ 62%N ∈ t.
Proof.
  unfold script_re. intros Hm.
  change (rmatch (Cat ?a ?b) ?pos ?k) with (rmatch a pos (λ p, rmatch b p k)) in Hm.
  apply word_match in Hm as (us & pos1 & Hm & Hsplit & Hus). simpl in Hsplit.
  apply rmatch_cat_cont in Hm as (pos2 & Hm & Hsuf2).
  apply rmatch_cat_cont in Hm as (pos3 & Hm & Hsuf3).
  apply rmatch_cat_cont in Hm as (pos4 & Hm & Hsuf4).
  apply word_match in Hm as (us' & pos5 & _ & Hsplit' & Hus').
  vm_compute in Hus, Hus'.
  destruct us as [|u1 us]; [discriminate|]. injection Hus as Hu1 _.
  apply upper_not_letter in Hu1; [|lia]. subst u1.
  exists (us ++ pos1.2)%list. split; [by rewrite Hsplit|].
  apply elem_of_app. right.
  assert (62%N ∈ pos4.2) as Hin.
  { rewrite Hsplit'. apply elem_of_app. left.
    do 9 (destruct us' as [|? us']; [discriminate|]).
    destruct us'; [|discriminate].
    injection Hus' as _ _ _ _ _ _ _ _ Hlast.
    apply upper_not_letter in Hlast; [|lia]. subst.
    repeat (first [by left | right]). }
  destruct Hsuf2 as [k2 Hk2], Hsuf3 as [k3 Hk3], Hsuf4 as [k4 Hk4].
  rewrite Hk2, Hk3, Hk4. rewrite !elem_of_app. auto.
Qed.

(** The tag expression matches at every [<] that is followed by a [>],
    and what it leaves is shorter than the subject. *)
Lemma tag_star_finds (k : Cont) :
  (∀ prev rest, k (prev, 62%N :: rest) = Some (Some 62%N, rest)) →
  ∀ (t : JsString) (rounds : nat) (prev : option CodeUnit),
    (length t < rounds)%nat → 62%N ∈ t →
    star_loop (rmatch (not_lit ">")) rounds (prev, t) k ≠ None.
Proof.
  intros Hk. set (step := rmatch (not_lit ">")).
  assert (∀ prev c rest k', step (prev, c :: rest) k'
            = if negb (c =? 62)%N then k' (Some c, rest) else None) as Hstep by reflexivity.
  induction t as [|c t IH]; intros rounds prev Hrounds Hin.
  - by apply not_elem_of_nil in Hin.
  - destruct rounds as [|rounds]; [simpl in Hrounds; lia|]. simpl in Hrounds.
    cbn [star_loop]. rewrite Hstep.
    destruct (decide (c = 62%N)) as [->|Hc].
    + simpl. by rewrite Hk.
    + assert ((c =? 62)%N = false) as -> by by apply N.eqb_neq.
      cbn [negb snd length]. rewrite bool_decide_eq_true_2 by lia.
      apply elem_of_cons in Hin as [Heq|Hin]; [congruence|].
      specialize (IH rounds (Some c) ltac:(lia) Hin).
      destruct (star_loop step rounds (Some c, t) k) eqn:Hs; [done | exfalso; apply IH; exact Hs].
Qed.

Lemma tag_match_found (prev : option CodeUnit) (t : JsString) :
  62%N ∈ t → rmatch tag_re (prev, 60%N :: t) Some ≠ None.
Proof.
  intros Hin. unfold tag_re. cbn [rmatch lit snd].
  change (60 =? N_of_ascii "<")%N with true. cbn iota.
  apply tag_star_finds; [|lia | done].
  intros prev' rest. reflexivity.
Qed.

Lemma rmatch_chr (p : CodeUnit → bool) (pos : Position) (k : Cont) (res : Position) :
  rmatch (Chr p) pos k = Some res →
  ∃ c rest, pos.2 = c :: rest ∧ p c = true ∧ k (Some c, rest) = Some res.
Proof.
  simpl. destruct pos.2 as [|c rest]; [discriminate|].
  destruct (p c) eqn:Hp; [|discriminate]. intros Hk. by exists c, rest.
Qed.

Lemma tag_match_shorter (pos res : Position) :
  rmatch tag_re pos Some = Some res → (length res.2 < length pos.2)%nat.
Proof.
  unfold tag_re, lit. intros Hm.
  change (rmatch (Cat ?a ?b) ?pos ?k) with (rmatch a pos (λ p, rmatch b p k)) in Hm.
  apply rmatch_chr in Hm as (c & rest & Hpos & _ & Hm).
  apply rmatch_cont in Hm as (pos1 & [= <-] & Hsuf).
  apply suffix_length in Hsuf. rewrite Hpos. simpl in *. lia.
Qed.

(** What the first replacement returns holds no [<] with a [>] after
    it, and no code unit that the subject does not hold. *)
Lemma tag_pass (rounds : nat) :
  ∀ pos : Position, (length pos.2 < rounds)%nat →
    tag_free (replace_loop tag_re [] rounds pos) ∧
    (∀ u, u ∈ replace_loop tag_re [] rounds pos → u ∈ pos.2).
Proof.
  induction rounds as [|rounds IH]; intros [prev s] Hrounds; [simpl in Hrounds; lia|].
  cbn [replace_loop snd]. simpl in Hrounds.
  destruct (rmatch tag_re (prev, s) Some) as [pos'|] eqn:Hm.
  - pose proof (tag_match_shorter _ _ Hm) as Hshort.
    apply rmatch_cont in Hm as (pos1 & [= ->] & Hsuf). simpl in *.
    rewrite bool_decide_eq_true_2 by done. simpl.
    destruct (IH pos' ltac:(lia)) as [Hfree Hsub]. split; [done|].
    intros u Hu. apply Hsub in Hu. destruct Hsuf as [pre ->].
    apply elem_of_app. by right.
  - destruct s as [|c rest]; simpl.
    + split; [|done]. intros pre post Heq. by destruct pre.
    + simpl in Hrounds. destruct (IH (Some c, rest) ltac:(simpl; lia)) as [Hfree Hsub].
      split.
      * intros pre post Heq. destruct pre as [|c' pre]; simpl in Heq.
        -- injection Heq as -> <-. intros Hin. apply Hsub in Hin. simpl in Hin.
           by apply (tag_match_found prev rest) in Hin.
        -- injection Heq as -> Heq. by apply (Hfree pre post).
      * intros u Hu. apply elem_of_cons in Hu as [->|Hu]; [left|right]. by apply Hsub in Hu.
Qed.

(** On a subject without such a pair, the second replacement changes
    nothing. *)
Lemma script_pass (s : JsString) :
  ∀ rounds prev, (length s < rounds)%nat → tag_free s →
    replace_loop script_re [] rounds (prev, s) = s.
Proof.
  induction s as [|c rest IH]; intros rounds prev Hrounds Hfree;
    (destruct rounds as [|rounds]; [simpl in Hrounds; lia|]); cbn [replace_loop snd].
  - destruct (rmatch script_re _ Some) eqn:Hm; [|done].
    by apply script_match_has_tag in Hm as (t & ? & _).
  - destruct (rmatch script_re _ Some) eqn:Hm.
    + apply script_match_has_tag in Hm as (t & [= -> <-] & Hin).
      by destruct (Hfree [] rest eq_refl).
    + f_equal. apply IH; [simpl in Hrounds; lia|].
      intros pre post Heq. apply (Hfree (c :: pre) post). by rewrite Heq.
Qed.

(** Whatever the message, the second replacement of [sanitizeChatMessage]
    finds nothing to remove. *)
Lemma script_replacement_is_idle (message : JsString) :
  replace_all script_re [] (replace_all tag_re [] message)
  = replace_all tag_re [] message.
Proof.
  unfold replace_all at 1. apply script_pass; [lia|].
  unfold replace_all. by apply tag_pass; simpl; lia.
Qed.

(** So [sanitizeChatMessage] is the tag removal followed by the escapes,
    the cut at 200 code units and the trim. *)
Lemma sanitize_without_script_pass (message : JsString) :
  sanitizeChatMessage (Str message) =
    let sanitized := replace_all tag_re [] message in
    let sanitized := replace_all (lit "&") (js "&amp;") sanitized in
    let sanitized := replace_all (lit "<") (js "&lt;") sanitized in
    let sanitized := replace_all (lit ">") (js "&gt;") sanitized in
    let sanitized := replace_all (lit (ascii_of_nat 34)) (js "&quot;") sanitized in
    let sanitized := replace_all (lit "'") (js "&#x27;") sanitized in
    let sanitized := replace_all (lit "/") (js "&#x2F;") sanitized in
    let sanitized := if bool_decide (200 < length sanitized)%nat
                     then take 200 sanitized else sanitized in
    trim sanitized.
Proof. unfold sanitizeChatMessage. by rewrite script_replacement_is_idle. Qed.

End ValidationFacts.

(** ** Facts about [SocketRateLimiter] *)

Module SocketRateLimiterFacts.

Import SocketRateLimiter.

Lemma length_filter_filter {A : Type} (P Q : A → Prop) `{∀ x, Decision (P x)}
    `{∀ x, Decision (Q x)} (l : list A) :
  length (filter P (filter Q l)) = length (filter (λ x, P x ∧ Q x) l).
Proof.
  induction l as [|a l IH]; [done|].
  rewrite !filter_cons. destruct (decide (Q a)) as [HQ|HQ].
  - rewrite filter_cons. destruct (decide (P a)) as [HP|HP].
    + rewrite decide_True by done. simpl. by rewrite IH.
    + rewrite decide_False by tauto. done.
  - rewrite decide_False by tauto. done.
Qed.

Lemma length_filter_ext {A : Type} (P Q : A → Prop) `{∀ x, Decision (P x)}
    `{∀ x, Decision (Q x)} (l : list A) :
  (∀ x, P x ↔ Q x) → length (filter P l) = length (filter Q l).
Proof.
  intros HPQ. induction l as [|a l IH]; [done|].
  rewrite !filter_cons. destruct (decide (P a)) as [HP|HP].
  - rewrite decide_True by by apply HPQ. simpl. by rewrite IH.
  - rewrite decide_False by by rewrite <- HPQ. done.
Qed.

(** The two counts of [checkLimit], taken on the pruned list, are the
    counts within the two windows on the list as recorded. *)
Lemma minute_count (ty : string) (now : Z) (es : list Event) :
  length (filter (λ event, type event = ty)
            (filter (λ event, (now - timestamp event < 60000)%Z) es))
  = count_within 60000 ty now es.
Proof.
  unfold count_within. rewrite length_filter_filter.
  apply length_filter_ext. tauto.
Qed.

Lemma burst_count (ty : string) (now : Z) (es : list Event) :
  length (filter (λ event, type event = ty ∧ (now - timestamp event < 10000)%Z)
            (filter (λ event, (now - timestamp event < 60000)%Z) es))
  = count_within 10000 ty now es.
Proof.
  unfold count_within. rewrite length_filter_filter.
  apply length_filter_ext. intros e. intuition lia.
Qed.

Lemma count_within_app (w : Z) (ty : string) (now : Z) (es1 es2 : list Event) :
  count_within w ty now (es1 ++ es2)
  = (count_within w ty now es1 + count_within w ty now es2)%nat.
Proof. unfold count_within. by rewrite filter_app, length_app. Qed.

Lemma count_within_kept (w : Z) (ty : string) (now : Z) (es : list Event) :
  (w ≤ 60000)%Z →
  count_within w ty now (filter (λ event, (now - timestamp event < 60000)%Z) es)
  = count_within w ty now es.
Proof.
  intros Hw. unfold count_within. rewrite length_filter_filter.
  apply length_filter_ext. intros e. intuition lia.
Qed.

(** The answer of [checkLimit] and the events it leaves on record. *)
Lemma checkLimit_run (sid ty : string) (now : Z) (lim : Limiter) (L B : nat) :
  limit_of (limits lim) ty = Some L → limit_of (burstLimits lim) ty = Some B →
  let es := recorded lim sid in
  let kept := filter (λ event, (now - timestamp event < 60000)%Z) es in
  if decide (count_within 60000 ty now es < L ∧ count_within 10000 ty now es < B)%nat
  then (checkLimit sid ty now lim).1 = true ∧
       recorded (checkLimit sid ty now lim).2 sid = (kept ++ [mkEvent ty now])%list
  else (checkLimit sid ty now lim).1 = false ∧
       recorded (checkLimit sid ty now lim).2 sid = kept.
Proof.
  intros HL HB es kept. unfold checkLimit. rewrite HL, HB.
  assert (events (default (mkClientData [] now 0) (clients lim !! sid)) = es) as Hes.
  { unfold es, recorded. by destruct (clients lim !! sid). }
  cbn [events warnings]. rewrite Hes. fold kept.
  pose proof (minute_count ty now es) as Hm. pose proof (burst_count ty now es) as Hbu.
  fold kept in Hm, Hbu. rewrite Hm, Hbu. clear Hm Hbu.
  unfold reaches.
  destruct (decide (count_within 60000 ty now es < L ∧ count_within 10000 ty now es < B)%nat)
    as [[H1 H2]|Hno].
  - rewrite !bool_decide_eq_false_2 by lia. simpl. split; [done|].
    unfold recorded; simpl. by rewrite lookup_insert_eq.
  - destruct (decide (L ≤ count_within 60000 ty now es)%nat).
    + rewrite bool_decide_eq_true_2 by done. simpl. split; [done|].
      unfold recorded, handleRateLimit; simpl.
      destruct (clients lim !! sid) as [cd|] eqn:Hcd.
      * rewrite lookup_insert_eq. by rewrite lookup_insert_eq.
      * rewrite Hcd. rewrite Hcd. unfold kept, es, recorded. by rewrite Hcd.
    + rewrite bool_decide_eq_false_2 by done.
      rewrite bool_decide_eq_true_2 by lia. simpl. split; [done|].
      unfold recorded, handleRateLimit; simpl.
      destruct (clients lim !! sid) as [cd|] eqn:Hcd.
      * rewrite lookup_insert_eq. by rewrite lookup_insert_eq.
      * rewrite Hcd. rewrite Hcd. unfold kept, es, recorded. by rewrite Hcd.
Qed.

(** For a connection and an event type whose limits are the numbers [L]
    per minute and [B] per burst, [checkLimit] admits the event exactly when
    the number of recorded events of that type less than 60 seconds old is
    below [L] and the number less than 10 seconds old is below [B], both
    counted before the new event is recorded: with [L] such events on record
    the next one is rejected, and an admitted event brings the count to at
    most [L]. An event type whose name is found neither in the constructor's
    tables nor in [Object.prototype] gets 60 per minute and 20 per 10
    seconds. *)
Lemma checkLimit_spec (sid ty : string) (now : Z) (lim : Limiter) (L B : nat) :
  limit_of (limits lim) ty = Some L → limit_of (burstLimits lim) ty = Some B →
  let es := recorded lim sid in
  let admitted := (checkLimit sid ty now lim).1 in
  let es' := recorded (checkLimit sid ty now lim).2 sid in
  (admitted = true ↔
     (count_within 60000 ty now es < L)%nat ∧ (count_within 10000 ty now es < B)%nat) ∧
  (count_within 60000 ty now es = L → admitted = false) ∧
  (admitted = true →
     count_within 60000 ty now es' = S (count_within 60000 ty now es) ∧
     (count_within 60000 ty now es' ≤ L)%nat) ∧
  (limits initial !! ty = None → ty ∉ inherited →
     limit_of (limits initial) ty = Some 60%nat) ∧
  (burstLimits initial !! ty = None → ty ∉ inherited →
     limit_of (burstLimits initial) ty = Some 20%nat).
Proof.
  intros HL HB es admitted es'.
  pose proof (checkLimit_run sid ty now lim L B HL HB) as Hrun. cbv zeta in Hrun.
  fold es admitted es' in Hrun.
  assert (admitted = true ↔
    (count_within 60000 ty now es < L)%nat ∧ (count_within 10000 ty now es < B)%nat) as Hiff.
  { destruct (decide _) as [Hyes|Hno], Hrun as [-> _]; [done|]. split; [done | tauto]. }
  split_and!.
  - done.
  - intros Hfull. destruct admitted; [|done].
    destruct Hiff as [Hlt _]. specialize (Hlt eq_refl). lia.
  - intros Hadm. apply Hiff in Hadm as Hlt.
    rewrite decide_True in Hrun by done. destruct Hrun as [_ ->].
    rewrite count_within_app, count_within_kept by lia.
    assert (count_within 60000 ty now [mkEvent ty now] = 1%nat) as ->.
    { unfold count_within. rewrite filter_cons, decide_True; [done|].
      split; [done | simpl; lia]. }
    lia.
  - intros Hnone Hown. unfold limit_of. rewrite Hnone.
    by rewrite bool_decide_eq_false_2.
  - intros Hnone Hown. unfold limit_of. rewrite Hnone.
    by rewrite bool_decide_eq_false_2.
Qed.

Lemma checkLimit_spec_witness :
  let lim := Examples.nine_moves in
  let ty := "make-move" in
  let now := 1000%Z in
  (limit_of (limits lim) ty = Some 30%nat ∧ limit_of (burstLimits lim) ty = Some 10%nat) ∧
  let es := recorded lim "s" in
  let admitted := (checkLimit "s" ty now lim).1 in
  let es' := recorded (checkLimit "s" ty now lim).2 "s" in
  (admitted = true ↔
     (count_within 60000 ty now es < 30)%nat ∧ (count_within 10000 ty now es < 10)%nat) ∧
  (count_within 60000 ty now es = 30%nat → admitted = false) ∧
  (admitted = true →
     count_within 60000 ty now es' = S (count_within 60000 ty now es) ∧
     (count_within 60000 ty now es' ≤ 30)%nat) ∧
  (limits initial !! ty = None → ty ∉ inherited →
     limit_of (limits initial) ty = Some 60%nat) ∧
  (burstLimits initial !! ty = None → ty ∉ inherited →
     limit_of (burstLimits initial) ty = Some 20%nat).
Proof.
  cbv zeta.
  assert (limit_of (limits Examples.nine_moves) "make-move" = Some 30%nat) as HL
    by (vm_compute; reflexivity).
  assert (limit_of (burstLimits Examples.nine_moves) "make-move" = Some 10%nat) as HB
    by (vm_compute; reflexivity).
  split; [by split|].
  exact (checkLimit_spec "s" "make-move" 1000 Examples.nine_moves 30 10 HL HB).
Defined.

(** The tenth move within ten seconds is admitted, the eleventh is not. *)
Example burst_of_moves :
  (checkLimit "s" "make-move" 1000 Examples.nine_moves).1 = true ∧
  (checkLimit "s" "make-move" 2000
     (checkLimit "s" "make-move" 1000 Examples.nine_moves).2).1 = false.
Proof. split; vm_compute; reflexivity. Qed.

Lemma assign_property_insert {V : Type} (name : string) (v : V) (object : gmap string V) :
  name ≠ "__proto__" → assign_property name v object = <[name := v]> object.
Proof. intros Hne. unfold assign_property. rewrite bool_decide_eq_false_2; tauto. Qed.

Lemma assign_property_ne {V : Type} (name name' : string) (v : V) (object : gmap string V) :
  name' ≠ name → assign_property name v object !! name' = object !! name'.
Proof.
  intros Hne. unfold assign_property. case_bool_decide; [done|].
  by rewrite lookup_insert_ne.
Qed.

(** An event type that has no entry in the tables and whose name
    [Object.prototype] defines has no limit: [checkLimit] admits it whatever
    is on record. *)
Lemma inherited_never_limited (sid ty : string) (now : Z) (lim : Limiter) :
  ty ∈ inherited → limits lim !! ty = None → burstLimits lim !! ty = None →
  limit_of (limits lim) ty = None ∧ limit_of (burstLimits lim) ty = None ∧
  (checkLimit sid ty now lim).1 = true.
Proof.
  intros Hin Hl Hb.
  assert (limit_of (limits lim) ty = None) as HL.
  { unfold limit_of. rewrite Hl. by rewrite bool_decide_eq_true_2. }
  assert (limit_of (burstLimits lim) ty = None) as HB.
  { unfold limit_of. rewrite Hb. by rewrite bool_decide_eq_true_2. }
  split_and!; [done | done |]. unfold checkLimit. by rewrite HL, HB.
Qed.

(** C7. The claim fails for an event whose name the tables do not hold but
    [Object.prototype] defines. Of 61 events called [toString] sent by one
    client, [checkLimit] admits all 61, be they sent in the same
    millisecond or every half second; of 61 events called [ping], which
    has no entry either, it admits 20 in the first case (the burst limit)
    and 60 in the second (the limit per minute), as the claim says. *)
Theorem prototype_named_event :
  let at_once := replicate 61 0%Z in
  let spaced := (λ i : nat, 500 * Z.of_nat i)%Z <$> seq 0 61 in
  (limits initial !! "toString" = None ∧ burstLimits initial !! "toString" = None ∧
   limits initial !! "ping" = None ∧ burstLimits initial !! "ping" = None) ∧
  admitted_times (calls "s" "toString" at_once initial) = at_once ∧
  admitted_times (calls "s" "toString" spaced initial) = spaced ∧
  admitted_times (calls "s" "ping" at_once initial) = take 20 at_once ∧
  admitted_times (calls "s" "ping" spaced initial) = take 60 spaced.
Proof. cbv zeta. split_and!; vm_compute; reflexivity. Qed.

(** The limits of an event type without entry in either table. *)
Example default_limits :
  limit_of (limits initial) "ping" = Some 60%nat ∧
  limit_of (burstLimits initial) "ping" = Some 20%nat ∧
  limit_of (limits initial) "leave-room" = Some 10%nat ∧
  limit_of (burstLimits initial) "leave-room" = Some 20%nat.
Proof. split_and!; vm_compute; reflexivity. Qed.

Lemma length_filter_impl {A : Type} (P Q : A → Prop) `{∀ x, Decision (P x)}
    `{∀ x, Decision (Q x)} (l : list A) :
  (∀ x, P x → Q x) → (length (filter P l) ≤ length (filter Q l))%nat.
Proof.
  intros HPQ. induction l as [|a l IH]; [done|].
  rewrite !filter_cons. destruct (decide (P a)) as [HP|HP].
  - rewrite decide_True by by apply HPQ. simpl. lia.
  - destruct (decide (Q a)); simpl; lia.
Qed.

Lemma checkLimit_limits (sid ty : string) (now : Z) (lim : Limiter) :
  limits (checkLimit sid ty now lim).2 = limits lim ∧
  burstLimits (checkLimit sid ty now lim).2 = burstLimits lim.
Proof. unfold checkLimit. destruct (reaches _ _); [done|]. by destruct (reaches _ _). Qed.

Lemma in_window_app (a : Z) (ts1 ts2 : list Z) :
  in_window a (ts1 ++ ts2) = (in_window a ts1 + in_window a ts2)%nat.
Proof. unfold in_window. by rewrite filter_app, length_app. Qed.

Lemma calls_bound (sid ty : string) (L B : nat) (times : list Z) :
  ∀ (lim : Limiter) (adm : list Z) (t_last : Z),
    limit_of (limits lim) ty = Some L → limit_of (burstLimits lim) ty = Some B →
    Forall (λ t, (t ≤ t_last)%Z) adm → Forall (λ t, (t_last ≤ t)%Z) times →
    StronglySorted Z.le times →
    (∀ now, (t_last ≤ now)%Z →
       count_within 60000 ty now (recorded lim sid)
       = length (filter (λ t, (now - t < 60000)%Z) adm)) →
    (∀ a, (in_window a adm ≤ L)%nat) →
    ∀ a, (in_window a (adm ++ admitted_times (calls sid ty times lim)) ≤ L)%nat.
Proof.
  induction times as [|now rest IH]; intros lim adm t_last HL HB Hadm Htimes Hsorted Hrec Hwin a.
  - simpl. unfold admitted_times. simpl. rewrite app_nil_r. apply Hwin.
  - apply Forall_cons in Htimes as [Hnow _].
    apply StronglySorted_inv in Hsorted as [Hsorted Hrest].
    pose proof (checkLimit_run sid ty now lim L B HL HB) as Hrun. cbv zeta in Hrun.
    destruct (checkLimit_limits sid ty now lim) as [HL' HB'].
    simpl. set (r := checkLimit sid ty now lim) in *.
    assert (∀ now', (now ≤ now')%Z →
              count_within 60000 ty now'
                (filter (λ event, (now - timestamp event < 60000)%Z) (recorded lim sid))
              = length (filter (λ t, (now' - t < 60000)%Z) adm)) as Hkept.
    { intros now' Hle. rewrite <- Hrec by lia. unfold count_within.
      rewrite length_filter_filter. apply length_filter_ext. intros e. intuition lia. }
    destruct (decide (count_within 60000 ty now (recorded lim sid) < L ∧
                      count_within 10000 ty now (recorded lim sid) < B)%nat) as [[Hlt _]|_].
    + destruct Hrun as [Hok Hrec']. rewrite Hok.
      unfold admitted_times. rewrite filter_cons, decide_True by done. simpl.
      change (fst <$> filter (λ a0, a0.2 = true) (calls sid ty rest r.2))
        with (admitted_times (calls sid ty rest r.2)).
      rewrite (cons_middle now adm), app_assoc.
      apply (IH r.2 (adm ++ [now])%list now).
      * by rewrite HL'.
      * by rewrite HB'.
      * apply Forall_app. split; [|by repeat constructor].
        eapply Forall_impl; [exact Hadm|]. simpl. intros; lia.
      * exact Hrest.
      * exact Hsorted.
      * intros now' Hle. rewrite Hrec', count_within_app, Hkept by done.
        rewrite filter_app, length_app. f_equal.
        unfold count_within. rewrite !filter_cons, !filter_nil. simpl.
        destruct (decide (now' - now < 60000)%Z).
        -- by rewrite decide_True.
        -- rewrite decide_False; [done | tauto].
      * intros a'. rewrite in_window_app.
        destruct (decide (a' ≤ now < a' + 60000)%Z) as [Hin|Hout].
        -- assert (in_window a' adm ≤ length (filter (λ t, (now - t < 60000)%Z) adm))%nat
             as Hle.
           { unfold in_window. apply length_filter_impl. intros t. lia. }
           rewrite <- Hrec in Hle by done.
           assert (in_window a' [now] = 1%nat) as ->.
           { unfold in_window. by rewrite filter_cons, decide_True. }
           lia.
        -- assert (in_window a' [now] = 0%nat) as ->.
           { unfold in_window. by rewrite filter_cons, decide_False. }
           specialize (Hwin a'). lia.
    + destruct Hrun as [Hok Hrec']. rewrite Hok.
      unfold admitted_times. rewrite filter_cons, decide_False by done.
      change (fst <$> filter (λ a0, a0.2 = true) (calls sid ty rest r.2))
        with (admitted_times (calls sid ty rest r.2)).
      apply (IH r.2 adm now).
      * by rewrite HL'.
      * by rewrite HB'.
      * eapply Forall_impl; [exact Hadm|]. simpl. intros; lia.
      * exact Hrest.
      * exact Hsorted.
      * intros now' Hle. rewrite Hrec'. by apply Hkept.
      * exact Hwin.
Qed.

(** From a client without record, over calls at times that never go back,
    every window of 60 seconds holds at most [L] admitted events. *)
Lemma window_bound (sid ty : string) (L B : nat) (times : list Z) (lim : Limiter) :
  limit_of (limits lim) ty = Some L → limit_of (burstLimits lim) ty = Some B →
  recorded lim sid = [] → StronglySorted Z.le times →
  ∀ a, (in_window a (admitted_times (calls sid ty times lim)) ≤ L)%nat.
Proof.
  intros HL HB Hnew Hsorted a.
  destruct times as [|t0 rest]; [unfold in_window; simpl; lia|].
  apply (calls_bound sid ty L B (t0 :: rest) lim [] t0 HL HB).
  - constructor.
  - apply StronglySorted_inv in Hsorted as [_ Hrest].
    constructor; [lia | exact Hrest].
  - exact Hsorted.
  - intros now _. by rewrite Hnew.
  - intros a'. unfold in_window. simpl. lia.
Qed.

End SocketRateLimiterFacts.

(** ** Facts about [RoomController] *)

Module RoomControllerFacts.

Import RoomController.

Lemma deleteRoomFromDatabase_fields (rid : string) (s : State) :
  let s' := deleteRoomFromDatabase rid s in
  activeRooms s' = activeRooms s ∧ playerRooms s' = playerRooms s ∧
  emitted s' = emitted s ∧ chat_room_ids s' = chat_room_ids s ∧
  db s' = if bool_decide (rid ∈ chat_room_ids s) then db s else delete rid (db s).
Proof. unfold deleteRoomFromDatabase. by case_bool_decide. Qed.

Lemma leaveRoom_activeRooms (socket : Socket) (rid : string) (s : State) :
  activeRooms (leaveRoom socket rid s).2 =
    match activeRooms s !! rid with
    | None => activeRooms s
    | Some room =>
        let room' := with_players (delete (playerId_of socket) (players room)) room in
        if bool_decide (currentPlayers room' = 0%nat) then delete rid (activeRooms s)
        else <[rid := room']> (activeRooms s)
    end.
Proof.
  unfold leaveRoom. destruct (activeRooms s !! rid) as [room|]; [|done].
  cbv zeta. unfold deleteRoomFromDatabase. repeat case_bool_decide; simpl; try done.
  all: by rewrite delete_insert_eq.
Qed.

Lemma leaveRoom_playerRooms (socket : Socket) (rid : string) (s : State) :
  playerRooms (leaveRoom socket rid s).2 =
    match activeRooms s !! rid with
    | None => playerRooms s
    | Some _ => delete (playerId_of socket) (playerRooms s)
    end.
Proof.
  unfold leaveRoom. destruct (activeRooms s !! rid) as [room|]; [|done].
  cbv zeta. unfold deleteRoomFromDatabase. by repeat case_bool_decide.
Qed.

Lemma leaveRoom_playerId (socket : Socket) (rid : string) (s : State) :
  playerId_of (leaveRoom socket rid s).1 = playerId_of socket ∧
  socket_id (leaveRoom socket rid s).1 = socket_id socket.
Proof. unfold leaveRoom. by destruct (activeRooms s !! rid). Qed.

Lemma size_delete_le (ps : gmap string Player) (p : string) :
  (size (delete p ps) ≤ size ps)%nat.
Proof.
  destruct (ps !! p) eqn:Hp.
  - rewrite map_size_delete_Some by eauto. lia.
  - by rewrite delete_id.
Qed.

Lemma size_insert_le (ps : gmap string Player) (p : string) (v : Player) :
  (size (<[p := v]> ps) ≤ S (size ps))%nat.
Proof.
  destruct (ps !! p) eqn:Hp.
  - rewrite map_size_insert_Some by eauto. lia.
  - by rewrite map_size_insert_None.
Qed.

Lemma room_ok_leave (room : Room) (p : string) :
  room_ok room → room_ok (with_players (delete p (players room)) room).
Proof.
  intros (Hc & Hmax & Hw). pose proof (size_delete_le (players room) p).
  split_and!; simpl; [done | lia | intros Hs; specialize (Hw Hs); lia].
Qed.

Lemma leaveRoom_inv (socket : Socket) (rid : string) (s : State) :
  inv s → inv (leaveRoom socket rid s).2.
Proof.
  intros [Hrooms Hidx]. split.
  - intros r room. rewrite leaveRoom_activeRooms.
    destruct (activeRooms s !! rid) as [room0|] eqn:Hr; [|by apply Hrooms].
    cbv zeta. case_bool_decide.
    + rewrite lookup_delete. case_decide; [done|]. apply Hrooms.
    + rewrite lookup_insert. case_decide; [|by apply Hrooms].
      intros [= <-]. apply room_ok_leave. by eapply Hrooms.
  - intros q r. rewrite leaveRoom_playerRooms, leaveRoom_activeRooms.
    destruct (activeRooms s !! rid) as [room0|] eqn:Hr; [|by apply Hidx].
    rewrite lookup_delete. case_decide as Hq; [done|]. intros Hqr.
    destruct (Hidx q r Hqr) as (room & Hroom & Hin).
    cbv zeta. destruct (decide (r = rid)) as [->|Hne].
    + assert (room = room0) as -> by congruence.
      assert (q ∈ dom (delete (playerId_of socket) (players room0))) as Hin'.
      { rewrite dom_delete_L. set_solver. }
      rewrite bool_decide_eq_false_2.
      * rewrite lookup_insert_eq. eauto.
      * simpl. intros Hz. apply map_size_empty_iff in Hz. rewrite Hz in Hin'. set_solver.
    + case_bool_decide.
      * rewrite lookup_delete_ne by done. eauto.
      * rewrite lookup_insert_ne by done. eauto.
Qed.

Lemma inv_emit (t : Target) (m : Message) (s : State) : inv s → inv (emit t m s).
Proof. done. Qed.

Lemma inv_ext (s s' : State) :
  activeRooms s' = activeRooms s → playerRooms s' = playerRooms s → inv s → inv s'.
Proof. intros Ha Hp [H1 H2]. split; unfold index_sound; rewrite ?Ha, ?Hp; done. Qed.

Lemma createRoom_inv socket roomName isPrivate password maxPlayers roomId hashed now s :
  (2 ≤ maxPlayers ≤ 10)%nat → activeRooms s !! roomId = None →
  inv s → inv (createRoom socket roomName isPrivate password maxPlayers roomId hashed now s).2.
Proof.
  intros Hmax Hfresh [Hrooms Hidx]. split.
  - intros r room. simpl. rewrite lookup_insert. case_decide; [|by apply Hrooms].
    intros [= <-]. split_and!; simpl.
    + by rewrite map_size_singleton.
    + rewrite map_size_singleton. lia.
    + rewrite map_size_singleton. lia.
  - intros q r. simpl. rewrite lookup_insert. case_decide as Hq.
    + intros [= <-]. rewrite lookup_insert_eq. eexists. split; [done|].
      simpl. rewrite dom_singleton_L. set_solver.
    + intros Hqr. destruct (Hidx q r Hqr) as (room & Hroom & Hin).
      rewrite lookup_insert_ne by congruence. eauto.
Qed.

(** Adding the player to the room and starting the game when it has two
    players: the end of [joinRoom]. *)
Lemma join_tail_inv (s : State) (rid p : string) (room : Room) (pl : Player) :
  inv s → activeRooms s !! rid = Some room →
  (currentPlayers room < maxPlayers room)%nat →
  let room' := with_players (<[p := pl]> (players room)) room in
  let room'' := if bool_decide (currentPlayers room' = 2%nat) && bool_decide (status room' = waiting)
                then with_status playing room' else room' in
  ∀ s', activeRooms s' = <[rid := room'']> (activeRooms s) →
        playerRooms s' = <[p := rid]> (playerRooms s) → inv s'.
Proof.
  intros [Hrooms Hidx] Hr Hlt room' room'' s' Ha Hp.
  destruct (Hrooms rid room Hr) as (Hc & Hmax & Hw).
  pose proof (size_insert_le (players room) p pl) as Hsz.
  assert (room_ok room'') as Hok.
  { unfold room'', room'.
    destruct (bool_decide (currentPlayers _ = 2%nat)) eqn:H2; simpl.
    - destruct (bool_decide (status room = waiting)) eqn:Hst; simpl.
      + split_and!; simpl; [done | lia | done].
      + split_and!; simpl; [done | lia |].
        apply bool_decide_eq_false in Hst. simpl in Hst. done.
    - apply bool_decide_eq_false in H2. simpl in H2.
      split_and!; simpl; [done | lia |]. intros Hs. specialize (Hw Hs). lia. }
  assert (dom (players room'') = {[p]} ∪ dom (players room)) as Hdom.
  { unfold room'', room'. destruct (_ && _); simpl; by rewrite dom_insert_L. }
  split.
  - intros r rm. rewrite Ha, lookup_insert. case_decide; [by intros [= <-] | by apply Hrooms].
  - intros q r. rewrite Hp, Ha, lookup_insert. case_decide as Hq.
    + intros [= <-]. rewrite lookup_insert_eq. eexists. split; [done|].
      rewrite Hdom. apply elem_of_union_l. by apply elem_of_singleton.
    + intros Hqr. destruct (Hidx q r Hqr) as (rm & Hrm & Hin).
      rewrite lookup_insert. case_decide as Hrr; [|eauto].
      subst r. eexists. split; [done|]. assert (rm = room) as -> by congruence.
      rewrite Hdom. by apply elem_of_union_r.
Qed.

Lemma joinRoom_inv socket roomId playerName password passwordValid now s :
  inv s → inv (joinRoom socket roomId playerName password passwordValid now s).2.
Proof.
  intros Hinv. unfold joinRoom.
  set (found := match activeRooms s !! roomId with
                | Some room => Some (room, s)
                | None => _ end).
  assert (match found with
          | Some (room, s0) => inv s0 ∧ activeRooms s0 !! roomId = Some room
          | None => True
          end) as Hfound.
  { unfold found. destruct (activeRooms s !! roomId) as [room|] eqn:Hr; [done|].
    unfold loadRoomFromDatabase. destruct (db s !! roomId) as [row|]; simpl; [|done].
    split; [|by rewrite lookup_insert_eq].
    destruct Hinv as [Hrooms Hidx]. split.
    - intros r rm. simpl. rewrite lookup_insert. case_decide; [|by apply Hrooms].
      intros [= <-]. split_and!; simpl; rewrite ?map_size_empty; lia.
    - intros q r Hqr. simpl in *. destruct (Hidx q r Hqr) as (rm & Hrm & Hin).
      rewrite lookup_insert_ne by congruence. eauto. }
  clearbody found. destruct found as [[room s0]|]; [|by apply inv_emit].
  destruct Hfound as [Hinv0 Hr0].
  case_bool_decide as Hfull; [by apply inv_emit|].
  destruct (_ && negb (from_option truthy false password)); [by apply inv_emit|].
  destruct (_ && negb passwordValid); [by apply inv_emit|].
  set (moved := match playerRooms s0 !! playerId_of socket with
                | Some currentRoom => _ | None => _ end).
  assert (inv moved.2 ∧ activeRooms moved.2 !! roomId = Some room ∧
          playerId_of moved.1 = playerId_of socket) as (Hinv1 & Hr1 & Hpid).
  { unfold moved. destruct (playerRooms s0 !! playerId_of socket) as [cur|]; [|done].
    destruct (truthy cur && negb (bool_decide (cur = roomId))) eqn:Hcur; [|done].
    apply andb_prop in Hcur as [_ Hne]. apply negb_true_iff, bool_decide_eq_false in Hne.
    split_and!; [by apply leaveRoom_inv | | apply leaveRoom_playerId].
    rewrite leaveRoom_activeRooms. destruct (activeRooms s0 !! cur); [|done].
    cbv zeta. case_bool_decide; [by rewrite lookup_delete_ne | by rewrite lookup_insert_ne]. }
  clearbody moved. destruct moved as [socket1 s1]. simpl in *.
  eapply (join_tail_inv s1 roomId (playerId_of socket) room
            (mkPlayer (playerId_of socket) (Some playerName) (socket_id socket1) now false));
    [done | done | | |].
  - lia.
  - cbv zeta. simpl.
    match goal with
    | |- context [if ?c then checkGameStart _ _ else _] => destruct c eqn:Hstart
    end; simpl.
    + unfold checkGameStart; simpl. rewrite lookup_insert_eq; simpl. rewrite Hstart; simpl.
      by rewrite insert_insert_eq.
    + done.
  - simpl.
    match goal with
    | |- context [if ?c then checkGameStart _ _ else _] => destruct c eqn:Hstart
    end; simpl; [|done].
    unfold checkGameStart; simpl. rewrite lookup_insert_eq; simpl. by rewrite Hstart.
Qed.

Lemma handleDisconnect_inv socket s : inv s → inv (handleDisconnect socket s).2.
Proof.
  intros Hinv. unfold handleDisconnect.
  destruct (playerRooms s !! playerId_of socket) as [rid|]; [|done].
  destruct (truthy rid); [by apply leaveRoom_inv | done].
Qed.

Lemma reachable_inv (s : State) : reachable s → inv s.
Proof.
  induction 1 as [rows refs | s s' _ IH Hstep].
  - split; [by intros r rm; simpl; rewrite lookup_empty
           | by intros q r; simpl; rewrite lookup_empty].
  - destruct Hstep.
    + by apply createRoom_inv.
    + by apply joinRoom_inv.
    + by apply leaveRoom_inv.
    + by apply handleDisconnect_inv.
    + by apply (inv_ext s).
Qed.

Lemma joinRoom_full socket rid playerName password passwordValid now s room :
  activeRooms s !! rid = Some room → (maxPlayers room ≤ currentPlayers room)%nat →
  joinRoom socket rid playerName password passwordValid now s =
    (socket, emit (to_socket (socket_id socket)) (room_error "ROOM_FULL") s).
Proof.
  intros Hr Hfull. unfold joinRoom. rewrite Hr. by rewrite bool_decide_eq_true_2.
Qed.

Lemma joinRoom_relocates socket rid playerName password passwordValid now s cur :
  let p := playerId_of socket in
  let s' := (joinRoom socket rid playerName password passwordValid now s).2 in
  playerRooms s !! p = Some cur → cur ≠ rid → cur ≠ "" →
  playerRooms s' !! p = Some rid →
  ∀ room', activeRooms s' !! cur = Some room' → players room' !! p = None.
Proof.
  intros p s' Hcur Hne Hnz. unfold s', joinRoom.
  set (found := match activeRooms s !! rid with
                | Some room => Some (room, s)
                | None => _ end).
  assert (match found with
          | Some (room, s0) => playerRooms s0 = playerRooms s
          | None => True
          end) as Hfound.
  { unfold found. destruct (activeRooms s !! rid); [done|].
    by destruct (loadRoomFromDatabase rid s). }
  clearbody found.
  assert (∀ t m (s0 : State), playerRooms s0 = playerRooms s →
            playerRooms (emit t m s0) !! p = Some rid → False) as Hrej.
  { intros t m s0 Hs0. simpl. rewrite Hs0, Hcur. congruence. }
  destruct found as [[room s0]|]; [|by intros ?%(Hrej _ _ s)].
  case_bool_decide; [by intros ?%Hrej|].
  destruct (_ && negb (from_option truthy false password)); [by intros ?%Hrej|].
  destruct (_ && negb passwordValid); [by intros ?%Hrej|].
  fold p. rewrite Hfound, Hcur.
  assert (truthy cur && negb (bool_decide (cur = rid)) = true) as ->.
  { unfold truthy. by rewrite !bool_decide_eq_false_2. }
  intros _ room'.
  destruct (leaveRoom socket cur s0) as [socket1 s1] eqn:Hleave.
  assert (activeRooms s1 = activeRooms (leaveRoom socket cur s0).2) as Ha1 by by rewrite Hleave.
  rewrite leaveRoom_activeRooms in Ha1.
  assert (∀ rm, activeRooms s1 !! cur = Some rm → players rm !! p = None) as Hgone.
  { intros rm. rewrite Ha1. destruct (activeRooms s0 !! cur) as [room0|] eqn:Hr0; [|congruence].
    cbv zeta. case_bool_decide.
    - by rewrite lookup_delete_eq.
    - rewrite lookup_insert_eq. intros [= <-]. simpl. apply lookup_delete_eq. }
  simpl.
  match goal with
  | |- context [if ?c then checkGameStart _ _ else _] => destruct c eqn:Hstart
  end; simpl.
  - unfold checkGameStart; simpl. rewrite lookup_insert_eq; simpl. rewrite Hstart; simpl.
    rewrite !lookup_insert_ne by done. apply Hgone.
  - rewrite lookup_insert_ne by done. apply Hgone.
Qed.

Lemma leaveRoom_absent_room socket rid s :
  activeRooms s !! rid = None → leaveRoom socket rid s = (socket, s).
Proof. intros Hr. unfold leaveRoom. by rewrite Hr. Qed.

Lemma with_players_same (room : Room) :
  currentPlayers room = size (players room) → with_players (players room) room = room.
Proof. intros Hc. destruct room; simpl in *. unfold with_players; simpl. by rewrite <- Hc. Qed.

(** [leaveRoom] for a player who is not in a room that has members. *)
Lemma leaveRoom_stranger socket rid s room :
  let p := playerId_of socket in
  activeRooms s !! rid = Some room → players room !! p = None →
  currentPlayers room = size (players room) → players room ≠ ∅ →
  let s' := (leaveRoom socket rid s).2 in
  activeRooms s' = activeRooms s ∧
  playerRooms s' = delete p (playerRooms s) ∧
  db s' = <[room_id room := row_of room]> (db s) ∧
  emitted s' =
    (emitted s ++
       [(to_room rid, player_left p (socket_playerName socket) (currentPlayers room));
        (to_all, room_list_update (room_list (activeRooms s)))])%list.
Proof.
  intros p Hr Hp Hc Hne s'. unfold s', leaveRoom. rewrite Hr. fold p.
  rewrite (delete_id _ _ Hp), (with_players_same _ Hc).
  rewrite bool_decide_eq_false_2.
  2: { rewrite Hc. intros Hz. by apply map_size_empty_iff in Hz. }
  simpl. rewrite (insert_id _ _ _ Hr). split_and!; try done.
  by rewrite <- app_assoc.
Qed.

(** [leaveRoom] for the last member of a room. *)
Lemma leaveRoom_empties socket rid s room :
  activeRooms s !! rid = Some room →
  delete (playerId_of socket) (players room) = ∅ →
  let s' := (leaveRoom socket rid s).2 in
  activeRooms s' = delete rid (activeRooms s) ∧
  db s' = if bool_decide (rid ∈ chat_room_ids s) then db s else delete rid (db s).
Proof.
  intros Hr Hlast s'. unfold s', leaveRoom. rewrite Hr, Hlast. simpl.
  rewrite map_size_empty. simpl. unfold deleteRoomFromDatabase. simpl.
  case_bool_decide; simpl; by rewrite delete_insert_eq.
Qed.

Lemma cleanupEmptyRooms_lookup now s rid :
  activeRooms (cleanupEmptyRooms now s) !! rid =
    (room ← activeRooms s !! rid; if decide (stale now room) then None else Some room).
Proof.
  unfold cleanupEmptyRooms. simpl. rewrite map_lookup_filter.
  destruct (activeRooms s !! rid) as [room|]; simpl; [|done].
  unfold stale. case_decide; case_guard; simpl; try done; tauto.
Qed.

(** C6, amended. Calling [leaveRoom] for a player who is not a member of
    the room: when the room is not in the in-memory index (as after the
    last member left), the call changes nothing and emits nothing; when
    the room is there with its members, it and the other rooms in memory
    are unchanged, the player→room index loses the caller's entry only (it
    is unchanged when the caller has none), the room's row is written
    again, and a [player-left] message is broadcast to the room, followed
    by the room list. *)
Theorem leaveRoom_not_member socket rid s :
  let p := playerId_of socket in
  (∀ room, activeRooms s !! rid = Some room →
     players room !! p = None ∧ currentPlayers room = size (players room) ∧
     players room ≠ ∅) →
  match activeRooms s !! rid with
  | None => leaveRoom socket rid s = (socket, s)
  | Some room =>
      let s' := (leaveRoom socket rid s).2 in
      activeRooms s' = activeRooms s ∧
      playerRooms s' = delete p (playerRooms s) ∧
      (playerRooms s !! p = None → playerRooms s' = playerRooms s) ∧
      db s' = <[room_id room := row_of room]> (db s) ∧
      emitted s' =
        (emitted s ++
           [(to_room rid, player_left p (socket_playerName socket) (currentPlayers room));
            (to_all, room_list_update (room_list (activeRooms s)))])%list
  end.
Proof.
  intros p Hnot. destruct (activeRooms s !! rid) as [room|] eqn:Hr.
  - destruct (Hnot room eq_refl) as (Hp & Hc & Hne).
    destruct (leaveRoom_stranger socket rid s room Hr Hp Hc Hne) as (Ha & Hi & Hd & He).
    cbv zeta. split_and!; try done. intros Hnone. rewrite Hi. by apply delete_id.
  - by apply leaveRoom_absent_room.
Qed.

Lemma leaveRoom_not_member_witness :
  let socket := Examples.run3.1 in
  let s := Examples.run3.2 in
  let room := Examples.room_alpha_playing in
  (∀ room, activeRooms s !! Examples.room_a = Some room →
     players room !! "q" = None ∧ currentPlayers room = size (players room) ∧
     players room ≠ ∅) ∧
  activeRooms s !! Examples.room_a = Some room ∧
  let s' := (leaveRoom socket Examples.room_a s).2 in
  activeRooms s' = activeRooms s ∧
  playerRooms s' = delete "q" (playerRooms s) ∧
  (playerRooms s !! "q" = None → playerRooms s' = playerRooms s) ∧
  db s' = <[room_id room := row_of room]> (db s) ∧
  emitted s' =
    (emitted s ++
       [(to_room Examples.room_a,
         player_left "q" (socket_playerName socket) (currentPlayers room));
        (to_all, room_list_update (room_list (activeRooms s)))])%list.
Proof.
  cbv zeta.
  assert (activeRooms Examples.run3.2 !! Examples.room_a = Some Examples.room_alpha_playing)
    as Hr by (vm_compute; reflexivity).
  assert (∀ room, activeRooms Examples.run3.2 !! Examples.room_a = Some room →
            players room !! "q" = None ∧ currentPlayers room = size (players room) ∧
            players room ≠ ∅) as Hnot.
  { intros room. rewrite Hr. intros [= <-].
    split_and!; [vm_compute; reflexivity | vm_compute; reflexivity | vm_compute; discriminate]. }
  split; [exact Hnot|]. split; [exact Hr|].
  pose proof (leaveRoom_not_member Examples.run3.1 Examples.room_a Examples.run3.2 Hnot)
    as Hthm.
  cbv zeta in Hthm. rewrite Hr in Hthm. exact Hthm.
Defined.

(** C6, as stated, fails when [leaveRoom] is replayed for a player who has
    left a room that still has a member: the second call broadcasts
    [player-left] once more. *)
Lemma leaveRoom_replayed_broadcasts :
  (∃ room, activeRooms Examples.run3.2 !! Examples.room_a = Some room ∧
           players room !! playerId_of Examples.run3.1 = None) ∧
  emitted Examples.run4.2 =
    (emitted Examples.run3.2 ++
       [(to_room Examples.room_a, player_left "q" (Some "Quinn") 1);
        (to_all, room_list_update ∅)])%list ∧
  emitted Examples.run4.2 ≠ emitted Examples.run3.2.
Proof.
  split_and!.
  - eexists. split; vm_compute; reflexivity.
  - vm_compute. reflexivity.
  - vm_compute. discriminate.
Qed.

(** C9, amended. When [leaveRoom] brings the membership of a room to zero,
    the room is removed at once from the in-memory index, and its row is
    deleted from the [rooms] table in the same call, unless a stored chat
    message refers to the room: the [DELETE] then fails and the table is
    left as it was. The 5 minutes belong to the periodic
    [cleanupEmptyRooms], which removes the rooms without member that were
    created more than 5 minutes before, and keeps the others. *)
Theorem leaveRoom_last_member socket rid s room :
  activeRooms s !! rid = Some room →
  delete (playerId_of socket) (players room) = ∅ →
  let s' := (leaveRoom socket rid s).2 in
  activeRooms s' !! rid = None ∧
  (rid ∉ chat_room_ids s → db s' !! rid = None) ∧
  (rid ∈ chat_room_ids s → db s' = db s) ∧
  ∀ now r,
    activeRooms (cleanupEmptyRooms now s) !! r =
      (room ← activeRooms s !! r;
       if decide (currentPlayers room = 0%nat ∧ (now - createdAt room > 5 * 60 * 1000)%Z)
       then None else Some room).
Proof.
  intros Hr Hlast s'.
  destruct (leaveRoom_empties socket rid s room Hr Hlast) as [Ha Hd].
  unfold s'. rewrite Ha, Hd, !lookup_delete_eq. split_and!; [done | | |].
  - intros Hfree. rewrite bool_decide_eq_false_2 by done. by rewrite lookup_delete_eq.
  - intros Hpinned. by rewrite bool_decide_eq_true_2.
  - intros now r. apply cleanupEmptyRooms_lookup.
Qed.

Lemma leaveRoom_last_member_witness :
  let socket := Examples.run1.1 in
  let s := Examples.run1.2 in
  (activeRooms s !! Examples.room_a = Some Examples.room_alpha ∧
   delete (playerId_of socket) (players Examples.room_alpha) = ∅) ∧
  let s' := (leaveRoom socket Examples.room_a s).2 in
  activeRooms s' !! Examples.room_a = None ∧
  (Examples.room_a ∉ chat_room_ids s → db s' !! Examples.room_a = None) ∧
  (Examples.room_a ∈ chat_room_ids s → db s' = db s) ∧
  ∀ now r,
    activeRooms (cleanupEmptyRooms now s) !! r =
      (room ← activeRooms s !! r;
       if decide (currentPlayers room = 0%nat ∧ (now - createdAt room > 5 * 60 * 1000)%Z)
       then None else Some room).
Proof.
  cbv zeta.
  assert (activeRooms Examples.run1.2 !! Examples.room_a = Some Examples.room_alpha)
    as Hr by (vm_compute; reflexivity).
  assert (delete (playerId_of Examples.run1.1) (players Examples.room_alpha) = ∅)
    as Hlast by (vm_compute; reflexivity).
  split; [by split|].
  exact (leaveRoom_last_member Examples.run1.1 Examples.room_a Examples.run1.2
           Examples.room_alpha Hr Hlast).
Defined.

(** With a chat message stored for the room, the row of the room outlives
    the departure of its last member. *)
Example leaveRoom_keeps_row :
  let s := chat_row_inserted Examples.room_a Examples.run1.2 in
  let s' := (leaveRoom Examples.run1.1 Examples.room_a s).2 in
  activeRooms s' !! Examples.room_a = None ∧
  db s' !! Examples.room_a = Some (row_of Examples.room_alpha).
Proof. split; vm_compute; reflexivity. Qed.

(** C9, as stated, fails: the player who created the room leaves it, and
    the room is gone from the index and from the database as [leaveRoom]
    returns, with no time elapsed. *)
Lemma leaveRoom_deletes_at_once :
  (∃ room, activeRooms Examples.run1.2 !! Examples.room_a = Some room ∧
           size (players room) = 1%nat ∧ is_Some (db Examples.run1.2 !! Examples.room_a)) ∧
  activeRooms Examples.run6.2 !! Examples.room_a = None ∧
  db Examples.run6.2 !! Examples.room_a = None.
Proof.
  split_and!.
  - eexists. split_and!; [vm_compute; reflexivity | vm_compute; reflexivity |].
    eexists. vm_compute. reflexivity.
  - vm_compute. reflexivity.
  - vm_compute. reflexivity.
Qed.

(** The sweep keeps an empty room for 5 minutes after its creation, not
    after it became empty. *)
Example cleanup_by_creation_time :
  let empty_room :=
    mkRoom Examples.room_a "Alpha" false None 2 0 waiting "p" 0 ∅ in
  let s := mkState {[ Examples.room_a := empty_room ]} ∅ ∅ ∅ [] in
  activeRooms (cleanupEmptyRooms 300000 s) !! Examples.room_a = Some empty_room ∧
  activeRooms (cleanupEmptyRooms 300001 s) !! Examples.room_a = None.
Proof. cbv zeta. rewrite !cleanupEmptyRooms_lookup. split; vm_compute; reflexivity. Qed.

Lemma run1_reachable : reachable Examples.run1.2.
Proof.
  apply (reachable_step RoomController.initial); [apply reachable_boot|].
  apply step_createRoom; [lia | reflexivity].
Qed.

Lemma run2_reachable : reachable Examples.run2.2.
Proof. apply (reachable_step Examples.run1.2); [apply run1_reachable | apply step_joinRoom]. Qed.

(** Joining room A takes the player out of room B, the room on record,
    which is left empty and removed. *)
Example join_relocates :
  playerRooms Examples.run7.2 !! "q" = Some Examples.room_b ∧
  playerRooms Examples.run8.2 !! "q" = Some Examples.room_a ∧
  activeRooms Examples.run8.2 !! Examples.room_b = None ∧
  (status <$> activeRooms Examples.run8.2 !! Examples.room_a) = Some playing.
Proof. split_and!; vm_compute; reflexivity. Qed.

End RoomControllerFacts.

Module GameAIFacts.

Import GameService GameServiceFacts GameAI.

Lemma getAvailableMoves_loop_spec (b : Board) (ps : list Pos) :
  is_3x3 b → Forall in_grid ps →
  ∀ moves, getAvailableMoves_loop b ps moves
           = Ret (moves ++ filter (λ p, cell b p = None) ps)%list.
Proof.
  intros Hb. induction 1 as [|p ps Hp _ IH]; intros moves; simpl.
  - by rewrite app_nil_r.
  - rewrite (board_at_grid b p Hb Hp). simpl. rewrite IH.
    rewrite filter_cons. unfold strict_eq.
    destruct (decide (cell b p = None)) as [Hc|Hc].
    + rewrite bool_decide_eq_true_2 by by rewrite Hc.
      by rewrite <- app_assoc.
    + rewrite bool_decide_eq_false_2; [done|]. intros [= ?]. done.
Qed.

Lemma NoDup_positions : NoDup positions.
Proof. apply (bool_decide_unpack _). by vm_compute. Qed.

Lemma cells_of_positions (b : Board) :
  is_3x3 b → cell b <$> positions = concat b.
Proof.
  intros Hb. destruct (is_3x3_inv b Hb) as (c00&c01&c02&c10&c11&c12&c20&c21&c22&->).
  reflexivity.
Qed.

Lemma length_filter_split {A : Type} (P : A → Prop) `{∀ x, Decision (P x)} (l : list A) :
  (length (filter P l) + length (filter (λ x, ¬ P x) l) = length l)%nat.
Proof.
  induction l as [|a l IH]; [done|].
  rewrite !filter_cons. destruct (decide (P a)), (decide (¬ P a)); simpl; try lia; done.
Qed.

Lemma filter_none {A : Type} (P : A → Prop) `{∀ x, Decision (P x)} (l : list A) :
  (∀ x, x ∈ l → ¬ P x) → filter P l = [].
Proof.
  induction l as [|a l IH]; [done|]. intros Hall.
  rewrite filter_cons_False by (apply Hall; left).
  apply IH. intros x Hx. apply Hall. by right.
Qed.

Lemma occupied_positions (b : Board) :
  is_3x3 b → occupied b = length (filter (λ p, cell b p ≠ None) positions).
Proof.
  intros Hb. unfold occupied. rewrite <- (cells_of_positions b Hb).
  generalize positions. induction l as [|p l IH]; [done|].
  rewrite fmap_cons, !filter_cons. destruct (decide (cell b p ≠ None)); simpl; by rewrite IH.
Qed.

Lemma available_moves (b : Board) :
  is_3x3 b → getAvailableMoves b = Ret (filter (λ p, cell b p = None) positions).
Proof.
  intros Hb. unfold getAvailableMoves.
  by rewrite (getAvailableMoves_loop_spec b positions Hb positions_grid).
Qed.

(** X1. On a 3×3 board [getAvailableMoves] returns the positions of the
    empty cells, in the order of the loops and each one once; the list is
    empty exactly when [isBoardFull] answers [true], and its length and the
    number of occupied cells add up to 9. *)
Theorem getAvailableMoves_spec (b : Board) :
  is_3x3 b →
  ∃ moves, getAvailableMoves b = Ret moves ∧
    moves = filter (λ p, cell b p = None) positions ∧
    NoDup moves ∧
    (∀ p, p ∈ moves ↔ in_grid p ∧ cell b p = None) ∧
    isBoardFull b = Ret (bool_decide (moves = [])) ∧
    (length moves + occupied b = 9)%nat.
Proof.
  intros Hb. eexists. split; [by apply available_moves|].
  split; [done|]. split; [apply NoDup_filter, NoDup_positions|].
  split.
  { intros p. rewrite list_elem_of_filter. split.
    - intros [Hc Hp]. split; [|done].
      pose proof positions_grid as Hg. rewrite Forall_forall in Hg. by apply Hg.
    - intros [Hp Hc]. split; [done | by apply positions_all]. }
  split.
  { destruct (isBoardFull_spec b Hb) as (full & -> & Hfull). f_equal.
    destruct full.
    - symmetry. apply bool_decide_eq_true_2.
      apply filter_none. intros p Hp.
      apply (proj1 Hfull eq_refl).
      pose proof positions_grid as Hg. rewrite Forall_forall in Hg. by apply Hg.
    - symmetry. apply bool_decide_eq_false_2. intros Hnil.
      assert (true = false) as Habs; [|discriminate]. symmetry. apply Hfull.
      intros p Hp Hc.
      assert (p ∈ filter (λ p, cell b p = None) positions) as Hin.
      { apply list_elem_of_filter. split; [done | by apply positions_all]. }
      rewrite Hnil in Hin. by apply elem_of_nil in Hin. }
  rewrite (occupied_positions b Hb).
  by rewrite (length_filter_split (λ p, cell b p = None) positions).
Qed.

Lemma getAvailableMoves_spec_witness :
  let b := Examples.b_diagonal in
  is_3x3 b ∧
  ∃ moves, getAvailableMoves b = Ret moves ∧
    moves = filter (λ p, cell b p = None) positions ∧
    NoDup moves ∧
    (∀ p, p ∈ moves ↔ in_grid p ∧ cell b p = None) ∧
    isBoardFull b = Ret (bool_decide (moves = [])) ∧
    (length moves + occupied b = 9)%nat.
Proof.
  assert (is_3x3 Examples.b_diagonal) as Hb by (split; [reflexivity | repeat constructor]).
  split; [exact Hb|]. exact (getAvailableMoves_spec Examples.b_diagonal Hb).
Defined.

(** X2. While a game is being played on a 3×3 board, the moves that
    [validateMove] accepts from the player whose turn it is are the integer
    coordinates of the positions listed by [getAvailableMoves]. *)
Theorem available_iff_valid (h : Heap) (l : loc) (g : GameState) (pid : string)
    (x y : JsArg) :
  h !! l = Some g → is_3x3 (board g) →
  status g = playing → currentPlayerId g = Some pid →
  ∃ moves, getAvailableMoves (board g) = Ret moves ∧
    (validateMove l pid x y h = Ret (Valid, h) ↔
     in_bounds x y ∧ (index x, index y) ∈ moves).
Proof.
  intros Hl Hb Hst Hcur. eexists. split; [by apply available_moves|].
  rewrite (validateMove_run h l g pid x y Hl Hb).
  destruct (verdict_cases g pid x y) as [Hvalid _].
  rewrite list_elem_of_filter. split.
  - intros [= Hv]. apply Hvalid in Hv as (_ & _ & Hxy & Hc).
    split; [done|]. split; [done|]. by apply positions_all, in_bounds_grid.
  - intros (Hxy & Hc & _). f_equal. f_equal. apply Hvalid. by split_and!.
Qed.

Lemma available_iff_valid_witness :
  let h := Examples.h_start in
  let g := Examples.g_start in
  (h !! 1%positive = Some g ∧ is_3x3 (board g) ∧
   status g = playing ∧ currentPlayerId g = Some "a") ∧
  ∃ moves, getAvailableMoves (board g) = Ret moves ∧
    (validateMove 1%positive "a" (Integer 1) (Integer 2) h = Ret (Valid, h) ↔
     in_bounds (Integer 1) (Integer 2) ∧ (index (Integer 1), index (Integer 2)) ∈ moves).
Proof.
  assert (is_3x3 (board Examples.g_start)) as Hb by (split; [reflexivity | repeat constructor]).
  split; [split_and!; [reflexivity | exact Hb | reflexivity | reflexivity]|].
  exact (available_iff_valid Examples.h_start 1%positive Examples.g_start "a"
           (Integer 1) (Integer 2) eq_refl Hb eq_refl eq_refl).
Defined.

(** Writing [null] back to a cell that was empty restores the board. *)
Lemma board_set_undo (b : Board) (p : Pos) (v : Cell) :
  is_3x3 b → in_grid p → cell b p = None →
  board_set (board_set b p v) p None = b.
Proof.
  intros Hb [Hx Hy] Hc.
  destruct (is_3x3_inv b Hb) as (c00&c01&c02&c10&c11&c12&c20&c21&c22&->).
  destruct p as [[|[|[|x]]] [|[|[|y]]]]; simpl in *; try lia;
    unfold cell in Hc; simpl in Hc; by subst.
Qed.

Lemma findWinningMove_loop_spec (k : PlayerKey) (b : Board) (ps : list Pos) :
  is_3x3 b → Forall in_grid ps →
  ∃ r, findWinningMove_loop k ps b = (Ret r, b) ∧
    match r with
    | Some p => p ∈ ps ∧ winning_cell b k p
    | None => ∀ p, p ∈ ps → ¬ winning_cell b k p
    end.
Proof.
  intros Hb. induction 1 as [|p ps Hp Hps IH]; simpl.
  - exists None. split; [done|]. intros p Hp. by apply elem_of_nil in Hp.
  - unfold mbind at 1, B_bind at 1, read_cell at 1.
    rewrite (board_at_grid b p Hb Hp). unfold strict_eq.
    destruct IH as (r & Hr & Hspec).
    destruct (decide (cell b p = None)) as [Hc|Hc].
    + rewrite bool_decide_eq_true_2 by by rewrite Hc.
      unfold mbind at 1, B_bind at 1, write_cell at 1.
      unfold mbind at 1, B_bind at 1, winner_on_board at 1.
      assert (is_3x3 (board_set b p (Some k))) as Hb' by by apply board_set_3x3.
      destruct (winner_and_combination _ Hb') as (w & c & Hw & _).
      rewrite Hw.
      destruct (decide (w = Some k)) as [->|Hne].
      * rewrite bool_decide_eq_true_2 by done.
        unfold mbind at 1, B_bind at 1, write_cell at 1.
        rewrite (board_set_undo b p _ Hb Hp Hc).
        exists (Some p). split; [done|]. split; [by left|]. by split_and!.
      * rewrite bool_decide_eq_false_2 by done.
        unfold mbind at 1, B_bind at 1, write_cell at 1.
        rewrite (board_set_undo b p _ Hb Hp Hc). rewrite Hr.
        exists r. split; [done|]. destruct r as [q|].
        -- destruct Hspec. split; [by right | done].
        -- intros q Hq. apply elem_of_cons in Hq as [->|Hq]; [|by apply Hspec].
           intros (_ & _ & Hwin). rewrite Hw in Hwin. congruence.
    + rewrite bool_decide_eq_false_2 by (intros [= ?]; done).
      rewrite Hr. exists r. split; [done|]. destruct r as [q|].
      * destruct Hspec. split; [by right | done].
      * intros q Hq. apply elem_of_cons in Hq as [->|Hq]; [|by apply Hspec].
        intros (_ & Hc' & _). done.
Qed.

Lemma findWinningMove_run (k : PlayerKey) (b : Board) :
  is_3x3 b →
  ∃ r, findWinningMove k b = (Ret r, b) ∧
    match r with
    | Some p => winning_cell b k p
    | None => ∀ p, ¬ winning_cell b k p
    end.
Proof.
  intros Hb.
  destruct (findWinningMove_loop_spec k b positions Hb positions_grid) as (r & Hr & Hspec).
  exists r. split; [done|]. destruct r as [p|]; [by destruct Hspec|].
  intros p Hw. apply (Hspec p); [|done]. destruct Hw as [Hp _]. by apply positions_all.
Qed.

(** X3. On a 3×3 board [findWinningMove] does not throw and hands the board
    back as it received it, every trial move undone. The position it
    returns is an empty cell of the grid where the player's key makes
    [checkWinner] answer that key; it returns [null] only when no empty
    cell does. *)
Theorem findWinningMove_spec (k : PlayerKey) (b : Board) :
  is_3x3 b →
  ∃ r, findWinningMove k b = (Ret r, b) ∧
    (∀ p, r = Some p →
       in_grid p ∧ cell b p = None ∧
       checkWinner (board_set b p (Some k)) = Ret (Some k)) ∧
    (r = None ↔
       ∀ p, in_grid p → cell b p = None →
         checkWinner (board_set b p (Some k)) ≠ Ret (Some k)).
Proof.
  intros Hb. destruct (findWinningMove_run k b Hb) as (r & Hr & Hspec).
  exists r. split; [done|]. split.
  - intros p ->. exact Hspec.
  - split.
    + intros -> p Hp Hc Hw. by apply (Hspec p).
    + intros Hnone. destruct r as [p|]; [|done].
      destruct Hspec as (Hp & Hc & Hw). by destruct (Hnone p Hp Hc).
Qed.

Lemma findWinningMove_spec_witness :
  let b := [[Some player1; Some player1; None];
            [Some player2; Some player2; None];
            [None; None; None]] in
  is_3x3 b ∧
  ∃ r, findWinningMove player2 b = (Ret r, b) ∧
    (∀ p, r = Some p →
       in_grid p ∧ cell b p = None ∧
       checkWinner (board_set b p (Some player2)) = Ret (Some player2)) ∧
    (r = None ↔
       ∀ p, in_grid p → cell b p = None →
         checkWinner (board_set b p (Some player2)) ≠ Ret (Some player2)).
Proof.
  split; [split; [reflexivity | repeat constructor]|].
  apply (findWinningMove_spec player2). split; [reflexivity | repeat constructor].
Defined.

Lemma first_free_spec (b : Board) (ps : list Pos) :
  is_3x3 b → Forall in_grid ps →
  ∃ r, first_free ps b = (Ret r, b) ∧
    match r with
    | Some p => p ∈ ps ∧ cell b p = None
    | None => ∀ p, p ∈ ps → cell b p ≠ None
    end.
Proof.
  intros Hb. induction 1 as [|p ps Hp Hps IH]; simpl.
  - exists None. split; [done|]. intros p Hp. by apply elem_of_nil in Hp.
  - unfold mbind at 1, B_bind at 1, read_cell at 1.
    rewrite (board_at_grid b p Hb Hp). unfold strict_eq.
    destruct (decide (cell b p = None)) as [Hc|Hc].
    + rewrite bool_decide_eq_true_2 by by rewrite Hc.
      exists (Some p). split; [done|]. split; [by left | done].
    + rewrite bool_decide_eq_false_2 by (intros [= ?]; done).
      destruct IH as (r & Hr & Hspec). exists r. split; [done|].
      destruct r as [q|].
      * destruct Hspec. split; [by right | done].
      * intros q Hq. apply elem_of_cons in Hq as [->|Hq]; [done | by apply Hspec].
Qed.

Lemma corners_grid : Forall in_grid corners.
Proof. repeat constructor. Qed.
Lemma edges_grid : Forall in_grid edges.
Proof. repeat constructor. Qed.

Lemma grid_cases (p : Pos) :
  in_grid p → p = (1, 1)%nat ∨ p ∈ corners ∨ p ∈ edges.
Proof.
  intros [Hx Hy]. destruct p as [[|[|[|x]]] [|[|[|y]]]]; simpl in *; try lia;
    apply (bool_decide_unpack _); by vm_compute.
Qed.

Lemma getAIMove_run (k : PlayerKey) (b : Board) :
  is_3x3 b →
  ∃ r, getAIMove k b = (Ret r, b) ∧
    (r = None ↔ ∀ p, in_grid p → cell b p ≠ None) ∧
    (∀ p, r = Some p → in_grid p ∧ cell b p = None) ∧
    ((∃ p, winning_cell b k p) → ∃ p, r = Some p ∧ winning_cell b k p) ∧
    ((∀ p, ¬ winning_cell b k p) → (∃ p, winning_cell b (other k) p) →
       ∃ p, r = Some p ∧ winning_cell b (other k) p).
Proof.
  intros Hb. unfold getAIMove.
  change (match k with player1 => player2 | player2 => player1 end) with (other k).
  destruct (findWinningMove_run k b Hb) as (win & Hwin & Hwspec).
  unfold mbind at 1, B_bind at 1. rewrite Hwin.
  destruct win as [p|].
  { exists (Some p). split; [done|]. destruct Hwspec as (Hp & Hc & Hw).
    split_and!.
    - split; [done|]. intros Hfull. by destruct (Hfull p Hp).
    - by intros ? [= <-].
    - intros _. exists p. by split_and!.
    - intros Hno. by destruct (Hno p). }
  destruct (findWinningMove_run (other k) b Hb) as (block & Hblock & Hbspec).
  unfold mbind at 1, B_bind at 1. rewrite Hblock.
  destruct block as [p|].
  { exists (Some p). split; [done|]. destruct Hbspec as (Hp & Hc & Hw).
    split_and!.
    - split; [done|]. intros Hfull. by destruct (Hfull p Hp).
    - by intros ? [= <-].
    - intros [q Hq]. by destruct (Hwspec q).
    - intros _ _. exists p. by split_and!. }
  unfold mbind at 1, B_bind at 1, read_cell at 1.
  assert (in_grid (1, 1)%nat) as Hcenter by (split; simpl; lia).
  rewrite (board_at_grid b _ Hb Hcenter). unfold strict_eq.
  destruct (decide (cell b (1, 1)%nat = None)) as [Hc|Hc].
  { rewrite bool_decide_eq_true_2 by by rewrite Hc.
    exists (Some (1, 1)%nat). split; [done|]. split_and!.
    - split; [done|]. intros Hfull. by destruct (Hfull _ Hcenter).
    - by intros ? [= <-].
    - intros [q Hq]. by destruct (Hwspec q).
    - intros _ [q Hq]. by destruct (Hbspec q). }
  rewrite bool_decide_eq_false_2 by (intros [= ?]; done).
  destruct (first_free_spec b corners Hb corners_grid) as (corner & Hcorner & Hcspec).
  unfold mbind at 1, B_bind at 1. rewrite Hcorner.
  pose proof corners_grid as Hcg. rewrite Forall_forall in Hcg.
  pose proof edges_grid as Heg. rewrite Forall_forall in Heg.
  destruct corner as [p|].
  { exists (Some p). split; [done|]. destruct Hcspec as [Hin Hfree]. split_and!.
    - split; [done|]. intros Hfull. by destruct (Hfull p (Hcg p Hin)).
    - intros ? [= <-]. split; [by apply Hcg | done].
    - intros [q Hq]. by destruct (Hwspec q).
    - intros _ [q Hq]. by destruct (Hbspec q). }
  destruct (first_free_spec b edges Hb edges_grid) as (edge & Hedge & Hespec).
  rewrite Hedge. exists edge. split; [done|].
  destruct edge as [p|].
  { destruct Hespec as [Hin Hfree]. split_and!.
    - split; [done|]. intros Hfull. by destruct (Hfull p (Heg p Hin)).
    - intros ? [= <-]. split; [by apply Heg | done].
    - intros [q Hq]. by destruct (Hwspec q).
    - intros _ [q Hq]. by destruct (Hbspec q). }
  split_and!.
  - split; [|done]. intros _ p Hp.
    destruct (grid_cases p Hp) as [->|[Hin|Hin]]; [done | by apply Hcspec | by apply Hespec].
  - done.
  - intros [q Hq]. by destruct (Hwspec q).
  - intros _ [q Hq]. by destruct (Hbspec q).
Qed.

(** X4. On a 3×3 board [getAIMove] does not throw and leaves the board as
    it was. It returns [null] exactly when no cell is empty; otherwise it
    returns an empty cell of the grid: one that wins for the player when
    there is one, else one that would win for the opponent when there is
    one. *)
Theorem getAIMove_spec (k : PlayerKey) (b : Board) :
  is_3x3 b →
  ∃ r, getAIMove k b = (Ret r, b) ∧
    (r = None ↔ ∀ p, in_grid p → cell b p ≠ None) ∧
    (∀ p, r = Some p → in_grid p ∧ cell b p = None) ∧
    ((∃ p, winning_cell b k p) → ∃ p, r = Some p ∧ winning_cell b k p) ∧
    ((∀ p, ¬ winning_cell b k p) → (∃ p, winning_cell b (other k) p) →
       ∃ p, r = Some p ∧ winning_cell b (other k) p).
Proof. apply getAIMove_run. Qed.

Lemma getAIMove_spec_witness :
  let b := [[Some player1; Some player1; None];
            [Some player2; None; None];
            [None; None; None]] in
  let k := player2 in
  is_3x3 b ∧
  ∃ r, getAIMove k b = (Ret r, b) ∧
    (r = None ↔ ∀ p, in_grid p → cell b p ≠ None) ∧
    (∀ p, r = Some p → in_grid p ∧ cell b p = None) ∧
    ((∃ p, winning_cell b k p) → ∃ p, r = Some p ∧ winning_cell b k p) ∧
    ((∀ p, ¬ winning_cell b k p) → (∃ p, winning_cell b (other k) p) →
       ∃ p, r = Some p ∧ winning_cell b (other k) p).
Proof.
  split; [split; [reflexivity | repeat constructor]|].
  apply (getAIMove_spec player2). split; [reflexivity | repeat constructor].
Defined.

(** While a game is being played on a 3×3 board that is not full, the
    move that [getAIMove] picks for the player to move is accepted by
    [validateMove] from that player. *)
Lemma getAIMove_valid (h : Heap) (l : loc) (g : GameState) (pid : string) :
  h !! l = Some g → is_3x3 (board g) →
  status g = playing → currentPlayerId g = Some pid →
  (∃ p, in_grid p ∧ cell (board g) p = None) →
  ∃ p, getAIMove (currentPlayer g) (board g) = (Ret (Some p), board g) ∧
    validateMove l pid (Integer (Z.of_nat p.1)) (Integer (Z.of_nat p.2)) h = Ret (Valid, h).
Proof.
  intros Hl Hb Hst Hcur (q & Hq & Hqc).
  destruct (getAIMove_run (currentPlayer g) (board g) Hb) as (r & Hr & Hnone & Hsome & _).
  destruct r as [p|].
  2: { destruct (proj1 Hnone eq_refl q Hq Hqc). }
  exists p. split; [done|]. destruct (Hsome p eq_refl) as [[Hx Hy] Hc].
  rewrite (validateMove_run h l g pid _ _ Hl Hb). f_equal. f_equal.
  destruct (verdict_cases g pid (Integer (Z.of_nat p.1)) (Integer (Z.of_nat p.2)))
    as [Hvalid _].
  apply Hvalid. split_and!; [done | done | |].
  - exists (Z.of_nat p.1), (Z.of_nat p.2). split_and!; try done; lia.
  - simpl. rewrite !Nat2Z.id. by destruct p.
Qed.

End GameAIFacts.

Module GamePlayFacts.

Import GameService GameServiceFacts GameAI GameAIFacts GamePlay GameExamples.

(** The fields that a successful [makeMove] copies unchanged, and the time
    stamps it writes. *)
Lemma makeMove_frame (h : Heap) (l : loc) (g : GameState) (pid : string)
    (x y : JsArg) (t1 t2 t3 : Z) :
  h !! l = Some g → is_3x3 (board g) →
  verdict g pid x y = Valid →
  checkWinner (board g) = Ret None →
  ∃ g' : GameState,
    makeMove l pid x y t1 t2 t3 h
      = Ret (Success (fresh (dom h)), <[fresh (dom h) := g']> h) ∧
    players g' = players g ∧ gameId g' = gameId g ∧ roomId g' = roomId g ∧
    createdAt g' = createdAt g ∧ startedAt g' = startedAt g ∧
    lastMoveAt g' = Some t1 ∧
    (status g' = playing → finishedAt g' = finishedAt g) ∧
    (status g' ≠ playing →
       finishedAt g' = Some t3 ∧ currentPlayer g' = currentPlayer g).
Proof.
  intros Hl Hb Hv Hw.
  pose proof (validateMove_run h l g pid x y Hl Hb) as Hrun. rewrite Hv in Hrun.
  destruct (verdict_cases g pid x y) as [[Hvalid _] _].
  destruct (Hvalid Hv) as (Hst & Hcur & Hxy & Hcell).
  pose proof (in_bounds_grid _ _ Hxy) as Hp.
  destruct (deep_copy_fresh h l g Hl) as [Hcopy Hfresh].
  set (l' := fresh (dom h)) in *.
  set (b' := board_set (board g) (index x, index y) (Some (currentPlayer g))).
  assert (is_3x3 b') as Hb' by by apply board_set_3x3.
  unfold currentPlayerId in Hcur.
  destruct (player (players g) (currentPlayer g)) as [mover|] eqn:Hmover; [|discriminate].
  destruct (winner_and_combination b' Hb') as (w & c & Hwr & _ & Hcases).
  destruct (isBoardFull_spec b' Hb') as (full & Hfr & Hfull).
  unfold makeMove, mbind, M_bind at 1. rewrite Hrun.
  unfold mbind, M_bind at 1. rewrite Hcopy.
  unfold mbind, M_bind at 1. rewrite read_insert.
  unfold mbind, M_bind at 1. rewrite read_insert. rewrite Hmover.
  unfold mbind, M_bind at 1. unfold mret at 1, M_ret at 1.
  unfold mbind, M_bind at 1. rewrite assign_insert.
  unfold mbind, M_bind at 1. rewrite assign_insert.
  unfold mbind, M_bind at 1. rewrite assign_insert.
  unfold mbind, M_bind at 1. rewrite read_insert.
  cbn [board set_board set_lastMoveAt set_moveHistory moveHistory].
  fold b'.
  unfold mbind, M_bind at 1. unfold lift at 1. rewrite Hwr.
  destruct Hcases as [(-> & _ & Hnone) | (k & c' & -> & _ & Hc & Hline)].
  - unfold mbind, M_bind at 1.
    unfold mbind, M_bind at 1. unfold lift at 1. rewrite Hfr.
    destruct full.
    + unfold mbind, M_bind at 1. rewrite assign_insert. rewrite assign_insert.
      eexists. split; [reflexivity|]. simpl. by split_and!.
    + rewrite assign_insert.
      eexists. split; [reflexivity|]. simpl. by split_and!.
  - assert (k = currentPlayer g) as ->.
    { eapply (new_line_is_movers (board g) (index x, index y));
        [done | done | by apply no_line_before | exact Hc | exact Hline]. }
    unfold mbind, M_bind at 1.
    unfold mbind, M_bind at 1. rewrite assign_insert.
    unfold mbind, M_bind at 1. rewrite read_insert.
    cbn [players set_status set_board set_lastMoveAt set_moveHistory].
    rewrite Hmover.
    unfold mbind, M_bind at 1. rewrite assign_insert.
    rewrite assign_insert.
    eexists. split; [reflexivity|]. simpl. by split_and!.
Qed.

(** *** Counting the cells *)

Lemma concat_board_set (b : Board) (p : Pos) (v : Cell) :
  is_3x3 b → in_grid p →
  concat (board_set b p v) = <[(p.1 * 3 + p.2)%nat := v]> (concat b) ∧
  concat b !! (p.1 * 3 + p.2)%nat = Some (cell b p).
Proof.
  intros Hb [Hx Hy].
  destruct (is_3x3_inv b Hb) as (c00&c01&c02&c10&c11&c12&c20&c21&c22&->).
  destruct p as [[|[|[|x]]] [|[|[|y]]]]; simpl in *; try lia; by split.
Qed.

Lemma length_filter_insert {A : Type} (P : A → Prop) `{∀ x, Decision (P x)}
    (l : list A) (i : nat) (v old : A) :
  l !! i = Some old → ¬ P old →
  length (filter P (<[i := v]> l))
  = (length (filter P l) + if decide (P v) then 1 else 0)%nat.
Proof.
  revert i. induction l as [|a l IH]; intros i Hi Hold; [done|].
  destruct i as [|i]; simpl in *.
  - injection Hi as ->. rewrite !filter_cons.
    rewrite (decide_False (P:=P old)) by done.
    destruct (decide (P v)); simpl; lia.
  - rewrite !filter_cons. destruct (decide (P a)); simpl; rewrite (IH i) by done; lia.
Qed.

Lemma owned_board_set (b : Board) (p : Pos) (k k' : PlayerKey) :
  is_3x3 b → in_grid p → cell b p = None →
  owned (board_set b p (Some k)) k'
  = (owned b k' + if decide (k = k') then 1 else 0)%nat.
Proof.
  intros Hb Hp Hc. unfold owned.
  destruct (concat_board_set b p (Some k) Hb Hp) as [Heq Hlook].
  rewrite Heq. rewrite Hc in Hlook.
  rewrite (length_filter_insert (λ c : Cell, c = Some k') _ _ _ None Hlook); [|done].
  repeat case_decide; simplify_eq; done.
Qed.

Lemma occupied_owned (b : Board) :
  occupied b = (owned b player1 + owned b player2)%nat.
Proof.
  unfold occupied, owned. induction (concat b) as [|c l IH]; [done|].
  rewrite !filter_cons.
  destruct c as [[|]|]; repeat case_decide; simpl; try congruence; lia.
Qed.

Lemma length_filter_cons {A : Type} (P : A → Prop) `{∀ x, Decision (P x)}
    (a : A) (l : list A) :
  length (filter P (a :: l))
  = ((if decide (P a) then 1 else 0) + length (filter P l))%nat.
Proof. rewrite filter_cons. by destruct (decide (P a)). Qed.

(** A complete combination holds three cells of its owner. *)
Lemma line_owned (b : Board) (k : PlayerKey) (c : Combination) :
  is_3x3 b → c ∈ WINNING_COMBINATIONS → line_of b k c → (3 ≤ owned b k)%nat.
Proof.
  intros Hb Hc (H1 & H2 & H3).
  destruct (is_3x3_inv b Hb) as (c00&c01&c02&c10&c11&c12&c20&c21&c22&->).
  unfold owned. simpl concat. rewrite !length_filter_cons.
  unfold WINNING_COMBINATIONS in Hc.
  repeat (apply elem_of_cons in Hc as [->|Hc]); [..|by apply elem_of_nil in Hc];
    unfold cell in H1, H2, H3; simpl in H1, H2, H3; subst;
    rewrite !(decide_True (P:=Some k = Some k)) by done; lia.
Qed.

Lemma filter_all {A : Type} (P : A → Prop) `{∀ x, Decision (P x)} (l : list A) :
  Forall P l → filter P l = l.
Proof. induction 1 as [|a l Ha _ IH]; [done|]. by rewrite filter_cons_True, IH. Qed.

Lemma full_occupied (b : Board) : is_3x3 b → full b → occupied b = 9%nat.
Proof.
  intros Hb Hfull. rewrite (occupied_positions b Hb).
  rewrite filter_all; [done|].
  eapply Forall_impl; [exact positions_grid|]. intros p Hp. by apply Hfull.
Qed.

Lemma not_full_occupied (b : Board) : is_3x3 b → ¬ full b → (occupied b < 9)%nat.
Proof.
  intros Hb Hnot. rewrite (occupied_positions b Hb).
  destruct (decide (Forall (λ p, cell b p ≠ None) positions)) as [Hall|Hex].
  - destruct Hnot. intros p Hp. rewrite Forall_forall in Hall.
    by apply Hall, positions_all.
  - apply not_Forall_Exists in Hex; [|apply _].
    apply Exists_exists in Hex as (p & Hin & Hp).
    change 9%nat with (length positions).
    by apply (length_filter_lt _ _ p).
Qed.

Lemma seat_S (n : nat) : seat (S n) = other (seat n).
Proof.
  unfold seat. rewrite Nat.even_succ, <- Nat.negb_even.
  by destruct (Nat.even n).
Qed.

(** *** The invariant *)

Lemma createGame_sound (uuid room : string) (ps : list (string * string)) (now : Z)
    (g : GameState) :
  createGame uuid room ps now = Ret g → sound g.
Proof.
  unfold createGame.
  destruct ps as [|[id1 name1] [|[id2 name2] [|? ?]]]; try discriminate.
  intros [= <-]. unfold sound. simpl.
  split_and!; try done.
  - split; [reflexivity | repeat constructor].
  - intros (k & c & Hc & H1 & _).
    unfold WINNING_COMBINATIONS in Hc.
    repeat (apply elem_of_cons in Hc as [->|Hc]); [..|by apply elem_of_nil in Hc];
      discriminate.
  - intros Hfull. by apply (Hfull (0, 0)%nat); [split; simpl; lia|].
Qed.

Lemma sound_settled (g : GameState) : sound g → settled g.
Proof.
  intros (Hb & _ & _ & _ & _ & Hst). split; [done|]. intros Hplay.
  rewrite Hplay in Hst. destruct Hst as (_ & Hno & _ & Hw). split; [|done].
  destruct (winner_and_combination (board g) Hb) as (w & c & Hwr & _ & Hc).
  destruct Hc as [(-> & _) | (k & c' & _ & _ & Hin & Hline)]; [done|].
  destruct Hno. by exists k, c'.
Qed.

Lemma makeMove_sound (h h' : Heap) (l l' : loc) (g g' : GameState) (pid : string)
    (x y : JsArg) (t1 t2 t3 : Z) :
  h !! l = Some g → sound g →
  makeMove l pid x y t1 t2 t3 h = Ret (Success l', h') → h' !! l' = Some g' →
  sound g' ∧ players g' = players g ∧ status g = playing ∧
  moveHistory g' =
    (moveHistory g ++ [mkMove pid (currentPlayer g) x y t2 (length (moveHistory g) + 1)])%list.
Proof.
  intros Hl Hsound Hrun Hl'.
  pose proof (sound_settled g Hsound) as [_ Hplay].
  destruct Hsound as (Hb & Hnum & Hrec & Hodd & Hsum & Hst).
  pose proof (validateMove_run h l g pid x y Hl Hb) as Hv.
  destruct (verdict g pid x y) as [|r] eqn:Hverdict.
  2: { unfold makeMove, mbind, M_bind at 1 in Hrun. rewrite Hv in Hrun. discriminate. }
  destruct (verdict_cases g pid x y) as [[Hvalid _] _].
  rewrite Hverdict in Hvalid. destruct (Hvalid eq_refl) as (Hplaying & Hcur & Hxy & Hcell).
  destruct (Hplay Hplaying) as [Hw Hwin].
  rewrite Hplaying in Hst. destruct Hst as (Hseat & Hnoline & Hnotfull & _).
  destruct (makeMove_steps h l g pid x y t1 t2 t3 Hl Hb Hverdict Hw)
    as (g1 & Hrun1 & Hfresh & _ & Hboard & Hhist & Hcases).
  destruct (makeMove_frame h l g pid x y t1 t2 t3 Hl Hb Hverdict Hw)
    as (g2 & Hrun2 & Hplayers & _ & _ & _ & _ & _ & _ & Hended).
  rewrite Hrun in Hrun1. injection Hrun1 as -> ->.
  rewrite Hrun in Hrun2. injection Hrun2 as Heq.
  rewrite lookup_insert_eq in Hl'. injection Hl' as ->.
  assert (g2 = g') as ->.
  { apply (f_equal (λ m : Heap, m !! fresh (dom h))) in Heq.
    rewrite !lookup_insert_eq in Heq. congruence. }
  clear Heq.
  pose proof (in_bounds_grid _ _ Hxy) as Hp.
  assert (is_3x3 (board g')) as Hb' by (rewrite Hboard; by apply board_set_3x3).
  split_and!; [|done|done|done].
  unfold sound. split_and!.
  - done.
  - unfold numbered. rewrite Hhist, fmap_app, length_app, seq_app, Hnum. simpl.
    by rewrite Nat.add_comm.
  - intros i m Hi. rewrite Hhist in Hi. unfold recorded_move. rewrite Hplayers, Hboard.
    apply lookup_app_Some in Hi as [Hi | [Hge Hi]].
    + destruct (Hrec i m Hi) as (Hk & Hid & Hin & Hc). split_and!; try done.
      rewrite cell_board_set by done. case_decide as Hpos; [|done].
      rewrite Hpos in Hc. congruence.
    + apply list_lookup_singleton_Some in Hi as [Hi <-].
      assert (i = length (moveHistory g)) as -> by lia.
      simpl. split_and!; try done.
      * by rewrite <- Hseat.
      * unfold position. simpl. rewrite cell_board_set by done.
        rewrite decide_True by done. by rewrite Hseat.
  - rewrite Hboard, !owned_board_set by done.
    rewrite Hhist, length_app. simpl. rewrite Nat.add_1_r, Nat.even_succ, <- Nat.negb_even.
    rewrite Hseat. unfold seat. destruct (Nat.even (length (moveHistory g)));
      repeat case_decide; simpl; try congruence; lia.
  - rewrite Hboard, !owned_board_set by done.
    rewrite Hhist, length_app. simpl.
    rewrite Hseat. unfold seat. destruct (Nat.even (length (moveHistory g)));
      repeat case_decide; simpl; try congruence; lia.
  - destruct Hcases as [((k & c & Hc & Hline) & -> & Hwinner)
                       | [(Hno & Hfull & -> & Hwinner) | (Hno & Hnf & -> & Hwinner & Hnext)]].
    + eexists _, c. rewrite Hhist, last_snoc. split; [done|]. simpl.
      split_and!; [done | done |].
      assert (k = currentPlayer g) as <-; [|done].
      rewrite Hboard in Hline.
      eapply (new_line_is_movers (board g) (index x, index y));
        [done | done | by apply no_line_before | exact Hc | exact Hline].
    + split_and!; [done | done | congruence].
    + rewrite Hhist, length_app. simpl. rewrite Nat.add_1_r, seat_S, <- Hseat.
      split_and!; [done | done | done | congruence].
Qed.

Lemma played_sound (g : GameState) : played g → sound g.
Proof.
  induction 1 as [uuid room ps now g Hg | g h l pid x y t1 t2 t3 l' h' g' _ IH Hl Hrun Hl'].
  - by eapply createGame_sound.
  - by destruct (makeMove_sound h h' l l' g g' pid x y t1 t2 t3 Hl IH Hrun Hl').
Qed.

Lemma played_counts (g : GameState) :
  played g →
  is_3x3 (board g) ∧ occupied (board g) = length (moveHistory g) ∧
  (length (moveHistory g) ≤ 9)%nat.
Proof.
  intros Hplayed. destruct (played_sound g Hplayed) as (Hb & _ & _ & _ & Hsum & _).
  assert (occupied (board g) = length (moveHistory g)) as Hocc
    by (by rewrite occupied_owned).
  split_and!; [done | done |].
  rewrite <- Hocc, (occupied_positions _ Hb).
  change 9%nat with (length positions). apply length_filter.
Qed.

(** The example game is a game. *)
Lemma played_after_move (g g' : GameState) (pid : string) (x y t : Z) :
  played g → after_move pid x y t g = Some g' → played g'.
Proof.
  intros Hg Hrun. unfold after_move in Hrun.
  destruct (makeMove 1%positive pid (Integer x) (Integer y) t t t {[ 1%positive := g ]})
    as [[[r|l'] h']|e] eqn:Hm; try discriminate.
  exact (played_moved g {[ 1%positive := g ]} 1%positive pid (Integer x) (Integer y) t t t
           l' h' g' Hg (lookup_singleton_eq _ _) Hm Hrun).
Defined.

Lemma played_play (moves : list (string * Z * Z * Z)) :
  ∀ g g', played g → play moves g = Some g' → played g'.
Proof.
  induction moves as [|[[[pid x] y] t] rest IH]; intros g g' Hg Hrun; simpl in Hrun.
  - injection Hrun as <-. exact Hg.
  - destruct (after_move pid x y t g) as [g1|] eqn:Hmove; [|discriminate].
    exact (IH g1 g' (played_after_move g g1 pid x y t Hg Hmove) Hrun).
Defined.

Lemma g_won_played : played g_won.
Proof.
  assert (play five_moves Examples.g_start = Some g_won) as Hrun by (vm_compute; reflexivity).
  exact (played_play five_moves Examples.g_start g_won
           (played_created "g" "r" [("a", "Ann"); ("b", "Bob")] 0 Examples.g_start eq_refl)
           Hrun).
Defined.

(** X5. In every state of a game the board is 3×3, the occupied cells are
    as many as the moves of the history (9 at most), the moves are numbered
    1, 2, 3, ... and each one lies within the board, on a cell that holds
    the key of its player. *)
Theorem played_board (g : GameState) :
  played g →
  is_3x3 (board g) ∧
  occupied (board g) = length (moveHistory g) ∧
  (length (moveHistory g) ≤ 9)%nat ∧
  ∀ i m, moveHistory g !! i = Some m →
    moveNumber m = S i ∧ in_bounds (move_x m) (move_y m) ∧
    cell (board g) (index (move_x m), index (move_y m)) = Some (playerKey m).
Proof.
  intros Hplayed. destruct (played_sound g Hplayed) as (_ & Hnum & Hrec & _).
  destruct (played_counts g Hplayed) as (Hb & Hocc & Hle).
  split_and!; [done | done | done |].
  intros i m Hi. destruct (Hrec i m Hi) as (Hk & _ & Hin & Hc).
  split_and!; [|done | by rewrite Hk].
  unfold numbered in Hnum.
  assert ((moveNumber <$> moveHistory g) !! i = Some (moveNumber m)) as Hn
    by (by rewrite list_lookup_fmap, Hi).
  rewrite Hnum in Hn. apply lookup_seq in Hn as [-> _]. done.
Qed.

Lemma played_board_witness :
  let g := g_won in
  played g ∧
  is_3x3 (board g) ∧
  occupied (board g) = length (moveHistory g) ∧
  (length (moveHistory g) ≤ 9)%nat ∧
  ∀ i m, moveHistory g !! i = Some m →
    moveNumber m = S i ∧ in_bounds (move_x m) (move_y m) ∧
    cell (board g) (index (move_x m), index (move_y m)) = Some (playerKey m).
Proof.
  split; [exact g_won_played|]. exact (played_board g_won g_won_played).
Defined.

(** X6. The players of a game move in turn, the first one first: the move
    of index [i] (from 0) was made by [player1] when [i] is even and by
    [player2] when it is odd, under that player's id; while the game is
    being played the current player is the one whose turn comes next; and
    [player1] holds as many cells as [player2], or one more. *)
Theorem played_turns (g : GameState) :
  played g →
  (∀ i m, moveHistory g !! i = Some m →
     playerKey m = seat i ∧
     Some (playerId m) = player_id <$> player (players g) (seat i)) ∧
  (status g = playing → currentPlayer g = seat (length (moveHistory g))) ∧
  owned (board g) player1 = Nat.div2 (S (length (moveHistory g))) ∧
  owned (board g) player2 = Nat.div2 (length (moveHistory g)).
Proof.
  intros Hplayed. destruct (played_sound g Hplayed) as (_ & _ & Hrec & Hodd & Hsum & Hst).
  split_and!.
  - intros i m Hi. by destruct (Hrec i m Hi) as (? & ? & _).
  - intros Hplaying. rewrite Hplaying in Hst. by destruct Hst.
  - destruct (Nat.even (length (moveHistory g))) eqn:Heven.
    + apply Nat.even_spec in Heven as [a Ha]. rewrite Ha in *.
      rewrite Nat.div2_succ_double. lia.
    + assert (Nat.odd (length (moveHistory g)) = true) as Hoddn
        by (by rewrite <- Nat.negb_even, Heven).
      apply Nat.odd_spec in Hoddn as [a Ha]. rewrite Ha in *.
      replace (S (2 * a + 1)) with (2 * S a)%nat by lia.
      rewrite Nat.div2_double. lia.
  - destruct (Nat.even (length (moveHistory g))) eqn:Heven.
    + apply Nat.even_spec in Heven as [a Ha]. rewrite Ha in *.
      rewrite Nat.div2_double. lia.
    + assert (Nat.odd (length (moveHistory g)) = true) as Hoddn
        by (by rewrite <- Nat.negb_even, Heven).
      apply Nat.odd_spec in Hoddn as [a Ha]. rewrite Ha in *.
      replace (2 * a + 1)%nat with (S (2 * a)) by lia.
      rewrite Nat.div2_succ_double. lia.
Qed.

Lemma played_turns_witness :
  let g := g_won in
  played g ∧
  (∀ i m, moveHistory g !! i = Some m →
     playerKey m = seat i ∧
     Some (playerId m) = player_id <$> player (players g) (seat i)) ∧
  (status g = playing → currentPlayer g = seat (length (moveHistory g))) ∧
  owned (board g) player1 = Nat.div2 (S (length (moveHistory g))) ∧
  owned (board g) player2 = Nat.div2 (length (moveHistory g)).
Proof.
  split; [exact g_won_played|]. exact (played_turns g_won g_won_played).
Defined.

(** X7. A state of a game is being played, finished or drawn. While it is
    being played no combination is complete, a cell is empty, the winner is
    [null] and fewer than 9 moves were made. When it is finished the last
    mover owns a complete combination and is the winner, after 5 to 9
    moves. When it is drawn the board is full after 9 moves, no combination
    is complete and the winner is [null]. *)
Theorem played_outcome (g : GameState) :
  played g →
  match status g with
  | playing =>
      ¬ has_line (board g) ∧ ¬ full (board g) ∧ winner g = None ∧
      (length (moveHistory g) < 9)%nat
  | finished =>
      (∃ m c, last (moveHistory g) = Some m ∧ winner g = Some (playerId m) ∧
              c ∈ WINNING_COMBINATIONS ∧ line_of (board g) (playerKey m) c) ∧
      (5 ≤ length (moveHistory g) ≤ 9)%nat
  | draw =>
      full (board g) ∧ ¬ has_line (board g) ∧ winner g = None ∧
      length (moveHistory g) = 9%nat
  | waiting | abandoned => False
  end.
Proof.
  intros Hplayed. destruct (played_counts g Hplayed) as (Hb & Hocc & Hle).
  destruct (played_sound g Hplayed) as (_ & _ & _ & Hodd & Hsum & Hst).
  destruct (status g); try done.
  - destruct Hst as (_ & Hno & Hnf & Hw). split_and!; try done.
    rewrite <- Hocc. by apply not_full_occupied.
  - split; [done|]. split; [|done].
    destruct Hst as (m & c & _ & _ & Hc & Hline).
    pose proof (line_owned _ _ _ Hb Hc Hline) as Hthree.
    destruct (playerKey m), (Nat.even (length (moveHistory g))); lia.
  - destruct Hst as (Hfull & Hno & Hw). split_and!; try done.
    rewrite <- Hocc. by apply full_occupied.
Qed.

Lemma played_outcome_witness :
  let g := g_won in
  played g ∧
  match status g with
  | playing =>
      ¬ has_line (board g) ∧ ¬ full (board g) ∧ winner g = None ∧
      (length (moveHistory g) < 9)%nat
  | finished =>
      (∃ m c, last (moveHistory g) = Some m ∧ winner g = Some (playerId m) ∧
              c ∈ WINNING_COMBINATIONS ∧ line_of (board g) (playerKey m) c) ∧
      (5 ≤ length (moveHistory g) ≤ 9)%nat
  | draw =>
      full (board g) ∧ ¬ has_line (board g) ∧ winner g = None ∧
      length (moveHistory g) = 9%nat
  | waiting | abandoned => False
  end.
Proof.
  split; [exact g_won_played|]. exact (played_outcome g_won g_won_played).
Defined.


(** X8. [createGame] throws unless it is given exactly two players. The
    state it returns for two players is being played on an empty board with
    an empty history, and the moves that [validateMove] accepts on it are
    those of the player given first, at integer coordinates from 0 to 2;
    any other player is told it is not their turn. *)
Theorem createGame_spec (uuid room : string) (ps : list (string * string)) (now : Z) :
  (length ps ≠ 2%nat →
     createGame uuid room ps now = Throw (Error "Game requires exactly 2 players")) ∧
  (∀ id1 name1 id2 name2, ps = [(id1, name1); (id2, name2)] →
     ∃ g, createGame uuid room ps now = Ret g ∧
       gameId g = uuid ∧ roomId g = room ∧ status g = playing ∧
       board g = createEmptyBoard ∧ moveHistory g = [] ∧ winner g = None ∧
       (player_id <$> first (players g)) = Some id1 ∧
       (player_id <$> second (players g)) = Some id2 ∧
       ∀ (h : Heap) (l : loc) (pid : string) (x y : JsArg), h !! l = Some g →
         (validateMove l pid x y h = Ret (Valid, h) ↔ pid = id1 ∧ in_bounds x y) ∧
         (pid ≠ id1 → validateMove l pid x y h = Ret (Invalid NOT_YOUR_TURN, h))).
Proof.
  split.
  - destruct ps as [|[id1 name1] [|[id2 name2] [|? ?]]]; simpl; try done.
  - intros id1 name1 id2 name2 ->. eexists. split; [reflexivity|]. simpl.
    split_and!; try done.
    intros h l pid x y Hl.
    set (g := mkGameState _ _ _ _ _ _ _ _ _ _ _ _) in *.
    assert (is_3x3 (board g)) as Hb by (split; [reflexivity | repeat constructor]).
    rewrite (validateMove_run h l g pid x y Hl Hb).
    destruct (verdict_cases g pid x y) as (Hvalid & _ & Hturn & _).
    split.
    + split.
      * intros [= Hv]. apply Hvalid in Hv as (_ & Hcur & Hxy & _).
        split; [|done]. by injection Hcur.
      * intros [-> Hxy]. f_equal. f_equal. apply Hvalid. split_and!; try done.
        pose proof (in_bounds_grid _ _ Hxy) as [Hx Hy]. simpl in Hx, Hy.
        simpl. destruct (index x) as [|[|[|?]]], (index y) as [|[|[|?]]];
          try lia; reflexivity.
    + intros Hne. f_equal. f_equal. apply Hturn. split; [done|].
      intros [= Heq]. by destruct Hne.
Qed.

Lemma moves_by_seat (ms : list Move) :
  (∀ i m, ms !! i = Some m → playerKey m = seat i) →
  let p1 := length (filter (λ move, playerKey move = player1) ms) in
  let p2 := length (filter (λ move, playerKey move = player2) ms) in
  (p1 + p2 = length ms)%nat ∧
  p1 = (p2 + if Nat.even (length ms) then 0 else 1)%nat.
Proof.
  induction ms as [|m ms IH] using rev_ind; intros Hseat; [done|].
  destruct IH as [Hsum Hodd].
  { intros i m' Hi. apply Hseat. by apply lookup_app_l_Some. }
  assert (playerKey m = seat (length ms)) as Hm.
  { apply Hseat. by rewrite lookup_app_r, Nat.sub_diag. }
  simpl. rewrite !filter_app, !length_app, !filter_cons, !filter_nil. simpl.
  rewrite Nat.add_1_r, Nat.even_succ, <- Nat.negb_even. rewrite Hm. unfold seat.
  destruct (Nat.even (length ms)); repeat case_decide; simpl in *; try congruence; lia.
Qed.

(** X9. On a state of a game [calculateGameStats] counts the moves as the
    board shows them: [totalMoves] is the number of occupied cells and
    [player1Moves], [player2Moves] are the numbers of cells of each player;
    the two add up to [totalMoves], and [player1Moves] is [player2Moves] or
    one more. *)
Theorem calculateGameStats_played (g : GameState) (now : Z) :
  played g →
  let stats := calculateGameStats g now in
  totalMoves stats = occupied (board g) ∧
  player1Moves stats = owned (board g) player1 ∧
  player2Moves stats = owned (board g) player2 ∧
  (player1Moves stats + player2Moves stats = totalMoves stats)%nat ∧
  (player1Moves stats = player2Moves stats ∨
   player1Moves stats = S (player2Moves stats)) ∧
  stats_status stats = status g ∧ stats_winner stats = winner g.
Proof.
  intros Hplayed. destruct (played_sound g Hplayed) as (_ & _ & Hrec & Hodd & Hsum & _).
  destruct (moves_by_seat (moveHistory g)) as [Hsum' Hodd'].
  { intros i m Hi. by destruct (Hrec i m Hi). }
  simpl in *. rewrite occupied_owned.
  destruct (Nat.even (length (moveHistory g))); split_and!; try done; lia.
Qed.

Lemma calculateGameStats_played_witness :
  let g := g_won in
  played g ∧
  let stats := calculateGameStats g 10 in
  totalMoves stats = occupied (board g) ∧
  player1Moves stats = owned (board g) player1 ∧
  player2Moves stats = owned (board g) player2 ∧
  (player1Moves stats + player2Moves stats = totalMoves stats)%nat ∧
  (player1Moves stats = player2Moves stats ∨
   player1Moves stats = S (player2Moves stats)) ∧
  stats_status stats = status g ∧ stats_winner stats = winner g.
Proof.
  split; [exact g_won_played|]. exact (calculateGameStats_played g_won 10 g_won_played).
Defined.

End GamePlayFacts.

Module GameStoreFacts.

Import GameService GameServiceFacts GamePlay GamePlayFacts GameController GameStore
  GameExamples.

(** The run of the controller's [makeMove] on a valid move for a game held
    in memory. *)
Lemma controller_run (c : Controller) (room : string) (l : loc) (g : GameState)
    (pid : string) (x y : JsArg) (loaded : option GameState) (db_ok : bool)
    (t1 t2 t3 : Z) :
  activeGames c !! room = Some l → heap c !! l = Some g → is_3x3 (board g) →
  verdict g pid x y = Valid → checkWinner (board g) = Ret None →
  ∃ g' : GameState,
    GameService.makeMove l pid x y t1 t2 t3 (heap c)
      = Ret (Success (fresh (dom (heap c))), <[fresh (dom (heap c)) := g']> (heap c)) ∧
    let c1 := mkController (<[room := fresh (dom (heap c))]> (activeGames c))
                (<[fresh (dom (heap c)) := g']> (heap c)) (effects c) in
    makeMove pid x y room loaded db_ok t1 t2 t3 c =
      if db_ok then
        let c2 := effect (game_state_update room (board g') (currentPlayer g')
                            (status g') (winner g'))
                    (effect (saved g') c1) in
        if bool_decide (status g' = finished) || bool_decide (status g' = draw)
        then handleGameEnd g' c2 else c2
      else effect (game_error "MOVE_ERROR") c1.
Proof.
  intros Hroom Hl Hb Hv Hw.
  destruct (makeMove_steps (heap c) l g pid x y t1 t2 t3 Hl Hb Hv Hw)
    as (g' & Hrun & _).
  exists g'. split; [done|].
  unfold makeMove. rewrite Hroom.
  rewrite (validateMove_run (heap c) l g pid x y Hl Hb), Hv.
  cbn [activeGames heap effects]. rewrite Hrun. rewrite lookup_insert_eq.
  by destruct db_ok.
Qed.

(** X10. When the controller's [makeMove] receives a valid move for a game
    held in memory (3×3 board, no complete combination) and the state is
    saved, the room's entry points to a new state object holding the move,
    the former object is left as it was, and the effects are, in this order:
    the save, one [game-state-update] to the room and, when the game is
    over, the statistics update, [game-ended] and the timer of 30 seconds;
    nothing else is sent. *)
Theorem controller_accepts (c : Controller) (room : string) (l : loc) (g : GameState)
    (pid : string) (x y : JsArg) (loaded : option GameState) (t1 t2 t3 : Z) :
  activeGames c !! room = Some l → heap c !! l = Some g → is_3x3 (board g) →
  verdict g pid x y = Valid → checkWinner (board g) = Ret None →
  let c' := makeMove pid x y room loaded true t1 t2 t3 c in
  ∃ (l' : loc) (g' : GameState),
    activeGames c' !! room = Some l' ∧ heap c' !! l' = Some g' ∧
    l' ≠ l ∧ heap c' !! l = Some g ∧
    board g' = board_set (board g) (index x, index y) (Some (currentPlayer g)) ∧
    moveHistory g' =
      (moveHistory g ++
         [mkMove pid (currentPlayer g) x y t2 (length (moveHistory g) + 1)])%list ∧
    effects c' =
      (effects c ++
         [saved g';
          game_state_update room (board g') (currentPlayer g') (status g') (winner g')] ++
         if bool_decide (status g' = finished) || bool_decide (status g' = draw)
         then [stats_updated g';
               game_ended (roomId g') (winner g') (status g');
               delete_after 30000 (roomId g')]
         else [])%list.
Proof.
  intros Hroom Hl Hb Hv Hw c'.
  destruct (makeMove_steps (heap c) l g pid x y t1 t2 t3 Hl Hb Hv Hw)
    as (g' & Hrun & Hfresh & _ & Hboard & Hhist & _).
  destruct (controller_run c room l g pid x y loaded true t1 t2 t3 Hroom Hl Hb Hv Hw)
    as (g'' & Hrun' & Hc').
  rewrite Hrun in Hrun'. injection Hrun' as Heq.
  assert (g'' = g') as ->.
  { apply (f_equal (λ m : Heap, m !! fresh (dom (heap c)))) in Heq.
    rewrite !lookup_insert_eq in Heq. congruence. }
  clear Heq. simpl in Hc'. subst c'. rewrite Hc'.
  assert (fresh (dom (heap c)) ≠ l) as Hne by congruence.
  exists (fresh (dom (heap c))), g'.
  destruct (bool_decide (status g' = finished) || bool_decide (status g' = draw));
    unfold handleGameEnd, effect; simpl;
    rewrite !lookup_insert_eq, lookup_insert_ne by done;
    split_and!; try done; by rewrite <- ?app_assoc.
Qed.

Lemma controller_accepts_witness :
  let c := mkController {[ "r" := 1%positive ]} Examples.h_start [] in
  let g := Examples.g_start in
  let x := Integer 1 in
  let y := Integer 1 in
  (activeGames c !! "r" = Some 1%positive ∧ heap c !! 1%positive = Some g ∧
   is_3x3 (board g) ∧ verdict g "a" x y = Valid ∧ checkWinner (board g) = Ret None) ∧
  let c' := makeMove "a" x y "r" None true 5 6 7 c in
  ∃ (l' : loc) (g' : GameState),
    activeGames c' !! "r" = Some l' ∧ heap c' !! l' = Some g' ∧
    l' ≠ 1%positive ∧ heap c' !! 1%positive = Some g ∧
    board g' = board_set (board g) (index x, index y) (Some (currentPlayer g)) ∧
    moveHistory g' =
      (moveHistory g ++
         [mkMove "a" (currentPlayer g) x y 6 (length (moveHistory g) + 1)])%list ∧
    effects c' =
      (effects c ++
         [saved g';
          game_state_update "r" (board g') (currentPlayer g') (status g') (winner g')] ++
         if bool_decide (status g' = finished) || bool_decide (status g' = draw)
         then [stats_updated g';
               game_ended (roomId g') (winner g') (status g');
               delete_after 30000 (roomId g')]
         else [])%list.
Proof.
  assert (is_3x3 (board Examples.g_start)) as Hb by (split; [reflexivity | repeat constructor]).
  split; [split_and!; [reflexivity | reflexivity | exact Hb | reflexivity | reflexivity]|].
  exact (controller_accepts (mkController {[ "r" := 1%positive ]} Examples.h_start [])
           "r" 1%positive Examples.g_start "a" (Integer 1) (Integer 1) None 5 6 7
           eq_refl eq_refl Hb eq_refl eq_refl).
Defined.

(** X11. When the write of [saveGameToDatabase] fails after a valid move,
    the move is already applied in memory (the room's entry points to the
    new state, which holds the move), yet nothing is broadcast and the
    player receives [MOVE_ERROR] only. *)
Theorem controller_save_fails (c : Controller) (room : string) (l : loc) (g : GameState)
    (pid : string) (x y : JsArg) (loaded : option GameState) (t1 t2 t3 : Z) :
  activeGames c !! room = Some l → heap c !! l = Some g → is_3x3 (board g) →
  verdict g pid x y = Valid → checkWinner (board g) = Ret None →
  let c' := makeMove pid x y room loaded false t1 t2 t3 c in
  ∃ (l' : loc) (g' : GameState),
    activeGames c' !! room = Some l' ∧ heap c' !! l' = Some g' ∧
    cell (board g') (index x, index y) = Some (currentPlayer g) ∧
    length (moveHistory g') = S (length (moveHistory g)) ∧
    effects c' = (effects c ++ [game_error "MOVE_ERROR"])%list.
Proof.
  intros Hroom Hl Hb Hv Hw c'.
  destruct (makeMove_steps (heap c) l g pid x y t1 t2 t3 Hl Hb Hv Hw)
    as (g' & Hrun & Hfresh & Hxy & Hboard & Hhist & _).
  destruct (controller_run c room l g pid x y loaded false t1 t2 t3 Hroom Hl Hb Hv Hw)
    as (g'' & Hrun' & Hc').
  rewrite Hrun in Hrun'. injection Hrun' as Heq.
  assert (g'' = g') as ->.
  { apply (f_equal (λ m : Heap, m !! fresh (dom (heap c)))) in Heq.
    rewrite !lookup_insert_eq in Heq. congruence. }
  clear Heq. simpl in Hc'. subst c'. rewrite Hc'.
  exists (fresh (dom (heap c))), g'. unfold effect. simpl.
  rewrite !lookup_insert_eq. split_and!; try done.
  - rewrite Hboard, cell_board_set by (done || by apply in_bounds_grid).
    by rewrite decide_True.
  - rewrite Hhist, length_app. simpl. lia.
Qed.

Lemma controller_save_fails_witness :
  let c := mkController {[ "r" := 1%positive ]} Examples.h_start [] in
  let g := Examples.g_start in
  let x := Integer 1 in
  let y := Integer 1 in
  (activeGames c !! "r" = Some 1%positive ∧ heap c !! 1%positive = Some g ∧
   is_3x3 (board g) ∧ verdict g "a" x y = Valid ∧ checkWinner (board g) = Ret None) ∧
  let c' := makeMove "a" x y "r" None false 5 6 7 c in
  ∃ (l' : loc) (g' : GameState),
    activeGames c' !! "r" = Some l' ∧ heap c' !! l' = Some g' ∧
    cell (board g') (index x, index y) = Some (currentPlayer g) ∧
    length (moveHistory g') = S (length (moveHistory g)) ∧
    effects c' = (effects c ++ [game_error "MOVE_ERROR"])%list.
Proof.
  assert (is_3x3 (board Examples.g_start)) as Hb by (split; [reflexivity | repeat constructor]).
  split; [split_and!; [reflexivity | reflexivity | exact Hb | reflexivity | reflexivity]|].
  exact (controller_save_fails (mkController {[ "r" := 1%positive ]} Examples.h_start [])
           "r" 1%positive Examples.g_start "a" (Integer 1) (Integer 1) None 5 6 7
           eq_refl eq_refl Hb eq_refl eq_refl).
Defined.

Lemma cleanupInactiveGames_lookup (now : Z) (c : Controller) (room : string) :
  activeGames (cleanupInactiveGames now c) !! room =
    (l ← activeGames c !! room;
     match heap c !! l with
     | Some g => if decide (now - lastActivity g > 30 * 60 * 1000)%Z then None else Some l
     | None => Some l
     end).
Proof.
  unfold cleanupInactiveGames. cbn [activeGames]. rewrite map_lookup_filter.
  destruct (activeGames c !! room) as [l|]; [|done]. cbn [mbind option_bind].
  destruct (heap c !! l) as [g|] eqn:Hl.
  - destruct (decide (now - lastActivity g > 30 * 60 * 1000)%Z).
    + rewrite option_guard_False; [done|]. cbn [snd]. rewrite Hl.
      by rewrite bool_decide_eq_true_2.
    + rewrite option_guard_True; [done|]. cbn [snd]. rewrite Hl.
      by rewrite bool_decide_eq_false_2.
  - rewrite option_guard_True; [done|]. cbn [snd]. by rewrite Hl.
Qed.

(** [cleanupInactiveGames] removes from memory the games whose last
    move (or whose creation, for a game without moves) is more than 30
    minutes old, and no other: a game whose last activity is 30 minutes old
    or less keeps its entry, rooms without a game get none, and the state
    objects and the effects are left alone. *)
Lemma cleanupInactiveGames_spec (now : Z) (c : Controller) (room : string)
    (l : loc) (g : GameState) :
  activeGames c !! room = Some l → heap c !! l = Some g →
  let c' := cleanupInactiveGames now c in
  heap c' = heap c ∧ effects c' = effects c ∧
  (activeGames c' !! room = Some l ↔ (now - lastActivity g ≤ 30 * 60 * 1000)%Z) ∧
  (activeGames c' !! room = None ↔ (now - lastActivity g > 30 * 60 * 1000)%Z) ∧
  (moveHistory g = [] → lastActivity g = createdAt g) ∧
  (∀ m, last (moveHistory g) = Some m → lastActivity g = timestamp m) ∧
  (∀ room', activeGames c !! room' = None → activeGames c' !! room' = None).
Proof.
  intros Hroom Hl c'. subst c'.
  pose proof (cleanupInactiveGames_lookup now c) as Hlook.
  assert (activeGames (cleanupInactiveGames now c) !! room =
          if decide (now - lastActivity g > 30 * 60 * 1000)%Z then None else Some l) as Hr.
  { rewrite Hlook, Hroom. cbn [mbind option_bind]. by rewrite Hl. }
  split_and!; try done.
  - rewrite Hr. case_decide; split; intros; try done; lia.
  - rewrite Hr. case_decide; split; intros; try done; lia.
  - unfold lastActivity. by intros ->.
  - unfold lastActivity. by intros m ->.
  - intros room' Hnone. by rewrite Hlook, Hnone.
Qed.

(** X12. A valid move postpones the sweep of idle games: whether or not the
    save succeeds, the game is in memory after the move, a run of
    [cleanupInactiveGames] up to 30 minutes after the time stamp [t2] of the
    move's record in the history leaves the room's entry in place, and a
    later run removes it. *)
Theorem move_defers_cleanup (c : Controller) (room : string) (l : loc) (g : GameState)
    (pid : string) (x y : JsArg) (loaded : option GameState) (db_ok : bool)
    (t1 t2 t3 now : Z) :
  activeGames c !! room = Some l → heap c !! l = Some g → is_3x3 (board g) →
  verdict g pid x y = Valid → checkWinner (board g) = Ret None →
  let c' := makeMove pid x y room loaded db_ok t1 t2 t3 c in
  is_Some (activeGames c' !! room) ∧
  ((now - t2 ≤ 30 * 60 * 1000)%Z →
     activeGames (cleanupInactiveGames now c') !! room = activeGames c' !! room) ∧
  ((now - t2 > 30 * 60 * 1000)%Z →
     activeGames (cleanupInactiveGames now c') !! room = None).
Proof.
  intros Hroom Hl Hb Hv Hw c'.
  destruct (makeMove_steps (heap c) l g pid x y t1 t2 t3 Hl Hb Hv Hw)
    as (g' & Hrun & Hfresh & Hxy & Hboard & Hhist & _).
  destruct (controller_run c room l g pid x y loaded db_ok t1 t2 t3 Hroom Hl Hb Hv Hw)
    as (g'' & Hrun' & Hc').
  rewrite Hrun in Hrun'. injection Hrun' as Heq.
  assert (g'' = g') as ->.
  { apply (f_equal (λ m : Heap, m !! fresh (dom (heap c)))) in Heq.
    rewrite !lookup_insert_eq in Heq. congruence. }
  clear Heq. simpl in Hc'.
  assert (activeGames c' !! room = Some (fresh (dom (heap c))) ∧
          heap c' !! fresh (dom (heap c)) = Some g') as [Hroom' Hl'].
  { subst c'. rewrite Hc'.
    destruct db_ok; [destruct (bool_decide (status g' = finished) || bool_decide (status g' = draw))|];
      unfold handleGameEnd, effect; simpl; by rewrite !lookup_insert_eq. }
  assert (lastActivity g' = t2) as Hlast.
  { unfold lastActivity. by rewrite Hhist, last_snoc. }
  rewrite (cleanupInactiveGames_lookup now c' room), Hroom'.
  cbn [mbind option_bind]. rewrite Hl', Hlast.
  clear Hc'.
  split_and!; [by eexists | |]; intros; case_decide; try done; exfalso; lia.
Qed.

Lemma move_defers_cleanup_witness :
  let c := mkController {[ "r" := 1%positive ]} Examples.h_start [] in
  let g := Examples.g_start in
  let x := Integer 1 in
  let y := Integer 1 in
  (activeGames c !! "r" = Some 1%positive ∧ heap c !! 1%positive = Some g ∧
   is_3x3 (board g) ∧ verdict g "a" x y = Valid ∧ checkWinner (board g) = Ret None) ∧
  let c' := makeMove "a" x y "r" None true 5 6 7 c in
  is_Some (activeGames c' !! "r") ∧
  ((1800006 - 6 ≤ 30 * 60 * 1000)%Z →
     activeGames (cleanupInactiveGames 1800006 c') !! "r" = activeGames c' !! "r") ∧
  ((1800006 - 6 > 30 * 60 * 1000)%Z →
     activeGames (cleanupInactiveGames 1800006 c') !! "r" = None).
Proof.
  assert (is_3x3 (board Examples.g_start)) as Hb by (split; [reflexivity | repeat constructor]).
  split; [split_and!; [reflexivity | reflexivity | exact Hb | reflexivity | reflexivity]|].
  exact (move_defers_cleanup (mkController {[ "r" := 1%positive ]} Examples.h_start [])
           "r" 1%positive Examples.g_start "a" (Integer 1) (Integer 1) None true 5 6 7 1800006
           eq_refl eq_refl Hb eq_refl eq_refl).
Defined.


Lemma played_players (g : GameState) :
  played g → ∃ p1 p2, players g = mkPlayers (Some p1) (Some p2).
Proof.
  induction 1 as [uuid room ps now g Hg | g h l pid x y t1 t2 t3 l' h' g' Hp IH Hl Hrun Hl'].
  - unfold createGame in Hg.
    destruct ps as [|[id1 name1] [|[id2 name2] [|? ?]]]; try discriminate.
    injection Hg as <-. by eexists _, _.
  - destruct (makeMove_sound h h' l l' g g' pid x y t1 t2 t3 Hl (played_sound g Hp) Hrun Hl')
      as (_ & -> & _). exact IH.
Qed.

Ltac int64_lia := change (2 ^ 63)%Z with 9223372036854775808%Z in *; lia.

Lemma sql_add_int64 (z n : Z) :
  (- 2 ^ 63 ≤ z + n < 2 ^ 63)%Z → sql_add (Some z) n = Some (Some (z + n)%Z).
Proof.
  intros Hz. unfold sql_add, int64.
  destruct (Z.leb_spec (- 2 ^ 63) (z + n)), (Z.ltb_spec (z + n) (2 ^ 63)); simpl;
    [done | int64_lia..].
Qed.

Lemma update_player_counters (g : GameState) (p : Player) (stamp : Z)
    (table : gmap string PlayerRow) (row : PlayerRow) (n w e : Z) :
  table !! player_id p = Some row → counters row n w e →
  update_player g p stamp table =
    Some (<[player_id p :=
              mkPlayerRow (Some (n + 1)%Z)
                (Some (w + if bool_decide (winner g = Some (player_id p)) then 1 else 0)%Z)
                stamp
                (if bool_decide (status g = draw) then Some e
                 else Some (Z.max 100 (e +
                        if bool_decide (winner g = Some (player_id p)) then 25 else -15)))]>
            table).
Proof.
  intros Hrow (Hn & Hw & He & Bn & Bw & Be). unfold update_player. rewrite Hrow. simpl.
  rewrite Hn, Hw.
  destruct (bool_decide (winner g = Some (player_id p)));
    rewrite !sql_add_int64 by int64_lia; simpl;
    (destruct (bool_decide (status g = draw)); simpl; [by rewrite He|]);
    rewrite lookup_insert_eq; simpl; rewrite He, sql_add_int64 by int64_lia; simpl;
    by rewrite insert_insert_eq.
Qed.

Lemma updatePlayerStats_counters (g : GameState) (stamp1 stamp2 : Z)
    (table : gmap string PlayerRow) (p1 p2 : Player) (r1 r2 : PlayerRow)
    (n1 w1 e1 n2 w2 e2 : Z) :
  players g = mkPlayers (Some p1) (Some p2) → player_id p1 ≠ player_id p2 →
  table !! player_id p1 = Some r1 → table !! player_id p2 = Some r2 →
  counters r1 n1 w1 e1 → counters r2 n2 w2 e2 →
  let updated (p : Player) (stamp n w e : Z) :=
    mkPlayerRow (Some (n + 1)%Z)
      (Some (w + if bool_decide (winner g = Some (player_id p)) then 1 else 0)%Z)
      stamp
      (if bool_decide (status g = draw) then Some e
       else Some (Z.max 100 (e +
              if bool_decide (winner g = Some (player_id p)) then 25 else -15))) in
  ∃ table', updatePlayerStats g stamp1 stamp2 table = Some table' ∧
    table' !! player_id p1 = Some (updated p1 stamp1 n1 w1 e1) ∧
    table' !! player_id p2 = Some (updated p2 stamp2 n2 w2 e2) ∧
    ∀ id, id ≠ player_id p1 → id ≠ player_id p2 → table' !! id = table !! id.
Proof.
  intros Hps Hne H1 H2 Hc1 Hc2 updated.
  unfold updatePlayerStats. rewrite Hps. cbn [first second].
  rewrite (update_player_counters g p1 stamp1 table r1 n1 w1 e1 H1 Hc1). simpl.
  rewrite (update_player_counters g p2 stamp2 _ r2 n2 w2 e2)
    by (by rewrite ?lookup_insert_ne by done).
  eexists. split; [done|]. split_and!.
  - by rewrite lookup_insert_ne, lookup_insert_eq by done.
  - by rewrite lookup_insert_eq.
  - intros id Hn1 Hn2. by rewrite !lookup_insert_ne by done.
Qed.

(** X13. [updatePlayerStats] after a game between two players with
    different ids, each with a row in the [players] table whose games
    played, games won and rating are 64-bit integers that the sums below
    do not take out of the 64-bit integers: no other row changes and both
    players have one more game played. After a finished game the winner is
    one of the two, with one more game won and 25 rating points more, and
    the other player loses 15 points, no rating going below 100. After a
    draw the ratings and the games won stay as they were. *)
Theorem updatePlayerStats_played (g : GameState) (stamp1 stamp2 : Z)
    (table : gmap string PlayerRow) (p1 p2 : Player) (r1 r2 : PlayerRow)
    (n1 w1 e1 n2 w2 e2 : Z) :
  played g → players g = mkPlayers (Some p1) (Some p2) →
  player_id p1 ≠ player_id p2 →
  table !! player_id p1 = Some r1 → table !! player_id p2 = Some r2 →
  counters r1 n1 w1 e1 → counters r2 n2 w2 e2 →
  ∃ table', updatePlayerStats g stamp1 stamp2 table = Some table' ∧
  (∀ id, id ≠ player_id p1 → id ≠ player_id p2 → table' !! id = table !! id) ∧
  match status g with
  | finished =>
      (winner g = Some (player_id p1) ∧
       table' !! player_id p1 =
         Some (mkPlayerRow (Some (n1 + 1)%Z) (Some (w1 + 1)%Z) stamp1
                 (Some (Z.max 100 (e1 + 25)))) ∧
       table' !! player_id p2 =
         Some (mkPlayerRow (Some (n2 + 1)%Z) (Some w2) stamp2
                 (Some (Z.max 100 (e2 - 15))))) ∨
      (winner g = Some (player_id p2) ∧
       table' !! player_id p1 =
         Some (mkPlayerRow (Some (n1 + 1)%Z) (Some w1) stamp1
                 (Some (Z.max 100 (e1 - 15)))) ∧
       table' !! player_id p2 =
         Some (mkPlayerRow (Some (n2 + 1)%Z) (Some (w2 + 1)%Z) stamp2
                 (Some (Z.max 100 (e2 + 25)))))
  | draw =>
      table' !! player_id p1 =
        Some (mkPlayerRow (Some (n1 + 1)%Z) (Some w1) stamp1 (Some e1)) ∧
      table' !! player_id p2 =
        Some (mkPlayerRow (Some (n2 + 1)%Z) (Some w2) stamp2 (Some e2))
  | _ => True
  end.
Proof.
  intros Hplayed Hps Hne H1 H2 Hc1 Hc2.
  destruct (updatePlayerStats_counters g stamp1 stamp2 table p1 p2 r1 r2 n1 w1 e1 n2 w2 e2
              Hps Hne H1 H2 Hc1 Hc2) as (table' & Hrun & Hl1 & Hl2 & Hother).
  exists table'. split; [exact Hrun|].
  split; [exact Hother|]. rewrite Hl1, Hl2. clear Hrun Hl1 Hl2 Hother.
  pose proof (played_sound g Hplayed) as (_ & _ & Hrec & _ & _ & Hst).
  destruct (status g) eqn:Hstatus; try done.
  - (* finished *)
    destruct Hst as (m & c & Hlast & Hwin & _).
    assert (∃ i, moveHistory g !! i = Some m) as [i Hi].
    { rewrite last_lookup in Hlast. by eexists. }
    destruct (Hrec i m Hi) as (_ & Hid & _). rewrite Hps in Hid.
    rewrite Hwin. simpl.
    destruct (seat i); simpl in Hid; injection Hid as Hid; rewrite Hid; [left | right].
    + rewrite bool_decide_eq_true_2 by done.
      rewrite (bool_decide_eq_false_2 (Some (player_id p1) = Some (player_id p2)))
        by congruence.
      rewrite Z.add_0_r. split_and!; reflexivity.
    + rewrite (bool_decide_eq_false_2 (Some (player_id p2) = Some (player_id p1)))
        by congruence.
      rewrite bool_decide_eq_true_2 by done.
      rewrite Z.add_0_r. split_and!; reflexivity.
  - (* draw *)
    destruct Hst as (_ & _ & Hwin). rewrite Hwin. simpl.
    rewrite ?bool_decide_eq_false_2 by done. rewrite ?Z.add_0_r. split; reflexivity.
Qed.

Lemma updatePlayerStats_played_witness :
  let g := g_won in
  let r1 := mkPlayerRow (Some 3%Z) (Some 1%Z) 0 (Some 1000%Z) in
  let r2 := mkPlayerRow (Some 5%Z) (Some 2%Z) 0 (Some 105%Z) in
  let table : gmap string PlayerRow := {[ "a" := r1; "b" := r2 ]} in
  let p1 := mkPlayer "a" (Some "Ann") (Some "fire_warrior") (Some "X") in
  let p2 := mkPlayer "b" (Some "Bob") (Some "ice_guardian") (Some "O") in
  (played g ∧ players g = mkPlayers (Some p1) (Some p2) ∧
   player_id p1 ≠ player_id p2 ∧
   table !! player_id p1 = Some r1 ∧ table !! player_id p2 = Some r2 ∧
   counters r1 3 1 1000 ∧ counters r2 5 2 105) ∧
  ∃ table', updatePlayerStats g 7 8 table = Some table' ∧
  (∀ id, id ≠ player_id p1 → id ≠ player_id p2 → table' !! id = table !! id) ∧
  match status g with
  | finished =>
      (winner g = Some (player_id p1) ∧
       table' !! player_id p1 =
         Some (mkPlayerRow (Some (3 + 1)%Z) (Some (1 + 1)%Z) 7
                 (Some (Z.max 100 (1000 + 25)))) ∧
       table' !! player_id p2 =
         Some (mkPlayerRow (Some (5 + 1)%Z) (Some 2%Z) 8
                 (Some (Z.max 100 (105 - 15))))) ∨
      (winner g = Some (player_id p2) ∧
       table' !! player_id p1 =
         Some (mkPlayerRow (Some (3 + 1)%Z) (Some 1%Z) 7
                 (Some (Z.max 100 (1000 - 15)))) ∧
       table' !! player_id p2 =
         Some (mkPlayerRow (Some (5 + 1)%Z) (Some (2 + 1)%Z) 8
                 (Some (Z.max 100 (105 + 25)))))
  | draw =>
      table' !! player_id p1 =
        Some (mkPlayerRow (Some (3 + 1)%Z) (Some 1%Z) 7 (Some 1000%Z)) ∧
      table' !! player_id p2 =
        Some (mkPlayerRow (Some (5 + 1)%Z) (Some 2%Z) 8 (Some 105%Z))
  | _ => True
  end.
Proof.
  assert (player_id (mkPlayer "a" (Some "Ann") (Some "fire_warrior") (Some "X")) ≠
          player_id (mkPlayer "b" (Some "Bob") (Some "ice_guardian") (Some "O"))) as Hne
    by discriminate.
  assert (∀ n w e : Z, (0 ≤ n < 2000)%Z → (0 ≤ w < 2000)%Z → (0 ≤ e < 2000)%Z →
            counters (mkPlayerRow (Some n) (Some w) 0 (Some e)) n w e) as Hc.
  { intros n w e Hn Hw He. unfold counters. cbn.
    split_and!; try done; int64_lia. }
  pose proof (Hc 3 1 1000 ltac:(lia) ltac:(lia) ltac:(lia))%Z as Hc1.
  pose proof (Hc 5 2 105 ltac:(lia) ltac:(lia) ltac:(lia))%Z as Hc2.
  split; [split_and!; [exact g_won_played | reflexivity | exact Hne | reflexivity
                      | reflexivity | exact Hc1 | exact Hc2]|].
  exact (updatePlayerStats_played g_won 7 8
           {[ "a" := mkPlayerRow (Some 3%Z) (Some 1%Z) 0 (Some 1000%Z);
              "b" := mkPlayerRow (Some 5%Z) (Some 2%Z) 0 (Some 105%Z) ]}
           (mkPlayer "a" (Some "Ann") (Some "fire_warrior") (Some "X"))
           (mkPlayer "b" (Some "Bob") (Some "ice_guardian") (Some "O"))
           (mkPlayerRow (Some 3%Z) (Some 1%Z) 0 (Some 1000%Z))
           (mkPlayerRow (Some 5%Z) (Some 2%Z) 0 (Some 105%Z))
           3 1 1000 5 2 105
           g_won_played eq_refl Hne eq_refl eq_refl Hc1 Hc2).
Defined.

(** A rating that is [NULL] stays [NULL], whoever wins; and a sum that
    leaves the 64-bit integers leaves the model. *)
Example null_rating_kept :
  let p := mkPlayer "a" (Some "Ann") (Some "fire_warrior") (Some "X") in
  update_player g_won p 7 {[ "a" := mkPlayerRow (Some 3%Z) (Some 1%Z) 0 None ]}
    = Some {[ "a" := mkPlayerRow (Some 4%Z) (Some 2%Z) 7 None ]} ∧
  update_player g_won p 7
    {[ "a" := mkPlayerRow (Some 3%Z) (Some 1%Z) 0 (Some (2 ^ 63 - 1)%Z) ]} = None.
Proof. split; vm_compute; reflexivity. Qed.

(** X14. A state with a first player that is saved to the [games] table and
    loaded again comes back with its ids, board, history, status, winner
    and creation time, but with [currentPlayer] set to [player1] whatever it
    was, without names, characters or symbols and without the time of the
    last move; the query of [loadGameFromDatabase] selects its row only while
    the status is [waiting] or [playing]. On the reloaded state
    [validateMove] accepts moves from the first player only. *)
Theorem games_table_round_trip (g : GameState) (now : Z) (p1 : Player) :
  first (players g) = Some p1 →
  ∃ row g',
    saveGameToDatabase g now = Some row ∧
    (selected (roomId g) row = true ↔ status g = waiting ∨ status g = playing) ∧
    loadGameFromDatabase (Some row) = Some g' ∧
    gameId g' = gameId g ∧ roomId g' = roomId g ∧ board g' = board g ∧
    moveHistory g' = moveHistory g ∧ status g' = status g ∧ winner g' = winner g ∧
    createdAt g' = createdAt g ∧
    first (players g') = Some (mkPlayer (player_id p1) None None None) ∧
    currentPlayer g' = player1 ∧ lastMoveAt g' = None ∧ finishedAt g' = None ∧
    ∀ (h : Heap) (l : loc) (pid : string) (x y : JsArg),
      h !! l = Some g' →
      validateMove l pid x y h = Ret (Valid, h) → pid = player_id p1.
Proof.
  intros Hp1. unfold saveGameToDatabase. rewrite Hp1.
  eexists _, _. split; [reflexivity|]. split.
  { unfold selected. cbn [room_id row_status]. rewrite bool_decide_eq_true_2 by done.
    simpl. rewrite orb_true_iff, !bool_decide_eq_true. done. }
  split; [reflexivity|]. cbn.
  split_and!; try done.
  intros h l pid x y Hl Hv.
  unfold validateMove in Hv.
  unfold mbind at 1, M_bind at 1, read at 1 in Hv. rewrite Hl in Hv. cbn [status] in Hv.
  destruct (negb (bool_decide (status g = playing))); [discriminate|].
  unfold mbind at 1, M_bind at 1, read at 1 in Hv. rewrite Hl in Hv.
  unfold currentPlayerId in Hv. cbn in Hv.
  destruct (bool_decide (Some pid = Some (player_id p1))) eqn:Hpid; [|discriminate].
  apply bool_decide_eq_true in Hpid. congruence.
Qed.

Lemma games_table_round_trip_witness :
  let g := set_currentPlayer player2 Examples.g_start in
  let p1 := mkPlayer "a" (Some "Ann") (Some "fire_warrior") (Some "X") in
  first (players g) = Some p1 ∧
  ∃ row g',
    saveGameToDatabase g 9 = Some row ∧
    (selected (roomId g) row = true ↔ status g = waiting ∨ status g = playing) ∧
    loadGameFromDatabase (Some row) = Some g' ∧
    gameId g' = gameId g ∧ roomId g' = roomId g ∧ board g' = board g ∧
    moveHistory g' = moveHistory g ∧ status g' = status g ∧ winner g' = winner g ∧
    createdAt g' = createdAt g ∧
    first (players g') = Some (mkPlayer (player_id p1) None None None) ∧
    currentPlayer g' = player1 ∧ lastMoveAt g' = None ∧ finishedAt g' = None ∧
    ∀ (h : Heap) (l : loc) (pid : string) (x y : JsArg),
      h !! l = Some g' →
      validateMove l pid x y h = Ret (Valid, h) → pid = player_id p1.
Proof.
  split; [reflexivity|].
  exact (games_table_round_trip (set_currentPlayer player2 Examples.g_start) 9
           (mkPlayer "a" (Some "Ann") (Some "fire_warrior") (Some "X")) eq_refl).
Defined.

End GameStoreFacts.

Module RateLimiterUpkeepFacts.

Import SocketRateLimiter SocketRateLimiterFacts RateLimiterUpkeep.

(** The answer of [checkLimit], from the two counts on the record. *)
Lemma checkLimit_answer (sid ty : string) (now : Z) (lim : Limiter) :
  (checkLimit sid ty now lim).1 =
    negb (reaches (count_within 60000 ty now (recorded lim sid)) (limit_of (limits lim) ty)) &&
    negb (reaches (count_within 10000 ty now (recorded lim sid))
            (limit_of (burstLimits lim) ty)).
Proof.
  unfold checkLimit.
  assert (events (default (mkClientData [] now 0) (clients lim !! sid)) = recorded lim sid)
    as Hes.
  { unfold recorded. by destruct (clients lim !! sid). }
  cbn [events warnings]. rewrite Hes.
  rewrite (minute_count ty now (recorded lim sid)), (burst_count ty now (recorded lim sid)).
  destruct (reaches (count_within 60000 _ _ _) _); [done|].
  by destruct (reaches (count_within 10000 _ _ _) _).
Qed.

(** The records after [checkLimit]. *)
Lemma checkLimit_clients (sid ty : string) (now : Z) (lim : Limiter) :
  let r := checkLimit sid ty now lim in
  let kept := filter (λ event, (now - timestamp event < 60000)%Z) (recorded lim sid) in
  (∀ sid', sid' ≠ sid → clients r.2 !! sid' = clients lim !! sid') ∧
  clients r.2 !! sid =
    match clients lim !! sid with
    | Some clientData =>
        Some (if r.1
              then mkClientData (kept ++ [mkEvent ty now]) now (warnings clientData)
              else mkClientData kept now (warnings clientData + 1))
    | None => if r.1 then Some (mkClientData [mkEvent ty now] now 0) else None
    end.
Proof.
  intros r kept. subst r kept. unfold checkLimit, recorded.
  destruct (clients lim !! sid) as [cd|] eqn:Hcd; cbn [default events warnings from_option];
    unfold id.
  - set (kept := filter _ (events cd)).
    assert (handleRateLimit sid (<[sid := mkClientData kept now (warnings cd)]> (clients lim))
            = <[sid := mkClientData kept now (warnings cd + 1)]> (clients lim)) as Hh.
    { unfold handleRateLimit. rewrite lookup_insert_eq. simpl.
      by rewrite insert_insert_eq. }
    destruct (reaches _ _); [|destruct (reaches _ _)]; cbn [fst snd clients].
    + rewrite Hh. split; [|by rewrite lookup_insert_eq].
      intros sid' Hne. by rewrite lookup_insert_ne.
    + rewrite Hh. split; [|by rewrite lookup_insert_eq].
      intros sid' Hne. by rewrite lookup_insert_ne.
    + rewrite insert_insert_eq. split; [|by rewrite lookup_insert_eq].
      intros sid' Hne. by rewrite lookup_insert_ne.
  - assert (handleRateLimit sid (clients lim) = clients lim) as Hh.
    { unfold handleRateLimit. by rewrite Hcd. }
    destruct (reaches _ _); [|destruct (reaches _ _)]; cbn [fst snd clients].
    + by rewrite Hh.
    + by rewrite Hh.
    + rewrite filter_nil. simpl. split; [|by rewrite lookup_insert_eq].
      intros sid' Hne. by rewrite lookup_insert_ne.
Qed.

(** The record that [checkLimit] keeps of a client. For a client with a
    record, [lastSeen] becomes the time of the call and the events older
    than a minute are dropped; an admitted event is appended and leaves the
    warnings as they were, a rejected one adds one warning. A client
    without record gets one when its event is admitted, with no warning;
    when its event is rejected no record is made, so the rejection is not
    counted anywhere. *)
Lemma checkLimit_bookkeeping (sid ty : string) (now : Z) (lim : Limiter) :
  let r := checkLimit sid ty now lim in
  let kept := filter (λ event, (now - timestamp event < 60000)%Z) (recorded lim sid) in
  match clients lim !! sid, r.1 with
  | Some clientData, true =>
      clients r.2 !! sid =
        Some (mkClientData (kept ++ [mkEvent ty now]) now (warnings clientData))
  | Some clientData, false =>
      clients r.2 !! sid = Some (mkClientData kept now (S (warnings clientData)))
  | None, true => clients r.2 !! sid = Some (mkClientData [mkEvent ty now] now 0)
  | None, false => clients r.2 !! sid = None ∧ r.2 = lim
  end.
Proof.
  intros r kept.
  destruct (checkLimit_clients sid ty now lim) as [Hother Hsid].
  fold r in Hother, Hsid. fold kept in Hsid.
  destruct (clients lim !! sid) as [cd|] eqn:Hcd; destruct r.1 eqn:Hr; try done.
  - rewrite Hsid. by rewrite Nat.add_1_r.
  - split; [done|].
    destruct (checkLimit_limits sid ty now lim) as [HL HB]. fold r in HL, HB.
    destruct r.2 as [cs ls bs], lim as [cs0 ls0 bs0]. simpl in *. subst. f_equal.
    apply map_eq. intros sid'. destruct (decide (sid' = sid)) as [->|Hne].
    + by rewrite Hsid, Hcd.
    + by apply Hother.
Qed.

Lemma count_within_later (w : Z) (ty : string) (now now' : Z) (es : list Event) :
  (w ≤ 60000)%Z → (now ≤ now')%Z →
  count_within w ty now' (filter (λ event, (now - timestamp event < 60000)%Z) es)
  = count_within w ty now' es.
Proof.
  intros Hw Hle. unfold count_within. rewrite length_filter_filter.
  apply length_filter_ext. intros e. intuition lia.
Qed.

Lemma recorded_after (sid ty : string) (now : Z) (lim : Limiter) :
  let r := checkLimit sid ty now lim in
  let kept := filter (λ event, (now - timestamp event < 60000)%Z) (recorded lim sid) in
  recorded r.2 sid = if r.1 then (kept ++ [mkEvent ty now])%list else kept.
Proof.
  intros r kept. destruct (checkLimit_clients sid ty now lim) as [_ Hsid].
  fold r in Hsid. fold kept in Hsid. unfold recorded at 1. rewrite Hsid.
  subst kept. unfold recorded.
  destruct (clients lim !! sid) as [cd|]; destruct r.1; try done.
Qed.

Lemma count_other_type (sid ty ty' : string) (now now' w : Z) (lim : Limiter) :
  ty' ≠ ty → (w ≤ 60000)%Z → (now ≤ now')%Z →
  count_within w ty' now' (recorded (checkLimit sid ty now lim).2 sid)
  = count_within w ty' now' (recorded lim sid).
Proof.
  intros Hty Hw Hle. rewrite recorded_after.
  destruct (checkLimit sid ty now lim).1.
  - rewrite count_within_app, count_within_later by done.
    unfold count_within at 2. rewrite filter_cons, decide_False, filter_nil; [simpl; lia|].
    simpl. intros [? _]. congruence.
  - by rewrite count_within_later.
Qed.

(** X15. Clients and event types do not share their quotas. A call of
    [checkLimit] leaves the record of every other client as it was, so it
    does not change the answer that another client gets; and it does not
    change the answer that the same client gets afterwards (the clock not
    going back) for an event of another type. *)
Theorem checkLimit_isolation (sid ty : string) (now : Z) (lim : Limiter) :
  let lim' := (checkLimit sid ty now lim).2 in
  (∀ sid', sid' ≠ sid → clients lim' !! sid' = clients lim !! sid') ∧
  (∀ sid' ty' now', sid' ≠ sid →
     (checkLimit sid' ty' now' lim').1 = (checkLimit sid' ty' now' lim).1) ∧
  (∀ ty' now', ty' ≠ ty → (now ≤ now')%Z →
     (checkLimit sid ty' now' lim').1 = (checkLimit sid ty' now' lim).1).
Proof.
  intros lim'. subst lim'.
  destruct (checkLimit_clients sid ty now lim) as [Hother _].
  destruct (checkLimit_limits sid ty now lim) as [HL HB].
  split_and!.
  - exact Hother.
  - intros sid' ty' now' Hne. rewrite !checkLimit_answer, HL, HB.
    unfold recorded. by rewrite Hother.
  - intros ty' now' Hty Hle. rewrite !checkLimit_answer, HL, HB.
    by rewrite !count_other_type by (done || lia).
Qed.


(** X16. [reset], and [cleanup] called with a non-empty socket id, forget
    the client and nothing else. With limits of at least 1 for the event
    type, the next event of a client that was reset is admitted whatever the
    client had done before, and starts a record without warnings. *)
Theorem reset_spec (sid ty : string) (now : Z) (lim : Limiter) (L B : nat) :
  limit_of (limits lim) ty = Some L → limit_of (burstLimits lim) ty = Some B →
  (1 ≤ L)%nat → (1 ≤ B)%nat →
  let lim' := reset sid lim in
  clients lim' !! sid = None ∧
  (∀ sid', sid' ≠ sid → clients lim' !! sid' = clients lim !! sid') ∧
  limits lim' = limits lim ∧ burstLimits lim' = burstLimits lim ∧
  (sid ≠ "" → ∀ t, cleanup (Some sid) t lim = lim') ∧
  (checkLimit sid ty now lim').1 = true ∧
  clients (checkLimit sid ty now lim').2 !! sid
    = Some (mkClientData [mkEvent ty now] now 0).
Proof.
  intros HL HB HL1 HB1 lim'. subst lim'. unfold reset.
  assert (clients (mkLimiter (delete sid (clients lim)) (limits lim) (burstLimits lim)) !! sid
          = None) as Hnone by (simpl; by rewrite lookup_delete_eq).
  assert ((checkLimit sid ty now
             (mkLimiter (delete sid (clients lim)) (limits lim) (burstLimits lim))).1 = true)
    as Hok.
  { rewrite checkLimit_answer. unfold recorded. rewrite Hnone. simpl.
    rewrite HL, HB. unfold reaches, count_within. simpl.
    by rewrite !bool_decide_eq_false_2 by lia. }
  split_and!; try done.
  - intros sid' Hne. simpl. by rewrite lookup_delete_ne.
  - intros Hsid t. unfold cleanup. by rewrite bool_decide_eq_false_2.
  - destruct (checkLimit_clients sid ty now
                (mkLimiter (delete sid (clients lim)) (limits lim) (burstLimits lim)))
      as [_ Hsid]. by rewrite Hsid, Hnone, Hok.
Qed.

Lemma reset_spec_witness :
  let lim := Examples.nine_moves in
  (limit_of (limits lim) "make-move" = Some 30%nat ∧
   limit_of (burstLimits lim) "make-move" = Some 10%nat ∧ (1 ≤ 30)%nat ∧ (1 ≤ 10)%nat) ∧
  let lim' := reset "s" lim in
  clients lim' !! "s" = None ∧
  (∀ sid', sid' ≠ "s" → clients lim' !! sid' = clients lim !! sid') ∧
  limits lim' = limits lim ∧ burstLimits lim' = burstLimits lim ∧
  ("s" ≠ "" → ∀ t, cleanup (Some "s") t lim = lim') ∧
  (checkLimit "s" "make-move" 1000 lim').1 = true ∧
  clients (checkLimit "s" "make-move" 1000 lim').2 !! "s"
    = Some (mkClientData [mkEvent "make-move" 1000] 1000 0).
Proof.
  split; [split_and!; [reflexivity | reflexivity | lia | lia]|].
  apply (reset_spec "s" "make-move" 1000 Examples.nine_moves 30 10);
    [reflexivity | reflexivity | lia | lia].
Defined.

Lemma sweep_lookup (t : Z) (lim : Limiter) (id : string) :
  clients (cleanup None t lim) !! id =
    (clientData ← clients lim !! id;
     if decide (t - lastSeen clientData > 5 * 60 * 1000)%Z then None else Some clientData).
Proof.
  unfold cleanup. cbn [clients]. rewrite map_lookup_filter.
  destruct (clients lim !! id) as [cd|]; [|done]. cbn [mbind option_bind].
  destruct (decide (t - lastSeen cd > 5 * 60 * 1000)%Z).
  - rewrite option_guard_False; [done|]. simpl. tauto.
  - by rewrite option_guard_True.
Qed.

Lemma count_within_old (w : Z) (ty : string) (now : Z) (es : list Event) :
  Forall (λ event, (w ≤ now - timestamp event)%Z) es → count_within w ty now es = 0%nat.
Proof.
  intros Hold. unfold count_within.
  induction Hold as [|e es He _ IH]; [done|].
  rewrite filter_cons, decide_False; [done|]. lia.
Qed.

(** Records stay timely under [checkLimit] when the clock does not go back. *)
Lemma checkLimit_timely (sid ty : string) (now : Z) (lim : Limiter) :
  timely lim →
  (∀ clientData, clients lim !! sid = Some clientData → (lastSeen clientData ≤ now)%Z) →
  timely (checkLimit sid ty now lim).2.
Proof.
  intros Htimely Hclock id cd Hid.
  destruct (checkLimit_clients sid ty now lim) as [Hother Hsid].
  destruct (decide (id = sid)) as [->|Hne].
  2: { rewrite Hother in Hid by done. by apply (Htimely id). }
  rewrite Hsid in Hid. unfold recorded in Hid.
  destruct (clients lim !! sid) as [cd0|] eqn:Hcd0.
  - assert (Forall (λ event, (timestamp event ≤ now)%Z)
              (filter (λ event, (now - timestamp event < 60000)%Z) (events cd0))) as Hkept.
    { apply Forall_forall. intros e He.
      apply list_elem_of_filter in He as [_ He].
      pose proof (Htimely sid cd0 Hcd0) as Hall. rewrite Forall_forall in Hall.
      specialize (Hall e He). specialize (Hclock cd0 eq_refl). lia. }
    simpl in Hid. injection Hid as <-.
    destruct (checkLimit sid ty now lim).1; simpl; [|done].
    apply Forall_app. split; [done|]. repeat constructor. simpl. lia.
  - destruct (checkLimit sid ty now lim).1; [|done].
    injection Hid as <-. repeat constructor. simpl. lia.
Qed.

(** X17. The periodic [cleanup()] at time [t] removes the clients last seen
    more than 5 minutes before [t], keeps the others as they are and leaves
    the limits alone ([cleanup] with an empty socket id does the same). When
    no recorded event is more recent than its client's [lastSeen] (so it is
    when the clock never goes back), the sweep changes the answer of no
    later [checkLimit]: what it removes is older than any window. *)
Theorem sweep_spec (t now : Z) (lim : Limiter) :
  timely lim → (t ≤ now)%Z →
  let lim' := cleanup None t lim in
  (∀ id clientData, clients lim !! id = Some clientData →
     (clients lim' !! id = Some clientData ↔ (t - lastSeen clientData ≤ 5 * 60 * 1000)%Z) ∧
     (clients lim' !! id = None ↔ (t - lastSeen clientData > 5 * 60 * 1000)%Z)) ∧
  (∀ id, clients lim !! id = None → clients lim' !! id = None) ∧
  limits lim' = limits lim ∧ burstLimits lim' = burstLimits lim ∧
  cleanup (Some "") t lim = lim' ∧
  timely lim' ∧
  ∀ sid ty, (checkLimit sid ty now lim').1 = (checkLimit sid ty now lim).1.
Proof.
  intros Htimely Hle lim'. subst lim'.
  pose proof (sweep_lookup t lim) as Hlook.
  split_and!; try done.
  - intros id cd Hid. rewrite Hlook, Hid. cbn [mbind option_bind].
    case_decide; split; split; intros; try done; exfalso; lia.
  - intros id Hid. by rewrite Hlook, Hid.
  - intros id cd Hid. rewrite Hlook in Hid.
    destruct (clients lim !! id) as [cd0|] eqn:Hcd0; [|done]. cbn in Hid.
    case_decide; [done|]. injection Hid as <-. by apply (Htimely id).
  - intros sid ty. rewrite !checkLimit_answer.
    assert (∀ w, (w ≤ 60000)%Z →
              count_within w ty now (recorded (cleanup None t lim) sid)
              = count_within w ty now (recorded lim sid)) as Hcount.
    { intros w Hw. unfold recorded. rewrite Hlook.
      destruct (clients lim !! sid) as [cd|] eqn:Hcd; [|done]. cbn [mbind option_bind].
      case_decide as Hold; [|done]. simpl. symmetry. apply count_within_old.
      eapply Forall_impl; [exact (Htimely sid cd Hcd)|]. simpl. intros e He. lia. }
    by rewrite !Hcount by lia.
Qed.

Lemma sweep_spec_witness :
  let lim := Examples.nine_moves in
  (timely lim ∧ (400000 ≤ 400001)%Z) ∧
  let lim' := cleanup None 400000 lim in
  (∀ id clientData, clients lim !! id = Some clientData →
     (clients lim' !! id = Some clientData ↔
        (400000 - lastSeen clientData ≤ 5 * 60 * 1000)%Z) ∧
     (clients lim' !! id = None ↔ (400000 - lastSeen clientData > 5 * 60 * 1000)%Z)) ∧
  (∀ id, clients lim !! id = None → clients lim' !! id = None) ∧
  limits lim' = limits lim ∧ burstLimits lim' = burstLimits lim ∧
  cleanup (Some "") 400000 lim = lim' ∧
  timely lim' ∧
  ∀ sid ty, (checkLimit sid ty 400001 lim').1 = (checkLimit sid ty 400001 lim).1.
Proof.
  assert (timely Examples.nine_moves) as Htimely.
  { intros id cd Hid. unfold Examples.nine_moves in Hid. simpl in Hid.
    apply lookup_singleton_Some in Hid as [_ <-]. simpl.
    repeat (constructor; [simpl; lia|]). constructor. }
  split; [split; [exact Htimely | lia]|].
  apply (sweep_spec 400000 400001 Examples.nine_moves Htimely). lia.
Defined.

Lemma append_assoc (s1 s2 s3 : string) : ((s1 ++ s2) ++ s3 = s1 ++ (s2 ++ s3))%string.
Proof.
  induction s1 as [|a s1 IH]; [done|].
  change (String a ((s1 ++ s2) ++ s3) = String a (s1 ++ (s2 ++ s3)))%string.
  by rewrite IH.
Qed.

Lemma entry_of_next (ty : string) (n : nat) (counts : gmap string CountValue) :
  counts !! ty = entry_of ty n →
  assign_property ty (counted_up counts ty) counts !! ty = entry_of ty (S n).
Proof.
  unfold entry_of, assign_property, counted_up. intros Hc.
  destruct (decide (ty = "__proto__")) as [->|Hproto].
  - rewrite bool_decide_eq_true_2 in Hc by by right.
    rewrite Hc. rewrite !bool_decide_eq_true_2; [done | by right | done].
  - rewrite (bool_decide_eq_false_2 (ty = "__proto__" ∧ _)) by tauto.
    rewrite lookup_insert_eq.
    rewrite (bool_decide_eq_false_2 (S n = 0%nat ∨ _)) by (intros [?|?]; [lia | done]).
    destruct n as [|n].
    + rewrite bool_decide_eq_true_2 in Hc by by left. rewrite Hc.
      rewrite (bool_decide_eq_false_2 (ty = "__proto__")) by done.
      by destruct (bool_decide (ty ∈ inherited)).
    + rewrite bool_decide_eq_false_2 in Hc by (intros [?|?]; [lia | done]).
      destruct (bool_decide (ty ∈ inherited)); rewrite Hc.
      * rewrite bool_decide_eq_false_2 by done.
        change (ones (S (S n))) with ((ones (S n)) ++ "1")%string.
        by rewrite append_assoc.
      * by rewrite Nat.add_1_r.
Qed.

Lemma counts_by_type (es : list Event) :
  ∀ (acc : gmap string CountValue) (n : string → nat),
    (∀ ty, acc !! ty = entry_of ty (n ty)) →
    ∀ ty,
      foldl (λ counts event,
               assign_property (type event) (counted_up counts (type event)) counts)
        acc es !! ty
      = entry_of ty (n ty + length (filter (λ event, type event = ty) es)).
Proof.
  induction es as [|e es IH]; intros acc n Hacc ty; simpl.
  - by rewrite Nat.add_0_r.
  - rewrite (IH _ (λ ty, if decide (type e = ty) then S (n ty) else n ty)).
    + rewrite filter_cons. destruct (decide (type e = ty)); simpl; f_equal; lia.
    + intros ty'. destruct (decide (type e = ty')) as [<-|Hne].
      * by apply entry_of_next.
      * by rewrite assign_property_ne.
Qed.

(** X18. [getStatus] answers [exists: false] for a client without record.
    For a client with a record it reports the number of recorded events less
    than a minute old, the warnings and [lastSeen] as recorded, and under
    each event type other than the names that [Object.prototype] defines,
    the number that [checkLimit] would count against the per-minute limit at
    the same time, a type without such event having no entry. Under a name
    that [Object.prototype] defines it reports no number: nothing under
    [__proto__], and under the others the text of the inherited function
    followed by one [1] for each event. *)
Theorem getStatus_spec (sid : string) (now : Z) (lim : Limiter) :
  match clients lim !! sid with
  | None => getStatus sid now lim = Unknown
  | Some clientData =>
      ∃ counts,
        getStatus sid now lim =
          Known (length (filter (λ event, (now - timestamp event < 60000)%Z)
                           (events clientData)))
            (warnings clientData) (lastSeen clientData) counts ∧
        (∀ ty, counts !! ty = entry_of ty (count_within 60000 ty now (recorded lim sid))) ∧
        (∀ ty, ty ∉ inherited →
           (counts !! ty = None ↔ count_within 60000 ty now (recorded lim sid) = 0%nat) ∧
           ∀ n, counts !! ty = Some (Count n) ↔
                (n = count_within 60000 ty now (recorded lim sid) ∧ n ≠ 0%nat)) ∧
        (∀ ty n, ty ∈ inherited → counts !! ty ≠ Some (Count n))
  end.
Proof.
  unfold getStatus, recorded. destruct (clients lim !! sid) as [cd|]; [|done].
  eexists. split; [reflexivity|]. simpl.
  assert (∀ ty, getEventCountsByType
                  (filter (λ event, (now - timestamp event < 60000)%Z) (events cd)) !! ty
                = entry_of ty (count_within 60000 ty now (events cd))) as Hcount.
  { intros ty. unfold getEventCountsByType.
    rewrite (counts_by_type _ ∅ (λ _, 0%nat)).
    - simpl. by rewrite minute_count.
    - intros ty'. rewrite lookup_empty. unfold entry_of.
      by rewrite bool_decide_eq_true_2 by by left. }
  assert ("__proto__" ∈ inherited) as Hproto
    by (apply (bool_decide_unpack _); by vm_compute).
  split_and!; [exact Hcount | |].
  - intros ty Hty. rewrite Hcount. unfold entry_of.
    assert (ty ≠ "__proto__") as Hne by (by intros ->).
    rewrite (bool_decide_eq_false_2 (ty ∈ inherited)) by done.
    case_bool_decide as Hz.
    + destruct Hz as [Hz|?]; [|done]. split; [done|]. intros n. split; [done|].
      intros [-> ?]. done.
    + split; [split; [done | tauto]|]. intros n. split.
      * intros [= <-]. split; [done | tauto].
      * by intros [-> _].
  - intros ty n Hty. rewrite Hcount. unfold entry_of.
    rewrite (bool_decide_eq_true_2 (ty ∈ inherited)) by done.
    by case_bool_decide.
Qed.

(** X19. [updateLimits] changes the two limits of one event type and no
    client record. For a type other than [__proto__]: a limit above 0 takes
    effect for that type; a limit of 0 for a type other than [default] does
    not block the type, which falls back to the default limit. For the type
    [__proto__] (without entry in the tables) the call changes nothing, and
    the type stays without limit. Types other than the one updated keep
    their limits, unless the type updated is [default]. *)
Theorem updateLimits_spec (ty : string) (L B : nat) (lim : Limiter) :
  let lim' := updateLimits ty L B lim in
  clients lim' = clients lim ∧
  (ty ≠ "__proto__" →
     ((0 < L)%nat → limit_of (limits lim') ty = Some L) ∧
     ((0 < B)%nat → limit_of (burstLimits lim') ty = Some B) ∧
     (L = 0%nat → ty ≠ "default" → limit_of (limits lim') ty = limits lim !! "default") ∧
     (B = 0%nat → ty ≠ "default" →
        limit_of (burstLimits lim') ty = burstLimits lim !! "default")) ∧
  (ty = "__proto__" → limits lim !! ty = None → burstLimits lim !! ty = None →
     lim' = lim ∧
     limit_of (limits lim') ty = None ∧ limit_of (burstLimits lim') ty = None ∧
     ∀ sid now, (checkLimit sid ty now lim').1 = true) ∧
  (∀ ty', ty' ≠ ty → ty ≠ "default" →
     limit_of (limits lim') ty' = limit_of (limits lim) ty' ∧
     limit_of (burstLimits lim') ty' = limit_of (burstLimits lim) ty').
Proof.
  intros lim'. subst lim'. unfold updateLimits. simpl.
  split_and!; try done.
  - intros Hty. rewrite !SocketRateLimiterFacts.assign_property_insert by done.
    unfold limit_of. split_and!.
    + intros HL. rewrite lookup_insert_eq. by destruct L; [lia|].
    + intros HB. rewrite lookup_insert_eq. by destruct B; [lia|].
    + intros -> Hd. rewrite lookup_insert_eq. by rewrite lookup_insert_ne.
    + intros -> Hd. rewrite lookup_insert_eq. by rewrite lookup_insert_ne.
  - intros -> Hl Hb. unfold assign_property.
    rewrite !bool_decide_eq_true_2 by done.
    assert ("__proto__" ∈ inherited) as Hin by (apply (bool_decide_unpack _); by vm_compute).
    destruct (SocketRateLimiterFacts.inherited_never_limited "" "__proto__" 0 lim Hin Hl Hb)
      as (HL & HB & _).
    split_and!; [by destruct lim | done | done |].
    intros sid now.
    by destruct (SocketRateLimiterFacts.inherited_never_limited sid "__proto__" now
                   (mkLimiter (clients lim) (limits lim) (burstLimits lim)) Hin Hl Hb)
      as (_ & _ & ?).
  - intros ty' Hne Hty. unfold limit_of.
    by rewrite !SocketRateLimiterFacts.assign_property_ne by done.
Qed.

(** *** Requests of mixed types *)

Lemma in_span_app (w a : Z) (ts1 ts2 : list Z) :
  in_span w a (ts1 ++ ts2) = (in_span w a ts1 + in_span w a ts2)%nat.
Proof. unfold in_span. by rewrite filter_app, length_app. Qed.

Lemma requests_bound (sid ty : string) (L B : nat) (w : Z) (N : nat) (reqs : list (string * Z)) :
  (w = 60000%Z ∧ N = L) ∨ (w = 10000%Z ∧ N = B) →
  ∀ (lim : Limiter) (adm : list Z) (t_last : Z),
    limit_of (limits lim) ty = Some L → limit_of (burstLimits lim) ty = Some B →
    Forall (λ t, (t ≤ t_last)%Z) adm → Forall (λ r, (t_last ≤ r.2)%Z) reqs →
    StronglySorted Z.le (snd <$> reqs) →
    (∀ now, (t_last ≤ now)%Z →
       count_within w ty now (recorded lim sid)
       = length (filter (λ t, (now - t < w)%Z) adm)) →
    (∀ a, (in_span w a adm ≤ N)%nat) →
    ∀ a, (in_span w a (adm ++ admitted_of ty (requests sid reqs lim)) ≤ N)%nat.
Proof.
  intros HwN.
  assert (w ≤ 60000)%Z as Hw by (destruct HwN as [[-> _]|[-> _]]; lia).
  induction reqs as [|[ty0 now] rest IH];
    intros lim adm t_last HL HB Hadm Hreqs Hsorted Hrec Hwin a.
  - simpl. unfold admitted_of. simpl. rewrite app_nil_r. apply Hwin.
  - apply Forall_cons in Hreqs as [Hnow Hreqs]. simpl in Hnow.
    rewrite fmap_cons in Hsorted. simpl in Hsorted.
    apply StronglySorted_inv in Hsorted as [Hsorted Hrest].
    destruct (checkLimit_limits sid ty0 now lim) as [HL' HB'].
    pose proof (recorded_after sid ty0 now lim) as Hrec'. cbv zeta in Hrec'.
    simpl. set (r := checkLimit sid ty0 now lim) in *.
    assert (Forall (λ r0 : string * Z, (now ≤ r0.2)%Z) rest) as Hrest'.
    { rewrite Forall_fmap in Hrest. exact Hrest. }
    assert (∀ now', (now ≤ now')%Z →
              count_within w ty now'
                (filter (λ event, (now - timestamp event < 60000)%Z) (recorded lim sid))
              = length (filter (λ t, (now' - t < w)%Z) adm)) as Hkept.
    { intros now' Hle. rewrite <- Hrec by lia. by apply count_within_later. }
    destruct (decide (ty0 = ty ∧ r.1 = true)) as [[-> Hok]|Hno].
    + (* an admitted request of the type *)
      unfold admitted_of. rewrite filter_cons, decide_True by done. simpl.
      change ((λ a0 : string * Z * bool, a0.1.2) <$>
                filter (λ a0 : string * Z * bool, a0.1.1 = ty ∧ a0.2 = true)
                  (requests sid rest r.2))
        with (admitted_of ty (requests sid rest r.2)).
      rewrite (cons_middle now adm), app_assoc.
      assert (count_within w ty now (recorded lim sid) < N)%nat as Hlt.
      { pose proof (checkLimit_run sid ty now lim L B HL HB) as Hrun. cbv zeta in Hrun.
        fold r in Hrun. case_decide as Hc; [|destruct Hrun; congruence].
        destruct HwN as [[-> ->]|[-> ->]]; lia. }
      rewrite Hok in Hrec'.
      apply (IH r.2 (adm ++ [now])%list now).
      * by rewrite HL'.
      * by rewrite HB'.
      * apply Forall_app. split; [|by repeat constructor].
        eapply Forall_impl; [exact Hadm|]. simpl. intros; lia.
      * exact Hrest'.
      * exact Hsorted.
      * intros now' Hle. rewrite Hrec', count_within_app, Hkept by done.
        rewrite filter_app, length_app. f_equal.
        unfold count_within. rewrite !filter_cons, !filter_nil. simpl.
        destruct (decide (now' - now < w)%Z).
        -- by rewrite decide_True.
        -- rewrite decide_False; [done | tauto].
      * intros a'. rewrite in_span_app.
        destruct (decide (a' ≤ now < a' + w)%Z) as [Hin|Hout].
        -- assert (in_span w a' adm ≤ length (filter (λ t, (now - t < w)%Z) adm))%nat
             as Hle.
           { unfold in_span. apply length_filter_impl. intros t. lia. }
           rewrite <- Hrec in Hle by done.
           assert (in_span w a' [now] = 1%nat) as ->.
           { unfold in_span. by rewrite filter_cons, decide_True. }
           lia.
        -- assert (in_span w a' [now] = 0%nat) as ->.
           { unfold in_span. by rewrite filter_cons, decide_False. }
           specialize (Hwin a'). lia.
    + (* a rejected request, or one of another type *)
      unfold admitted_of. rewrite filter_cons, decide_False by done.
      change ((λ a0 : string * Z * bool, a0.1.2) <$>
                filter (λ a0 : string * Z * bool, a0.1.1 = ty ∧ a0.2 = true)
                  (requests sid rest r.2))
        with (admitted_of ty (requests sid rest r.2)).
      apply (IH r.2 adm now).
      * by rewrite HL'.
      * by rewrite HB'.
      * eapply Forall_impl; [exact Hadm|]. simpl. intros; lia.
      * exact Hrest'.
      * exact Hsorted.
      * intros now' Hle. rewrite Hrec'.
        destruct r.1 eqn:Hr; [|by apply Hkept].
        assert (ty0 ≠ ty) as Hty by (intros ->; by destruct Hno).
        rewrite count_within_app, Hkept by done.
        unfold count_within at 1. rewrite filter_cons, decide_False, filter_nil; [simpl; lia|].
        simpl. intros [? _]. congruence.
      * exact Hwin.
Qed.

(** X20. One client sends events of any types, the clock never going back,
    starting without record. For every event type with limits [L] per
    minute and [B] per 10 seconds, the events of that type that
    [checkLimit] admits are at most [L] in every window of 60 seconds and
    at most [B] in every window of 10 seconds, whatever else the client
    sends in between. *)
Theorem mixed_window_bound (sid ty : string) (L B : nat) (reqs : list (string * Z))
    (lim : Limiter) :
  limit_of (limits lim) ty = Some L → limit_of (burstLimits lim) ty = Some B →
  recorded lim sid = [] → StronglySorted Z.le (snd <$> reqs) →
  ∀ a, (in_span 60000 a (admitted_of ty (requests sid reqs lim)) ≤ L)%nat ∧
       (in_span 10000 a (admitted_of ty (requests sid reqs lim)) ≤ B)%nat.
Proof.
  intros HL HB Hnew Hsorted a.
  destruct reqs as [|[ty0 t0] rest]; [unfold in_span; simpl; lia|].
  assert (Forall (λ r : string * Z, (t0 ≤ r.2)%Z) ((ty0, t0) :: rest)) as Hfrom.
  { rewrite fmap_cons in Hsorted. simpl in Hsorted.
    apply StronglySorted_inv in Hsorted as [_ Hrest].
    constructor; [simpl; lia|]. by rewrite Forall_fmap in Hrest. }
  split.
  - apply (requests_bound sid ty L B 60000 L ((ty0, t0) :: rest) (or_introl (conj eq_refl eq_refl))
             lim [] t0 HL HB); try done.
    + intros now _. by rewrite Hnew.
    + intros a'. unfold in_span. simpl. lia.
  - apply (requests_bound sid ty L B 10000 B ((ty0, t0) :: rest) (or_intror (conj eq_refl eq_refl))
             lim [] t0 HL HB); try done.
    + intros now _. by rewrite Hnew.
    + intros a'. unfold in_span. simpl. lia.
Qed.

Lemma mixed_window_bound_witness :
  let lim := SocketRateLimiter.initial in
  let reqs := [("create-room", 0%Z); ("chat-message", 10%Z); ("create-room", 20%Z);
               ("create-room", 30%Z)] in
  (limit_of (limits lim) "create-room" = Some 5%nat ∧
   limit_of (burstLimits lim) "create-room" = Some 2%nat ∧
   recorded lim "s" = [] ∧ StronglySorted Z.le (snd <$> reqs)) ∧
  ∀ a, (in_span 60000 a (admitted_of "create-room" (requests "s" reqs lim)) ≤ 5)%nat ∧
       (in_span 10000 a (admitted_of "create-room" (requests "s" reqs lim)) ≤ 2)%nat.
Proof.
  assert (StronglySorted Z.le
            (snd <$> [("create-room", 0%Z); ("chat-message", 10%Z); ("create-room", 20%Z);
                      ("create-room", 30%Z)])) as Hsorted.
  { simpl. repeat (constructor; [|repeat constructor; lia]). constructor. }
  split; [split_and!; [reflexivity | reflexivity | reflexivity | exact Hsorted]|].
  exact (mixed_window_bound "s" "create-room" 5 2 _ SocketRateLimiter.initial
           eq_refl eq_refl eq_refl Hsorted).
Defined.

End RateLimiterUpkeepFacts.

Module EscapingFacts.

Import Validation ValidationFacts Escaping.

Lemma replace_loop_lit (c : ascii) (replacement : JsString) (rounds : nat) :
  ∀ pos : Position, (length pos.2 < rounds)%nat →
    replace_loop (lit c) replacement rounds pos = pos.2 ≫= substitute c replacement.
Proof.
  induction rounds as [|rounds IH]; intros [prev s] Hlen; simpl in *; [lia|].
  destruct s as [|u rest]; [done|]. simpl in *.
  unfold substitute at 1. destruct (u =? N_of_ascii c)%N.
  - simpl. rewrite bool_decide_eq_true_2 by lia. rewrite IH by (simpl; lia). done.
  - rewrite IH by (simpl; lia). done.
Qed.

Lemma replace_all_lit (c : ascii) (replacement : JsString) (s : JsString) :
  replace_all (lit c) replacement s = s ≫= substitute c replacement.
Proof. unfold replace_all. by rewrite replace_loop_lit by (simpl; lia). Qed.

(** A step that replaces [c] by a text without [c] leaves no [c], and
    brings in only the code units of its replacement. *)
Lemma substitute_elem (c : ascii) (replacement s : JsString) (u : CodeUnit) :
  u ∈ s ≫= substitute c replacement →
  (u ∈ replacement ∧ N_of_ascii c ∈ s) ∨ (u ∈ s ∧ u ≠ N_of_ascii c).
Proof.
  intros Hu. apply list_elem_of_bind in Hu as (v & Hu & Hv).
  unfold substitute in Hu. destruct (v =? N_of_ascii c)%N eqn:Hvc.
  - left. apply N.eqb_eq in Hvc. by subst v.
  - right. apply N.eqb_neq in Hvc. apply list_elem_of_singleton in Hu. by subst v.
Qed.

Lemma substitute_none (c : ascii) (replacement s : JsString) :
  N_of_ascii c ∉ s → s ≫= substitute c replacement = s.
Proof.
  induction s as [|u s IH]; intros Hc; [done|]. rewrite bind_cons.
  rewrite IH by (intros ?; apply Hc; by right).
  unfold substitute. destruct (u =? N_of_ascii c)%N eqn:Hu; [|done].
  apply N.eqb_eq in Hu. subst u. destruct Hc. by left.
Qed.

(** *** [trim] *)

Lemma trim_start_suffix (s : JsString) : trim_start s `suffix_of` s.
Proof.
  induction s as [|c s IH]; simpl; [done|].
  destruct (is_space c); [by apply suffix_cons_r | done].
Qed.

Lemma trim_start_head (s : JsString) (c : CodeUnit) :
  head (trim_start s) = Some c → is_space c = false.
Proof.
  induction s as [|u s IH]; simpl; [done|].
  destruct (is_space u) eqn:Hu; [done|]. simpl. by intros [= <-].
Qed.

Lemma trim_start_snoc (s : JsString) (c : CodeUnit) :
  is_space c = false → trim_start (s ++ [c])%list = (trim_start s ++ [c])%list.
Proof.
  intros Hc. induction s as [|u s IH]; simpl; [by rewrite Hc|].
  destruct (is_space u); [done | done].
Qed.

Lemma trim_elem (s : JsString) (u : CodeUnit) : u ∈ trim s → u ∈ s.
Proof.
  unfold trim. rewrite elem_of_reverse. intros Hu.
  pose proof (elem_of_suffix _ _ _ Hu (trim_start_suffix (reverse (trim_start s)))) as Hr.
  rewrite elem_of_reverse in Hr.
  exact (elem_of_suffix _ _ _ Hr (trim_start_suffix s)).
Qed.

Lemma trim_length (s : JsString) : (length (trim s) ≤ length s)%nat.
Proof.
  unfold trim. rewrite length_reverse.
  etrans; [apply suffix_length, trim_start_suffix|]. rewrite length_reverse.
  apply suffix_length, trim_start_suffix.
Qed.

Lemma trim_head (s : JsString) (c : CodeUnit) :
  head (trim s) = Some c → is_space c = false.
Proof.
  unfold trim. rewrite head_reverse.
  destruct (trim_start s) as [|c0 t] eqn:Ht; [done|].
  assert (is_space c0 = false) as Hc0 by (apply (trim_start_head s); by rewrite Ht).
  rewrite reverse_cons, trim_start_snoc, last_snoc by done. by intros [= <-].
Qed.

Lemma trim_last (s : JsString) (c : CodeUnit) :
  last (trim s) = Some c → is_space c = false.
Proof. unfold trim. rewrite last_reverse. apply trim_start_head. Qed.

Lemma cut_elem (s : JsString) (u : CodeUnit) :
  u ∈ (if bool_decide (200 < length s)%nat then take 200 s else s) → u ∈ s.
Proof.
  case_bool_decide; [|done]. intros Hu.
  apply elem_of_take in Hu as (i & Hi & _). by eapply list_elem_of_lookup_2.
Qed.

Lemma cut_length (s : JsString) :
  (length (if bool_decide (200 < length s)%nat then take 200 s else s) ≤ 200)%nat.
Proof. case_bool_decide; [rewrite length_take|]; lia. Qed.

Lemma sanitized_markup_free (message : JsValue) (u : CodeUnit) :
  u ∈ sanitizeChatMessage message → u ∉ markup.
Proof.
  destruct message as [m|]; [|by intros ?%elem_of_nil].
  rewrite sanitize_without_script_pass. cbv zeta. rewrite !replace_all_lit.
  intros Hu. apply trim_elem, cut_elem in Hu.
  assert (∀ c rep, rep ∈ [(38, js "&amp;"); (60, js "&lt;"); (62, js "&gt;");
                          (34, js "&quot;"); (39, js "&#x27;"); (47, js "&#x2F;")]%N →
                   c ∈ rep.2 → c ∉ markup) as Hrep.
  { intros c rep Hin Hc.
    repeat (apply elem_of_cons in Hin as [->|Hin]); [..|by apply elem_of_nil in Hin];
      simpl in Hc;
      repeat (apply elem_of_cons in Hc as [->|Hc]); try (by apply elem_of_nil in Hc);
      apply (bool_decide_unpack _); by vm_compute. }
  apply substitute_elem in Hu as [[Hu _]|[Hu H47]].
  { apply (Hrep u (47%N, js "&#x2F;")); [|done]. do 5 right. left. }
  apply substitute_elem in Hu as [[Hu _]|[Hu H39]].
  { apply (Hrep u (39%N, js "&#x27;")); [|done]. do 4 right. left. }
  apply substitute_elem in Hu as [[Hu _]|[Hu H34]].
  { apply (Hrep u (34%N, js "&quot;")); [|done]. do 3 right. left. }
  apply substitute_elem in Hu as [[Hu _]|[Hu H62]].
  { apply (Hrep u (62%N, js "&gt;")); [|done]. do 2 right. left. }
  apply substitute_elem in Hu as [[Hu _]|[Hu H60]].
  { apply (Hrep u (60%N, js "&lt;")); [|done]. do 1 right. left. }
  unfold markup. rewrite !not_elem_of_cons. split_and!; try done. apply not_elem_of_nil.
Qed.

Lemma sanitized_bounds (message : JsValue) :
  (length (sanitizeChatMessage message) ≤ 200)%nat ∧
  (∀ c, head (sanitizeChatMessage message) = Some c → is_space c = false) ∧
  (∀ c, last (sanitizeChatMessage message) = Some c → is_space c = false).
Proof.
  destruct message as [m|]; [|simpl; split_and!; [lia | done | done]].
  unfold sanitizeChatMessage. cbv zeta. split_and!.
  - etrans; [apply trim_length | apply cut_length].
  - apply trim_head.
  - apply trim_last.
Qed.

(** X21. Whatever it is given, [sanitizeChatMessage] returns a string of at
    most 200 code units that neither starts nor ends with white space and
    holds no less-than sign, greater-than sign, double quote, single quote
    or slash (code units 60, 62, 34, 39 and 47). *)
Theorem sanitize_output (message : JsValue) :
  (length (sanitizeChatMessage message) ≤ 200)%nat ∧
  (∀ c, head (sanitizeChatMessage message) = Some c → is_space c = false) ∧
  (∀ c, last (sanitizeChatMessage message) = Some c → is_space c = false) ∧
  (∀ u, u ∈ sanitizeChatMessage message → u ∉ markup).
Proof.
  destruct (sanitized_bounds message) as (Hlen & Hhead & Hlast).
  split_and!; [done | done | done |]. apply sanitized_markup_free.
Qed.

Lemma tag_pass_plain (rounds : nat) :
  ∀ pos : Position, 60%N ∉ pos.2 → replace_loop tag_re [] rounds pos = pos.2.
Proof.
  induction rounds as [|rounds IH]; intros [prev s] Hs; [done|].
  destruct s as [|c rest]; [done|]. simpl in Hs.
  apply not_elem_of_cons in Hs as [Hc Hrest].
  cbn [replace_loop]. unfold tag_re.
  change (rmatch (Cat ?a ?b) ?p ?k) with (rmatch a p (λ p', rmatch b p' k)).
  unfold lit at 1. cbn [rmatch snd].
  replace (c =? N_of_ascii "<")%N with false
    by (symmetry; apply N.eqb_neq; intros ->; by apply Hc).
  by rewrite IH.
Qed.

(** X22. A message made of code units other than the ampersand and the five
    above passes through [sanitizeChatMessage] unchanged, but for the cut
    at 200 code units and the trimming of white space at both ends. *)
Theorem sanitize_plain (m : JsString) :
  (∀ u, u ∈ m → u ∉ special) →
  sanitizeChatMessage (Str m) = trim (take 200 m).
Proof.
  intros Hplain.
  assert (∀ c : ascii, N_of_ascii c ∈ special → N_of_ascii c ∉ m) as Hno.
  { intros c Hc Hin. by apply (Hplain _ Hin). }
  rewrite sanitize_without_script_pass. cbv zeta.
  assert (replace_all tag_re [] m = m) as ->.
  { unfold replace_all. rewrite tag_pass_plain; [done|].
    apply (Hno "<"%char). apply (bool_decide_unpack _). by vm_compute. }
  rewrite !replace_all_lit.
  rewrite (substitute_none "&"%char)
    by (apply Hno; apply (bool_decide_unpack _); by vm_compute).
  rewrite (substitute_none "<"%char)
    by (apply Hno; apply (bool_decide_unpack _); by vm_compute).
  rewrite (substitute_none ">"%char)
    by (apply Hno; apply (bool_decide_unpack _); by vm_compute).
  rewrite (substitute_none (ascii_of_nat 34))
    by (apply Hno; apply (bool_decide_unpack _); by vm_compute).
  rewrite (substitute_none "'"%char)
    by (apply Hno; apply (bool_decide_unpack _); by vm_compute).
  rewrite (substitute_none "/"%char)
    by (apply Hno; apply (bool_decide_unpack _); by vm_compute).
  case_bool_decide; [done|]. by rewrite take_ge by lia.
Qed.

Lemma sanitize_plain_witness :
  let m := js "  good game!  " in
  (∀ u, u ∈ m → u ∉ special) ∧
  sanitizeChatMessage (Str m) = trim (take 200 m).
Proof.
  assert (∀ u, u ∈ js "  good game!  " → u ∉ special) as Hplain.
  { intros u Hu. vm_compute in Hu.
    repeat (apply elem_of_cons in Hu as [->|Hu]); try (by apply elem_of_nil in Hu);
      apply (bool_decide_unpack _); by vm_compute. }
  split; [exact Hplain|]. exact (sanitize_plain _ Hplain).
Defined.

End EscapingFacts.

Module RoomRunsFacts.

Import RoomController RoomControllerFacts RoomRuns.

Lemma leaveRoom_db (socket : Socket) (rid : string) (s : State) :
  db (leaveRoom socket rid s).2 =
    match activeRooms s !! rid with
    | None => db s
    | Some room =>
        let room' := with_players (delete (playerId_of socket) (players room)) room in
        if bool_decide (currentPlayers room' = 0%nat)
        then (if bool_decide (rid ∈ chat_room_ids s) then db s else delete rid (db s))
        else <[room_id room' := row_of room']> (db s)
    end.
Proof.
  unfold leaveRoom. destruct (activeRooms s !! rid) as [room|]; [|done].
  cbv zeta. unfold deleteRoomFromDatabase. simpl. by repeat case_bool_decide.
Qed.

Lemma stored_ext (s s' : State) :
  activeRooms s' = activeRooms s → db s' = db s → stored s → stored s'.
Proof.
  intros Ha Hd [H1 H2]. split.
  - intros rid room. rewrite Ha, Hd. apply H1.
  - intros rid row. rewrite Hd. apply H2.
Qed.

Lemma stored_emit (t : Target) (m : Message) (s : State) : stored s → stored (emit t m s).
Proof. by apply stored_ext. Qed.

(** Writing a room that is held under its id, and its row. *)
Lemma stored_insert (s s' : State) (rid : string) (room : Room) :
  stored s →
  activeRooms s' = <[rid := room]> (activeRooms s) →
  db s' = <[rid := row_of room]> (db s) →
  room_id room = rid → currentPlayers room = size (players room) → stored s'.
Proof.
  intros [Hrooms Hrows] Ha Hd Hid Hc. split.
  - intros r rm. rewrite Ha, Hd, lookup_insert. case_decide as Hr.
    + intros [= <-]. subst r. by rewrite lookup_insert_eq.
    + intros Hrm. rewrite lookup_insert_ne by done. by apply Hrooms.
  - intros r row. rewrite Hd, lookup_insert. case_decide as Hr; [|by apply Hrows].
    intros [= <-]. simpl. congruence.
Qed.

Lemma leaveRoom_stored (socket : Socket) (rid : string) (s : State) :
  stored s → stored (leaveRoom socket rid s).2.
Proof.
  intros Hs. pose proof Hs as [Hrooms Hrows].
  destruct (activeRooms s !! rid) as [room|] eqn:Hr.
  2: { unfold leaveRoom. by rewrite Hr. }
  destruct (Hrooms rid room Hr) as (Hid & Hc & Hrow).
  pose proof (leaveRoom_db socket rid s) as Hd.
  pose proof (leaveRoom_activeRooms socket rid s) as Ha.
  rewrite Hr in Hd, Ha. cbv zeta in Hd, Ha.
  destruct (bool_decide (currentPlayers (with_players _ room) = 0%nat)) eqn:Hz.
  - split.
    + intros r rm. rewrite Ha, Hd, lookup_delete.
      destruct (decide (rid = r)) as [Hrr|Hrr]; [done|].
      intros Hrm. destruct (Hrooms r rm Hrm) as (? & ? & Hrow').
      split_and!; [done | done |]. intros Hne.
      case_bool_decide; [by apply Hrow' | rewrite lookup_delete_ne by done; by apply Hrow'].
    + intros r row. rewrite Hd. case_bool_decide; [by apply Hrows|].
      rewrite lookup_delete. destruct (decide (rid = r)); [done | by apply Hrows].
  - eapply (stored_insert s _ rid); [done | | | |].
    + exact Ha.
    + rewrite Hd. simpl. by rewrite Hid.
    + exact Hid.
    + done.
Qed.

Lemma createRoom_stored socket roomName isPrivate password maxPlayers roomId hashed now s :
  stored s →
  stored (createRoom socket roomName isPrivate password maxPlayers roomId hashed now s).2.
Proof.
  intros Hs. eapply (stored_insert s _ roomId); [done | | | |].
  - reflexivity.
  - reflexivity.
  - done.
  - simpl. by rewrite map_size_singleton.
Qed.

Lemma joinRoom_stored socket roomId playerName password passwordValid now s :
  stored s → stored (joinRoom socket roomId playerName password passwordValid now s).2.
Proof.
  intros Hs. unfold joinRoom.
  set (found := match activeRooms s !! roomId with
                | Some room => Some (room, s)
                | None => _ end).
  assert (match found with
          | Some (room, s0) => stored s0 ∧ activeRooms s0 !! roomId = Some room
          | None => True
          end) as Hfound.
  { unfold found. destruct (activeRooms s !! roomId) as [room|] eqn:Hr; [done|].
    unfold loadRoomFromDatabase. destruct (db s !! roomId) as [row|] eqn:Hrow; simpl; [|done].
    split; [|by rewrite lookup_insert_eq].
    destruct Hs as [Hrooms Hrows]. split; [|done].
    intros r rm. simpl. rewrite lookup_insert. case_decide as Hrr; [|by apply Hrooms].
    intros [= <-]. simpl. split_and!; [subst r; by apply Hrows | by rewrite map_size_empty | done]. }
  clearbody found. destruct found as [[room s0]|]; [|by apply stored_emit].
  destruct Hfound as [Hs0 Hr0].
  case_bool_decide as Hfull; [by apply stored_emit|].
  destruct (_ && negb (from_option truthy false password)); [by apply stored_emit|].
  destruct (_ && negb passwordValid); [by apply stored_emit|].
  set (moved := match playerRooms s0 !! playerId_of socket with
                | Some currentRoom => _ | None => _ end).
  assert (stored moved.2 ∧ activeRooms moved.2 !! roomId = Some room) as (Hs1 & Hr1).
  { unfold moved. destruct (playerRooms s0 !! playerId_of socket) as [cur|]; [|done].
    destruct (truthy cur && negb (bool_decide (cur = roomId))) eqn:Hcur; [|done].
    apply andb_prop in Hcur as [_ Hne]. apply negb_true_iff, bool_decide_eq_false in Hne.
    split; [by apply leaveRoom_stored|].
    rewrite leaveRoom_activeRooms. destruct (activeRooms s0 !! cur); [|done].
    cbv zeta. case_bool_decide; [by rewrite lookup_delete_ne | by rewrite lookup_insert_ne]. }
  clearbody moved. destruct moved as [socket1 s1]. simpl in Hs1, Hr1.
  destruct (proj1 Hs1 roomId room Hr1) as (Hid & _ & _).
  cbv zeta. simpl.
  match goal with
  | |- context [if ?c then checkGameStart _ _ else _] => destruct c eqn:Hstart
  end; simpl.
  - unfold checkGameStart; simpl. rewrite lookup_insert_eq; simpl. rewrite Hstart; simpl.
    eapply (stored_insert s1 _ roomId); [done | | | |].
    + simpl. by rewrite insert_insert_eq.
    + simpl. by rewrite Hid, insert_insert_eq.
    + exact Hid.
    + done.
  - eapply (stored_insert s1 _ roomId); [done | | | |].
    + reflexivity.
    + simpl. by rewrite Hid.
    + exact Hid.
    + done.
Qed.

Lemma handleDisconnect_stored socket s :
  stored s → stored (handleDisconnect socket s).2.
Proof.
  intros Hs. unfold handleDisconnect.
  destruct (playerRooms s !! playerId_of socket) as [rid|]; [|done].
  destruct (truthy rid); [by apply leaveRoom_stored | done].
Qed.

Lemma cleanupEmptyRooms_stored now s : stored s → stored (cleanupEmptyRooms now s).
Proof.
  intros [Hrooms Hrows]. split.
  - intros r rm. rewrite cleanupEmptyRooms_lookup.
    destruct (activeRooms s !! r) as [rm'|] eqn:Hr; simpl; [|done].
    case_decide as Hstale; [done|]. intros [= <-].
    destruct (Hrooms r rm' Hr) as (Hid & Hc & Hrow). split_and!; [done | done |].
    intros Hne. unfold cleanupEmptyRooms. simpl.
    apply map_lookup_filter_Some. split; [by apply Hrow|]. simpl. left.
    rewrite elem_of_dom. intros [rm'' Hrm'']. apply map_lookup_filter_Some in Hrm'' as [Hrm'' Hst].
    simpl in Hst. apply Hstale. unfold stale. by simplify_eq.
  - intros r row. unfold cleanupEmptyRooms. simpl.
    intros [Hrow _]%map_lookup_filter_Some. by apply Hrows.
Qed.

(** X23. Each handler of the controller, run from its call to its return
    with its writes and the start of the game succeeding, keeps the rooms in
    memory and the [rooms] table in step: if, before the call, every room in
    memory is held under its id, counts its players, and has, when it has a
    player, a row that shows it as it is, then so it is after the call. This
    holds of [createRoom], [joinRoom], [leaveRoom], [handleDisconnect] and
    [cleanupEmptyRooms], and of the insertion of a chat message; a row that
    a failed [DELETE] leaves behind does not break it. *)
Theorem stored_kept (s : State) :
  stored s →
  (∀ socket roomName isPrivate password maxPlayers roomId hashed now,
     stored (createRoom socket roomName isPrivate password maxPlayers roomId hashed now s).2) ∧
  (∀ socket roomId playerName password passwordValid now,
     stored (joinRoom socket roomId playerName password passwordValid now s).2) ∧
  (∀ socket roomId, stored (leaveRoom socket roomId s).2) ∧
  (∀ socket, stored (handleDisconnect socket s).2) ∧
  (∀ now, stored (cleanupEmptyRooms now s)) ∧
  (∀ roomId, stored (chat_row_inserted roomId s)).
Proof.
  intros Hs. split_and!.
  - intros. by apply createRoom_stored.
  - intros. by apply joinRoom_stored.
  - intros. by apply leaveRoom_stored.
  - intros. by apply handleDisconnect_stored.
  - intros. by apply cleanupEmptyRooms_stored.
  - intros. by apply (stored_ext s).
Qed.

Lemma stored_kept_witness :
  let s := RoomController.initial in
  stored s ∧
  (∀ socket roomName isPrivate password maxPlayers roomId hashed now,
     stored (createRoom socket roomName isPrivate password maxPlayers roomId hashed now s).2) ∧
  (∀ socket roomId playerName password passwordValid now,
     stored (joinRoom socket roomId playerName password passwordValid now s).2) ∧
  (∀ socket roomId, stored (leaveRoom socket roomId s).2) ∧
  (∀ socket, stored (handleDisconnect socket s).2) ∧
  (∀ now, stored (cleanupEmptyRooms now s)) ∧
  (∀ roomId, stored (chat_row_inserted roomId s)).
Proof.
  assert (stored RoomController.initial) as Hs.
  { split; intros rid x; simpl; by rewrite lookup_empty. }
  split; [exact Hs|]. exact (stored_kept RoomController.initial Hs).
Defined.

(** After [createRoom] the room made is in memory and in the table. *)
Example created_room_stored :
  stored Examples.run1.2 ∧
  db Examples.run1.2 !! Examples.room_a = Some (row_of Examples.room_alpha).
Proof.
  split; [|vm_compute; reflexivity].
  apply createRoom_stored. split; intros rid x; simpl; by rewrite lookup_empty.
Qed.

(** A join that passes the checks records the room for the player. *)
Lemma joinRoom_accepted socket rid playerName password passwordValid now s room :
  activeRooms s !! rid = Some room →
  (currentPlayers room < maxPlayers room)%nat → locked room = false →
  let r := joinRoom socket rid playerName password passwordValid now s in
  playerRooms r.2 !! playerId_of socket = Some rid ∧
  ∃ room', activeRooms r.2 !! rid = Some room' ∧
           is_Some (players room' !! playerId_of socket).
Proof.
  intros Hr Hfree Hopen r. subst r. unfold joinRoom. rewrite Hr.
  rewrite bool_decide_eq_false_2 by lia.
  unfold locked in Hopen. rewrite Hopen. cbn [andb].
  set (moved := match playerRooms s !! playerId_of socket with
                | Some currentRoom => _ | None => _ end).
  destruct moved as [socket1 s1]. cbv zeta. simpl.
  match goal with
  | |- context [if ?c then checkGameStart _ _ else _] => destruct c eqn:Hstart
  end; simpl.
  - unfold checkGameStart; simpl. rewrite lookup_insert_eq; simpl. rewrite Hstart; simpl.
    rewrite !lookup_insert_eq. split; [done|]. eexists. split; [done|].
    simpl. by rewrite lookup_insert_eq.
  - rewrite !lookup_insert_eq. split; [done|]. eexists. split; [done|].
    simpl. by rewrite lookup_insert_eq.
Qed.

(** X24. A room that the room list shows with a free seat is open and
    waiting, and a call of [joinRoom] lets in whoever asks for it, whatever
    password is sent or not: after the call the room is the one recorded for
    the player, who is among its players. *)
Theorem listed_room_joinable (s : State) (rid : string) (summary : RoomSummary) :
  room_list (activeRooms s) !! rid = Some summary →
  (sum_currentPlayers summary < sum_maxPlayers summary)%nat →
  sum_status summary = waiting ∧
  (∃ room, activeRooms s !! rid = Some room ∧ isPrivate room = false) ∧
  ∀ socket playerName password passwordValid now,
    let r := joinRoom socket rid playerName password passwordValid now s in
    playerRooms r.2 !! playerId_of socket = Some rid ∧
    ∃ room', activeRooms r.2 !! rid = Some room' ∧
             is_Some (players room' !! playerId_of socket).
Proof.
  intros Hlist Hfree.
  unfold room_list in Hlist. rewrite lookup_fmap in Hlist.
  destruct (filter _ (activeRooms s) !! rid) as [room|] eqn:Hf; [|done].
  apply map_lookup_filter_Some in Hf as (Hr & Hpub & Hwait). simpl in Hpub, Hwait.
  injection Hlist as <-. simpl in *.
  split_and!; [done | by exists room |].
  intros socket playerName password passwordValid now.
  apply (joinRoom_accepted _ _ _ _ _ _ _ room); [done | done |].
  unfold locked. by rewrite Hpub.
Qed.

Lemma listed_room_joinable_witness :
  let s := Examples.run1.2 in
  let summary := mkRoomSummary 1 2 waiting 0 in
  (room_list (activeRooms s) !! Examples.room_a = Some summary ∧
   (sum_currentPlayers summary < sum_maxPlayers summary)%nat) ∧
  sum_status summary = waiting ∧
  (∃ room, activeRooms s !! Examples.room_a = Some room ∧ isPrivate room = false) ∧
  ∀ socket playerName password passwordValid now,
    let r := joinRoom socket Examples.room_a playerName password passwordValid now s in
    playerRooms r.2 !! playerId_of socket = Some Examples.room_a ∧
    ∃ room', activeRooms r.2 !! Examples.room_a = Some room' ∧
             is_Some (players room' !! playerId_of socket).
Proof.
  assert (room_list (activeRooms Examples.run1.2) !! Examples.room_a
          = Some (mkRoomSummary 1 2 waiting 0)) as Hlist by (vm_compute; reflexivity).
  assert (sum_currentPlayers (mkRoomSummary 1 2 waiting 0)
          < sum_maxPlayers (mkRoomSummary 1 2 waiting 0))%nat as Hfree by (simpl; lia).
  split; [split; [exact Hlist | exact Hfree]|].
  exact (listed_room_joinable Examples.run1.2 Examples.room_a _ Hlist Hfree).
Defined.


(** X25. A [joinRoom] that is answered with a [room-error] (the
    [JOIN_ROOM_ERROR] of its [catch] apart, which takes an exception of the
    database, of [bcrypt] or of the start of the game) changes nothing but
    the messages: the socket, the index of players and the [rooms] table
    are as before, and so are the rooms in memory, apart from the room asked
    for, which is now cached as loaded from the database (without player)
    when it was not in memory. The error is the only message sent, to the
    requesting socket, and its code is one of [ROOM_NOT_FOUND], [ROOM_FULL],
    [PASSWORD_REQUIRED] and [INVALID_PASSWORD]. *)
Theorem joinRoom_refused socket rid playerName password passwordValid now s target code :
  let r := joinRoom socket rid playerName password passwordValid now s in
  last (emitted r.2) = Some (target, room_error code) →
  r.1 = socket ∧ playerRooms r.2 = playerRooms s ∧ db r.2 = db s ∧
  (∀ rid', rid' ≠ rid → activeRooms r.2 !! rid' = activeRooms s !! rid') ∧
  activeRooms r.2 !! rid =
    match activeRooms s !! rid with
    | Some room => Some room
    | None => loadRoomFromDatabase rid s
    end ∧
  emitted r.2 = (emitted s ++ [(to_socket (socket_id socket), room_error code)])%list ∧
  code ∈ ["ROOM_NOT_FOUND"; "ROOM_FULL"; "PASSWORD_REQUIRED"; "INVALID_PASSWORD"].
Proof.
  intros r. subst r. unfold joinRoom.
  set (found := match activeRooms s !! rid with
                | Some room => Some (room, s)
                | None => _ end).
  assert (match found with
          | Some (room, s0) =>
              playerRooms s0 = playerRooms s ∧ db s0 = db s ∧ emitted s0 = emitted s ∧
              (∀ rid', rid' ≠ rid → activeRooms s0 !! rid' = activeRooms s !! rid') ∧
              activeRooms s0 !! rid = Some room ∧
              match activeRooms s !! rid with
              | Some room0 => room0 = room
              | None => loadRoomFromDatabase rid s = Some room
              end
          | None => activeRooms s !! rid = None ∧ loadRoomFromDatabase rid s = None
          end) as Hfound.
  { unfold found. destruct (activeRooms s !! rid) as [room|] eqn:Hr; [done|].
    destruct (loadRoomFromDatabase rid s) as [room|] eqn:Hload; [|done].
    simpl. split_and!; try done.
    - intros rid' Hne. by rewrite lookup_insert_ne.
    - by rewrite lookup_insert_eq. }
  clearbody found.
  assert (∀ c s0, last (emitted (emit (to_socket (socket_id socket)) (room_error c) s0))
                  = Some (target, room_error code) → c = code) as Hcode.
  { intros c s0. simpl. rewrite last_snoc. by intros [= _ ->]. }
  destruct found as [[room s0]|].
  2: { destruct Hfound as [Hr Hload]. intros Hlast. apply Hcode in Hlast as <-.
       rewrite Hr, Hload. simpl. split_and!; try done. by left. }
  destruct Hfound as (Hp & Hd & He & Hother & Hr0 & Hwas).
  assert (activeRooms s0 !! rid =
            match activeRooms s !! rid with
            | Some room0 => Some room0
            | None => loadRoomFromDatabase rid s
            end) as Hrid.
  { rewrite Hr0. destruct (activeRooms s !! rid); by subst. }
  case_bool_decide as Hfull.
  { intros Hlast. apply Hcode in Hlast as <-. simpl. rewrite He.
    split_and!; try done. right. by left. }
  destruct (_ && negb (from_option truthy false password)).
  { intros Hlast. apply Hcode in Hlast as <-. simpl. rewrite He.
    split_and!; try done. do 2 right. by left. }
  destruct (_ && negb passwordValid).
  { intros Hlast. apply Hcode in Hlast as <-. simpl. rewrite He.
    split_and!; try done. do 3 right. by left. }
  (* the join is accepted: the last message is the room list *)
  destruct (match playerRooms s0 !! playerId_of socket with
            | Some currentRoom => _ | None => _ end) as [socket1 s1].
  cbv zeta. simpl. rewrite last_snoc. discriminate.
Qed.

Lemma joinRoom_refused_witness :
  let socket := Examples.connect "q" in
  let s := Examples.run1.2 in
  let r := joinRoom socket Examples.room_b "Quinn" None false 1 s in
  last (emitted r.2) = Some (to_socket "q", room_error "ROOM_NOT_FOUND") ∧
  r.1 = socket ∧ playerRooms r.2 = playerRooms s ∧ db r.2 = db s ∧
  (∀ rid', rid' ≠ Examples.room_b → activeRooms r.2 !! rid' = activeRooms s !! rid') ∧
  activeRooms r.2 !! Examples.room_b =
    match activeRooms s !! Examples.room_b with
    | Some room => Some room
    | None => loadRoomFromDatabase Examples.room_b s
    end ∧
  emitted r.2 = (emitted s ++ [(to_socket (socket_id socket), room_error "ROOM_NOT_FOUND")])%list ∧
  "ROOM_NOT_FOUND" ∈ ["ROOM_NOT_FOUND"; "ROOM_FULL"; "PASSWORD_REQUIRED"; "INVALID_PASSWORD"].
Proof.
  assert (last (emitted (joinRoom (Examples.connect "q") Examples.room_b "Quinn" None false 1
                           Examples.run1.2).2)
          = Some (to_socket "q", room_error "ROOM_NOT_FOUND")) as Hlast
    by (vm_compute; reflexivity).
  split; [exact Hlast|].
  exact (joinRoom_refused (Examples.connect "q") Examples.room_b "Quinn" None false 1
           Examples.run1.2 (to_socket "q") "ROOM_NOT_FOUND" Hlast).
Defined.

(** X26. When a second player joins a waiting room that holds one player
    and asks for no password, the game starts ([startGame] and the writes of
    the database succeeding): the room has the two players
    and the status [playing], its row is saved so, the room is recorded for
    the newcomer, and the messages are, in this order, [player-joined] to
    the room, [room-joined] to the newcomer, [game-started] to the room and
    the room list to everyone, where the room no longer appears. *)
Theorem join_starts_game socket rid playerName password passwordValid now s room :
  let p := playerId_of socket in
  activeRooms s !! rid = Some room → room_id room = rid →
  status room = waiting → currentPlayers room = 1%nat → size (players room) = 1%nat →
  players room !! p = None → (2 ≤ maxPlayers room)%nat → locked room = false →
  playerRooms s !! p = None →
  let r := joinRoom socket rid playerName password passwordValid now s in
  let room' :=
    mkRoom (room_id room) (room_name room) (isPrivate room) (RoomController.password room)
      (maxPlayers room) 2 playing (createdBy room) (createdAt room)
      (<[p := mkPlayer p (Some playerName) (socket_id socket) now false]> (players room)) in
  activeRooms r.2 = <[rid := room']> (activeRooms s) ∧
  playerRooms r.2 = <[p := rid]> (playerRooms s) ∧
  db r.2 = <[rid := row_of room']> (db s) ∧
  socket_roomId r.1 = Some rid ∧ rid ∈ channels r.1 ∧
  room_list (activeRooms r.2) !! rid = None ∧
  emitted r.2 =
    (emitted s ++
       [(to_room rid, player_joined p 2 (maxPlayers room));
        (to_socket (socket_id socket), room_joined rid 2 (maxPlayers room));
        (to_room rid, game_started rid);
        (to_all, room_list_update (room_list (<[rid := room']> (activeRooms s))))])%list.
Proof.
  intros p Hr Hid Hwait Hcur Hsize Hnew Hmax Hopen Hidx r room'.
  subst r. unfold joinRoom. rewrite Hr.
  rewrite bool_decide_eq_false_2 by lia.
  unfold locked in Hopen. rewrite Hopen. cbn [andb].
  fold p. rewrite Hidx. cbv zeta. simpl.
  assert (size (<[p := mkPlayer p (Some playerName) (socket_id socket) now false]>
                  (players room)) = 2%nat) as Hsize'.
  { rewrite map_size_insert_None by done. lia. }
  rewrite Hsize', Hwait. simpl.
  unfold checkGameStart; simpl. rewrite lookup_insert_eq; simpl.
  rewrite Hsize', Hwait. simpl.
  assert (with_status playing
            (with_players
               (<[p := mkPlayer p (Some playerName) (socket_id socket) now false]>
                  (players room)) room) = room') as Hroom'.
  { unfold with_status, with_players, room'. simpl. by rewrite Hsize'. }
  rewrite !insert_insert_eq, Hid, Hroom'.
  split_and!.
  - done.
  - done.
  - done.
  - done.
  - apply elem_of_union_l. by apply elem_of_singleton.
  - unfold room_list. rewrite lookup_fmap, map_lookup_filter, lookup_insert_eq. simpl.
    rewrite option_guard_False; [done|]. simpl. intros [_ ?]. done.
  - by rewrite <- !app_assoc.
Qed.

Lemma join_starts_game_witness :
  let socket := Examples.connect "q" in
  let s := Examples.run1.2 in
  let room := Examples.room_alpha in
  let rid := Examples.room_a in
  let p := playerId_of socket in
  (activeRooms s !! rid = Some room ∧ room_id room = rid ∧
   status room = waiting ∧ currentPlayers room = 1%nat ∧ size (players room) = 1%nat ∧
   players room !! p = None ∧ (2 ≤ maxPlayers room)%nat ∧ locked room = false ∧
   playerRooms s !! p = None) ∧
  let r := joinRoom socket rid "Quinn" None false 1 s in
  let room' :=
    mkRoom (room_id room) (room_name room) (isPrivate room) (RoomController.password room)
      (maxPlayers room) 2 playing (createdBy room) (createdAt room)
      (<[p := mkPlayer p (Some "Quinn") (socket_id socket) 1 false]> (players room)) in
  activeRooms r.2 = <[rid := room']> (activeRooms s) ∧
  playerRooms r.2 = <[p := rid]> (playerRooms s) ∧
  db r.2 = <[rid := row_of room']> (db s) ∧
  socket_roomId r.1 = Some rid ∧ rid ∈ channels r.1 ∧
  room_list (activeRooms r.2) !! rid = None ∧
  emitted r.2 =
    (emitted s ++
       [(to_room rid, player_joined p 2 (maxPlayers room));
        (to_socket (socket_id socket), room_joined rid 2 (maxPlayers room));
        (to_room rid, game_started rid);
        (to_all, room_list_update (room_list (<[rid := room']> (activeRooms s))))])%list.
Proof.
  split.
  { split_and!; first [reflexivity | simpl; lia]. }
  apply (join_starts_game (Examples.connect "q") Examples.room_a "Quinn" None false 1
           Examples.run1.2 Examples.room_alpha); first [reflexivity | simpl; lia].
Defined.

(** X27. A call of [handleDisconnect] for a client whose player is recorded
    in a room that is in memory removes the player's record and takes the
    player out of that room's players; the other rooms and the other
    players' records are as before. When the room on record is not in
    memory, or when the player is recorded in no room, the call changes
    nothing of the rooms' players, the index, the [rooms] table and the
    messages: in the first case the player's record stays (the spectators,
    which this state does not hold, apart). *)
Theorem handleDisconnect_spec socket s :
  let p := playerId_of socket in
  let r := handleDisconnect socket s in
  (playerRooms s !! p = None → r = (socket, s)) ∧
  (∀ rid, playerRooms s !! p = Some rid → rid ≠ "" →
     match activeRooms s !! rid with
     | Some _ =>
         playerRooms r.2 !! p = None ∧
         (∀ room', activeRooms r.2 !! rid = Some room' → players room' !! p = None) ∧
         (∀ rid', rid' ≠ rid → activeRooms r.2 !! rid' = activeRooms s !! rid') ∧
         (∀ q, q ≠ p → playerRooms r.2 !! q = playerRooms s !! q)
     | None => r = (socket, s) ∧ playerRooms r.2 !! p = Some rid
     end).
Proof.
  intros p r. subst r. unfold handleDisconnect. fold p.
  split; [by intros ->|].
  intros rid Hrid Hne. rewrite Hrid.
  unfold truthy. rewrite bool_decide_eq_false_2 by done. simpl.
  destruct (activeRooms s !! rid) as [room|] eqn:Hroom.
  2: { unfold leaveRoom. rewrite Hroom. done. }
  rewrite leaveRoom_playerRooms, leaveRoom_activeRooms, Hroom. fold p. cbv zeta.
  split_and!.
  - by rewrite lookup_delete_eq.
  - intros room'. case_bool_decide.
    + by rewrite lookup_delete_eq.
    + rewrite lookup_insert_eq. intros [= <-]. simpl. by rewrite lookup_delete_eq.
  - intros rid' Hne'. case_bool_decide;
      [by rewrite lookup_delete_ne | by rewrite lookup_insert_ne].
  - intros q Hq. by rewrite lookup_delete_ne.
Qed.

(** The player who joined room A disconnects. *)
Example disconnect_after_join :
  let r := handleDisconnect Examples.run2.1 Examples.run2.2 in
  playerRooms Examples.run2.2 !! "q" = Some Examples.room_a ∧
  playerRooms r.2 !! "q" = None ∧
  (size <$> (players <$> activeRooms r.2 !! Examples.room_a)) = Some 1%nat.
Proof. split_and!; vm_compute; reflexivity. Qed.

(** A room saved to the [rooms] table and loaded again has its id,
    name, privacy, password hash, capacity, status, creator and creation
    time, but no player and [currentPlayers] 0, whatever its players were;
    once its row is deleted nothing is loaded. The other rows are not
    touched. *)
Lemma rooms_table_round_trip (room : Room) (s : State) :
  let s' := saveRoomToDatabase room s in
  loadRoomFromDatabase (room_id room) s' = Some (with_players ∅ room) ∧
  players (with_players ∅ room) = ∅ ∧ currentPlayers (with_players ∅ room) = 0%nat ∧
  (room_id room ∉ chat_room_ids s →
     loadRoomFromDatabase (room_id room) (deleteRoomFromDatabase (room_id room) s') = None) ∧
  (∀ rid, rid ≠ room_id room → loadRoomFromDatabase rid s' = loadRoomFromDatabase rid s) ∧
  activeRooms s' = activeRooms s ∧ playerRooms s' = playerRooms s.
Proof.
  intros s'. subst s'. unfold loadRoomFromDatabase, saveRoomToDatabase, deleteRoomFromDatabase.
  simpl. rewrite lookup_insert_eq. simpl.
  split_and!; try done.
  - intros Hfree. rewrite bool_decide_eq_false_2 by done. simpl.
    by rewrite lookup_delete_eq.
  - intros rid Hne. by rewrite lookup_insert_ne.
Qed.

End RoomRunsFacts.

Module RoomChatFacts.

Import RoomController Validation Escaping EscapingFacts RoomChat.

Lemma last_drop_lt {A : Type} (l : list A) (n : nat) :
  (n < length l)%nat → last (drop n l) = last l.
Proof.
  intros Hn. rewrite !last_lookup, length_drop, lookup_drop. f_equal. lia.
Qed.

(** The run of [handleChatMessage] on a message that is accepted. *)
Lemma handleChatMessage_accepts socket message rid uuid now c room :
  rooms c !! rid = Some room →
  is_Some (players room !! playerId_of socket) ∨
  is_Some (spectators_of rid c !! playerId_of socket) →
  sanitizeChatMessage message ≠ [] →
  let m := mkChatMessage uuid (playerId_of socket) (playerName_of socket)
             (sanitizeChatMessage message) now rid in
  let history := (history_of rid c ++ [m])%list in
  handleChatMessage socket message rid uuid now c =
    mkChat (rooms c) (spectators c)
      (<[rid := if bool_decide (100 < length history)%nat
                then drop (length history - 100) history else history]> (chatHistory c))
      (chat_messages c ++ [m])
      (sent c ++ [(to_room rid,
                   chat_message uuid (playerId_of socket) (playerName_of socket)
                     (sanitizeChatMessage message) now)]).
Proof.
  intros Hr Hin Hmsg m history. unfold handleChatMessage. rewrite Hr.
  assert (negb (bool_decide (is_Some (players room !! playerId_of socket))) &&
          negb (bool_decide (is_Some (spectators_of rid c !! playerId_of socket))) = false)
    as ->.
  { destruct Hin as [Hin|Hin]; rewrite (bool_decide_eq_true_2 _ Hin); simpl;
      [done | by rewrite andb_false_r]. }
  by rewrite bool_decide_eq_false_2.
Qed.

(** X28. A chat message from a player or a spectator of a room in memory,
    whose sanitized text is not empty, is appended to the room's history,
    written to the [chat_messages] table and broadcast to the room, once
    each, with the sanitized text: at most 200 code units, none of them a
    less-than sign, greater-than sign, quote or slash. The history then
    holds its last 100 messages at most, the new one last and the others in
    their order; the rooms, the spectators and the histories of other rooms
    are not touched. *)
Theorem chat_message_posted socket message rid uuid now c room :
  rooms c !! rid = Some room →
  is_Some (players room !! playerId_of socket) ∨
  is_Some (spectators_of rid c !! playerId_of socket) →
  sanitizeChatMessage message ≠ [] →
  let c' := handleChatMessage socket message rid uuid now c in
  let text := sanitizeChatMessage message in
  let m := mkChatMessage uuid (playerId_of socket) (playerName_of socket) text now rid in
  (length (history_of rid c') ≤ 100)%nat ∧
  last (history_of rid c') = Some m ∧
  history_of rid c' `suffix_of` (history_of rid c ++ [m])%list ∧
  (length (history_of rid c) < 100 → history_of rid c' = history_of rid c ++ [m])%nat%list ∧
  (∀ rid', rid' ≠ rid → history_of rid' c' = history_of rid' c) ∧
  chat_messages c' = (chat_messages c ++ [m])%list ∧
  sent c' = (sent c ++ [(to_room rid,
                         chat_message uuid (playerId_of socket) (playerName_of socket)
                           text now)])%list ∧
  rooms c' = rooms c ∧ spectators c' = spectators c ∧
  (0 < length text ≤ 200)%nat ∧ (∀ u, u ∈ text → u ∉ markup).
Proof.
  intros Hr Hin Hmsg c' text m.
  pose proof (handleChatMessage_accepts socket message rid uuid now c room Hr Hin Hmsg)
    as Hrun. cbv zeta in Hrun. fold text in Hrun. fold m in Hrun. fold c' in Hrun.
  set (history := (history_of rid c ++ [m])%list) in *.
  assert (length history = S (length (history_of rid c))) as Hlen.
  { unfold history. rewrite length_app. simpl. lia. }
  assert (history_of rid c' =
          if bool_decide (100 < length history)%nat
          then drop (length history - 100) history else history) as Hhist.
  { rewrite Hrun. unfold history_of. cbn [chatHistory]. by rewrite lookup_insert_eq. }
  split_and!.
  - rewrite Hhist. case_bool_decide; [rewrite length_drop|]; lia.
  - rewrite Hhist. case_bool_decide.
    + rewrite last_drop_lt by lia. unfold history. by rewrite last_snoc.
    + unfold history. by rewrite last_snoc.
  - rewrite Hhist. case_bool_decide; [apply suffix_drop | done].
  - intros Hshort. rewrite Hhist. by rewrite bool_decide_eq_false_2 by lia.
  - intros rid' Hne. rewrite Hrun. unfold history_of. cbn [chatHistory].
    by rewrite lookup_insert_ne.
  - by rewrite Hrun.
  - by rewrite Hrun.
  - by rewrite Hrun.
  - by rewrite Hrun.
  - destruct text eqn:Ht; [done | simpl; lia].
  - apply sanitized_bounds.
  - intros u Hu. by apply (sanitized_markup_free message).
Qed.


Lemma chat_message_posted_witness :
  let room := Examples.room_alpha in
  let c := mkChat {[ Examples.room_a := room ]} ∅ ∅ [] [] in
  let socket := Examples.run1.1 in
  let message := Str (js " <b>good</b> game & thanks ") in
  (rooms c !! Examples.room_a = Some room ∧
   (is_Some (players room !! playerId_of socket) ∨
    is_Some (spectators_of Examples.room_a c !! playerId_of socket)) ∧
   sanitizeChatMessage message ≠ []) ∧
  let c' := handleChatMessage socket message Examples.room_a "m1" 5 c in
  let text := sanitizeChatMessage message in
  let m := mkChatMessage "m1" (playerId_of socket) (playerName_of socket) text 5
             Examples.room_a in
  (length (history_of Examples.room_a c') ≤ 100)%nat ∧
  last (history_of Examples.room_a c') = Some m ∧
  history_of Examples.room_a c' `suffix_of` (history_of Examples.room_a c ++ [m])%list ∧
  (length (history_of Examples.room_a c) < 100 →
     history_of Examples.room_a c' = history_of Examples.room_a c ++ [m])%nat%list ∧
  (∀ rid', rid' ≠ Examples.room_a → history_of rid' c' = history_of rid' c) ∧
  chat_messages c' = (chat_messages c ++ [m])%list ∧
  sent c' = (sent c ++ [(to_room Examples.room_a,
                         chat_message "m1" (playerId_of socket) (playerName_of socket)
                           text 5)])%list ∧
  rooms c' = rooms c ∧ spectators c' = spectators c ∧
  (0 < length text ≤ 200)%nat ∧ (∀ u, u ∈ text → u ∉ markup).
Proof.
  assert (is_Some (players Examples.room_alpha !! playerId_of Examples.run1.1) ∨
          is_Some (spectators_of Examples.room_a
                     (mkChat {[ Examples.room_a := Examples.room_alpha ]} ∅ ∅ [] [])
                   !! playerId_of Examples.run1.1)) as Hin.
  { left. vm_compute. by eexists. }
  assert (sanitizeChatMessage (Str (js " <b>good</b> game & thanks ")) ≠ []) as Hmsg
    by (vm_compute; discriminate).
  split; [split_and!; [reflexivity | exact Hin | exact Hmsg]|].
  exact (chat_message_posted Examples.run1.1 (Str (js " <b>good</b> game & thanks "))
           Examples.room_a "m1" 5
           (mkChat {[ Examples.room_a := Examples.room_alpha ]} ∅ ∅ [] [])
           Examples.room_alpha eq_refl Hin Hmsg).
Defined.

(** X29. A chat message that is answered with a [chat-error] is neither
    stored nor broadcast: the error is the only effect. This happens when
    the room is not in memory ([ROOM_NOT_FOUND]), when the sender is neither
    a player nor a spectator of the room ([NOT_IN_ROOM]), and when the
    sanitized text is empty ([INVALID_MESSAGE]), as for a message that is not
    a string; and in no other case. *)
Theorem chat_message_refused socket message rid uuid now c :
  let c' := handleChatMessage socket message rid uuid now c in
  let p := playerId_of socket in
  let refusal : option string :=
    match rooms c !! rid with
    | None => Some "ROOM_NOT_FOUND"
    | Some room =>
        if decide (players room !! p = None ∧ spectators_of rid c !! p = None)
        then Some "NOT_IN_ROOM"
        else if decide (sanitizeChatMessage message = []) then Some "INVALID_MESSAGE"
        else None
    end in
  (∀ code, refusal = Some code →
     c' = send (to_socket (socket_id socket)) (chat_error code) c) ∧
  (∀ target code, last (sent c') = Some (target, chat_error code) → refusal = Some code) ∧
  (message = NotAString → refusal ≠ None).
Proof.
  intros c' p refusal. subst c' refusal. unfold handleChatMessage. fold p.
  destruct (rooms c !! rid) as [room|].
  2: { split_and!; [by intros ? [= <-] | | done].
       intros target code. simpl. rewrite last_snoc. by intros [= _ ->]. }
  destruct (decide (players room !! p = None ∧ spectators_of rid c !! p = None))
    as [[Hp Hs]|Hin].
  { rewrite Hp, Hs. simpl.
    split_and!; [by intros ? [= <-] | | done].
    intros target code. simpl. rewrite last_snoc. by intros [= _ ->]. }
  assert (negb (bool_decide (is_Some (players room !! p))) &&
          negb (bool_decide (is_Some (spectators_of rid c !! p))) = false) as ->.
  { destruct (players room !! p) eqn:Hp; [done|].
    destruct (spectators_of rid c !! p) eqn:Hs; [done|]. by destruct Hin. }
  destruct (decide (sanitizeChatMessage message = [])) as [Hempty|Hmsg].
  { rewrite bool_decide_eq_true_2 by done.
    split_and!; [by intros ? [= <-] | | done].
    intros target code. simpl. rewrite last_snoc. by intros [= _ ->]. }
  rewrite bool_decide_eq_false_2 by done.
  split_and!; [done | | intros ->; by destruct Hmsg].
  intros target code. simpl. rewrite last_snoc. discriminate.
Qed.

(** X30. [spectateGame] on a room in memory, private or not and whatever
    its status, registers the socket among the spectators of the room under
    its socket id (once, however often it asks), enters the socket in the
    room's channel and answers [spectating-started] with the number of
    spectators; the rooms and the chat are not touched. After that, a chat
    message of that socket with a non-empty sanitized text is broadcast to
    the room, when the socket's player id is its socket id. On a room that
    is not in memory the only effect is a [room-error]. *)
Theorem spectateGame_spec socket flag rid now c :
  let r := spectateGame socket flag rid now c in
  let sid := socket_id socket in
  match rooms c !! rid with
  | None =>
      r = (socket, flag, send (to_socket sid) (spectate_error "ROOM_NOT_FOUND") c)
  | Some room =>
      spectators_of rid r.2 !! sid = Some (mkSpectator sid sid now) ∧
      (∀ q, q ≠ sid → spectators_of rid r.2 !! q = spectators_of rid c !! q) ∧
      (∀ rid', rid' ≠ rid → spectators_of rid' r.2 = spectators_of rid' c) ∧
      size (spectators_of rid r.2) =
        (if decide (is_Some (spectators_of rid c !! sid))
         then size (spectators_of rid c) else S (size (spectators_of rid c))) ∧
      r.1.2 = true ∧ rid ∈ channels r.1.1 ∧ socket_roomId r.1.1 = Some rid ∧
      rooms r.2 = rooms c ∧ chatHistory r.2 = chatHistory c ∧
      chat_messages r.2 = chat_messages c ∧
      sent r.2 =
        (sent c ++ [(to_socket sid,
                     spectating_started rid (room_name room)
                       (size (spectators_of rid r.2)))])%list ∧
      (playerId_of socket = sid →
       ∀ message uuid now', sanitizeChatMessage message ≠ [] →
         last (sent (handleChatMessage r.1.1 message rid uuid now' r.2)) =
           Some (to_room rid,
                 chat_message uuid sid (playerName_of socket)
                   (sanitizeChatMessage message) now'))
  end.
Proof.
  intros r sid. subst r. unfold spectateGame. fold sid.
  destruct (rooms c !! rid) as [room|] eqn:Hr; [|done].
  cbn [fst snd socket_id socket_roomId channels].
  set (watching := <[sid := mkSpectator sid sid now]> (spectators_of rid c)).
  set (c1 := mkChat (rooms c) (<[rid := watching]> (spectators c)) (chatHistory c)
               (chat_messages c) (sent c)).
  assert (spectators_of rid (send (to_socket sid)
                               (spectating_started rid (room_name room) (size watching)) c1)
          = watching) as Hw.
  { unfold spectators_of. simpl. by rewrite lookup_insert_eq. }
  rewrite Hw.
  split_and!; try done.
  - unfold watching. by rewrite lookup_insert_eq.
  - intros q Hq. unfold watching. by rewrite lookup_insert_ne.
  - intros rid' Hne. unfold spectators_of. simpl. by rewrite lookup_insert_ne.
  - unfold watching. case_decide as Hin.
    + destruct Hin as [sp Hsp]. by rewrite map_size_insert_Some.
    + rewrite map_size_insert_None; [done|]. by apply eq_None_not_Some.
  - apply elem_of_union_l. by apply elem_of_singleton.
  - intros Hpid message uuid now' Hmsg.
    set (socket1 := mkSocket _ _ _ _ _).
    set (c2 := send _ _ c1).
    assert (playerId_of socket1 = sid) as Hpid1 by (rewrite <- Hpid; done).
    assert (playerName_of socket1 = playerName_of socket) as Hname by done.
    assert (is_Some (players room !! playerId_of socket1) ∨
            is_Some (spectators_of rid c2 !! playerId_of socket1)) as Hin.
    { right. rewrite Hpid1. unfold c2. rewrite Hw. unfold watching.
      rewrite lookup_insert_eq. by eexists. }
    rewrite (handleChatMessage_accepts socket1 message rid uuid now' c2 room Hr Hin Hmsg).
    cbn [sent]. by rewrite last_snoc, Hpid1, Hname.
Qed.

End RoomChatFacts.

(** ** [RoomController]: handlers that overlap, and handlers run one at a
    time *)

Module RoomAsyncFacts.
Import RoomController RoomAsync RoomControllerFacts.

Lemma finish_bind {A B : Type} (t : Task A) (g : A → Task B) (m : Memory) :
  finish (t ≫= g) m = finish (g (finish t m).1) (finish t m).2.
Proof.
  revert m. induction t as [a | f k IH | k IH]; intros m; simpl.
  - done.
  - apply IH.
  - apply IH.
Qed.

Lemma view_lookup (objs : gmap ref Room) (act : gmap string ref) (rid : string) :
  view objs act !! rid = act !! rid ≫= λ room, objs !! room.
Proof. unfold view. by rewrite lookup_omap. Qed.

Lemma view_alter (objs : gmap ref Room) (act : gmap string ref) (rid : string)
    (room : ref) (f : Room → Room) :
  sound objs act → act !! rid = Some room →
  view (alter f room objs) act = alter f rid (view objs act).
Proof.
  intros [Hobj Hinj] Hr. apply map_eq. intros rid'.
  rewrite view_lookup.
  destruct (decide (rid' = rid)) as [->|Hne].
  - rewrite lookup_alter_eq, view_lookup, Hr. simpl. by rewrite lookup_alter_eq.
  - rewrite lookup_alter_ne, view_lookup by done.
    destruct (act !! rid') as [room'|] eqn:Hr'; simpl; [|done].
    rewrite lookup_alter_ne; [done|]. intros <-. apply Hne. by eapply Hinj.
Qed.

Lemma view_alter_insert (objs : gmap ref Room) (act : gmap string ref) (rid : string)
    (room : ref) (o : Room) (f : Room → Room) :
  sound objs act → act !! rid = Some room → objs !! room = Some o →
  view (alter f room objs) act = <[rid := f o]> (view objs act).
Proof.
  intros Hs Hr Ho. rewrite (view_alter _ _ rid) by done.
  apply map_eq. intros rid'. destruct (decide (rid' = rid)) as [->|Hne].
  - by rewrite lookup_alter_eq, lookup_insert_eq, view_lookup, Hr; simpl; rewrite Ho.
  - by rewrite lookup_alter_ne, lookup_insert_ne.
Qed.

Lemma view_insert (objs : gmap ref Room) (act : gmap string ref) (rid : string)
    (room : ref) (o : Room) :
  objs !! room = Some o → view objs (<[rid := room]> act) = <[rid := o]> (view objs act).
Proof. intros Ho. unfold view. by apply omap_insert_Some. Qed.

Lemma view_delete (objs : gmap ref Room) (act : gmap string ref) (rid : string) :
  view objs (delete rid act) = delete rid (view objs act).
Proof. unfold view. apply omap_delete. Qed.

Lemma view_alloc (objs : gmap ref Room) (act : gmap string ref) (o : Room) :
  sound objs act → view (<[fresh (dom objs) := o]> objs) act = view objs act.
Proof.
  intros [Hobj _]. apply map_eq. intros rid. rewrite !view_lookup.
  destruct (act !! rid) as [room|] eqn:Hr; simpl; [|done].
  rewrite lookup_insert_ne; [done|]. intros <-.
  apply Hobj, elem_of_dom in Hr. by apply is_fresh in Hr.
Qed.

Lemma sound_alter (objs : gmap ref Room) (act : gmap string ref) (room : ref)
    (f : Room → Room) :
  sound objs act → sound (alter f room objs) act.
Proof.
  intros [Hobj Hinj]. split; [|done]. intros rid r Hr.
  destruct (Hobj rid r Hr) as [o Ho].
  destruct (decide (r = room)) as [->|Hne].
  - rewrite lookup_alter_eq, Ho. by eexists.
  - rewrite lookup_alter_ne by done. by eexists.
Qed.

Lemma sound_delete (objs : gmap ref Room) (act : gmap string ref) (rid : string) :
  sound objs act → sound objs (delete rid act).
Proof.
  intros [Hobj Hinj]. split.
  - intros rid' r. rewrite lookup_delete. case_decide; [done|]. apply Hobj.
  - intros rid1 rid2 r. rewrite !lookup_delete.
    repeat case_decide; try done. apply Hinj.
Qed.

Lemma sound_alloc (objs : gmap ref Room) (act : gmap string ref) (rid : string)
    (o : Room) :
  sound objs act →
  sound (<[fresh (dom objs) := o]> objs) (<[rid := fresh (dom objs)]> act).
Proof.
  intros [Hobj Hinj].
  assert (∀ rid', act !! rid' ≠ Some (fresh (dom objs))) as Hfresh.
  { intros rid' Hr. apply Hobj, elem_of_dom in Hr. by apply is_fresh in Hr. }
  split.
  - intros rid' r. destruct (decide (rid' = rid)) as [->|Hne].
    + rewrite lookup_insert_eq. intros [= <-]. rewrite lookup_insert_eq. by eexists.
    + rewrite lookup_insert_ne by done. intros Hr.
      rewrite lookup_insert_ne; [by eapply Hobj|]. intros <-. by eapply Hfresh.
  - intros rid1 rid2 r.
    destruct (decide (rid1 = rid)) as [->|H1], (decide (rid2 = rid)) as [->|H2];
      rewrite ?lookup_insert_eq, ?lookup_insert_ne by done; try done.
    + intros [= <-] Hr. by apply Hfresh in Hr.
    + intros Hr [= <-]. by apply Hfresh in Hr.
    + apply Hinj.
Qed.

Lemma sound_fresh (objs : gmap ref Room) (act : gmap string ref) (o : Room) :
  sound objs act → sound (<[fresh (dom objs) := o]> objs) act.
Proof.
  intros [Hobj Hinj]. split; [|done]. intros rid r Hr.
  destruct (Hobj rid r Hr) as [o' Ho'].
  destruct (decide (r = fresh (dom objs))) as [->|Hne].
  - rewrite lookup_insert_eq. by eexists.
  - rewrite lookup_insert_ne by done. by eexists.
Qed.

Lemma total_alter (objs : gmap ref Room) (room : ref) (o : Room) (f : Room → Room) :
  objs !! room = Some o → alter f room objs !!! room = f o.
Proof. intros Ho. apply lookup_total_correct. by rewrite lookup_alter_eq, Ho. Qed.

Lemma leaveRoom_serial (socket : Socket) (rid : string) (m : Memory) :
  well_formed m →
  let r := finish (RoomAsync.leaveRoom socket rid) m in
  let r' := RoomController.leaveRoom socket rid (flatten m) in
  r.1 = r'.1 ∧ flatten r.2 = r'.2 ∧ well_formed r.2 ∧
  (∀ rid', rid' ≠ rid → active r.2 !! rid' = active m !! rid') ∧
  (∀ room, active m !! rid ≠ Some room → objects r.2 !! room = objects m !! room).
Proof.
  intros Hwf. unfold RoomAsync.leaveRoom, RoomController.leaveRoom. cbn.
  unfold rooms. rewrite view_lookup.
  destruct (active m !! rid) as [room|] eqn:Hr; cbn; [|done].
  destruct (proj1 Hwf rid room Hr) as [o Ho]. rewrite Ho.
  rewrite !(total_alter _ _ _ _ Ho). cbn.
  unfold RoomController.deleteRoomFromDatabase. cbn.
  destruct (bool_decide (size (delete (playerId_of socket) (players o)) = 0%nat)) eqn:Hz; cbn;
    [destruct (bool_decide (rid ∈ chatted m)) eqn:Hc; cbn|].
  all: unfold flatten, rooms, well_formed; cbn.
  all: rewrite ?view_delete, ?(view_alter_insert _ _ rid room o) by done.
  all: rewrite ?(total_alter _ _ _ _ Ho).
  all: split_and!; try done.
  all: try (by apply sound_delete, sound_alter).
  all: try (by apply sound_alter).
  all: try (by intros rid' Hne; rewrite lookup_delete_ne).
  all: try (intros room' Hne; rewrite lookup_alter_ne; [done|]; congruence).
Qed.
Lemma total_insert (objs : gmap ref Room) (room : ref) (o : Room) :
  <[room := o]> objs !!! room = o.
Proof. apply lookup_total_correct. by rewrite lookup_insert_eq. Qed.

Lemma createRoom_serial (socket : Socket) (roomName : string) (isPrivate : bool)
    (password : option string) (maxPlayers : nat) (roomId hashed : string) (now : Z)
    (m : Memory) :
  well_formed m →
  let r := finish (RoomAsync.createRoom socket roomName isPrivate password maxPlayers
                     roomId hashed now) m in
  let r' := RoomController.createRoom socket roomName isPrivate password maxPlayers
              roomId hashed now (flatten m) in
  r.1 = r'.1 ∧ flatten r.2 = r'.2 ∧ well_formed r.2.
Proof.
  intros Hwf. unfold RoomAsync.createRoom, RoomController.createRoom.
  rewrite finish_bind.
  set (hp := match password with Some pw => if truthy pw then Some hashed else None | None => None end).
  assert (∀ m, finish (match password with
              | Some pw => if truthy pw then await;; mret (Some hashed) else mret None
              | None => mret None end) m = (hp, m)) as ->.
  { intros m'. unfold hp. destruct password as [pw|]; [destruct (truthy pw)|]; done. }
  cbn. rewrite !total_insert. cbn.
  unfold flatten, rooms, well_formed; cbn.
  rewrite (view_insert _ _ _ _ _ (lookup_insert_eq _ _ _)), view_alloc by done.
  split_and!; try done. by apply sound_alloc.
Qed.

Lemma handleDisconnect_serial (socket : Socket) (m : Memory) :
  well_formed m →
  let r := finish (RoomAsync.handleDisconnect socket) m in
  let r' := RoomController.handleDisconnect socket (flatten m) in
  r.1 = r'.1 ∧ flatten r.2 = r'.2 ∧ well_formed r.2.
Proof.
  intros Hwf. unfold RoomAsync.handleDisconnect, RoomController.handleDisconnect.
  rewrite finish_bind.
  change (finish (get _) m) with (recorded m !! playerId_of socket, m).
  change (playerRooms (flatten m)) with (recorded m).
  destruct (recorded m !! playerId_of socket) as [rid|]; [|done]. cbn [fst snd].
  destruct (truthy rid); [|done].
  rewrite finish_bind. cbn.
  by destruct (leaveRoom_serial socket rid m Hwf) as (H1 & H2 & H3 & _).
Qed.
#[local] Opaque RoomAsync.leaveRoom RoomController.leaveRoom.

Lemma joinRoom_serial_found (socket : Socket) (roomId playerName : string)
    (password : option string) (passwordValid : bool) (now : Z) (m : Memory) (room : ref) :
  well_formed m → active m !! roomId = Some room →
  let r := finish (RoomAsync.joinRoom socket roomId playerName password passwordValid now) m in
  let r' := RoomController.joinRoom socket roomId playerName password passwordValid now
              (flatten m) in
  r.1 = r'.1 ∧ flatten r.2 = r'.2 ∧ well_formed r.2.
Proof.
  intros Hwf Hr. destruct (proj1 Hwf roomId room Hr) as [o Ho].
  unfold RoomAsync.joinRoom, RoomController.joinRoom.
  cbn. rewrite Hr. cbn. unfold rooms. rewrite view_lookup, Hr. cbn. rewrite Ho.
  rewrite (lookup_total_correct _ _ _ Ho).
  destruct (bool_decide (maxPlayers o ≤ currentPlayers o)%nat) eqn:Hfull; [done|].
  cbn. rewrite (lookup_total_correct _ _ _ Ho).
  set (needed := isPrivate o && from_option truthy false (RoomController.password o)).
  destruct (needed && negb (from_option truthy false password)) eqn:Hpw; [done|].
  assert (∃ socket1 m1,
    finish (match recorded m !! playerId_of socket with
            | Some currentRoom =>
                if truthy currentRoom && negb (bool_decide (currentRoom = roomId))
                then leaveRoom socket currentRoom ≫= λ socket0 : Socket, Await (mret socket0)
                else mret socket
            | None => mret socket
            end) m = (socket1, m1) ∧
    match recorded m !! playerId_of socket with
    | Some currentRoom =>
        if truthy currentRoom && negb (bool_decide (currentRoom = roomId))
        then RoomController.leaveRoom socket currentRoom (flatten m)
        else (socket, flatten m)
    | None => (socket, flatten m)
    end = (socket1, flatten m1) ∧
    well_formed m1 ∧ active m1 !! roomId = Some room ∧ objects m1 !! room = Some o)
    as (socket1 & m1 & Hleft & Hleft' & Hwf1 & Hr1 & Ho1).
  { destruct (recorded m !! playerId_of socket) as [currentRoom|]; [|by exists socket, m].
    destruct (truthy currentRoom); [|by exists socket, m]. cbn [andb].
    destruct (decide (currentRoom = roomId)) as [Hcur|Hcur];
      [rewrite (bool_decide_eq_true_2 _ Hcur) | rewrite (bool_decide_eq_false_2 _ Hcur)];
      cbn [negb]; [by exists socket, m|].
    destruct (leaveRoom_serial socket currentRoom m Hwf) as (H1 & H2 & H3 & H4 & H5).
    rewrite finish_bind. cbn.
    destruct (finish (leaveRoom socket currentRoom) m) as [socket1 m1].
    destruct (RoomController.leaveRoom socket currentRoom (flatten m)) as [socket1' s1].
    cbn in *. subst socket1' s1. exists socket1, m1. split_and!; try done.
    - by rewrite H4.
    - rewrite H5; [done|]. intros Hr'. apply Hcur. by eapply (proj2 Hwf). }
  assert (∀ m0 : Memory,
    finish ((if needed then Await (mret passwordValid) else mret true)) m0
    = (if needed then passwordValid else true, m0)) as Hvalid.
  { intros m0. by destruct needed. }
  rewrite finish_bind, Hvalid. cbn [fst snd].
  replace (negb (if needed then passwordValid else true)) with (needed && negb passwordValid)
    by (by destruct needed, passwordValid).
  destruct (needed && negb passwordValid) eqn:Hbad; [done|].
  cbn [finish]. unfold id. rewrite finish_bind, Hleft. cbn [fst snd].
  change (playerRooms (flatten m)) with (recorded m). rewrite Hleft'.
  clear Hleft Hleft'. cbn.
  set (player := mkPlayer (playerId_of socket) (Some playerName) (socket_id socket1) now false).
  set (f := λ o0 : Room, with_players (<[playerId_of socket := player]> (players o0)) o0).
  assert (alter f room (objects m1) !! room = Some (f o)) as Ho2
    by (by rewrite lookup_alter_eq, Ho1).
  rewrite !(lookup_total_correct _ _ _ Ho2). cbn. fold player.
  change (with_players (<[playerId_of socket := player]> (players o)) o) with (f o).
  destruct (bool_decide (size (<[playerId_of socket:=player]> (players o)) = 2%nat) &&
            bool_decide (status o = waiting)) eqn:Hready; cbn.
  - rewrite !(lookup_total_correct _ _ _ Ho2). cbn. rewrite Hready. cbn.
    rewrite !(total_alter _ _ _ _ Ho2). cbn.
    unfold RoomController.checkGameStart. cbn. rewrite lookup_insert_eq. cbn.
    rewrite Hready. cbn. unfold flatten, rooms, well_formed. cbn.
    rewrite (view_alter_insert _ _ roomId room (f o)), (view_alter_insert _ _ roomId room o);
      try done; [|by apply sound_alter].
    split_and!; try done. by do 2 apply sound_alter.
  - unfold flatten, rooms, well_formed. cbn.
    rewrite (view_alter_insert _ _ roomId room o) by done.
    split_and!; try done. by apply sound_alter.
Qed.

Lemma joinRoom_serial (socket : Socket) (roomId playerName : string)
    (password : option string) (passwordValid : bool) (now : Z) (m : Memory) :
  well_formed m →
  let r := finish (RoomAsync.joinRoom socket roomId playerName password passwordValid now) m in
  let r' := RoomController.joinRoom socket roomId playerName password passwordValid now
              (flatten m) in
  r.1 = r'.1 ∧ flatten r.2 = r'.2 ∧ well_formed r.2.
Proof.
  intros Hwf. destruct (active m !! roomId) as [room|] eqn:Hr;
    [by apply (joinRoom_serial_found _ _ _ _ _ _ _ room)|].
  destruct (rows m !! roomId) as [row|] eqn:Hrow.
  - set (o := mkRoom (row_id row) (row_name row) (is_private row) (row_password row)
                (max_players row) 0 (row_status row) (created_by row) (created_at row) ∅).
    set (room := fresh (dom (objects m))).
    set (m1 := set_active (<[roomId := room]>) (set_objects (<[room := o]>) m)).
    assert (well_formed m1) as Hwf1 by (by apply sound_alloc).
    assert (active m1 !! roomId = Some room) as Hr1 by apply lookup_insert_eq.
    assert (finish (RoomAsync.joinRoom socket roomId playerName password passwordValid now) m
            = finish (RoomAsync.joinRoom socket roomId playerName password passwordValid now) m1)
      as ->.
    { unfold RoomAsync.joinRoom. cbn. rewrite Hr. cbn. rewrite Hrow. cbn.
      by rewrite lookup_insert_eq. }
    assert (RoomController.joinRoom socket roomId playerName password passwordValid now
              (flatten m)
            = RoomController.joinRoom socket roomId playerName password passwordValid now
                (flatten m1)) as ->.
    { unfold RoomController.joinRoom, RoomController.loadRoomFromDatabase, flatten, rooms.
      cbn. rewrite view_lookup, Hr. cbn. rewrite Hrow. cbn.
      rewrite (view_insert _ _ _ _ o) by apply lookup_insert_eq.
      unfold room. rewrite view_alloc by done. by rewrite lookup_insert_eq. }
    by apply (joinRoom_serial_found _ _ _ _ _ _ _ room).
  - unfold RoomAsync.joinRoom, RoomController.joinRoom, RoomController.loadRoomFromDatabase,
      flatten, rooms.
    cbn. rewrite Hr, view_lookup, Hr. cbn. by rewrite Hrow.
Qed.

#[local] Transparent RoomAsync.leaveRoom RoomController.leaveRoom.

Lemma run_alone_from (t : Task Socket) (m : Memory) :
  run (replicate (awaits t m) (Resume 0)) (settle [] (advance t m))
  = mkLoop (finish t m).2 [].
Proof.
  revert m. induction t as [a | f k IH | k IH]; intros m.
  - done.
  - apply IH.
  - apply (IH m).
Qed.

(** A handler that is called when no other waits, and resumed until it
    returns, leaves the memory that [finish] computes. *)
Lemma run_alone (handler : Task Socket) (m : Memory) :
  run (Call handler :: replicate (awaits handler m) (Resume 0)) (mkLoop m [])
  = mkLoop (finish handler m).2 [].
Proof. apply run_alone_from. Qed.

Lemma flatten_chat (roomId : string) (m : Memory) :
  flatten (RoomAsync.chat_row_inserted roomId m)
  = RoomController.chat_row_inserted roomId (flatten m).
Proof. done. Qed.

(** Handlers that run one at a time do what the handlers of
    [RoomController] do. *)
Lemma serial_reachable (m : Memory) : serial m → reachable (flatten m) ∧ well_formed m.
Proof.
  induction 1 as [table refs | m handler _ [IH Hwf] Hreq | m roomId _ [IH Hwf] Hrow].
  - split.
    + unfold flatten, rooms, view. cbn. rewrite omap_empty. apply reachable_boot.
    + split; intros ?; intros; by rewrite ?lookup_empty in *.
  - destruct Hreq as [socket roomName isPrivate password maxPlayers roomId hashed now Hmax Hnew
                     | socket roomId playerName password passwordValid now
                     | socket roomId
                     | socket].
    + destruct (createRoom_serial socket roomName isPrivate password maxPlayers roomId
                  hashed now m Hwf) as (_ & -> & Hwf').
      split; [|done]. apply (reachable_step (flatten m)); [done|].
      apply step_createRoom; [done|]. cbn. unfold rooms. by rewrite view_lookup, Hnew.
    + destruct (joinRoom_serial socket roomId playerName password passwordValid now m Hwf)
        as (_ & -> & Hwf').
      split; [|done]. apply (reachable_step (flatten m)); [done|]. apply step_joinRoom.
    + destruct (leaveRoom_serial socket roomId m Hwf) as (_ & -> & Hwf' & _).
      split; [|done]. apply (reachable_step (flatten m)); [done|]. apply step_leaveRoom.
    + destruct (handleDisconnect_serial socket m Hwf) as (_ & -> & Hwf').
      split; [|done]. apply (reachable_step (flatten m)); [done|]. apply step_disconnect.
  - split; [|done]. rewrite flatten_chat.
    apply (reachable_step (flatten m)); [done|]. by apply step_chat.
Qed.

Lemma joinRoom_full_async socket rid playerName password passwordValid now m room :
  rooms m !! rid = Some room → (maxPlayers room ≤ currentPlayers room)%nat →
  finish (RoomAsync.joinRoom socket rid playerName password passwordValid now) m =
    (socket, send (to_socket (socket_id socket)) (room_error "ROOM_FULL") m).
Proof.
  unfold rooms. rewrite view_lookup. intros Hr Hfull.
  destruct (active m !! rid) as [r|] eqn:Hact; [|done]. cbn in Hr.
  unfold RoomAsync.joinRoom. cbn. rewrite Hact. cbn.
  rewrite (lookup_total_correct _ _ _ Hr). by rewrite bool_decide_eq_true_2.
Qed.

Lemma alone3_serial : serial alone3.2.
Proof.
  unfold alone3. apply serial_call; [|apply request_leaveRoom].
  unfold alone2. apply serial_call; [|apply request_joinRoom].
  unfold alone1. apply serial_call; [apply serial_boot|].
  apply request_createRoom; [lia | reflexivity].
Qed.

Lemma alone5_serial : serial alone5.2.
Proof.
  unfold alone5. apply serial_call.
  - unfold alone2. apply serial_call; [|apply request_joinRoom].
    unfold alone1. apply serial_call; [apply serial_boot|].
    apply request_createRoom; [lia | reflexivity].
  - apply request_createRoom; [lia | vm_compute; reflexivity].
Qed.

(** Two joins to the private room, the second called while the first
    waits: both wait, past the test of ROOM_FULL, and the memory is as it
    was. *)
Example joins_wait :
  let l := run [Call (join "a" 1); Call (join "b" 2)] (mkLoop private_room []) in
  length (waiting_tasks l) = 2%nat ∧ memory l = private_room.
Proof. split; vm_compute; reflexivity. Qed.

(** A join that is resumed after the last member has left holds on to the
    room object, which is no longer in [activeRooms]: the joiner is recorded
    in a room that is not in memory, and [handleDisconnect] then leaves the
    record in place. *)
Example join_after_removal :
  let m := memory join_while_leaving in
  waiting_tasks join_while_leaving = [] ∧
  recorded m !! "a" = Some Examples.room_a ∧ active m !! Examples.room_a = None ∧
  recorded (finish (RoomAsync.handleDisconnect (Examples.connect "a")) m).2 !! "a"
    = Some Examples.room_a.
Proof. split_and!; vm_compute; reflexivity. Qed.

(** C8, amended. When every handler returns before the next one is called,
    in every state reached by [createRoom], [joinRoom], [leaveRoom] and
    [handleDisconnect]: the member count of a room is the number of its
    members and never exceeds its capacity ([joinRoom] answers ROOM_FULL to
    a join to a room at capacity and changes nothing else); a room that is
    [waiting] has fewer than 2 members, the join that brings it to 2
    turning it to [playing]; the room recorded for a player in the
    player→room index has that player as a member; and a join to another
    room first removes the player from the room recorded there. *)
Theorem room_invariant (m : Memory) :
  serial m →
  (∀ rid room, rooms m !! rid = Some room →
     currentPlayers room = size (players room) ∧
     (size (players room) ≤ maxPlayers room)%nat ∧
     (status room = waiting → (size (players room) < 2)%nat)) ∧
  (∀ p rid, recorded m !! p = Some rid →
     ∃ room, rooms m !! rid = Some room ∧ p ∈ dom (players room)) ∧
  (∀ socket rid playerName password passwordValid now room,
     rooms m !! rid = Some room → (maxPlayers room ≤ currentPlayers room)%nat →
     finish (RoomAsync.joinRoom socket rid playerName password passwordValid now) m =
       (socket, send (to_socket (socket_id socket)) (room_error "ROOM_FULL") m)) ∧
  (∀ socket rid playerName password passwordValid now cur,
     let p := playerId_of socket in
     let m' := (finish (RoomAsync.joinRoom socket rid playerName password passwordValid now)
                  m).2 in
     recorded m !! p = Some cur → cur ≠ rid → cur ≠ "" →
     recorded m' !! p = Some rid →
     ∀ room', rooms m' !! cur = Some room' → players room' !! p = None).
Proof.
  intros Hserial. destruct (serial_reachable m Hserial) as [Hreach Hwf].
  destruct (reachable_inv _ Hreach) as [Hrooms Hidx].
  split_and!.
  - exact Hrooms.
  - exact Hidx.
  - intros socket rid playerName password passwordValid now room.
    apply joinRoom_full_async.
  - intros socket rid playerName password passwordValid now cur p m' Hcur Hne Hnz Hrec room'.
    destruct (joinRoom_serial socket rid playerName password passwordValid now m Hwf)
      as (_ & Hflat & _).
    fold m' in Hflat.
    change (rooms m') with (activeRooms (flatten m')).
    change (recorded m') with (playerRooms (flatten m')) in Hrec.
    rewrite Hflat in Hrec |- *.
    by apply (joinRoom_relocates socket rid playerName password passwordValid now
                (flatten m) cur).
Qed.

Lemma room_invariant_witness :
  let m := alone1.2 in
  serial m ∧
  (∀ rid room, rooms m !! rid = Some room →
     currentPlayers room = size (players room) ∧
     (size (players room) ≤ maxPlayers room)%nat ∧
     (status room = waiting → (size (players room) < 2)%nat)) ∧
  (∀ p rid, recorded m !! p = Some rid →
     ∃ room, rooms m !! rid = Some room ∧ p ∈ dom (players room)) ∧
  (∀ socket rid playerName password passwordValid now room,
     rooms m !! rid = Some room → (maxPlayers room ≤ currentPlayers room)%nat →
     finish (RoomAsync.joinRoom socket rid playerName password passwordValid now) m =
       (socket, send (to_socket (socket_id socket)) (room_error "ROOM_FULL") m)) ∧
  (∀ socket rid playerName password passwordValid now cur,
     let p := playerId_of socket in
     let m' := (finish (RoomAsync.joinRoom socket rid playerName password passwordValid now)
                  m).2 in
     recorded m !! p = Some cur → cur ≠ rid → cur ≠ "" →
     recorded m' !! p = Some rid →
     ∀ room', rooms m' !! cur = Some room' → players room' !! p = None).
Proof.
  cbv zeta.
  assert (serial alone1.2) as Hserial.
  { unfold alone1. apply serial_call; [apply serial_boot|].
    apply request_createRoom; [lia | reflexivity]. }
  split; [exact Hserial|].
  exact (room_invariant alone1.2 Hserial).
Defined.

(** C8, as stated, fails in three states. With every handler run alone:
    after the second player left a room whose game had started, the room is
    [playing] with one member; and a player who creates a second room is a
    member of both. With two joins to a private room for two that has one
    member, the second called while the first waits for [bcrypt.compare]:
    both have passed the test of ROOM_FULL, and when both have returned the
    room has three members and is [waiting]. *)
Lemma rooms_out_of_invariant :
  (serial alone3.2 ∧
   ∃ room, rooms alone3.2 !! Examples.room_a = Some room ∧
           status room = playing ∧ size (players room) = 1%nat) ∧
  (serial alone5.2 ∧
   ∃ ra rb, rooms alone5.2 !! Examples.room_a = Some ra ∧
            rooms alone5.2 !! Examples.room_b = Some rb ∧
            is_Some (players ra !! "p") ∧ is_Some (players rb !! "p")) ∧
  (waiting_tasks overlapping_joins = [] ∧
   ∃ room, rooms (memory overlapping_joins) !! Examples.room_a = Some room ∧
           maxPlayers room = 2%nat ∧ size (players room) = 3%nat ∧
           currentPlayers room = 3%nat ∧ status room = waiting).
Proof.
  split; [|split].
  - split; [exact alone3_serial|].
    eexists. split_and!; vm_compute; reflexivity.
  - split; [exact alone5_serial|].
    eexists _, _. split_and!; [vm_compute; reflexivity | vm_compute; reflexivity | |];
      eexists; vm_compute; reflexivity.
  - split; [vm_compute; reflexivity|].
    eexists. split_and!; vm_compute; reflexivity.
Qed.

End RoomAsyncFacts.
